(** * EmbedPQTree: the PQ-tree of the Booth-Lueker planar embedding

    A shallow embedding of [ogdf/planarity/booth_lueker/EmbedPQTree.cpp].
    Tree nodes live in a heap indexed by addresses; a C++ pointer is an
    [option] of an address, [None] being [nullptr].  A function of the
    embedding returns [None] when the C++ code would dereference a null or
    dangling pointer, fail an [OGDF_ASSERT], or when a loop runs out of the
    fuel it was given. *)

From stdpp Require Import gmap list.

Set Default Proof Using "Type".

(** ** Data model *)

Abbreviation addr := nat (only parsing).
Abbreviation ptr := (option nat) (only parsing).

(** Handles of the graph under test: [edge] and [node] of [Graph.h]. *)
Abbreviation edge := nat (only parsing).
Abbreviation node := nat (only parsing).

Module PQNodeType.
Inductive t := PNode | QNode | Leaf.
#[global] Instance eq_dec : EqDecision t.
Proof. solve_decision. Defined.
End PQNodeType.

Module PQNodeStatus.
Inductive t :=
  Empty | Partial | Full | Pertinent | ToBeDeleted | Indicator | Eliminated.
#[global] Instance eq_dec : EqDecision t.
Proof. solve_decision. Defined.
End PQNodeStatus.

Module SibDirection.
Inductive t := NoDir | Left | Right.
#[global] Instance eq_dec : EqDecision t.
Proof. solve_decision. Defined.
End SibDirection.

(** [IndInfo] (unnamed/part_000): the vertex an indicator stands for and the
    flag telling that its sequence has to be reversed. *)
Record IndInfo := mkIndInfo { getAssociatedNode : node; changeDir : bool }.

(** The constructor [IndInfo(node w)]. *)
Definition newIndInfo (w : node) : IndInfo := mkIndInfo w false.

(** Keys.  A [PQLeafKey] belongs to the driver; the tree only compares its
    address ([lk_addr]) and reads the edge.  A [PQNodeKey] carries the
    [IndInfo*] of an indicator.  Key objects are never written by the tree, so
    a pointer to one is modelled by the object's value. *)
Record PQLeafKey := mkLeafKey { lk_addr : nat; m_userStructKey : option edge }.
Record PQNodeKey := mkNodeKey { m_userStructInfo : option nat }.

Inductive PQBasicKey :=
  | LeafKey (k : PQLeafKey)
  | NodeKey (k : PQNodeKey).

#[global] Instance PQLeafKey_eq_dec : EqDecision PQLeafKey.
Proof. solve_decision. Defined.
#[global] Instance PQNodeKey_eq_dec : EqDecision PQNodeKey.
Proof. solve_decision. Defined.
#[global] Instance PQBasicKey_eq_dec : EqDecision PQBasicKey.
Proof. solve_decision. Defined.

Definition userStructKey (k : PQBasicKey) : option edge :=
  match k with LeafKey k => m_userStructKey k | NodeKey _ => None end.

Definition userStructInfo (k : PQBasicKey) : option nat :=
  match k with LeafKey _ => None | NodeKey k => m_userStructInfo k end.

(** A node of the tree ([PQNode] with the fields of [PQLeaf],
    [PQInternalNode] and [EmbedIndicator] that the embedding reads). *)
Record PQNode := mkNode {
  m_type : PQNodeType.t;
  m_status : PQNodeStatus.t;
  m_parent : ptr;
  m_sibLeft : ptr;
  m_sibRight : ptr;
  m_leftEndmost : ptr;
  m_rightEndmost : ptr;
  m_referenceChild : ptr;
  m_referenceParent : ptr;
  m_childCount : Z;
  m_pointerToKey : option PQLeafKey;
  m_pointerToInfo : option PQNodeKey;
  fullChildren : list addr;
  m_identificationNumber : nat
}.

Definition set_type (ty : PQNodeType.t) (n : PQNode) : PQNode :=
  mkNode ty (m_status n) (m_parent n) (m_sibLeft n) (m_sibRight n)
    (m_leftEndmost n) (m_rightEndmost n) (m_referenceChild n)
    (m_referenceParent n) (m_childCount n) (m_pointerToKey n)
    (m_pointerToInfo n) (fullChildren n) (m_identificationNumber n).

Definition set_status (s : PQNodeStatus.t) (n : PQNode) : PQNode :=
  mkNode (m_type n) s (m_parent n) (m_sibLeft n) (m_sibRight n)
    (m_leftEndmost n) (m_rightEndmost n) (m_referenceChild n)
    (m_referenceParent n) (m_childCount n) (m_pointerToKey n)
    (m_pointerToInfo n) (fullChildren n) (m_identificationNumber n).

Definition set_parent (p : ptr) (n : PQNode) : PQNode :=
  mkNode (m_type n) (m_status n) p (m_sibLeft n) (m_sibRight n)
    (m_leftEndmost n) (m_rightEndmost n) (m_referenceChild n)
    (m_referenceParent n) (m_childCount n) (m_pointerToKey n)
    (m_pointerToInfo n) (fullChildren n) (m_identificationNumber n).

Definition set_sibLeft (p : ptr) (n : PQNode) : PQNode :=
  mkNode (m_type n) (m_status n) (m_parent n) p (m_sibRight n)
    (m_leftEndmost n) (m_rightEndmost n) (m_referenceChild n)
    (m_referenceParent n) (m_childCount n) (m_pointerToKey n)
    (m_pointerToInfo n) (fullChildren n) (m_identificationNumber n).

Definition set_sibRight (p : ptr) (n : PQNode) : PQNode :=
  mkNode (m_type n) (m_status n) (m_parent n) (m_sibLeft n) p
    (m_leftEndmost n) (m_rightEndmost n) (m_referenceChild n)
    (m_referenceParent n) (m_childCount n) (m_pointerToKey n)
    (m_pointerToInfo n) (fullChildren n) (m_identificationNumber n).

Definition set_leftEndmost (p : ptr) (n : PQNode) : PQNode :=
  mkNode (m_type n) (m_status n) (m_parent n) (m_sibLeft n) (m_sibRight n)
    p (m_rightEndmost n) (m_referenceChild n)
    (m_referenceParent n) (m_childCount n) (m_pointerToKey n)
    (m_pointerToInfo n) (fullChildren n) (m_identificationNumber n).

Definition set_rightEndmost (p : ptr) (n : PQNode) : PQNode :=
  mkNode (m_type n) (m_status n) (m_parent n) (m_sibLeft n) (m_sibRight n)
    (m_leftEndmost n) p (m_referenceChild n)
    (m_referenceParent n) (m_childCount n) (m_pointerToKey n)
    (m_pointerToInfo n) (fullChildren n) (m_identificationNumber n).

Definition set_referenceChild (p : ptr) (n : PQNode) : PQNode :=
  mkNode (m_type n) (m_status n) (m_parent n) (m_sibLeft n) (m_sibRight n)
    (m_leftEndmost n) (m_rightEndmost n) p
    (m_referenceParent n) (m_childCount n) (m_pointerToKey n)
    (m_pointerToInfo n) (fullChildren n) (m_identificationNumber n).

Definition set_referenceParent (p : ptr) (n : PQNode) : PQNode :=
  mkNode (m_type n) (m_status n) (m_parent n) (m_sibLeft n) (m_sibRight n)
    (m_leftEndmost n) (m_rightEndmost n) (m_referenceChild n)
    p (m_childCount n) (m_pointerToKey n)
    (m_pointerToInfo n) (fullChildren n) (m_identificationNumber n).

Definition set_childCount (c : Z) (n : PQNode) : PQNode :=
  mkNode (m_type n) (m_status n) (m_parent n) (m_sibLeft n) (m_sibRight n)
    (m_leftEndmost n) (m_rightEndmost n) (m_referenceChild n)
    (m_referenceParent n) c (m_pointerToKey n)
    (m_pointerToInfo n) (fullChildren n) (m_identificationNumber n).

Definition set_fullChildren (l : list addr) (n : PQNode) : PQNode :=
  mkNode (m_type n) (m_status n) (m_parent n) (m_sibLeft n) (m_sibRight n)
    (m_leftEndmost n) (m_rightEndmost n) (m_referenceChild n)
    (m_referenceParent n) (m_childCount n) (m_pointerToKey n)
    (m_pointerToInfo n) l (m_identificationNumber n).

(** Modelled from the spec: [PQNode::getSib] of [PQNode.h], which is not
    among the sources.  The spec gives every child "explicit left/right
    sibling pointers". *)
Definition getSib (n : PQNode) (side : SibDirection.t) : ptr :=
  match side with
  | SibDirection.Left => m_sibLeft n
  | SibDirection.Right => m_sibRight n
  | SibDirection.NoDir => None
  end.

(** Modelled from the spec: [PQNode::getNextSib(other)] of [PQNode.h], the
    sibling that is not [other], tried left first, the way [clientNextSib] of
    [EmbedPQTree.cpp] does it. *)
Definition getNextSib (n : PQNode) (other : ptr) : ptr :=
  if decide (m_sibLeft n = other) then
    if decide (m_sibRight n = other) then None else m_sibRight n
  else m_sibLeft n.

(** Modelled from the spec: [PQNode::getEndmost] of [PQNode.h]; a Q-node has
    "two distinguished endmost children". *)
Definition getEndmost (n : PQNode) (side : SibDirection.t) : ptr :=
  match side with
  | SibDirection.Right => m_rightEndmost n
  | _ => m_leftEndmost n
  end.

(** The tree object: the node heap, the [IndInfo] objects, the back pointer
    of every leaf key to its leaf ([PQLeafKey::nodePointer], by [lk_addr]),
    and the members [m_root], [m_pertinentRoot], [m_pertinentNodes],
    [m_identificationNumber] of [PQTree]. *)
Record EmbedPQTree := mkTree {
  nodes : gmap nat PQNode;
  infos : gmap nat IndInfo;
  nodePointer : gmap nat nat;
  m_root : ptr;
  m_pertinentRoot : ptr;
  m_pertinentNodes : list addr;
  m_identNumber : nat
}.

Definition set_nodes (h : gmap nat PQNode) (T : EmbedPQTree) : EmbedPQTree :=
  mkTree h (infos T) (nodePointer T) (m_root T) (m_pertinentRoot T)
    (m_pertinentNodes T) (m_identNumber T).

Definition set_infos (i : gmap nat IndInfo) (T : EmbedPQTree) : EmbedPQTree :=
  mkTree (nodes T) i (nodePointer T) (m_root T) (m_pertinentRoot T)
    (m_pertinentNodes T) (m_identNumber T).

Definition set_root (r : ptr) (T : EmbedPQTree) : EmbedPQTree :=
  mkTree (nodes T) (infos T) (nodePointer T) r (m_pertinentRoot T)
    (m_pertinentNodes T) (m_identNumber T).

Definition set_pertinentRoot (r : ptr) (T : EmbedPQTree) : EmbedPQTree :=
  mkTree (nodes T) (infos T) (nodePointer T) (m_root T) r (m_pertinentNodes T)
    (m_identNumber T).

Definition set_pertinentNodes (l : list addr) (T : EmbedPQTree) : EmbedPQTree :=
  mkTree (nodes T) (infos T) (nodePointer T) (m_root T) (m_pertinentRoot T) l
    (m_identNumber T).

Definition set_identNumber (n : nat) (T : EmbedPQTree) : EmbedPQTree :=
  mkTree (nodes T) (infos T) (nodePointer T) (m_root T) (m_pertinentRoot T)
    (m_pertinentNodes T) n.

Definition set_nodePointer (m : gmap nat nat) (T : EmbedPQTree) : EmbedPQTree :=
  mkTree (nodes T) (infos T) m (m_root T) (m_pertinentRoot T)
    (m_pertinentNodes T) (m_identNumber T).

(** [update a f T]: the node at [a] replaced by [f] of it (a write through a
    valid pointer). *)
Definition update (a : addr) (f : PQNode → PQNode) (T : EmbedPQTree)
  : EmbedPQTree :=
  set_nodes (alter f a (nodes T)) T.

(** Modelled from the spec: [PQTree::destroyNode] of [PQTree.h], which is not
    among the sources; it "destroys [a node] by marking [it] as ToBeDeleted"
    (the comment of [emptyAllPertinentNodes] in [EmbedPQTree.cpp]). *)
Definition destroyNode (a : addr) (T : EmbedPQTree) : EmbedPQTree :=
  update a (set_status PQNodeStatus.ToBeDeleted) T.

(** [m_pertinentNodes->pushBack(a)]. *)
Definition pushPertinent (a : addr) (T : EmbedPQTree) : EmbedPQTree :=
  set_pertinentNodes (m_pertinentNodes T ++ [a]) T.

(** [info->changeDir = true] through an [IndInfo*]. *)
Definition setChangeDir (i : nat) (T : EmbedPQTree) : option EmbedPQTree :=
  match infos T !! i with
  | Some inf =>
      Some (set_infos
              (<[i := mkIndInfo (getAssociatedNode inf) true]> (infos T)) T)
  | None => None
  end.

Definition isIndicator (n : PQNode) : bool :=
  bool_decide (m_status n = PQNodeStatus.Indicator).

(** ** Sibling traversal that ignores direction indicators *)

(** The loop shared by [clientSibLeft] and [clientSibRight]:
    [while (nodePtr && nodePtr->status() == Indicator)]. *)
Fixpoint skipIndicators (fuel : nat) (T : EmbedPQTree) (predNode : addr)
    (nodePtr : ptr) : option ptr :=
  match nodePtr with
  | None => Some None
  | Some a =>
      match nodes T !! a with
      | None => None
      | Some n =>
          if isIndicator n then
            match fuel with
            | O => None
            | S fuel' =>
                skipIndicators fuel' T a (getNextSib n (Some predNode))
            end
          else Some (Some a)
      end
  end.

(** Modelled from the spec: [PQTree::clientSibLeft] of the base class.
    [PQTree.h] is not among the sources; the base versions hand out the raw
    pointers of the node, which the overriding functions of
    [EmbedPQTree.cpp] then filter. *)
Definition PQTree_clientSibLeft (T : EmbedPQTree) (a : addr) : option ptr :=
  m_sibLeft <$> nodes T !! a.

(** Modelled from the spec: [PQTree::clientSibRight] of the base class. *)
Definition PQTree_clientSibRight (T : EmbedPQTree) (a : addr) : option ptr :=
  m_sibRight <$> nodes T !! a.

(** Modelled from the spec: [PQTree::clientLeftEndmost] of the base class. *)
Definition PQTree_clientLeftEndmost (T : EmbedPQTree) (a : addr)
  : option ptr :=
  m_leftEndmost <$> nodes T !! a.

(** Modelled from the spec: [PQTree::clientRightEndmost] of the base
    class. *)
Definition PQTree_clientRightEndmost (T : EmbedPQTree) (a : addr)
  : option ptr :=
  m_rightEndmost <$> nodes T !! a.

(** Modelled from the spec: [PQTree::clientNextSib] of the base class. *)
Definition PQTree_clientNextSib (T : EmbedPQTree) (a : addr) (other : ptr)
  : option ptr :=
  (λ n, getNextSib n other) <$> nodes T !! a.

(** [EmbedPQTree::clientSibLeft(nodePtr)]. *)
Definition clientSibLeft (fuel : nat) (T : EmbedPQTree) (nodePtr : addr)
  : option ptr :=
  match PQTree_clientSibLeft T nodePtr with
  | None => None
  | Some p => skipIndicators fuel T nodePtr p
  end.

(** [EmbedPQTree::clientSibRight(nodePtr)]. *)
Definition clientSibRight (fuel : nat) (T : EmbedPQTree) (nodePtr : addr)
  : option ptr :=
  match PQTree_clientSibRight T nodePtr with
  | None => None
  | Some p => skipIndicators fuel T nodePtr p
  end.

(** [EmbedPQTree::clientNextSib(nodePtr, other)]. *)
Definition clientNextSib (fuel : nat) (T : EmbedPQTree) (nodePtr : addr)
    (other : ptr) : option ptr :=
  match clientSibLeft fuel T nodePtr with
  | None => None
  | Some lft =>
      if decide (lft = other) then
        match clientSibRight fuel T nodePtr with
        | None => None
        | Some rgt =>
            if decide (rgt = other) then Some None else Some rgt
        end
      else Some lft
  end.

(** [EmbedPQTree::clientLeftEndmost(nodePtr)]. *)
Definition clientLeftEndmost (fuel : nat) (T : EmbedPQTree) (nodePtr : addr)
  : option ptr :=
  match PQTree_clientLeftEndmost T nodePtr with
  | None => None
  | Some None => Some None
  | Some (Some lft) =>
      match nodes T !! lft with
      | None => None
      | Some n =>
          if isIndicator n then clientNextSib fuel T lft None
          else Some (Some lft)
      end
  end.

(** [EmbedPQTree::clientRightEndmost(nodePtr)]. *)
Definition clientRightEndmost (fuel : nat) (T : EmbedPQTree) (nodePtr : addr)
  : option ptr :=
  match PQTree_clientRightEndmost T nodePtr with
  | None => None
  | Some None => Some None
  | Some (Some rgt) =>
      match nodes T !! rgt with
      | None => None
      | Some n =>
          if isIndicator n then clientNextSib fuel T rgt None
          else Some (Some rgt)
      end
  end.

(** ** The frontier scans *)

(** An entry of the scanned frontier is a [PQBasicKey*]: the key of a leaf or
    the node information of an indicator, possibly null. *)
Abbreviation keys_t := (list (option PQBasicKey)) (only parsing).

(** The inner loop of [front] over the siblings of [firstSon]
    ([while (nextSon && nextSon != firstSon)]).  The stack [S] has its top at
    the head. *)
Fixpoint front_siblings (fuel : nat) (T : EmbedPQTree) (firstSon : addr)
    (nextSon : ptr) (oldSib : addr) (S : list addr) (keys : keys_t)
  : option (EmbedPQTree * list addr * keys_t) :=
  match nextSon with
  | None => Some (T, S, keys)
  | Some a =>
      if decide (a = firstSon) then Some (T, S, keys)
      else
        match fuel with
        | O => None
        | S fuel' =>
            match nodes T !! a with
            | None => None
            | Some n =>
                let holdSib := getNextSib n (Some oldSib) in
                if isIndicator n then
                  let T1 :=
                    if decide (Some oldSib = getSib n SibDirection.Left) then
                      match m_pointerToInfo n with
                      | None => None
                      | Some k =>
                          match m_userStructInfo k with
                          | None => None
                          | Some i => setChangeDir i T
                          end
                      end
                    else Some T in
                  match T1 with
                  | None => None
                  | Some T1 =>
                      front_siblings fuel' (pushPertinent a T1) firstSon
                        holdSib a S
                        (keys ++ [NodeKey <$> m_pointerToInfo n])
                  end
                else
                  front_siblings fuel' T firstSon holdSib a (a :: S) keys
            end
        end
  end.

(** The first son of an interior node, as [front] picks it; [None] where the
    [OGDF_ASSERT(firstSon != nullptr)] fails. *)
Definition firstSonOf (n : PQNode) : ptr :=
  match m_type n with
  | PQNodeType.PNode => m_referenceChild n
  | PQNodeType.QNode => getEndmost n SibDirection.Right
  | PQNodeType.Leaf => None
  end.

(** The body of the outer loop of [front] for the node [checkNode] just
    popped from the stack, [S0] being the rest of the stack. *)
Definition front_body (fuel : nat) (T : EmbedPQTree) (checkNode : addr)
    (S0 : list addr) (keys : keys_t)
  : option (EmbedPQTree * list addr * keys_t) :=
  match nodes T !! checkNode with
  | None => None
  | Some c =>
      if decide (m_type c = PQNodeType.Leaf) then
        Some (T, S0, keys ++ [LeafKey <$> m_pointerToKey c])
      else
        match firstSonOf c with
        | None => None
        | Some firstSon =>
            match nodes T !! firstSon with
            | None => None
            | Some f =>
                let '(T1, S1, keys1) :=
                  if isIndicator f then
                    (destroyNode firstSon (pushPertinent firstSon T),
                     S0,
                     keys ++ [NodeKey <$> m_pointerToInfo f])
                  else (T, firstSon :: S0, keys) in
                match nodes T1 !! firstSon with
                | None => None
                | Some f1 =>
                    front_siblings fuel T1 firstSon (getNextSib f1 None)
                      firstSon S1 keys1
                end
            end
        end
  end.

(** The outer loop of [front] ([while (!S.empty())]); [n] bounds its
    iterations and [fuel] those of each inner loop. *)
Fixpoint front_loop (n fuel : nat) (T : EmbedPQTree) (S : list addr)
    (keys : keys_t) : option (EmbedPQTree * keys_t) :=
  match S with
  | [] => Some (T, keys)
  | checkNode :: S0 =>
      match n with
      | O => None
      | S n' =>
          match front_body fuel T checkNode S0 keys with
          | None => None
          | Some (T1, S1, keys1) => front_loop n' fuel T1 S1 keys1
          end
      end
  end.

(** [EmbedPQTree::front(nodePtr, keys)]. *)
Definition front (fuel : nat) (T : EmbedPQTree) (nodePtr : addr)
    (keys : keys_t) : option (EmbedPQTree * keys_t) :=
  front_loop fuel fuel T [nodePtr] keys.

(** The inner loop of [getFront]. *)
Fixpoint getFront_siblings (fuel : nat) (T : EmbedPQTree) (firstSon : addr)
    (nextSon : ptr) (oldSib : addr) (S : list addr) (keys : keys_t)
  : option (EmbedPQTree * list addr * keys_t) :=
  match nextSon with
  | None => Some (T, S, keys)
  | Some a =>
      if decide (a = firstSon) then Some (T, S, keys)
      else
        match fuel with
        | O => None
        | S fuel' =>
            match nodes T !! a with
            | None => None
            | Some n =>
                let holdSib := getNextSib n (Some oldSib) in
                if isIndicator n then
                  getFront_siblings fuel' T firstSon holdSib a S
                    (keys ++ [NodeKey <$> m_pointerToInfo n])
                else
                  getFront_siblings fuel' T firstSon holdSib a (a :: S) keys
            end
        end
  end.

(** The first son as [getFront] picks it: a node that is not a P-node is
    asserted to be a Q-node. *)
Definition getFront_firstSonOf (n : PQNode) : ptr :=
  match m_type n with
  | PQNodeType.PNode => m_referenceChild n
  | PQNodeType.QNode => getEndmost n SibDirection.Right
  | PQNodeType.Leaf => None
  end.

(** The body of the outer loop of [getFront]. *)

Definition getFront_body (fuel : nat) (T : EmbedPQTree) (checkNode : addr)
    (S0 : list addr) (keys : keys_t)
  : option (EmbedPQTree * list addr * keys_t) :=
  match nodes T !! checkNode with
  | None => None
  | Some c =>
      if decide (m_type c = PQNodeType.Leaf) then
        Some (T, S0, keys ++ [LeafKey <$> m_pointerToKey c])
      else
        match getFront_firstSonOf c with
        | None => None
        | Some firstSon =>
            match nodes T !! firstSon with
            | None => None
            | Some f =>
                let '(S1, keys1) :=
                  if isIndicator f then
                    (S0, keys ++ [NodeKey <$> m_pointerToInfo f])
                  else (firstSon :: S0, keys) in
                getFront_siblings fuel T firstSon (getNextSib f None)
                  firstSon S1 keys1
            end
        end
  end.

Fixpoint getFront_loop (n fuel : nat) (T : EmbedPQTree) (S : list addr)
    (keys : keys_t) : option (EmbedPQTree * keys_t) :=
  match S with
  | [] => Some (T, keys)
  | checkNode :: S0 =>
      match n with
      | O => None
      | S n' =>
          match getFront_body fuel T checkNode S0 keys with
          | None => None
          | Some (T1, S1, keys1) => getFront_loop n' fuel T1 S1 keys1
          end
      end
  end.

(** [EmbedPQTree::getFront(nodePtr, keys)]. *)
Definition getFront (fuel : nat) (T : EmbedPQTree) (nodePtr : addr)
    (keys : keys_t) : option (EmbedPQTree * keys_t) :=
  getFront_loop fuel fuel T [nodePtr] keys.

(** ** Reading the scanned frontier *)

(** The loop that closes [ReplaceRoot] ([while (!nodeFrontier.empty())]):
    an entry with an edge is a regular leaf, an entry with an [IndInfo] is a
    direction indicator. *)
Fixpoint checkFrontier (inf : gmap nat IndInfo) (nodeFrontier : keys_t)
    (frontier : list edge) (opposed nonOpposed : list node)
  : option (list edge * list node * list node) :=
  match nodeFrontier with
  | [] => Some (frontier, opposed, nonOpposed)
  | None :: _ => None
  | Some entry :: rest =>
      match userStructKey entry with
      | Some e => checkFrontier inf rest (frontier ++ [e]) opposed nonOpposed
      | None =>
          match userStructInfo entry with
          | Some i =>
              match inf !! i with
              | None => None
              | Some info =>
                  if changeDir info then
                    checkFrontier inf rest frontier
                      (opposed ++ [getAssociatedNode info]) nonOpposed
                  else
                    checkFrontier inf rest frontier opposed
                      (nonOpposed ++ [getAssociatedNode info])
              end
          | None => checkFrontier inf rest frontier opposed nonOpposed
          end
      end
  end.

(** ** Node construction and the sibling ring

    The constructors of [PQLeaf], [PQInternalNode] and [EmbedIndicator] and
    the functions [changeSiblings], [putSibling], [removeChildFromSiblings],
    [exchangeNodes], [addNodeToNewParent] and [addNewLeavesToTree] of
    [PQNode.h] and [PQTree.h] are not among the sources.  They are modelled
    by what the spec asks of the ring
    ("leftSibling/rightSibling/insertBetween/unlink"; "a node removed from the
    ring [...] must be fully unlinked from all sibling and parent pointers")
    and by how [EmbedPQTree.cpp] calls them.  A write through a pointer that
    is not in the heap has no effect. *)

(** Modelled from the spec: a node as its constructor leaves it, without
    parent, siblings or children. *)
Definition blankNode (ty : PQNodeType.t) (st : PQNodeStatus.t)
    (key : option PQLeafKey) (info : option PQNodeKey) (count : nat) : PQNode :=
  mkNode ty st None None None None None None None 0%Z key info [] count.

(** Modelled from the spec: [new] of a node, at a fresh address, with
    [m_identificationNumber++]. *)
Definition allocNode (n : nat → PQNode) (T : EmbedPQTree)
  : EmbedPQTree * addr :=
  let a := fresh (dom (nodes T)) in
  (set_identNumber (S (m_identNumber T))
     (set_nodes (<[a := n (m_identNumber T)]> (nodes T)) T), a).

(** Modelled from the spec:
    [new PQLeaf(m_identificationNumber++, status, key)]; the key learns its
    leaf. *)
Definition newLeaf (st : PQNodeStatus.t) (key : PQLeafKey) (T : EmbedPQTree)
  : EmbedPQTree * addr :=
  let '(T1, a) :=
    allocNode (blankNode PQNodeType.Leaf st (Some key) None) T in
  (set_nodePointer (<[lk_addr key := a]> (nodePointer T1)) T1, a).

(** Modelled from the spec:
    [new PQInternalNode(m_identificationNumber++, type, status)]. *)
Definition newInternalNode (ty : PQNodeType.t) (st : PQNodeStatus.t)
    (T : EmbedPQTree) : EmbedPQTree * addr :=
  allocNode (blankNode ty st None None) T.

(** Modelled from the spec: [new IndInfo(v)], [new PQNodeKey(newInfo)] and
    [new EmbedIndicator(m_identificationNumber++, nodeInfoPtr)] with the two
    back pointers set, as [ReplaceFullRoot] makes an indicator. *)
Definition newIndicator (w : node) (T : EmbedPQTree) : EmbedPQTree * addr :=
  let i := fresh (dom (infos T)) in
  let T1 := set_infos (<[i := newIndInfo w]> (infos T)) T in
  allocNode
    (blankNode PQNodeType.Leaf PQNodeStatus.Indicator None
       (Some (mkNodeKey (Some i)))) T1.

(** Modelled from the spec: [PQNode::endmostChild], a child with a null
    sibling pointer. *)
Definition endmostChild (n : PQNode) : bool :=
  bool_decide (m_sibLeft n = None ∨ m_sibRight n = None).

(** Modelled from the spec: [PQNode::changeSiblings(oldSib, newSib)], the
    sibling pointer that shows [oldSib] is set to [newSib]. *)
Definition changeSiblings (oldSib newSib : ptr) (n : PQNode) : PQNode :=
  if decide (m_sibLeft n = oldSib) then set_sibLeft newSib n
  else if decide (m_sibRight n = oldSib) then set_sibRight newSib n
  else n.

(** Modelled from the spec: [PQNode::putSibling(newSib, preference)], the
    free sibling pointer is set to [newSib], the preferred side first. *)
Definition putSibling (newSib : ptr) (preference : SibDirection.t)
    (n : PQNode) : PQNode :=
  match preference with
  | SibDirection.Right =>
      if decide (m_sibRight n = None) then set_sibRight newSib n
      else set_sibLeft newSib n
  | _ =>
      if decide (m_sibLeft n = None) then set_sibLeft newSib n
      else set_sibRight newSib n
  end.

(** Modelled from the spec: [PQNode::changeEndmost(oldEnd, newEnd)]. *)
Definition changeEndmost (oldEnd newEnd : ptr) (n : PQNode) : PQNode :=
  if decide (m_leftEndmost n = oldEnd) then set_leftEndmost newEnd n
  else if decide (m_rightEndmost n = oldEnd) then set_rightEndmost newEnd n
  else n.

(** A write through a pointer that may be null. *)
Definition update_ptr (p : ptr) (f : PQNode → PQNode) (T : EmbedPQTree)
  : EmbedPQTree :=
  match p with Some a => update a f T | None => T end.

(** Modelled from the spec: [PQTree::removeChildFromSiblings(nodePtr)].
    The node leaves the ring; its two neighbours are linked to each other,
    and the parent's reference or endmost pointer moves on to a neighbour. *)
Definition removeChildFromSiblings (a : addr) (T : EmbedPQTree)
  : EmbedPQTree :=
  match nodes T !! a with
  | None => T
  | Some n =>
      let T1 :=
        match m_referenceParent n with
        | Some p =>
            let next :=
              if decide (m_sibRight n = Some a) then None else m_sibRight n in
            update a (set_referenceParent None)
              (update_ptr next (set_referenceParent (Some p))
                 (update p (set_referenceChild next) T))
        | None =>
            if endmostChild n then
              let sibling := getNextSib n None in
              update_ptr sibling (set_parent (m_parent n))
                (update_ptr (m_parent n) (changeEndmost (Some a) sibling) T)
            else T
        end in
      let T2 :=
        if decide (m_sibRight n = Some a) then T1
        else update_ptr (m_sibRight n)
               (changeSiblings (Some a) (m_sibLeft n)) T1 in
      let T3 :=
        if decide (m_sibLeft n = Some a) then T2
        else update_ptr (m_sibLeft n)
               (changeSiblings (Some a) (m_sibRight n)) T2 in
      update a (λ n, set_sibLeft None (set_sibRight None n)) T3
  end.

(** Modelled from the spec: [PQTree::exchangeNodes(oldNode, newNode)];
    [newNode] takes the place of [oldNode] under its parent and between its
    siblings. *)
Definition exchangeNodes (old new : addr) (T : EmbedPQTree) : EmbedPQTree :=
  match nodes T !! old with
  | None => T
  | Some n =>
      let redirect (p : ptr) : ptr :=
        if decide (p = Some old) then Some new else p in
      let T1 :=
        update new
          (λ m, set_parent (m_parent n)
                  (set_referenceParent (m_referenceParent n)
                     (set_sibLeft (redirect (m_sibLeft n))
                        (set_sibRight (redirect (m_sibRight n)) m)))) T in
      let T2 :=
        match m_referenceParent n with
        | Some p => update p (set_referenceChild (Some new)) T1
        | None =>
            update_ptr (m_parent n) (changeEndmost (Some old) (Some new)) T1
        end in
      let T3 :=
        if decide (m_sibLeft n = Some old) then T2
        else update_ptr (m_sibLeft n)
               (changeSiblings (Some old) (Some new)) T2 in
      let T4 :=
        if decide (m_sibRight n = Some old) then T3
        else update_ptr (m_sibRight n)
               (changeSiblings (Some old) (Some new)) T3 in
      update old
        (λ n, set_parent None
                (set_referenceParent None
                   (set_sibLeft None (set_sibRight None n)))) T4
  end.

(** Modelled from the spec:
    [PQTree::addNodeToNewParent(parent, child, leftBrother, rightBrother)]
    for a child that enters the ring of a Q-node between two brothers, or
    next to an endmost one ([rightBrother] null, [parent] given). *)
Definition addNodeToNewParent (parent : ptr) (child : addr)
    (leftBrother : addr) (rightBrother : ptr) (T : EmbedPQTree)
  : EmbedPQTree :=
  let T1 :=
    update child
      (λ c, set_parent parent
              (set_sibLeft (Some leftBrother) (set_sibRight rightBrother c)))
      T in
  let T2 :=
    update leftBrother (changeSiblings rightBrother (Some child)) T1 in
  let T3 :=
    update_ptr rightBrother
      (changeSiblings (Some leftBrother) (Some child)) T2 in
  match rightBrother with
  | Some _ => T3
  | None =>
      update_ptr parent
        (λ p, set_childCount (m_childCount p + 1)%Z
                (changeEndmost (Some leftBrother) (Some child) p)) T3
  end.

(** Modelled from the spec: the loop of [PQTree::addNewLeavesToTree] over
    the keys after the first: every new leaf is linked to the right of the
    one before; the result carries the last leaf made. *)
Fixpoint addNewLeaves_loop (father : addr) (leafKeys : list PQLeafKey)
    (oldSon : addr) (T : EmbedPQTree) : EmbedPQTree * addr :=
  match leafKeys with
  | [] => (T, oldSon)
  | key :: rest =>
      let '(T1, aktualSon) := newLeaf PQNodeStatus.Empty key T in
      let T2 :=
        update father (λ f, set_childCount (m_childCount f + 1)%Z f)
          (update aktualSon
             (λ n, set_parent (Some father) (set_sibLeft (Some oldSon) n))
             T1) in
      let T3 := update oldSon (set_sibRight (Some aktualSon)) T2 in
      addNewLeaves_loop father rest aktualSon T3
  end.

(** Modelled from the spec: [PQTree::addNewLeavesToTree(father, leafKeys)];
    one new leaf per key becomes a child of [father]; under a P-node the
    leaves are closed to a ring entered at the first one, under a Q-node the
    first and the last leaf are the endmost children. *)
Definition addNewLeavesToTree (father : addr) (leafKeys : list PQLeafKey)
    (T : EmbedPQTree) : option (EmbedPQTree * bool) :=
  match leafKeys with
  | [] => Some (T, false)
  | key :: rest =>
      let '(T1, firstSon) := newLeaf PQNodeStatus.Empty key T in
      let T2 :=
        update father (λ f, set_childCount (m_childCount f + 1)%Z f)
          (update firstSon (set_parent (Some father)) T1) in
      let '(T3, oldSon) := addNewLeaves_loop father rest firstSon T2 in
      match nodes T3 !! father with
      | None => None
      | Some f =>
          match m_type f with
          | PQNodeType.PNode =>
              Some (update father (set_referenceChild (Some firstSon))
                      (update firstSon (set_referenceParent (Some father))
                         (update oldSon (set_sibRight (Some firstSon))
                            (update firstSon (set_sibLeft (Some oldSon))
                               T3))), true)
          | PQNodeType.QNode =>
              Some (update father
                      (λ f, set_leftEndmost (Some firstSon)
                              (set_rightEndmost (Some oldSon) f)) T3, true)
          | PQNodeType.Leaf => Some (T3, true)
          end
      end
  end.

(** ** Replacing the pertinent root *)

(** The block of [ReplaceFullRoot] that threads the new indicator into the
    ring next to the pertinent root and then turns its sibling pointers
    against the direction of the scan. *)
Definition insertIndicator (r newInd : addr) (opposite : ptr)
    (T : EmbedPQTree) : option EmbedPQTree :=
  rn ← nodes T !! r;
  let opposite' := getNextSib rn opposite in
  let T1 :=
    match opposite' with
    | None => addNodeToNewParent (m_parent rn) newInd r None T
    | Some _ => addNodeToNewParent None newInd r opposite' T
    end in
  Some (update newInd
          (λ n, putSibling opposite' SibDirection.Right
                  (putSibling (Some r) SibDirection.Left
                     (changeSiblings opposite' None
                        (changeSiblings (Some r) None n)))) T1).

(** [while (!fullChildren(m_pertinentRoot)->empty())] of [ReplaceFullRoot]:
    every full child is popped and taken out of the ring. *)
Fixpoint removeFullChildren (l : list addr) (r : addr) (T : EmbedPQTree)
  : EmbedPQTree :=
  match l with
  | [] => T
  | currentNode :: rest =>
      removeFullChildren rest r
        (removeChildFromSiblings currentNode
           (update r (set_fullChildren rest) T))
  end.

(** [EmbedPQTree::ReplaceFullRoot(leafKeys, frontier, v, addIndicator,
    opposite)]. *)
Definition ReplaceFullRoot (fuel : nat) (T : EmbedPQTree)
    (leafKeys : list PQLeafKey) (frontier : keys_t) (w : node)
    (addIndicator : bool) (opposite : ptr)
  : option (EmbedPQTree * keys_t) :=
  r ← m_pertinentRoot T;
  '(T1, frontier1) ← front fuel T r frontier;
  let '(T2, newInd) :=
    if addIndicator then
      let '(T2, a) := newIndicator w T1 in (T2, Some a)
    else (T1, None) in
  let withIndicator (T : EmbedPQTree) : option EmbedPQTree :=
    match newInd with
    | Some a => insertIndicator r a opposite T
    | None => Some T
    end in
  match leafKeys with
  | [] => Some (T2, frontier1)
  | key :: _ =>
      if decide (head leafKeys = last leafKeys) then
        T3 ← withIndicator T2;
        let '(T4, leafPtr) := newLeaf PQNodeStatus.Empty key T3 in
        let T5 := exchangeNodes r leafPtr T4 in
        let T6 :=
          if decide (m_pertinentRoot T5 = m_root T5)
          then set_root (Some leafPtr) T5 else T5 in
        Some (set_pertinentRoot None T6, frontier1)
      else
        T3 ← withIndicator T2;
        rn ← nodes T3 !! r;
        match m_type rn with
        | PQNodeType.Leaf =>
            let '(T4, nodePtr) :=
              newInternalNode PQNodeType.PNode PQNodeStatus.Empty T3 in
            let T5 := set_pertinentRoot None (exchangeNodes r nodePtr T4) in
            '(T6, _) ← addNewLeavesToTree nodePtr leafKeys T5;
            Some (T6, frontier1)
        | _ =>
            let T4 :=
              update r
                (λ n, set_childCount 0%Z (set_type PQNodeType.PNode n)) T3 in
            let T5 := removeFullChildren (fullChildren rn) r T4 in
            '(T6, _) ← addNewLeavesToTree r leafKeys T5;
            Some (T6, frontier1)
        end
  end.

(** The bounds of the run of full children, as the first loop of
    [ReplacePartialRoot] finds them. *)
Record sequence_t := mkSeq {
  predNode : ptr; beginSequence : ptr; endSequence : ptr; beginInd : ptr
}.

Definition isEmptyOrNull (T : EmbedPQTree) (p : ptr) : option bool :=
  match p with
  | None => Some true
  | Some a =>
      n ← nodes T !! a;
      Some (bool_decide (m_status n = PQNodeStatus.Empty))
  end.

Fixpoint findSequence (fuel : nat) (l : list addr) (r : addr)
    (T : EmbedPQTree) (s : sequence_t) : option (EmbedPQTree * sequence_t) :=
  match l with
  | [] => Some (T, s)
  | currentNode :: rest =>
      let T1 := update r (set_fullChildren rest) T in
      lft ← clientSibLeft fuel T1 currentNode;
      leftEmpty ← isEmptyOrNull T1 lft;
      if (leftEmpty : bool) then
        match beginSequence s with
        | None =>
            ind ← PQTree_clientSibLeft T1 currentNode;
            findSequence fuel rest r T1
              (mkSeq lft (Some currentNode) (endSequence s) ind)
        | Some _ =>
            findSequence fuel rest r T1
              (mkSeq (predNode s) (beginSequence s) (Some currentNode)
                 (beginInd s))
        end
      else
        rgt ← clientSibRight fuel T1 currentNode;
        rightEmpty ← isEmptyOrNull T1 rgt;
        if (rightEmpty : bool) then
          match beginSequence s with
          | None =>
              ind ← PQTree_clientSibRight T1 currentNode;
              findSequence fuel rest r T1
                (mkSeq rgt (Some currentNode) (endSequence s) ind)
          | Some _ =>
              findSequence fuel rest r T1
                (mkSeq (predNode s) (beginSequence s) (Some currentNode)
                   (beginInd s))
          end
        else findSequence fuel rest r T1 s
  end.

(** One round of [while (currentInd != nextNode)] for the indicator
    [currentInd]: its successor is read, its flag is set if it is entered
    from its right sibling pointer, and it is taken out of the ring and
    entered into the pertinent nodes.  The result carries the next indicator
    and the frontier entry. *)
Definition scanIndicators_body (T : EmbedPQTree) (currentNode : addr)
    (currentInd : addr) : option (EmbedPQTree * ptr * option PQBasicKey) :=
  nextInd ← PQTree_clientNextSib T currentInd (Some currentNode);
  n ← nodes T !! currentInd;
  T1 ← (if decide (Some currentNode = getSib n SibDirection.Right)
        then k ← m_pointerToInfo n;
             i ← m_userStructInfo k;
             setChangeDir i T
        else Some T);
  Some (pushPertinent currentInd (removeChildFromSiblings currentInd T1),
        nextInd, NodeKey <$> m_pointerToInfo n).

(** [while (currentInd != nextNode)]: the indicators between two full
    children are read, flagged and taken out of the ring. *)
Fixpoint scanIndicators (fuel : nat) (T : EmbedPQTree) (currentNode : addr)
    (currentInd nextNode : ptr) (frontier : keys_t)
  : option (EmbedPQTree * keys_t) :=
  if decide (currentInd = nextNode) then Some (T, frontier)
  else
    match fuel with
    | O => None
    | S fuel' =>
        ci ← currentInd;
        '(T1, nextInd, entry) ← scanIndicators_body T currentNode ci;
        scanIndicators fuel' T1 currentNode nextInd nextNode
          (frontier ++ [entry])
    end.

(** [while (currentNode != endSequence)]: the full children before the last
    are scanned and removed. *)
Fixpoint scanSequence (n fuel : nat) (T : EmbedPQTree) (s : sequence_t)
    (currentNode : addr) (frontier : keys_t)
  : option (EmbedPQTree * keys_t * addr) :=
  if decide (Some currentNode = endSequence s) then
    Some (T, frontier, currentNode)
  else
    match n with
    | O => None
    | S n' =>
        nextNode ← clientNextSib fuel T currentNode (predNode s);
        '(T1, partialFrontier) ← front fuel T currentNode [];
        let frontier1 := frontier ++ partialFrontier in
        currentInd ← PQTree_clientNextSib T1 currentNode (beginInd s);
        '(T2, frontier2) ←
          scanIndicators fuel T1 currentNode currentInd nextNode frontier1;
        let T3 := removeChildFromSiblings currentNode T2 in
        next ← nextNode;
        scanSequence n' fuel T3 s next frontier2
    end.

(** [EmbedPQTree::ReplacePartialRoot(leafKeys, frontier, v)]. *)
Definition ReplacePartialRoot (fuel : nat) (T : EmbedPQTree)
    (leafKeys : list PQLeafKey) (frontier : keys_t) (w : node)
  : option (EmbedPQTree * keys_t) :=
  r ← m_pertinentRoot T;
  rn ← nodes T !! r;
  let T1 :=
    update r
      (set_childCount
         (m_childCount rn + 1 - Z.of_nat (length (fullChildren rn)))%Z) T in
  '(T2, s) ←
    findSequence fuel (fullChildren rn) r T1 (mkSeq None None None None);
  b ← beginSequence s;
  _ ← endSequence s;
  '(T3, frontier1, currentNode) ← scanSequence fuel fuel T2 s b frontier;
  _ ← nodes T3 !! currentNode;
  let T4 :=
    set_pertinentRoot (Some currentNode)
      (update currentNode (set_parent (m_pertinentRoot T3)) T3) in
  '(T5, partialFrontier) ←
    ReplaceFullRoot fuel T4 leafKeys [] w true (beginInd s);
  Some (T5, frontier1 ++ partialFrontier).

(** [EmbedPQTree::ReplaceRoot(leafKeys, frontier, opposed, nonOpposed, v)].
    The three output lists are passed by reference and appended to. *)
Definition ReplaceRoot (fuel : nat) (T : EmbedPQTree)
    (leafKeys : list PQLeafKey) (frontier : list edge)
    (opposed nonOpposed : list node) (w : node)
  : option (EmbedPQTree * list edge * list node * list node) :=
  '(T1, nodeFrontier) ←
    (if decide (leafKeys = [] ∧ m_pertinentRoot T = m_root T) then
       r ← m_pertinentRoot T;
       '(T1, nodeFrontier) ← front fuel T r [];
       Some (set_pertinentRoot None T1, nodeFrontier)
     else
       r ← m_pertinentRoot T;
       rn ← nodes T !! r;
       if decide (m_status rn = PQNodeStatus.Full) then
         ReplaceFullRoot fuel T leafKeys [] w false None
       else ReplacePartialRoot fuel T leafKeys [] w);
  '(f, o, n) ←
    checkFrontier (infos T1) nodeFrontier frontier opposed nonOpposed;
  Some (T1, f, o, n).

(** ** Building and reducing the tree *)

(** The tree object before [Initialize]. *)
Definition emptyTree : EmbedPQTree := mkTree ∅ ∅ ∅ None None [] 0.

(** Modelled from the spec: [EmbedPQTree::Initialize(leafKeys)] hands the
    keys on to [PQTree::Initialize] of [PQTree.h], which is not among the
    sources.  The spec: it "builds a tree whose root is a single P-node with
    one leaf child per input key (if ≥2 keys) or a bare leaf (1 key); fails
    with InvalidInput if keys is empty".  The result is the [int] the C++
    function returns, 1 for success and 0 for failure. *)
Definition Initialize (T : EmbedPQTree) (leafKeys : list PQLeafKey)
  : option (EmbedPQTree * Z) :=
  match leafKeys with
  | [] => Some (T, 0%Z)
  | [key] =>
      let '(T1, newLeaf) := newLeaf PQNodeStatus.Empty key T in
      Some (set_root (Some newLeaf) T1, 1%Z)
  | _ =>
      let '(T1, newNode) :=
        newInternalNode PQNodeType.PNode PQNodeStatus.Empty T in
      '(T2, ok) ← addNewLeavesToTree newNode leafKeys
                    (set_root (Some newNode) T1);
      Some (T2, if (ok : bool) then 1%Z else 0%Z)
  end.

(** Modelled from the spec: the label pass of [PQTree::Reduction] on one key
    of the reduction set: the leaf of the key becomes Full and is entered
    into the pertinent nodes and into the full children of its parent. *)
Definition labelLeaf (T : EmbedPQTree) (key : PQLeafKey)
  : option EmbedPQTree :=
  a ← nodePointer T !! lk_addr key;
  n ← nodes T !! a;
  Some (update_ptr (m_parent n)
          (λ p, set_fullChildren (fullChildren p ++ [a]) p)
          (pushPertinent a (update a (set_status PQNodeStatus.Full) T))).

(** Modelled from the spec: the label pass over the reduction set. *)
Fixpoint labelLeaves (T : EmbedPQTree) (leafKeys : list PQLeafKey)
  : option EmbedPQTree :=
  match leafKeys with
  | [] => Some T
  | key :: rest => T1 ← labelLeaf T key; labelLeaves T1 rest
  end.

(** Modelled from the spec: the pointer shows a node whose status is
    Full. *)
Definition isFull (T : EmbedPQTree) (p : ptr) : bool :=
  match p with
  | Some a =>
      match nodes T !! a with
      | Some n => bool_decide (m_status n = PQNodeStatus.Full)
      | None => false
      end
  | None => false
  end.

(** Modelled from the spec: the number of full neighbours of the full
    children of a Q-node, the neighbours found by [clientSibLeft] and
    [clientSibRight]; the full children are one contiguous run exactly when
    every one of them but the two at the ends of the run has two full
    neighbours. *)
Fixpoint fullNeighbours (fuel : nat) (T : EmbedPQTree) (l : list addr)
  : option nat :=
  match l with
  | [] => Some 0
  | c :: rest =>
      lft ← clientSibLeft fuel T c;
      rgt ← clientSibRight fuel T c;
      k ← fullNeighbours fuel T rest;
      Some ((if isFull T lft then 1 else 0) + (if isFull T rgt then 1 else 0)
            + k)
  end.

(** Modelled from the spec: [EmbedPQTree::Reduction(leafKeys)] hands the
    keys on to [PQTree::Reduction], which with its label pass and its
    templates ([PQTree.h]) is not among the sources.  The model covers the
    trees whose pertinent leaves are the children of one node (or a single
    leaf) and that need no regrouping: the label pass marks the leaves of the
    keys Full; a node is Full when "all children full" and Partial when
    "some but not all"; a Q-node template "enforce[s] that Full and Partial
    children occupy a single contiguous run within the ordered sibling
    sequence -- checked via the clientSibLeft/Right-style traversal" and
    otherwise "fails, signalling non-planarity".  The result is the [bool] of
    the C++ function; [None] stands for a tree outside the model. *)
Definition Reduction (fuel : nat) (T : EmbedPQTree)
    (leafKeys : list PQLeafKey) : option (EmbedPQTree * bool) :=
  T1 ← labelLeaves T leafKeys;
  match leafKeys with
  | [] => Some (T1, false)
  | [key] =>
      a ← nodePointer T1 !! lk_addr key;
      Some (set_pertinentRoot (Some a) T1, true)
  | key :: _ =>
      a ← nodePointer T1 !! lk_addr key;
      n ← nodes T1 !! a;
      p ← m_parent n;
      pn ← nodes T1 !! p;
      if decide (length (fullChildren pn) ≠ length leafKeys) then None
      else if decide (Z.of_nat (length (fullChildren pn)) = m_childCount pn)
      then
        Some (set_pertinentRoot (Some p)
                (pushPertinent p
                   (update p (set_status PQNodeStatus.Full) T1)), true)
      else
        match m_type pn with
        | PQNodeType.QNode =>
            k ← fullNeighbours fuel T1 (fullChildren pn);
            if decide (k = 2 * (length (fullChildren pn) - 1)) then
              Some (set_pertinentRoot (Some p)
                      (pushPertinent p
                         (update p (set_status PQNodeStatus.Partial) T1)),
                    true)
            else Some (T1, false)
        | _ => None
        end
  end.

(** * Shapes of the heap

    The predicates in which the theorems below speak about a tree: chains
    and rings of siblings, the sons of a node in the order of the scan, the
    scan itself, and what a call may change. *)

(** ** Sibling chains and indicators *)

(** The two sibling pointers of [n] are [p] and [q], in either order. *)
Definition sibs_are (n : PQNode) (p q : ptr) : Prop :=
  (m_sibLeft n = p ∧ m_sibRight n = q) ∨ (m_sibLeft n = q ∧ m_sibRight n = p).

(** The pointer [o], or [d] where [o] is null. *)
Definition or_else (o d : ptr) : ptr :=
  match o with Some a => Some a | None => d end.

(** [chain h p l q]: the nodes [l] are linked to one another as siblings in
    the order of the list, the first one having [p] on its other side and
    the last one [q]. *)
Fixpoint chain (h : gmap nat PQNode) (p : ptr) (l : list addr) (q : ptr)
  : Prop :=
  match l with
  | [] => True
  | a :: l' =>
      ∃ n, h !! a = Some n ∧ sibs_are n p (or_else (head l') q)
           ∧ chain h (Some a) l' q
  end.

(** The node at [a] is there and is an indicator. *)
Definition is_indicator (h : gmap nat PQNode) (a : addr) : bool :=
  match h !! a with Some n => isIndicator n | None => false end.

(** The first node of [l] that is no indicator, null if there is none. *)
Definition firstNonIndicator (h : gmap nat PQNode) (l : list addr) : ptr :=
  head (filter (λ a, is_indicator h a = false) l).

(** The pointer is null or shows a node that is no indicator. *)
Definition notIndicator (T : EmbedPQTree) (p : ptr) : Prop :=
  match p with
  | None => True
  | Some a => ∃ n, nodes T !! a = Some n ∧ m_status n ≠ PQNodeStatus.Indicator
  end.

(** A Q-node (address 0) with the children 1, 2, 3, 4 from left to right, of
    which 2 and 3 are indicators; 2 has its sibling pointers the other way
    round. *)
Definition exampleIndicators : EmbedPQTree :=
  let child st l r info :=
    mkNode PQNodeType.Leaf st (Some 0) l r None None None None 0%Z None info []
      0 in
  mkTree
    (list_to_map
       [(0, mkNode PQNodeType.QNode PQNodeStatus.Empty None None None
              (Some 1) (Some 4) None None 4%Z None None [] 0);
        (1, child PQNodeStatus.Empty None (Some 2) None);
        (2, child PQNodeStatus.Indicator (Some 3) (Some 1)
              (Some (mkNodeKey (Some 0))));
        (3, child PQNodeStatus.Indicator (Some 2) (Some 4)
              (Some (mkNodeKey (Some 1))));
        (4, child PQNodeStatus.Empty (Some 3) None None)])
    (list_to_map [(0, newIndInfo 7); (1, newIndInfo 8)])
    ∅ (Some 0) None [] 5.

(** ** The sons of a node *)

(** [walk h firstSon nextSon oldSib w]: the inner loop of [front] and
    [getFront], entered with [nextSon] and [oldSib], visits the nodes [w] and
    stops at a null pointer or back at [firstSon]. *)
Inductive walk (h : gmap nat PQNode) (firstSon : addr)
  : ptr → addr → list addr → Prop :=
  | walk_null oldSib : walk h firstSon None oldSib []
  | walk_back oldSib : walk h firstSon (Some firstSon) oldSib []
  | walk_next a oldSib n w :
      a ≠ firstSon → h !! a = Some n →
      walk h firstSon (getNextSib n (Some oldSib)) a w →
      walk h firstSon (Some a) oldSib (a :: w).

(** The sons of the interior node [c], first son first. *)
Definition sons (h : gmap nat PQNode) (c : PQNode) (w : list addr) : Prop :=
  ∃ f fn w', firstSonOf c = Some f ∧ h !! f = Some fn
             ∧ walk h f (getNextSib fn None) f w' ∧ w = f :: w'.

(** What a scan of the sons [w] leaves on the stack (top first), the
    indicators it meets, and the keys it emits for them. *)
Definition pushed (h : gmap nat PQNode) (w : list addr) : list addr :=
  reverse (filter (λ a, is_indicator h a = false) w).

(** The indicators among the sons [w], in the order of the walk. *)
Definition indicatorsOf (h : gmap nat PQNode) (w : list addr) : list addr :=
  filter (λ a, is_indicator h a = true) w.

(** The frontier entry of the indicator at [a]: its node information. *)
Definition infoKey (h : gmap nat PQNode) (a : addr) : option PQBasicKey :=
  NodeKey <$> (h !! a ≫= m_pointerToInfo).

(** The frontier entries of the indicators among the sons [w]. *)
Definition indicatorKeys (h : gmap nat PQNode) (w : list addr) : keys_t :=
  infoKey h <$> indicatorsOf h w.

(** [ring h l]: the nodes [l] are closed to a ring of siblings, the last one
    being a neighbour of the first. *)
Definition ring (h : gmap nat PQNode) (l : list addr) : Prop :=
  chain h (last l) l (head l).

(** ** The scan *)

(** Every indicator carries the key of an [IndInfo] that exists. *)
Definition indicators_have_info (h : gmap nat PQNode) (I : gmap nat IndInfo)
  : Prop :=
  ∀ a n, h !! a = Some n → isIndicator n = true →
    ∃ k i, m_pointerToInfo n = Some k ∧ m_userStructInfo k = Some i
           ∧ is_Some (I !! i).

(** [agree D T h]: the heap of [T] is [h] but for the nodes [D]. *)
Definition agree (D : list addr) (T : EmbedPQTree) (h : gmap nat PQNode)
  : Prop :=
  ∀ a, a ∉ D → nodes T !! a = h !! a.

(** [scan h S popped inds keys]: started with the stack [S] (top first) on
    the heap [h], the scan of [front] and [getFront] comes to an end; it pops
    the nodes [popped], meets the indicators [inds] and emits [keys], each in
    this order. *)
Inductive scan (h : gmap nat PQNode)
  : list addr → list addr → list addr → keys_t → Prop :=
  | scan_nil : scan h [] [] [] []
  | scan_leaf a c S popped inds keys :
      h !! a = Some c → m_type c = PQNodeType.Leaf →
      scan h S popped inds keys →
      scan h (a :: S) (a :: popped) inds
        ((LeafKey <$> m_pointerToKey c) :: keys)
  | scan_node a c w S popped inds keys :
      h !! a = Some c → m_type c ≠ PQNodeType.Leaf →
      sons h c w →
      scan h (pushed h w ++ S) popped inds keys →
      scan h (a :: S) (a :: popped) (indicatorsOf h w ++ inds)
        (indicatorKeys h w ++ keys).

(** The frontier entry of the leaf at [a]: its key. *)
Definition leafKeyOf (h : gmap nat PQNode) (a : addr) : option PQBasicKey :=
  LeafKey <$> (h !! a ≫= m_pointerToKey).

(** The node at [a] is there and is of type Leaf. *)
Definition is_leaf (h : gmap nat PQNode) (a : addr) : Prop :=
  ∃ n, h !! a = Some n ∧ m_type n = PQNodeType.Leaf.

(** ** A tree with indicators and a P-node *)

(** A Q-node (address 0) with the children 1, 2, 3, 4 from left to right:
    the leaf 1, the indicator 2, the P-node 3 with the leaves 5 and 6, and
    the indicator 4, which is the right endmost child. *)
Definition exampleTree : EmbedPQTree :=
  let leaf p l r ref k :=
    mkNode PQNodeType.Leaf PQNodeStatus.Full p l r None None None ref 0%Z
      (Some (mkLeafKey k (Some (100 + k)))) None [] k in
  let ind l r i :=
    mkNode PQNodeType.Leaf PQNodeStatus.Indicator None l r None None None
      None 0%Z None (Some (mkNodeKey (Some i))) [] 0 in
  mkTree
    (list_to_map
       [(0, mkNode PQNodeType.QNode PQNodeStatus.Full None None None
              (Some 1) (Some 4) None None 4%Z None None [1; 3] 0);
        (1, leaf (Some 0) None (Some 2) None 1);
        (2, ind (Some 1) (Some 3) 0);
        (3, mkNode PQNodeType.PNode PQNodeStatus.Full None (Some 2) (Some 4)
              None None (Some 5) None 2%Z None None [5; 6] 3);
        (4, ind (Some 3) None 1);
        (5, leaf (Some 3) (Some 6) (Some 6) (Some 3) 5);
        (6, leaf (Some 3) (Some 5) (Some 5) None 6)])
    (list_to_map [(0, newIndInfo 7); (1, newIndInfo 8)])
    ∅ (Some 0) (Some 0) [1; 5; 6; 3; 0] 7.

(** ** The effect of [front] *)

(** [front_effect T T']: [T'] is [T] but for indicators marked ToBeDeleted,
    [changeDir] flags set, and indicators appended to the pertinent nodes. *)
Definition front_effect (T T' : EmbedPQTree) : Prop :=
  m_root T' = m_root T
  ∧ m_pertinentRoot T' = m_pertinentRoot T
  ∧ m_identNumber T' = m_identNumber T
  ∧ nodePointer T' = nodePointer T
  ∧ (∀ a, nodes T' !! a = nodes T !! a
          ∨ ∃ n, nodes T !! a = Some n
                 ∧ m_status n = PQNodeStatus.Indicator
                 ∧ nodes T' !! a
                   = Some (set_status PQNodeStatus.ToBeDeleted n))
  ∧ (∀ i, infos T' !! i = infos T !! i
          ∨ ∃ inf, infos T !! i = Some inf
                   ∧ infos T' !! i
                     = Some (mkIndInfo (getAssociatedNode inf) true))
  ∧ ∃ l, m_pertinentNodes T' = m_pertinentNodes T ++ l
         ∧ ∀ a, a ∈ l →
             ∃ n, nodes T !! a = Some n
                  ∧ m_status n = PQNodeStatus.Indicator.

(** [front] has scheduled the node [b] for destruction: it has marked it
    ToBeDeleted, or it has entered it into the pertinent nodes. *)
Definition scheduled (T T' : EmbedPQTree) (b : addr) : Prop :=
  (m_status <$> nodes T' !! b = Some PQNodeStatus.ToBeDeleted
   ∧ m_status <$> nodes T !! b ≠ Some PQNodeStatus.ToBeDeleted)
  ∨ b ∈ drop (length (m_pertinentNodes T)) (m_pertinentNodes T').

(** ** Frontier entries and direction flags *)

(** The edge of a frontier entry that is a regular leaf. *)
Definition entryEdge (e : option PQBasicKey) : option edge :=
  e ≫= userStructKey.

(** The [IndInfo] of a frontier entry, as the closing loop of [ReplaceRoot]
    reads it: only where the entry has no edge. *)
Definition entryInfo (e : option PQBasicKey) : option nat :=
  match e with
  | Some k =>
      match userStructKey k with
      | Some _ => None
      | None => userStructInfo k
      end
  | None => None
  end.

(** The vertices of the indicator entries whose [changeDir] flag is [b]. *)
Definition bucket (I : gmap nat IndInfo) (b : bool) (nodeFrontier : keys_t)
  : list node :=
  omap (λ e, i ← entryInfo e; info ← I !! i;
             if bool_decide (changeDir info = b)
             then Some (getAssociatedNode info) else None) nodeFrontier.

(** The vertex that one entry adds to the bucket of the flag [b]. *)
Definition bucketEntry (I : gmap nat IndInfo) (b : bool)
    (e : option PQBasicKey) : option node :=
  i ← entryInfo e; info ← I !! i;
  if bool_decide (changeDir info = b)
  then Some (getAssociatedNode info) else None.

(** The [IndInfo] that the node at [a] points to. *)
Definition infoOf (h : gmap nat PQNode) (a : addr) : option nat :=
  n ← h !! a; k ← m_pointerToInfo n; m_userStructInfo k.

(** The indicators of the walk [w] that the walk reaches from the sibling
    their left pointer shows; [oldSib] is the node before the walk. *)
Fixpoint enteredFromLeft (h : gmap nat PQNode) (oldSib : addr)
    (w : list addr) : list addr :=
  match w with
  | [] => []
  | a :: w' =>
      (if is_indicator h a
          && bool_decide ((h !! a ≫= m_sibLeft) = Some oldSib)
       then [a] else []) ++ enteredFromLeft h a w'
  end.

(** [changeDir = true] on the [IndInfo] [i], if it exists. *)
Definition flag1 (I : gmap nat IndInfo) (i : nat) : gmap nat IndInfo :=
  match I !! i with
  | Some info => <[i := mkIndInfo (getAssociatedNode info) true]> I
  | None => I
  end.

(** [flag1] on every [IndInfo] of the list. *)
Definition flagAll (ids : list nat) (I : gmap nat IndInfo)
  : gmap nat IndInfo :=
  foldl flag1 I ids.

(** ** New leaves *)

(** [lchain h p l q]: a chain whose nodes all have their left pointer
    towards the head of the list. *)
Fixpoint lchain (h : gmap nat PQNode) (p : ptr) (l : list addr) (q : ptr)
  : Prop :=
  match l with
  | [] => True
  | a :: l' =>
      ∃ n, h !! a = Some n ∧ m_sibLeft n = p
           ∧ m_sibRight n = or_else (head l') q
           ∧ lchain h (Some a) l' q
  end.

(** [a] is a leaf below [father] that carries the key [k]. *)
Definition leaf_of (h : gmap nat PQNode) (father : addr) (a : addr)
    (k : PQLeafKey) : Prop :=
  ∃ n, h !! a = Some n ∧ m_type n = PQNodeType.Leaf
       ∧ m_status n = PQNodeStatus.Empty
       ∧ m_pointerToKey n = Some k ∧ m_parent n = Some father.

(** What the loop leaves untouched. *)
Definition same_but_nodes (T T' : EmbedPQTree) : Prop :=
  infos T' = infos T ∧ m_root T' = m_root T
  ∧ m_pertinentRoot T' = m_pertinentRoot T
  ∧ m_pertinentNodes T' = m_pertinentNodes T.

(** Three keys, for the edges 101, 102 and 103. *)
Definition key123 : list PQLeafKey :=
  [mkLeafKey 1 (Some 101); mkLeafKey 2 (Some 102); mkLeafKey 3 (Some 103)].

(** ** Relinked trees *)

(** What the ring functions leave to a node: all but its pointers and its
    list of full children. *)
Definition same_kind (n n' : PQNode) : Prop :=
  m_type n' = m_type n ∧ m_status n' = m_status n
  ∧ m_childCount n' = m_childCount n
  ∧ m_pointerToKey n' = m_pointerToKey n
  ∧ m_pointerToInfo n' = m_pointerToInfo n.

(** [relinked T T']: [T'] has the nodes of [T], of the same kind, with other
    links between them. *)
Definition relinked (T T' : EmbedPQTree) : Prop :=
  (∀ a, option_Forall2 same_kind (nodes T !! a) (nodes T' !! a))
  ∧ infos T' = infos T ∧ nodePointer T' = nodePointer T
  ∧ m_root T' = m_root T ∧ m_pertinentRoot T' = m_pertinentRoot T
  ∧ m_pertinentNodes T' = m_pertinentNodes T
  ∧ m_identNumber T' = m_identNumber T.

(** A pointer to [old] becomes a pointer to [new]. *)
Definition redirect (old new : addr) (p : ptr) : ptr :=
  if decide (p = Some old) then Some new else p.

(** [n] has the place that [rn], the node at [r], had: its parent and its
    siblings. *)
Definition takes_place_of (rn : PQNode) (r a : addr) (n : PQNode) : Prop :=
  m_parent n = m_parent rn ∧ m_referenceParent n = m_referenceParent rn
  ∧ m_sibLeft n = redirect r a (m_sibLeft rn)
  ∧ m_sibRight n = redirect r a (m_sibRight rn).

(** The node has no parent and no siblings any more. *)
Definition unlinked (n : PQNode) : Prop :=
  m_parent n = None ∧ m_referenceParent n = None
  ∧ m_sibLeft n = None ∧ m_sibRight n = None.

(** The pointers of [n] to its parent and siblings are null or point into
    the heap. *)
Definition links_valid (h : gmap nat PQNode) (n : PQNode) : Prop :=
  ∀ b, Some b ∈ [m_parent n; m_referenceParent n; m_sibLeft n; m_sibRight n] →
       is_Some (h !! b).

(** What [exchangeNodes old new] does to another node, at [x], when [n] is
    the node at [old]: the parent of [old] has its reference pointer, or the
    endmost pointer that shows [old], turned to [new]; a sibling of [old] has
    the sibling pointer that shows [old] turned to [new]. *)
Definition exchanged (n : PQNode) (old new x : addr) (m : PQNode) : PQNode :=
  let m1 :=
    match m_referenceParent n with
    | Some p => if decide (p = x) then set_referenceChild (Some new) m else m
    | None =>
        if decide (m_parent n = Some x)
        then changeEndmost (Some old) (Some new) m else m
    end in
  let m2 :=
    if decide (m_sibLeft n = Some x)
    then changeSiblings (Some old) (Some new) m1 else m1 in
  if decide (m_sibRight n = Some x)
  then changeSiblings (Some old) (Some new) m2 else m2.








(** Two keys of new leaves, for the edges 107 and 108. *)
Definition key78 : list PQLeafKey :=
  [mkLeafKey 7 (Some 107); mkLeafKey 8 (Some 108)].

(** ** A Q-node with four leaves *)

(** Modelled from the spec: the tree of the scenario "constructing a tree
    with leaves [a,b,c,d] as a Q-node": a Q-node as the root, with one leaf
    per key as its children, in the order of the keys. *)
Definition buildQ (leafKeys : list PQLeafKey) : option EmbedPQTree :=
  let '(T1, r) :=
    newInternalNode PQNodeType.QNode PQNodeStatus.Empty emptyTree in
  '(T2, _) ← addNewLeavesToTree r leafKeys (set_root (Some r) T1);
  Some T2.

(** The edges of the keys of the leaves below the root, as [getFront] finds
    them. *)
Definition leafEdges (fuel : nat) (T : EmbedPQTree) : option (list edge) :=
  r ← m_root T;
  match getFront fuel T r [] with
  | Some (_, keys) => Some (omap entryEdge keys)
  | None => None
  end.

(** The keys of the four leaves, for the edges [a], [b], [c], [d]. *)
Definition keys_abcd (a b c d : edge) : list PQLeafKey :=
  [mkLeafKey 1 (Some a); mkLeafKey 2 (Some b); mkLeafKey 3 (Some c);
   mkLeafKey 4 (Some d)].

(** The key of a new leaf. *)
Definition key_e : PQLeafKey := mkLeafKey 5 (Some 105).

(** The second key of a new leaf. *)
Definition key_f : PQLeafKey := mkLeafKey 6 (Some 106).

(** ** Emptying the pertinent nodes *)

(** The loop of [emptyAllPertinentNodes]
    ([for (nodePtr : *m_pertinentNodes)]): a pertinent node whose status is
    Full is destroyed. *)
Fixpoint destroyFullNodes (l : list addr) (T : EmbedPQTree)
  : option EmbedPQTree :=
  match l with
  | [] => Some T
  | nodePtr :: rest =>
      n ← nodes T !! nodePtr;
      destroyFullNodes rest
        (if decide (m_status n = PQNodeStatus.Full)
         then destroyNode nodePtr T else T)
  end.

(** [EmbedPQTree::emptyAllPertinentNodes()].  The function of the base class
    that it ends with is not among the sources; it is the parameter
    [base]. *)
Definition emptyAllPertinentNodes (base : EmbedPQTree → option EmbedPQTree)
    (T : EmbedPQTree) : option EmbedPQTree :=
  T1 ← destroyFullNodes (m_pertinentNodes T) T;
  T2 ← match m_pertinentRoot T1 with
       | Some r =>
           _ ← nodes T1 !! r;
           Some (update r (set_status PQNodeStatus.Full) T1)
       | None => Some T1
       end;
  base T2.

(** What the loop does to the node at [a]. *)
Definition markFull (l : list addr) (a : addr) (n : PQNode) : PQNode :=
  if decide (a ∈ l ∧ m_status n = PQNodeStatus.Full)
  then set_status PQNodeStatus.ToBeDeleted n else n.

(** ** The run of full children *)

(** The node at [a] has the status [st]. *)
Definition has_status (h : gmap nat PQNode) (st : PQNodeStatus.t) (a : addr)
  : Prop :=
  ∃ n, h !! a = Some n ∧ m_status n = st.

(** The pointer is null or shows a node whose status is Empty. *)
Definition emptyOrNull (h : gmap nat PQNode) (p : ptr) : Prop :=
  match p with
  | None => True
  | Some a => has_status h PQNodeStatus.Empty a
  end.

(** [run_layout h pre x1 mid xk post]: the children of a node are, from one
    end to the other, [pre], then the run from the full child [x1] to the
    full child [xk], with full children and indicators between them, then
    [post]; the nearest child outside the run that is no indicator, on
    either side, is Empty if there is one. *)
Definition run_layout (h : gmap nat PQNode) (pre : list addr) (x1 : addr)
    (mid : list addr) (xk : addr) (post : list addr) : Prop :=
  chain h None (pre ++ x1 :: mid ++ xk :: post) None
  ∧ NoDup (pre ++ x1 :: mid ++ xk :: post)
  ∧ has_status h PQNodeStatus.Full x1
  ∧ has_status h PQNodeStatus.Full xk
  ∧ (∀ a, a ∈ mid →
       has_status h PQNodeStatus.Full a ∨ is_indicator h a = true)
  ∧ emptyOrNull h (firstNonIndicator h (reverse pre))
  ∧ emptyOrNull h (firstNonIndicator h post).

(** A partial Q-node (address 0) with the children 1 to 6 from left to
    right: the leaves 1 and 6 are Empty, the leaves 2, 4 and 5 are Full, and
    3 is an indicator that has its sibling pointers the other way round. *)
Definition examplePartial : EmbedPQTree :=
  let leaf st p l r k :=
    mkNode PQNodeType.Leaf st p l r None None None None 0%Z
      (Some (mkLeafKey k (Some (100 + k)))) None [] k in
  mkTree
    (list_to_map
       [(0, mkNode PQNodeType.QNode PQNodeStatus.Partial None None None
              (Some 1) (Some 6) None None 5%Z None None [4; 2; 5] 0);
        (1, leaf PQNodeStatus.Empty (Some 0) None (Some 2) 1);
        (2, leaf PQNodeStatus.Full None (Some 1) (Some 3) 2);
        (3, mkNode PQNodeType.Leaf PQNodeStatus.Indicator None (Some 4)
              (Some 2) None None None None 0%Z None
              (Some (mkNodeKey (Some 0))) [] 3);
        (4, leaf PQNodeStatus.Full None (Some 3) (Some 5) 4);
        (5, leaf PQNodeStatus.Full None (Some 4) (Some 6) 5);
        (6, leaf PQNodeStatus.Empty (Some 0) (Some 5) None 6)])
    (list_to_map [(0, newIndInfo 7)])
    ∅ (Some 0) (Some 0) [2; 4; 5; 0] 7.

(** ** Oriented chains *)

(** The sibling pointers of [n] are [p], towards the head of the list, and
    [q], towards its end; [fwd] tells that it is the left pointer that shows
    [p]. *)
Definition osibs (n : PQNode) (fwd : bool) (p q : ptr) : Prop :=
  if fwd then m_sibLeft n = p ∧ m_sibRight n = q
  else m_sibLeft n = q ∧ m_sibRight n = p.

(** [ochain h o p l q]: the chain [l] with the direction [o a] of the
    pointers of every node [a]. *)
Fixpoint ochain (h : gmap nat PQNode) (o : addr → bool) (p : ptr)
    (l : list addr) (q : ptr) : Prop :=
  match l with
  | [] => True
  | a :: l' =>
      ∃ n, h !! a = Some n ∧ osibs n (o a) p (or_else (head l') q)
           ∧ ochain h o (Some a) l' q
  end.

(** The two sibling pointers of the node at [a]. *)
Definition sibsOf (h : gmap nat PQNode) (a : addr) : option (ptr * ptr) :=
  (λ n, (m_sibLeft n, m_sibRight n)) <$> h !! a.

(** [changeSiblings] on a pair of sibling pointers. *)
Definition csibs (old new : ptr) (s : ptr * ptr) : ptr * ptr :=
  if decide (s.1 = old) then (new, s.2)
  else if decide (s.2 = old) then (s.1, new) else s.

(** ** Trees of the same kind *)

(** [kinds T T']: the trees have the same nodes, of the same kind. *)
Definition kinds (T T' : EmbedPQTree) : Prop :=
  ∀ a, option_Forall2 same_kind (nodes T !! a) (nodes T' !! a).

(** What the loops of [ReplacePartialRoot] leave to the tree object. *)
Definition same_members (T T' : EmbedPQTree) : Prop :=
  m_root T' = m_root T ∧ m_pertinentRoot T' = m_pertinentRoot T
  ∧ nodePointer T' = nodePointer T ∧ m_identNumber T' = m_identNumber T.

(** The indicator at [j] has an [IndInfo] that exists. *)
Definition has_info (h : gmap nat PQNode) (I : gmap nat IndInfo) (j : addr)
  : Prop :=
  ∃ i, infoOf h j = Some i ∧ is_Some (I !! i).

(** ** Entries of the run *)

(** The node at [a] is a full leaf. *)
Definition full_leaf (h : gmap nat PQNode) (a : addr) : Prop :=
  ∃ n, h !! a = Some n ∧ m_status n = PQNodeStatus.Full
       ∧ m_type n = PQNodeType.Leaf.

(** The frontier entry of the child at [a]: the node information of an
    indicator, the key of a leaf. *)
Definition entryOf (h : gmap nat PQNode) (a : addr) : option PQBasicKey :=
  if is_indicator h a then infoKey h a else leafKeyOf h a.

(** The [IndInfo]s of the indicators of [l] whose right pointer shows the
    sibling before them in [l]. *)
Definition reversedInfos (h : gmap nat PQNode) (o : addr → bool)
    (l : list addr) : list nat :=
  omap (infoOf h)
    (filter (λ a, o a = false ∧ is_indicator h a = true) l).

(** ** Trees that keep their nodes *)

(** What no function that links nodes writes: type, status, key and node
    information. *)
Definition same_tag (n n' : PQNode) : Prop :=
  m_type n' = m_type n ∧ m_status n' = m_status n
  ∧ m_pointerToKey n' = m_pointerToKey n
  ∧ m_pointerToInfo n' = m_pointerToInfo n.

(** [keeps T T']: every node of [T] is a node of [T'], with the same type,
    status, key and node information; the [IndInfo]s and the list of
    pertinent nodes are those of [T]. *)
Definition keeps (T T' : EmbedPQTree) : Prop :=
  (∀ a n, nodes T !! a = Some n →
     ∃ n', nodes T' !! a = Some n' ∧ same_tag n n')
  ∧ infos T' = infos T
  ∧ m_pertinentNodes T' = m_pertinentNodes T.

(** ** Sibling pointers as a pair *)

(** [putSibling] on a pair of sibling pointers. *)
Definition psibs (new : ptr) (preference : SibDirection.t) (s : ptr * ptr)
  : ptr * ptr :=
  match preference with
  | SibDirection.Right =>
      if decide (s.2 = None) then (s.1, new) else (new, s.2)
  | _ => if decide (s.1 = None) then (new, s.2) else (s.1, new)
  end.

(** ** The ring after a new indicator *)

(** The direction of the pointers in the ring after [ReplaceFullRoot]: the
    new indicator [a] has its left pointer towards the head of the list, the
    new node [c] lies as [r] did. *)
Definition newDirections (o : addr → bool) (r a c : addr) : addr → bool :=
  λ x, if decide (x = a) then true
       else if decide (x = c) then o r else o x.

(** * Sibling chains *)

Lemma sibs_are_sym n p q : sibs_are n p q → sibs_are n q p.
Proof. unfold sibs_are. tauto. Qed.

Lemma getNextSib_other n p q : sibs_are n p q → p ≠ q → getNextSib n p = q.
Proof.
  unfold sibs_are, getNextSib. intros [[H1 H2]|[H1 H2]] Hne;
    repeat case_decide; congruence.
Qed.

Lemma getNextSib_null n : sibs_are n None None → getNextSib n None = None.
Proof.
  unfold sibs_are, getNextSib. intros [[H1 H2]|[H1 H2]];
    repeat case_decide; congruence.
Qed.

Lemma chain_app h p l1 l2 q :
  chain h p (l1 ++ l2) q ↔
  chain h p l1 (or_else (head l2) q) ∧ chain h (or_else (last l1) p) l2 q.
Proof.
  revert p. induction l1 as [|a l1 IH]; intros p; simpl.
  - tauto.
  - setoid_rewrite IH. destruct l1 as [|b l1]; simpl.
    + split.
      * intros (n & ? & ? & _ & ?). eauto 10.
      * intros ((n & ? & ? & _) & ?). eauto 10.
    + assert (or_else (last (b :: l1)) (Some a)
              = or_else (last (a :: b :: l1)) p) as ->.
      { change (last (a :: b :: l1)) with (last (b :: l1)).
        destruct (last (b :: l1)) eqn:E; [done|].
        by apply last_None in E. }
      split.
      * intros (n & ? & ? & ? & ?). eauto 10.
      * intros ((n & ? & ? & ?) & ?). eauto 10.
Qed.

Lemma chain_rev h p l q : chain h p l q → chain h q (reverse l) p.
Proof.
  revert p. induction l as [|a l IH]; intros p; simpl; [done|].
  intros (n & Ha & Hs & Hc). rewrite reverse_cons. apply chain_app.
  rewrite last_reverse. simpl. split.
  - apply IH in Hc. destruct (head l); simpl in *; done.
  - exists n. split; [done|]. split; [|done].
    apply sibs_are_sym. destruct (head l); done.
Qed.

Lemma chain_lookup h p l1 a l2 q :
  chain h p (l1 ++ a :: l2) q →
  ∃ n, h !! a = Some n
       ∧ sibs_are n (or_else (last l1) p) (or_else (head l2) q).
Proof.
  intros [_ (n & ? & ? & _)]%chain_app. eauto.
Qed.

(** * Skipping indicators *)

Lemma skipIndicators_not_indicator fuel T pred p r :
  skipIndicators fuel T pred p = Some r → notIndicator T r.
Proof.
  revert pred p. induction fuel as [|fuel IH]; intros pred [a|]; simpl;
    try (intros [= <-]; done).
  - destruct (nodes T !! a) as [n|] eqn:Ha; [|done].
    destruct (isIndicator n) eqn:Hi; [done|]. intros [= <-]. simpl.
    exists n. split; [done|]. unfold isIndicator in Hi.
    by apply bool_decide_eq_false in Hi.
  - destruct (nodes T !! a) as [n|] eqn:Ha; [|done].
    destruct (isIndicator n) eqn:Hi; [by apply IH|]. intros [= <-]. simpl.
    exists n. split; [done|]. unfold isIndicator in Hi.
    by apply bool_decide_eq_false in Hi.
Qed.

Lemma skipIndicators_chain fuel T pred l :
  chain (nodes T) (Some pred) l None → NoDup (pred :: l) →
  length l ≤ fuel →
  skipIndicators fuel T pred (head l)
  = Some (firstNonIndicator (nodes T) l).
Proof.
  revert fuel pred. induction l as [|a l IH]; intros fuel pred; simpl.
  - intros _ _ _. by destruct fuel.
  - intros (n & Ha & Hs & Hc) Hnd Hlen.
    unfold firstNonIndicator. rewrite filter_cons.
    assert (is_indicator (nodes T) a = isIndicator n) as Hia
      by (unfold is_indicator; by rewrite Ha).
    assert (skipIndicators fuel T pred (Some a) =
      if isIndicator n then
        match fuel with
        | 0 => None
        | S f => skipIndicators f T a (getNextSib n (Some pred))
        end
      else Some (Some a)) as ->.
    { destruct fuel; simpl; by rewrite Ha. }
    destruct (isIndicator n) eqn:Hi.
    + rewrite decide_False by (rewrite Hia; done).
      destruct fuel as [|fuel]; [simpl in Hlen; lia|].
      rewrite (getNextSib_other n (Some pred) (or_else (head l) None));
        [|done|].
      * assert (or_else (head l) None = head l) as -> by by destruct (head l).
        apply IH; [done| |simpl in Hlen; lia].
        by apply NoDup_cons_1_2 in Hnd.
      * destruct l as [|b l]; simpl; [done|]. intros [= ->].
        apply NoDup_cons_1_1 in Hnd. apply Hnd. right. by left.
    + by rewrite decide_True.
Qed.

Lemma NoDup_reverse_2 (l : list nat) : NoDup l → NoDup (reverse l).
Proof. by rewrite reverse_Permutation. Qed.

Lemma or_else_None o : or_else o None = o.
Proof. by destruct o. Qed.

(** [skipIndicators] started at a node of a chain, towards either end. *)
Lemma skipIndicators_towards fuel T l1 a l2 n p :
  chain (nodes T) None (l1 ++ a :: l2) None → NoDup (l1 ++ a :: l2) →
  length (l1 ++ a :: l2) ≤ fuel →
  nodes T !! a = Some n →
  p = last l1 ∨ p = head l2 →
  skipIndicators fuel T a p
  = Some (firstNonIndicator (nodes T)
            (if decide (p = last l1) then reverse l1 else l2)).
Proof.
  intros Hc Hnd Hlen Ha Hp. rewrite length_app in Hlen. simpl in Hlen.
  apply chain_app in Hc as [Hc1 Hc2]. simpl in Hc1, Hc2.
  destruct Hc2 as (n' & Ha' & Hs & Hc2).
  apply NoDup_app in Hnd as (Hnd1 & Hdis & Hnd2).
  case_decide as Hd.
  - subst p. rewrite <- head_reverse. apply skipIndicators_chain.
    + by apply chain_rev in Hc1.
    + apply NoDup_cons. split.
      * rewrite elem_of_reverse. intros Hin. apply (Hdis a Hin). by left.
      * by apply NoDup_reverse_2.
    + rewrite length_reverse. lia.
  - destruct Hp as [Hp|Hp]; [done|]. subst p.
    apply skipIndicators_chain; [done| |lia].
    apply NoDup_cons. split; [|by apply NoDup_cons in Hnd2 as [_ ?]].
    by apply NoDup_cons in Hnd2 as [? _].
Qed.

Lemma clientSibLeft_not_indicator fuel T a r :
  clientSibLeft fuel T a = Some r → notIndicator T r.
Proof.
  unfold clientSibLeft. destruct (PQTree_clientSibLeft T a); [|done].
  apply skipIndicators_not_indicator.
Qed.

Lemma clientSibRight_not_indicator fuel T a r :
  clientSibRight fuel T a = Some r → notIndicator T r.
Proof.
  unfold clientSibRight. destruct (PQTree_clientSibRight T a); [|done].
  apply skipIndicators_not_indicator.
Qed.

Lemma clientNextSib_not_indicator fuel T a other r :
  clientNextSib fuel T a other = Some r → notIndicator T r.
Proof.
  unfold clientNextSib.
  destruct (clientSibLeft fuel T a) as [lft|] eqn:Hl; [|done].
  case_decide.
  - destruct (clientSibRight fuel T a) as [rgt|] eqn:Hr; [|done].
    case_decide; intros [= <-]; [done|].
    by eapply clientSibRight_not_indicator.
  - intros [= <-]. by eapply clientSibLeft_not_indicator.
Qed.

Lemma clientLeftEndmost_not_indicator fuel T a r :
  clientLeftEndmost fuel T a = Some r → notIndicator T r.
Proof.
  unfold clientLeftEndmost.
  destruct (PQTree_clientLeftEndmost T a) as [[lft|]|]; [| |done].
  - destruct (nodes T !! lft) as [n|] eqn:Hn; [|done].
    destruct (isIndicator n) eqn:Hi.
    + apply clientNextSib_not_indicator.
    + intros [= <-]. exists n. split; [done|].
      by apply bool_decide_eq_false in Hi.
  - by intros [= <-].
Qed.

Lemma clientRightEndmost_not_indicator fuel T a r :
  clientRightEndmost fuel T a = Some r → notIndicator T r.
Proof.
  unfold clientRightEndmost.
  destruct (PQTree_clientRightEndmost T a) as [[rgt|]|]; [| |done].
  - destruct (nodes T !! rgt) as [n|] eqn:Hn; [|done].
    destruct (isIndicator n) eqn:Hi.
    + apply clientNextSib_not_indicator.
    + intros [= <-]. exists n. split; [done|].
      by apply bool_decide_eq_false in Hi.
  - by intros [= <-].
Qed.

Lemma clientSib_chain fuel T l1 a l2 n :
  chain (nodes T) None (l1 ++ a :: l2) None → NoDup (l1 ++ a :: l2) →
  length (l1 ++ a :: l2) ≤ fuel →
  nodes T !! a = Some n →
  clientSibLeft fuel T a
  = Some (firstNonIndicator (nodes T)
            (if decide (m_sibLeft n = last l1) then reverse l1 else l2))
  ∧ clientSibRight fuel T a
    = Some (firstNonIndicator (nodes T)
              (if decide (m_sibRight n = last l1) then reverse l1 else l2)).
Proof.
  intros Hc Hnd Hlen Ha.
  destruct (chain_lookup _ _ _ _ _ _ Hc) as (n' & Ha' & Hs).
  rewrite Ha in Ha'. injection Ha' as <-. rewrite !or_else_None in Hs.
  unfold clientSibLeft, clientSibRight, PQTree_clientSibLeft,
    PQTree_clientSibRight. rewrite Ha. simpl.
  split; eapply skipIndicators_towards; eauto; destruct Hs as [[? ?]|[? ?]];
    auto.
Qed.

Lemma firstNonIndicator_cons_ind h a l :
  is_indicator h a = true →
  firstNonIndicator h (a :: l) = firstNonIndicator h l.
Proof.
  intros Hi. unfold firstNonIndicator. rewrite filter_cons.
  rewrite decide_False; [done|]. by rewrite Hi.
Qed.

Lemma firstNonIndicator_cons_node h a l :
  is_indicator h a = false → firstNonIndicator h (a :: l) = Some a.
Proof.
  intros Hi. unfold firstNonIndicator. rewrite filter_cons.
  by rewrite decide_True.
Qed.

(** From an endmost indicator [clientNextSib(_, nullptr)] walks inwards. *)
Lemma clientNextSib_endmost fuel T a l n :
  chain (nodes T) None (a :: l) None → NoDup (a :: l) →
  length (a :: l) ≤ fuel →
  nodes T !! a = Some n →
  clientNextSib fuel T a None = Some (firstNonIndicator (nodes T) l).
Proof.
  intros Hc Hnd Hlen Ha.
  destruct (clientSib_chain fuel T [] a l n Hc Hnd Hlen Ha) as [HL HR].
  simpl in HL, HR.
  destruct (chain_lookup _ _ [] _ _ _ Hc) as (n' & Ha' & Hs).
  rewrite Ha in Ha'. injection Ha' as <-. simpl in Hs.
  rewrite or_else_None in Hs.
  unfold clientNextSib. rewrite HL, HR. clear HL HR.
  assert (firstNonIndicator (nodes T) (reverse []) = None) as Hnil by done.
  destruct Hs as [[H1 H2]|[H1 H2]].
  - rewrite (decide_True _ _ H1), Hnil.
    rewrite (decide_True (P := None = None)) by done.
    destruct (decide (m_sibRight n = None)) as [Hd|Hd].
    + rewrite Hnil. rewrite (decide_True (P := None = None)) by done.
      rewrite Hd in H2. destruct l; done.
    + case_decide as Hd2; [by rewrite Hd2|done].
  - destruct (decide (m_sibLeft n = None)) as [Hd|Hd].
    + rewrite Hnil. rewrite (decide_True (P := None = None)) by done.
      rewrite (decide_True _ _ H2). rewrite Hnil.
      rewrite (decide_True (P := None = None)) by done.
      rewrite Hd in H1. destruct l; done.
    + case_decide as Hd2; [|done].
      rewrite (decide_True _ _ H2). rewrite Hnil.
      rewrite (decide_True (P := None = None)) by done. by rewrite Hd2.
Qed.

Lemma clientLeftEndmost_chain fuel T l p pn :
  chain (nodes T) None l None → NoDup l → length l ≤ fuel →
  nodes T !! p = Some pn → m_leftEndmost pn = head l →
  clientLeftEndmost fuel T p = Some (firstNonIndicator (nodes T) l).
Proof.
  intros Hc Hnd Hlen Hp He. unfold clientLeftEndmost, PQTree_clientLeftEndmost.
  rewrite Hp. simpl. rewrite He. destruct l as [|a l]; [done|]. simpl.
  destruct Hc as (n & Ha & Hs & Hc). rewrite Ha.
  assert (is_indicator (nodes T) a = isIndicator n) as Hia
    by (unfold is_indicator; by rewrite Ha).
  destruct (isIndicator n) eqn:Hi.
  - rewrite firstNonIndicator_cons_ind by done.
    eapply clientNextSib_endmost; eauto. simpl. eauto.
  - by rewrite firstNonIndicator_cons_node.
Qed.

Lemma clientRightEndmost_chain fuel T l p pn :
  chain (nodes T) None l None → NoDup l → length l ≤ fuel →
  nodes T !! p = Some pn → m_rightEndmost pn = last l →
  clientRightEndmost fuel T p
  = Some (firstNonIndicator (nodes T) (reverse l)).
Proof.
  intros Hc Hnd Hlen Hp He.
  unfold clientRightEndmost, PQTree_clientRightEndmost.
  rewrite Hp. simpl. rewrite He. rewrite <- head_reverse.
  apply chain_rev in Hc. apply NoDup_reverse_2 in Hnd.
  rewrite <- length_reverse in Hlen.
  destruct (reverse l) as [|a l']; [done|]. simpl.
  destruct Hc as (n & Ha & Hs & Hc). rewrite Ha.
  assert (is_indicator (nodes T) a = isIndicator n) as Hia
    by (unfold is_indicator; by rewrite Ha).
  destruct (isIndicator n) eqn:Hi.
  - rewrite firstNonIndicator_cons_ind by done.
    eapply clientNextSib_endmost; eauto. simpl. eauto.
  - by rewrite firstNonIndicator_cons_node.
Qed.

Lemma firstNonIndicator_elem h l x :
  firstNonIndicator h l = Some x → x ∈ l.
Proof.
  unfold firstNonIndicator. intros Hx. apply head_Some_elem_of in Hx.
  by apply list_elem_of_filter in Hx as [_ ?].
Qed.

(** The nearest children of [a] that are no indicators cannot be the same
    node on both sides. *)
Lemma firstNonIndicator_sides h l1 (a : addr) l2 :
  NoDup (l1 ++ a :: l2) →
  firstNonIndicator h (reverse l1) = firstNonIndicator h l2 →
  firstNonIndicator h l2 = None.
Proof.
  intros Hnd Heq. destruct (firstNonIndicator h l2) as [x|] eqn:H2; [|done].
  apply firstNonIndicator_elem in Heq, H2. rewrite elem_of_reverse in Heq.
  apply NoDup_app in Hnd as (_ & Hd & _). destruct (Hd x Heq). by right.
Qed.

Lemma last_head_ends (l1 : list addr) (a : addr) l2 :
  NoDup (l1 ++ a :: l2) → last l1 = head l2 → l1 = [] ∧ l2 = [].
Proof.
  intros Hnd Heq. destruct l1 as [|x l1 _] using rev_ind.
  - by destruct l2.
  - rewrite last_snoc in Heq. destruct l2 as [|y l2]; [done|].
    injection Heq as ->. apply NoDup_app in Hnd as (_ & Hd & _).
    destruct (Hd y).
    + apply elem_of_app. right. by left.
    + right. by left.
Qed.

(** [clientNextSib], told the nearest child on one side that is no
    indicator, gives the nearest one on the other side. *)
Lemma clientNextSib_steps fuel T l1 a l2 n :
  chain (nodes T) None (l1 ++ a :: l2) None → NoDup (l1 ++ a :: l2) →
  length (l1 ++ a :: l2) ≤ fuel →
  nodes T !! a = Some n →
  clientNextSib fuel T a (firstNonIndicator (nodes T) (reverse l1))
  = Some (firstNonIndicator (nodes T) l2)
  ∧ clientNextSib fuel T a (firstNonIndicator (nodes T) l2)
    = Some (firstNonIndicator (nodes T) (reverse l1)).
Proof.
  intros Hc Hnd Hlen Ha.
  destruct (clientSib_chain fuel T l1 a l2 n Hc Hnd Hlen Ha) as [HL HR].
  destruct (chain_lookup _ _ _ _ _ _ Hc) as (n' & Ha' & Hs).
  rewrite Ha in Ha'. injection Ha' as <-. rewrite !or_else_None in Hs.
  pose proof (firstNonIndicator_sides (nodes T) l1 a l2 Hnd) as Hsame.
  set (P := firstNonIndicator (nodes T) (reverse l1)) in *.
  set (N := firstNonIndicator (nodes T) l2) in *.
  assert (last l1 = head l2 → P = None ∧ N = None) as Hends.
  { intros Heq. unfold P, N.
    by destruct (last_head_ends l1 a l2 Hnd Heq) as [-> ->]. }
  assert (P = N → N = None ∧ P = None) as Hboth.
  { intros Heq. split; [by apply Hsame|]. rewrite Heq. by apply Hsame. }
  unfold clientNextSib. rewrite HL, HR.
  destruct (decide (m_sibLeft n = last l1)) as [El|El];
    destruct (decide (m_sibRight n = last l1)) as [Er|Er];
    fold P; fold N.
  - assert (last l1 = head l2) as Heq
        by (destruct Hs as [[? ?]|[? ?]]; congruence).
    destruct (Hends Heq) as [HP HN]. rewrite HP, HN.
    by rewrite !decide_True.
  - split.
    + rewrite (decide_True (P := P = P)) by done.
      destruct (decide (N = P)) as [Hd|Hd]; [|done].
      symmetry in Hd. by destruct (Hboth Hd) as [-> _].
    + destruct (decide (P = N)) as [Hd|Hd]; [|done].
      rewrite (decide_True (P := N = N)) by done.
      by destruct (Hboth Hd) as [_ ->].
  - split.
    + destruct (decide (N = P)) as [Hd|Hd]; [|done].
      rewrite (decide_True (P := P = P)) by done.
      symmetry in Hd. by destruct (Hboth Hd) as [-> _].
    + rewrite (decide_True (P := N = N)) by done.
      destruct (decide (P = N)) as [Hd|Hd]; [|done].
      by destruct (Hboth Hd) as [_ ->].
  - destruct Hs as [[? ?]|[? ?]]; congruence.
Qed.

(** C9. The client traversal functions never hand out an indicator: whatever
    [clientSibLeft], [clientSibRight], [clientNextSib], [clientLeftEndmost]
    and [clientRightEndmost] return is null or a node whose status is not
    Indicator.  On the children [l1 ++ a :: l2] of a Q-node (a sibling chain
    from the left end to the right end) they do return, and what they return
    is the next child that is no indicator: [clientSibLeft a] and
    [clientSibRight a] are the nearest such child on the side the pointer of
    [a] leads to, null if there is none; [clientNextSib a other] is the
    result of [clientSibLeft a] unless that is [other], else the result of
    [clientSibRight a] unless that is [other] too, else null, so that, told
    the nearest such child on one side, it gives the nearest one on the
    other side, in both directions; and [clientLeftEndmost] and
    [clientRightEndmost] of the Q-node are the outermost children that are
    no indicators. *)
Theorem client_traversal_skips_indicators (T : EmbedPQTree) :
  (∀ fuel a other r,
     clientSibLeft fuel T a = Some r ∨ clientSibRight fuel T a = Some r
     ∨ clientNextSib fuel T a other = Some r
     ∨ clientLeftEndmost fuel T a = Some r
     ∨ clientRightEndmost fuel T a = Some r →
     notIndicator T r)
  ∧ (∀ fuel l1 a l2 n p pn,
       chain (nodes T) None (l1 ++ a :: l2) None →
       NoDup (l1 ++ a :: l2) →
       length (l1 ++ a :: l2) ≤ fuel →
       nodes T !! a = Some n →
       nodes T !! p = Some pn →
       m_leftEndmost pn = head (l1 ++ a :: l2) →
       m_rightEndmost pn = last (l1 ++ a :: l2) →
       let before := firstNonIndicator (nodes T) (reverse l1) in
       let after := firstNonIndicator (nodes T) l2 in
       let sl := if decide (m_sibLeft n = last l1) then before else after in
       let sr := if decide (m_sibRight n = last l1) then before else after in
       clientSibLeft fuel T a = Some sl
       ∧ clientSibRight fuel T a = Some sr
       ∧ (∀ other,
            clientNextSib fuel T a other
            = Some (if decide (sl = other)
                    then if decide (sr = other) then None else sr
                    else sl))
       ∧ clientNextSib fuel T a before = Some after
       ∧ clientNextSib fuel T a after = Some before
       ∧ clientLeftEndmost fuel T p
         = Some (firstNonIndicator (nodes T) (l1 ++ a :: l2))
       ∧ clientRightEndmost fuel T p
         = Some (firstNonIndicator (nodes T) (reverse (l1 ++ a :: l2)))).
Proof.
  split.
  - intros fuel a other r [H|[H|[H|[H|H]]]].
    + by eapply clientSibLeft_not_indicator.
    + by eapply clientSibRight_not_indicator.
    + by eapply clientNextSib_not_indicator.
    + by eapply clientLeftEndmost_not_indicator.
    + by eapply clientRightEndmost_not_indicator.
  - intros fuel l1 a l2 n p pn Hc Hnd Hlen Ha Hp HL HR before after sl sr.
    destruct (clientSib_chain fuel T l1 a l2 n Hc Hnd Hlen Ha) as [H1 H2].
    destruct (clientNextSib_steps fuel T l1 a l2 n Hc Hnd Hlen Ha)
      as [H3 H4].
    assert (clientSibLeft fuel T a = Some sl) as H1'.
    { rewrite H1. unfold sl, before, after.
      by destruct (decide (m_sibLeft n = last l1)). }
    assert (clientSibRight fuel T a = Some sr) as H2'.
    { rewrite H2. unfold sr, before, after.
      by destruct (decide (m_sibRight n = last l1)). }
    split; [done|]. split; [done|]. split; [|split; [done|split; [done|]]].
    + intros other. unfold clientNextSib. rewrite H1', H2'.
      by repeat case_decide.
    + split.
      * by eapply clientLeftEndmost_chain.
      * by eapply clientRightEndmost_chain.
Qed.

Lemma exampleIndicators_chain :
  chain (nodes exampleIndicators) None [1; 2; 3; 4] None.
Proof.
  simpl. repeat (eexists; split; [by vm_compute|]; split;
                 [by (left + right; vm_compute)|]). done.
Qed.

Lemma client_traversal_skips_indicators_witness :
  clientSibRight 4 exampleIndicators 1 = Some (Some 4)
  ∧ clientNextSib 4 exampleIndicators 1 None = Some (Some 4)
  ∧ clientNextSib 4 exampleIndicators 1 (Some 4) = Some None
  ∧ clientLeftEndmost 4 exampleIndicators 0 = Some (Some 1).
Proof.
  destruct (client_traversal_skips_indicators exampleIndicators) as [_ H].
  destruct (H 4 [] 1 [2; 3; 4]
              (mkNode PQNodeType.Leaf PQNodeStatus.Empty (Some 0) None
                 (Some 2) None None None None 0%Z None None [] 0)
              0
              (mkNode PQNodeType.QNode PQNodeStatus.Empty None None None
                 (Some 1) (Some 4) None None 4%Z None None [] 0))
    as (_ & H2 & _ & H3 & H4 & H5 & _).
  - apply exampleIndicators_chain.
  - by apply NoDup_ListNoDup; vm_compute; repeat constructor; simpl; lia.
  - simpl. lia.
  - by vm_compute.
  - by vm_compute.
  - by vm_compute.
  - by vm_compute.
  - split; [exact H2|]. split; [exact H3|]. split; [exact H4|exact H5].
Defined.

(** * The sons of a node in the order of the scan *)

Lemma pushed_cons_ind h a w :
  is_indicator h a = true → pushed h (a :: w) = pushed h w.
Proof.
  intros Hi. unfold pushed. rewrite filter_cons, decide_False; [done|].
  by rewrite Hi.
Qed.

Lemma pushed_cons_node h a w :
  is_indicator h a = false → pushed h (a :: w) = pushed h w ++ [a].
Proof.
  intros Hi. unfold pushed. rewrite filter_cons, decide_True by done.
  by rewrite reverse_cons.
Qed.

Lemma indicatorsOf_cons_ind h a w :
  is_indicator h a = true → indicatorsOf h (a :: w) = a :: indicatorsOf h w.
Proof.
  intros Hi. unfold indicatorsOf. by rewrite filter_cons, decide_True.
Qed.

Lemma indicatorsOf_cons_node h a w :
  is_indicator h a = false → indicatorsOf h (a :: w) = indicatorsOf h w.
Proof.
  intros Hi. unfold indicatorsOf. rewrite filter_cons, decide_False; [done|].
  by rewrite Hi.
Qed.

Lemma is_indicator_lookup h a n :
  h !! a = Some n → is_indicator h a = isIndicator n.
Proof. intros H. unfold is_indicator. by rewrite H. Qed.

Lemma length_pushed_indicators h w :
  length (pushed h w) + length (indicatorsOf h w) = length w.
Proof.
  induction w as [|a w IH]; [done|].
  destruct (is_indicator h a) eqn:Hi.
  - rewrite pushed_cons_ind, indicatorsOf_cons_ind by done. simpl. lia.
  - rewrite pushed_cons_node, indicatorsOf_cons_node by done.
    rewrite length_app. simpl. lia.
Qed.

(** ** The inner loop of [getFront] *)

Lemma getFront_siblings_walk fuel T firstSon nextSon oldSib w S keys :
  walk (nodes T) firstSon nextSon oldSib w → length w ≤ fuel →
  getFront_siblings fuel T firstSon nextSon oldSib S keys
  = Some (T, pushed (nodes T) w ++ S, keys ++ indicatorKeys (nodes T) w).
Proof.
  intros Hw. revert fuel S keys.
  induction Hw as [old|old|a old n w Hne Ha Hw IH]; intros fuel S keys Hlen.
  - destruct fuel; simpl; by rewrite app_nil_r.
  - destruct fuel; simpl; rewrite decide_True by done; by rewrite app_nil_r.
  - destruct fuel as [|fuel]; [simpl in Hlen; lia|]. simpl.
    rewrite decide_False by done. rewrite Ha.
    pose proof (is_indicator_lookup _ _ _ Ha) as Hia.
    destruct (isIndicator n) eqn:Hi.
    + rewrite IH by (simpl in Hlen; lia).
      rewrite pushed_cons_ind by done. unfold indicatorKeys.
      rewrite indicatorsOf_cons_ind by done. rewrite fmap_cons.
      unfold infoKey at 2. rewrite Ha. simpl. by rewrite <- app_assoc.
    + rewrite IH by (simpl in Hlen; lia).
      rewrite pushed_cons_node by done. unfold indicatorKeys.
      rewrite indicatorsOf_cons_node by done. by rewrite <- app_assoc.
Qed.

Lemma getFront_body_leaf fuel T a c S keys :
  nodes T !! a = Some c → m_type c = PQNodeType.Leaf →
  getFront_body fuel T a S keys
  = Some (T, S, keys ++ [LeafKey <$> m_pointerToKey c]).
Proof.
  intros Ha Hty. unfold getFront_body. rewrite Ha. by rewrite decide_True.
Qed.

Lemma getFront_firstSonOf_eq c : getFront_firstSonOf c = firstSonOf c.
Proof. done. Qed.

Lemma getFront_body_sons fuel T a c w S keys :
  nodes T !! a = Some c → m_type c ≠ PQNodeType.Leaf →
  sons (nodes T) c w → length w ≤ fuel →
  getFront_body fuel T a S keys
  = Some (T, pushed (nodes T) w ++ S, keys ++ indicatorKeys (nodes T) w).
Proof.
  intros Ha Hty (f & fn & w' & Hf & Hfn & Hw & ->) Hlen.
  unfold getFront_body. rewrite Ha. rewrite decide_False by done.
  rewrite getFront_firstSonOf_eq, Hf, Hfn.
  pose proof (is_indicator_lookup _ _ _ Hfn) as Hia.
  simpl in Hlen.
  destruct (isIndicator fn) eqn:Hi.
  - rewrite (getFront_siblings_walk _ _ _ _ _ w') by (done || lia).
    rewrite pushed_cons_ind by done. unfold indicatorKeys.
    rewrite indicatorsOf_cons_ind by done. rewrite fmap_cons.
    unfold infoKey at 2. rewrite Hfn. simpl. by rewrite <- app_assoc.
  - rewrite (getFront_siblings_walk _ _ _ _ _ w') by (done || lia).
    rewrite pushed_cons_node by done. unfold indicatorKeys.
    rewrite indicatorsOf_cons_node by done. by rewrite <- app_assoc.
Qed.

(** ** The walk over the children of a Q-node and of a P-node *)

(** From a child [a] of a chain the walk runs on to the left end. *)
Lemma walk_chain_left h first l1 a l2 old :
  chain h None (l1 ++ a :: l2) None → NoDup (l1 ++ a :: l2) →
  first ∉ l1 ++ [a] →
  or_else (head l2) None = Some old →
  walk h first (Some a) old (a :: reverse l1).
Proof.
  revert a l2 old. induction l1 as [|b l1 IH] using rev_ind;
    intros a l2 old Hc Hnd Hf Ho.
  - destruct (chain_lookup _ _ _ _ _ _ Hc) as (n & Ha & Hs). simpl in Hs.
    rewrite Ho in Hs.
    eapply walk_next; [|done|].
    { intros ->. apply Hf. rewrite elem_of_app, elem_of_cons. auto. }
    rewrite (getNextSib_other n (Some old) None); [constructor| |done].
    by apply sibs_are_sym.
  - destruct (chain_lookup _ _ _ _ _ _ Hc) as (n & Ha & Hs).
    rewrite Ho in Hs. rewrite last_snoc in Hs. simpl in Hs.
    eapply walk_next; [|done|].
    { intros ->. apply Hf. rewrite elem_of_app, elem_of_cons. auto. }
    rewrite (getNextSib_other n (Some old) (Some b)).
    + rewrite reverse_snoc. rewrite <- app_assoc in Hc, Hnd. simpl in Hc, Hnd.
      eapply IH; [done|done| |done].
      intros Hin. apply Hf. rewrite elem_of_app. auto.
    + by apply sibs_are_sym.
    + intros [= ->]. destruct l2 as [|c l2]; [done|]. simpl in Ho.
      injection Ho as ->. apply NoDup_app in Hnd as (_ & Hd & _).
      apply (Hd b).
      * rewrite elem_of_app, elem_of_cons. auto.
      * rewrite !elem_of_cons. auto.
Qed.

(** The sons of a Q-node whose children are the chain [l], from the left
    endmost to the right endmost one: the scan starts at the right end and
    walks to the left end. *)
Lemma sons_QNode h c l :
  m_type c = PQNodeType.QNode →
  chain h None l None → NoDup l → l ≠ [] →
  m_rightEndmost c = last l →
  sons h c (reverse l).
Proof.
  intros Hty Hc Hnd Hne He.
  destruct l as [|a l _] using rev_ind; [done|]. clear Hne.
  rewrite last_snoc in He. rewrite reverse_snoc.
  destruct (chain_lookup _ _ _ _ _ _ Hc) as (n & Ha & Hs). simpl in Hs.
  exists a, n, (reverse l). split; [|split; [done|split; [|done]]].
  { unfold firstSonOf. by rewrite Hty. }
  destruct l as [|b l _] using rev_ind.
  - simpl in Hs. rewrite getNextSib_null by done. constructor.
  - rewrite last_snoc in Hs. simpl in Hs.
    rewrite (getNextSib_other n None (Some b)); [| by apply sibs_are_sym|done].
    rewrite <- app_assoc in Hc, Hnd. simpl in Hc, Hnd. rewrite reverse_snoc.
    eapply walk_chain_left; [done|done| |done].
    intros Hin. change (l ++ [b; a]) with (l ++ [b] ++ [a]) in Hnd.
    rewrite (assoc_L (++) l [b] [a]) in Hnd.
    apply NoDup_app in Hnd as (_ & Hd & _). apply (Hd a Hin). by left.
Qed.

Lemma getNextSib_same n p : sibs_are n p p → getNextSib n p = None.
Proof.
  unfold sibs_are, getNextSib. intros [[H1 H2]|[H1 H2]];
    repeat case_decide; congruence.
Qed.

(** The same walk on a stretch of siblings whose left neighbour is null or
    the first son itself, as in the ring below a P-node. *)
Lemma walk_stretch_left h first p l1 a l2 q old :
  chain h p (l1 ++ a :: l2) q → NoDup (l1 ++ a :: l2) →
  first ∉ l1 ++ [a] → p = None ∨ p = Some first →
  or_else (head l2) q = Some old → old ∉ l1 →
  walk h first (Some a) old (a :: reverse l1).
Proof.
  revert a l2 old. induction l1 as [|b l1 IH] using rev_ind;
    intros a l2 old Hc Hnd Hf Hp Ho Hold.
  - destruct (chain_lookup _ _ _ _ _ _ Hc) as (n & Ha & Hs). simpl in Hs.
    rewrite Ho in Hs.
    eapply walk_next; [|done|].
    { intros ->. apply Hf. by left. }
    destruct (decide (p = Some old)) as [->|Hne].
    + rewrite getNextSib_same by done. constructor.
    + rewrite (getNextSib_other n (Some old) p);
        [|by apply sibs_are_sym|done].
      destruct Hp as [->| ->]; constructor.
  - destruct (chain_lookup _ _ _ _ _ _ Hc) as (n & Ha & Hs).
    rewrite Ho in Hs. rewrite last_snoc in Hs. simpl in Hs.
    eapply walk_next; [|done|].
    { intros ->. apply Hf. apply elem_of_app. right. by left. }
    rewrite (getNextSib_other n (Some old) (Some b)).
    + rewrite reverse_snoc. rewrite <- app_assoc in Hc, Hnd. simpl in Hc, Hnd.
      eapply IH; [done|done| |done|done|].
      * intros Hin. apply Hf. apply elem_of_app. left. done.
      * intros Hin. apply NoDup_app in Hnd as (_ & Hd & _).
        apply (Hd a Hin). right. by left.
    + by apply sibs_are_sym.
    + intros [= ->]. apply Hold. apply elem_of_app. right. by left.
Qed.

Lemma walk_stretch_right h first p l1 a l2 q old :
  chain h p (l1 ++ a :: l2) q → NoDup (l1 ++ a :: l2) →
  first ∉ a :: l2 → q = None ∨ q = Some first →
  or_else (last l1) p = Some old → old ∉ l2 →
  walk h first (Some a) old (a :: l2).
Proof.
  intros Hc Hnd Hf Hq Ho Hold.
  rewrite <- (reverse_involutive l2).
  apply (walk_stretch_left h first q (reverse l2) a (reverse l1) p old).
  - apply chain_rev in Hc. by rewrite reverse_app, reverse_cons,
      <- app_assoc in Hc.
  - apply NoDup_reverse_2 in Hnd. by rewrite reverse_app, reverse_cons,
      <- app_assoc in Hnd.
  - intros Hin. apply Hf. apply elem_of_app in Hin as [Hin|Hin].
    + right. by rewrite elem_of_reverse in Hin.
    + apply list_elem_of_singleton in Hin. subst. by left.
  - done.
  - by rewrite head_reverse.
  - by rewrite elem_of_reverse.
Qed.

Lemma getNextSib_null_left n x :
  m_sibLeft n = Some x → getNextSib n None = Some x.
Proof. unfold getNextSib. intros ->. by rewrite decide_False. Qed.

(** The sons of a P-node whose children are the ring [c1 :: rest] entered at
    the reference child [c1]: the scan starts at [c1] and goes round the
    ring in the direction of the left pointer of [c1]. *)
Lemma sons_PNode h c c1 n1 rest :
  m_type c = PQNodeType.PNode →
  m_referenceChild c = Some c1 →
  ring h (c1 :: rest) → NoDup (c1 :: rest) →
  h !! c1 = Some n1 →
  sons h c
    (c1 :: if decide (m_sibLeft n1 = head rest) then rest else reverse rest).
Proof.
  intros Hty Href Hr Hnd Hn1. unfold ring in Hr.
  pose proof (chain_lookup h _ [] c1 rest _ Hr) as (n & Hn & Hs).
  rewrite Hn1 in Hn. injection Hn as <-. simpl in Hs.
  eexists c1, n1, _. split; [|split; [done|split; [|done]]].
  { unfold firstSonOf. by rewrite Hty. }
  destruct rest as [|c2 rest].
  - simpl in *. rewrite decide_False by (destruct Hs as [[-> _]|[-> _]]; done).
    assert (getNextSib n1 None = Some c1) as ->.
    { apply getNextSib_null_left. by destruct Hs as [[? ?]|[? ?]]. }
    constructor.
  - simpl in Hr. destruct Hr as (n' & Hn' & _ & Hr).
    apply NoDup_cons in Hnd as [Hc1 Hnd].
    change (last (c1 :: c2 :: rest)) with (last (c2 :: rest)) in Hs.
    simpl in Hs.
    destruct (last (c2 :: rest)) as [ck|] eqn:Hlast;
      [|by apply last_None in Hlast].
    case_decide as Hd.
    + assert (getNextSib n1 None = Some c2) as ->.
      { by apply getNextSib_null_left. }
      apply (walk_stretch_right h c1 (Some c1) [] c2 rest (Some c1) c1).
      * exact Hr.
      * exact Hnd.
      * exact Hc1.
      * by right.
      * done.
      * intros Hin. apply Hc1. by right.
    + assert (m_sibLeft n1 = Some ck) as Hck.
      { destruct Hs as [[? ?]|[? ?]]; [done|]. simpl in Hd. congruence. }
      assert (getNextSib n1 None = Some ck) as ->.
      { by apply getNextSib_null_left. }
      change (chain h (Some c1) (c2 :: rest) (Some c1)) in Hr.
      clear Hd. revert Hr Hnd Hc1 Hlast. generalize (c2 :: rest). intros l.
      destruct l as [|ck' l1 _] using rev_ind; [done|].
      intros Hr Hnd Hc1 Hlast.
      rewrite last_snoc in Hlast. injection Hlast as ->.
      rewrite reverse_snoc.
      apply (walk_stretch_left h c1 (Some c1) l1 ck [] (Some c1) c1).
      * exact Hr.
      * exact Hnd.
      * exact Hc1.
      * by right.
      * done.
      * intros Hin. apply Hc1. apply elem_of_app. by left.
Qed.

(** * The scan of a subtree *)

Lemma setChangeDir_Some i T :
  is_Some (infos T !! i) →
  ∃ T', setChangeDir i T = Some T' ∧ nodes T' = nodes T
        ∧ m_pertinentNodes T' = m_pertinentNodes T
        ∧ (∀ j, is_Some (infos T' !! j) ↔ is_Some (infos T !! j)).
Proof.
  intros [inf Hi]. unfold setChangeDir. rewrite Hi. eexists. split; [done|].
  split; [done|]. split; [done|]. intros j. simpl.
  destruct (decide (i = j)) as [->|Hne].
  - rewrite lookup_insert_eq, Hi. split; eauto.
  - by rewrite lookup_insert_ne.
Qed.

Lemma indicators_have_info_ext h I I' :
  (∀ j, is_Some (I' !! j) ↔ is_Some (I !! j)) →
  indicators_have_info h I → indicators_have_info h I'.
Proof.
  intros HI Hv a n Ha Hi. destruct (Hv a n Ha Hi) as (k & i & ? & ? & ?).
  exists k, i. split; [done|]. split; [done|]. by apply HI.
Qed.

(** ** The inner loop of [front] *)

Lemma front_siblings_walk fuel T h firstSon nextSon oldSib w S keys :
  walk h firstSon nextSon oldSib w →
  (∀ a, a ∈ w → nodes T !! a = h !! a) →
  indicators_have_info h (infos T) →
  length w ≤ fuel →
  ∃ T', front_siblings fuel T firstSon nextSon oldSib S keys
        = Some (T', pushed h w ++ S, keys ++ indicatorKeys h w)
        ∧ nodes T' = nodes T
        ∧ (∀ j, is_Some (infos T' !! j) ↔ is_Some (infos T !! j))
        ∧ m_pertinentNodes T'
          = m_pertinentNodes T ++ indicatorsOf h w.
Proof.
  intros Hw. revert fuel T S keys.
  induction Hw as [old|old|a old n w Hne Ha Hw IH];
    intros fuel T S keys Hag Hv Hlen.
  - exists T. destruct fuel; simpl; rewrite !app_nil_r; done.
  - exists T. destruct fuel; simpl; rewrite decide_True by done;
      rewrite !app_nil_r; done.
  - destruct fuel as [|fuel]; [simpl in Hlen; lia|]. simpl.
    rewrite decide_False by done.
    rewrite (Hag a) by (by left). rewrite Ha.
    pose proof (is_indicator_lookup _ _ _ Ha) as Hia.
    destruct (isIndicator n) eqn:Hi.
    + destruct (Hv a n Ha Hi) as (k & i & Hk & Hki & Hsome).
      assert (∃ T1,
        (if decide (Some old = m_sibLeft n) then
           match m_pointerToInfo n with
           | Some k =>
               match m_userStructInfo k with
               | Some i => setChangeDir i T
               | None => None
               end
           | None => None
           end
         else Some T) = Some T1
        ∧ nodes T1 = nodes T
        ∧ m_pertinentNodes T1 = m_pertinentNodes T
        ∧ (∀ j, is_Some (infos T1 !! j) ↔ is_Some (infos T !! j)))
        as (T1 & -> & Hn1 & Hp1 & Hi1).
      { case_decide.
        - rewrite Hk, Hki. by apply setChangeDir_Some.
        - by exists T. }
      destruct (IH fuel (pushPertinent a T1) S
                  (keys ++ [NodeKey <$> m_pointerToInfo n]))
        as (T' & HT' & Hn' & Hi' & Hp').
      * intros b Hb. simpl. rewrite Hn1. apply Hag. by right.
      * simpl. by eapply indicators_have_info_ext.
      * simpl in Hlen. lia.
      * exists T'. rewrite HT'. split; [|split; [|split]].
        -- rewrite pushed_cons_ind by done. unfold indicatorKeys.
           rewrite indicatorsOf_cons_ind by done. rewrite fmap_cons.
           unfold infoKey at 2. rewrite Ha. simpl. by rewrite <- app_assoc.
        -- by rewrite Hn'.
        -- intros j. rewrite Hi'. simpl. apply Hi1.
        -- rewrite Hp'. simpl. rewrite Hp1.
           rewrite indicatorsOf_cons_ind by done. by rewrite <- app_assoc.
    + destruct (IH fuel T (a :: S) keys) as (T' & HT' & Hn' & Hi' & Hp').
      * intros b Hb. apply Hag. by right.
      * done.
      * simpl in Hlen. lia.
      * exists T'. rewrite HT'. split; [|split; [|split]]; try done.
        -- rewrite pushed_cons_node by done. unfold indicatorKeys.
           rewrite indicatorsOf_cons_node by done. by rewrite <- app_assoc.
        -- by rewrite indicatorsOf_cons_node.
Qed.

(** A walk never reads the first son, so marking it does not change it. *)
Lemma walk_elem_ne h firstSon nextSon oldSib w a :
  walk h firstSon nextSon oldSib w → a ∈ w → a ≠ firstSon.
Proof.
  induction 1 as [| |b old n w Hne Hb Hw IH]; [by intros ?%elem_of_nil..|].
  intros [->|Hin]%elem_of_cons; auto.
Qed.

(** ** The body of the outer loop of [front] *)

Lemma front_body_leaf fuel T a c S keys :
  nodes T !! a = Some c → m_type c = PQNodeType.Leaf →
  front_body fuel T a S keys
  = Some (T, S, keys ++ [LeafKey <$> m_pointerToKey c]).
Proof.
  intros Ha Hty. unfold front_body. rewrite Ha. by rewrite decide_True.
Qed.

Lemma front_body_sons fuel T h D a c w S keys :
  agree D T h → a ∉ D → (∀ x, x ∈ w → x ∉ D) →
  h !! a = Some c → m_type c ≠ PQNodeType.Leaf →
  sons h c w → indicators_have_info h (infos T) → length w ≤ fuel →
  ∃ T', front_body fuel T a S keys
        = Some (T', pushed h w ++ S, keys ++ indicatorKeys h w)
        ∧ agree (indicatorsOf h w ++ D) T' h
        ∧ (∀ j, is_Some (infos T' !! j) ↔ is_Some (infos T !! j))
        ∧ m_pertinentNodes T'
          = m_pertinentNodes T ++ indicatorsOf h w.
Proof.
  intros Hag HaD HwD Ha Hty (f & fn & w' & Hf & Hfn & Hw & ->) Hv Hlen.
  unfold front_body. rewrite (Hag a HaD), Ha.
  rewrite decide_False by done. rewrite Hf.
  rewrite (Hag f) by (apply HwD; by left). rewrite Hfn.
  pose proof (is_indicator_lookup _ _ _ Hfn) as Hia. simpl in Hlen.
  assert (∀ b, b ∈ w' → nodes T !! b = h !! b) as Hagw.
  { intros b Hb. apply Hag, HwD. by right. }
  destruct (isIndicator fn) eqn:Hi.
  - assert (nodes T !! f = Some fn) as HTf
      by (rewrite Hag; [done|apply HwD; by left]).
    unfold destroyNode, update. simpl.
    rewrite lookup_alter_eq, HTf. simpl.
    change (getNextSib (set_status PQNodeStatus.ToBeDeleted fn) None)
      with (getNextSib fn None).
    edestruct (front_siblings_walk fuel
      (set_nodes (alter (set_status PQNodeStatus.ToBeDeleted) f (nodes T))
         (pushPertinent f T)) h f (getNextSib fn None) f w' S
      (keys ++ [NodeKey <$> m_pointerToInfo fn]))
      as (T' & HT' & Hn' & Hi' & Hp'); [done| |done|lia|].
    { intros b Hb. simpl. rewrite lookup_alter_ne; [by apply Hagw|].
      intros ->. by eapply walk_elem_ne. }
    exists T'. rewrite HT'. split; [|split; [|split]].
    + rewrite pushed_cons_ind by done. unfold indicatorKeys.
      rewrite indicatorsOf_cons_ind by done. rewrite fmap_cons.
      unfold infoKey at 2. rewrite Hfn. simpl. by rewrite <- app_assoc.
    + intros b Hb. rewrite Hn'. simpl.
      rewrite indicatorsOf_cons_ind in Hb by done.
      rewrite lookup_alter_ne.
      * apply Hag. intros Hin. apply Hb. apply elem_of_app. by right.
      * intros ->. apply Hb. by left.
    + done.
    + rewrite Hp'. simpl. rewrite indicatorsOf_cons_ind by done.
      by rewrite <- app_assoc.
  - rewrite (Hag f) by (apply HwD; by left). rewrite Hfn.
    edestruct (front_siblings_walk fuel T h f (getNextSib fn None) f w'
                 (f :: S) keys)
      as (T' & HT' & Hn' & Hi' & Hp'); [done|done|done|lia|].
    exists T'. rewrite HT'. split; [|split; [|split]].
    + rewrite pushed_cons_node by done. unfold indicatorKeys.
      rewrite indicatorsOf_cons_node by done. by rewrite <- app_assoc.
    + intros b Hb. rewrite Hn'. apply Hag. intros Hin. apply Hb.
      apply elem_of_app. by right.
    + done.
    + by rewrite Hp', indicatorsOf_cons_node.
Qed.

(** ** The scan as a relation *)

Lemma scan_stack_length h S popped inds keys :
  scan h S popped inds keys → length S ≤ length popped.
Proof.
  induction 1 as [|a c S tr inds keys Ha Hty Hs IH
                  |a c w S tr inds keys Ha Hty Hw Hs IH];
    simpl; [lia|lia|].
  rewrite !length_app in *. lia.
Qed.

Lemma scan_sons_length h w S popped inds keys :
  scan h (pushed h w ++ S) popped inds keys →
  length w ≤ length popped + length (indicatorsOf h w).
Proof.
  intros Hs%scan_stack_length. rewrite !length_app in *.
  pose proof (length_pushed_indicators h w). lia.
Qed.

Lemma elem_of_pushed h w a :
  a ∈ pushed h w ↔ a ∈ w ∧ is_indicator h a = false.
Proof.
  unfold pushed. rewrite elem_of_reverse, list_elem_of_filter. tauto.
Qed.

Lemma elem_of_indicatorsOf h w a :
  a ∈ indicatorsOf h w ↔ a ∈ w ∧ is_indicator h a = true.
Proof. unfold indicatorsOf. rewrite list_elem_of_filter. tauto. Qed.

(** ** [getFront] on a scan *)

Lemma getFront_loop_scan n fuel T S popped inds keys keys0 :
  scan (nodes T) S popped inds keys →
  length popped ≤ n → length popped + length inds ≤ fuel →
  getFront_loop n fuel T S keys0 = Some (T, keys0 ++ keys).
Proof.
  intros Hs. revert n keys0.
  induction Hs as [|a c S tr inds keys Ha Hty Hs IH
                   |a c w S tr inds keys Ha Hty Hw Hs IH];
    intros n keys0 Hn Hfuel.
  - destruct n; simpl; by rewrite app_nil_r.
  - destruct n as [|n]; [simpl in Hn; lia|]. simpl.
    rewrite (getFront_body_leaf _ _ _ c) by done.
    rewrite IH by (simpl in *; lia). by rewrite <- app_assoc.
  - destruct n as [|n]; [simpl in Hn; lia|]. simpl.
    pose proof (scan_sons_length _ _ _ _ _ _ Hs) as Hlen.
    simpl in Hfuel. rewrite length_app in Hfuel.
    rewrite (getFront_body_sons _ _ _ c w) by (done || lia).
    rewrite IH; [by rewrite <- app_assoc| |].
    + simpl in Hn. lia.
    + lia.
Qed.

(** ** [front] on a scan *)

Lemma elem_of_tail_list (x : nat) (l : list nat) : x ∈ tail l → x ∈ l.
Proof. destruct l; simpl; [done|]. by right. Qed.

Lemma front_loop_scan n fuel T h D S popped inds keys keys0 :
  scan h S popped inds keys → NoDup inds →
  agree D T h →
  (∀ d, d ∈ D → is_indicator h d = true) →
  (∀ x, x ∈ S → x ∉ D) →
  (∀ x, x ∈ tail S → is_indicator h x = false) →
  (∀ x, x ∈ inds → x ∉ D) →
  indicators_have_info h (infos T) →
  length popped ≤ n → length popped + length inds ≤ fuel →
  ∃ T', front_loop n fuel T S keys0 = Some (T', keys0 ++ keys)
        ∧ m_pertinentNodes T' = m_pertinentNodes T ++ inds.
Proof.
  intros Hs. revert n T D keys0.
  induction Hs as [|a c S tr inds keys Ha Hty Hs IH
                   |a c w S tr inds keys Ha Hty Hw Hs IH];
    intros n T D keys0 Hnd Hag HD HS HtS Hinds Hv Hn Hfuel.
  - exists T. destruct n; simpl; by rewrite !app_nil_r.
  - destruct n as [|n]; [simpl in Hn; lia|]. simpl.
    rewrite (front_body_leaf _ _ _ c);
      [|rewrite Hag; [done|apply HS; by left]|done].
    destruct (IH n T D (keys0 ++ [LeafKey <$> m_pointerToKey c]))
      as (T' & HT' & Hp'); try done.
    + intros x Hx. apply HS. by right.
    + intros x Hx. apply HtS. simpl. by apply elem_of_tail_list.
    + simpl in Hn. lia.
    + simpl in Hfuel. lia.
    + exists T'. rewrite HT'. split; [by rewrite <- app_assoc|done].
  - destruct n as [|n]; [simpl in Hn; lia|]. simpl.
    pose proof (scan_sons_length _ _ _ _ _ _ Hs) as Hlen.
    simpl in Hfuel. rewrite length_app in Hfuel.
    apply NoDup_app in Hnd as (Hnd1 & Hdis & Hnd2).
    destruct (front_body_sons fuel T h D a c w S keys0)
      as (T1 & HT1 & Hag1 & Hi1 & Hp1); try done.
    + apply HS. by left.
    + intros x Hx. destruct (is_indicator h x) eqn:Hix.
      * apply Hinds. apply elem_of_app. left. by apply elem_of_indicatorsOf.
      * intros HxD. apply HD in HxD. congruence.
    + lia.
    + rewrite HT1.
      destruct (IH n T1 (indicatorsOf h w ++ D) (keys0 ++ indicatorKeys h w))
        as (T' & HT' & Hp'); try done.
      * intros d [Hd|Hd]%elem_of_app; [|by apply HD].
        by apply elem_of_indicatorsOf in Hd as [_ ?].
      * intros x Hx.
        assert (is_indicator h x = false) as Hix.
        { apply elem_of_app in Hx as [Hx|Hx].
          - by apply elem_of_pushed in Hx as [_ ?].
          - by apply HtS. }
        intros [Hd|Hd]%elem_of_app.
        -- apply elem_of_indicatorsOf in Hd as [_ ?]. congruence.
        -- apply HD in Hd. congruence.
      * intros x Hx. apply elem_of_tail_list in Hx.
        apply elem_of_app in Hx as [Hx|Hx].
        -- by apply elem_of_pushed in Hx as [_ ?].
        -- by apply HtS.
      * intros x Hx [Hd|Hd]%elem_of_app.
        -- by apply (Hdis x).
        -- apply (Hinds x); [|done]. apply elem_of_app. by right.
      * by eapply indicators_have_info_ext.
      * simpl in Hn. lia.
      * lia.
      * exists T'. rewrite HT'. split; [by rewrite <- app_assoc|].
        rewrite Hp', Hp1. by rewrite <- app_assoc.
Qed.

(** ** [getFront] leaves the tree as it is *)

Lemma getFront_siblings_readonly fuel T firstSon nextSon oldSib S keys r :
  getFront_siblings fuel T firstSon nextSon oldSib S keys = Some r →
  r.1.1 = T.
Proof.
  revert nextSon oldSib S keys.
  induction fuel as [|fuel IH]; intros [a|] oldSib S keys; simpl;
    try (by intros [= <-]).
  - case_decide; [by intros [= <-]|done].
  - case_decide; [by intros [= <-]|].
    destruct (nodes T !! a) as [n|]; [|done].
    destruct (isIndicator n); apply IH.
Qed.

Lemma getFront_body_readonly fuel T a S keys r :
  getFront_body fuel T a S keys = Some r → r.1.1 = T.
Proof.
  unfold getFront_body. destruct (nodes T !! a) as [c|]; [|done].
  case_decide; [by intros [= <-]|].
  destruct (getFront_firstSonOf c) as [f|]; [|done].
  destruct (nodes T !! f) as [fn|]; [|done].
  destruct (isIndicator fn); apply getFront_siblings_readonly.
Qed.

Lemma getFront_loop_readonly n fuel T S keys r :
  getFront_loop n fuel T S keys = Some r → r.1 = T.
Proof.
  revert S keys. induction n as [|n IH]; intros [|a S] keys; simpl;
    try (by intros [= <-]); try done.
  destruct (getFront_body fuel T a S keys) as [[[T1 S1] keys1]|] eqn:Hb;
    [|done].
  apply getFront_body_readonly in Hb. simpl in Hb. subst T1. apply IH.
Qed.

(** ** Leaves on the stack *)

Lemma scan_leaves h l S popped inds keys :
  (∀ a, a ∈ l → is_leaf h a) →
  scan h S popped inds keys →
  scan h (l ++ S) (l ++ popped) inds ((leafKeyOf h <$> l) ++ keys).
Proof.
  induction l as [|a l IH]; intros Hl Hs; [done|]. simpl.
  destruct (Hl a) as (n & Ha & Hty); [by left|].
  unfold leafKeyOf at 1. rewrite Ha. simpl.
  apply scan_leaf; [done..|]. apply IH; [|done].
  intros b Hb. apply Hl. by right.
Qed.

Lemma pushed_reverse h l :
  pushed h (reverse l) = filter (λ a, is_indicator h a = false) l.
Proof. unfold pushed. by rewrite filter_reverse, reverse_involutive. Qed.

Lemma filter_all (P : nat → Prop) `{∀ x, Decision (P x)} (l : list nat) :
  (∀ a, a ∈ l → P a) → filter P l = l.
Proof.
  induction l as [|a l IH]; intros Hl; [done|].
  rewrite filter_cons, decide_True by (apply Hl; by left).
  f_equal. apply IH. intros b Hb. apply Hl. by right.
Qed.

Lemma filter_none (P : nat → Prop) `{∀ x, Decision (P x)} (l : list nat) :
  (∀ a, a ∈ l → ¬ P a) → filter P l = [].
Proof.
  induction l as [|a l IH]; intros Hl; [done|].
  rewrite filter_cons, decide_False by (apply Hl; by left).
  apply IH. intros b Hb. apply Hl. by right.
Qed.

Lemma agree_nil T : agree [] T (nodes T).
Proof. by intros a _. Qed.

Lemma front_scan fuel T a popped inds keys keys0 :
  scan (nodes T) [a] popped inds keys → NoDup inds →
  indicators_have_info (nodes T) (infos T) →
  length popped + length inds ≤ fuel →
  ∃ T', front fuel T a keys0 = Some (T', keys0 ++ keys)
        ∧ m_pertinentNodes T' = m_pertinentNodes T ++ inds.
Proof.
  intros Hs Hnd Hv Hfuel. unfold front.
  apply (front_loop_scan fuel fuel T (nodes T) [] [a] popped inds keys keys0
           Hs Hnd (agree_nil T)).
  - intros d Hd. by apply elem_of_nil in Hd.
  - intros x _ Hd. by apply elem_of_nil in Hd.
  - intros x Hd. by apply elem_of_nil in Hd.
  - intros x _ Hd. by apply elem_of_nil in Hd.
  - done.
  - lia.
  - done.
Qed.

Lemma getFront_scan fuel T a popped inds keys keys0 :
  scan (nodes T) [a] popped inds keys →
  length popped + length inds ≤ fuel →
  getFront fuel T a keys0 = Some (T, keys0 ++ keys).
Proof.
  intros Hs Hfuel. unfold getFront.
  eapply getFront_loop_scan; [done|lia|done].
Qed.

(** C5. On a subtree that the scan walks through without meeting an
    indicator twice, [front] and [getFront] return, and they emit the same
    sequence of keys; and whenever [getFront] returns, on any heap, the tree
    is the one it was called on: no node is marked, no flag is set. *)
Theorem front_getFront_same_keys (fuel : nat) (T : EmbedPQTree) (a : addr)
    (popped inds : list addr) (keys keys0 : keys_t) :
  scan (nodes T) [a] popped inds keys → NoDup inds →
  indicators_have_info (nodes T) (infos T) →
  length popped + length inds ≤ fuel →
  (∃ T', front fuel T a keys0 = Some (T', keys0 ++ keys))
  ∧ getFront fuel T a keys0 = Some (T, keys0 ++ keys)
  ∧ (∀ fuel' b keys1 T1 keys2,
       getFront fuel' T b keys1 = Some (T1, keys2) → T1 = T).
Proof.
  intros Hs Hnd Hv Hfuel. split; [|split].
  - destruct (front_scan fuel T a popped inds keys keys0) as (T' & ? & _);
      eauto.
  - by eapply getFront_scan.
  - intros fuel' b keys1 T1 keys2 H.
    by apply getFront_loop_readonly in H.
Qed.

(** ** A worked example *)

Ltac walk_tac :=
  lazymatch goal with
  | |- walk ?h ?f ?nx ?o ?w =>
      let nx' := eval vm_compute in nx in
      change (walk h f nx' o w);
      first [ apply walk_null
            | apply walk_back
            | eapply walk_next; [done | by vm_compute | walk_tac] ]
  end.

Ltac sons_tac :=
  eexists _, _, _; split; [by vm_compute|];
  split; [by vm_compute|]; split; [walk_tac|reflexivity].

Ltac scan_tac :=
  lazymatch goal with
  | |- scan ?h ?st ?p ?i ?k =>
      let st' := eval vm_compute in st in
      change (scan h st' p i k);
      first [ apply scan_nil
            | eapply scan_leaf; [by vm_compute | by vm_compute | scan_tac]
            | eapply scan_node;
                [by vm_compute | by vm_compute | sons_tac | scan_tac] ]
  end.

Lemma exampleTree_scan :
  scan (nodes exampleTree) [0] [0; 1; 3; 6; 5] [4; 2]
    [Some (NodeKey (mkNodeKey (Some 1))); Some (NodeKey (mkNodeKey (Some 0)));
     Some (LeafKey (mkLeafKey 1 (Some 101)));
     Some (LeafKey (mkLeafKey 6 (Some 106)));
     Some (LeafKey (mkLeafKey 5 (Some 105)))].
Proof.
  eassert (scan (nodes exampleTree) [0] _ _ _) as H by scan_tac.
  exact H.
Qed.

Ltac heap_cases H :=
  apply elem_of_list_to_map_2 in H;
  repeat (apply elem_of_cons in H as [H|H]; [injection H as ? ?; subst|]);
  [..|by apply elem_of_nil in H].

Lemma exampleTree_info :
  indicators_have_info (nodes exampleTree) (infos exampleTree).
Proof.
  intros a n Ha Hi. unfold exampleTree in Ha. cbn [nodes] in Ha.
  heap_cases Ha; try discriminate Hi.
  - exists (mkNodeKey (Some 0)), 0. split; [done|]. split; [done|].
    eexists. by vm_compute.
  - exists (mkNodeKey (Some 1)), 1. split; [done|]. split; [done|].
    eexists. by vm_compute.
Qed.

Lemma front_getFront_same_keys_witness :
  let keys :=
    [Some (NodeKey (mkNodeKey (Some 1))); Some (NodeKey (mkNodeKey (Some 0)));
     Some (LeafKey (mkLeafKey 1 (Some 101)));
     Some (LeafKey (mkLeafKey 6 (Some 106)));
     Some (LeafKey (mkLeafKey 5 (Some 105)))] in
  (∃ T', front 7 exampleTree 0 [] = Some (T', keys))
  ∧ getFront 7 exampleTree 0 [] = Some (exampleTree, keys).
Proof.
  intros keys.
  destruct (front_getFront_same_keys 7 exampleTree 0 [0; 1; 3; 6; 5] [4; 2]
              keys [] exampleTree_scan) as (H1 & H2 & _).
  - apply NoDup_ListNoDup. repeat constructor; simpl; intuition lia.
  - apply exampleTree_info.
  - simpl. lia.
  - split; [exact H1|exact H2].
Defined.

Lemma empty_not_elem (D : list nat) (x : nat) : D = [] → x ∉ D.
Proof. intros ->. apply not_elem_of_nil. Qed.

Lemma body_sons fuel T a c w S keys :
  nodes T !! a = Some c → m_type c ≠ PQNodeType.Leaf →
  sons (nodes T) c w →
  indicators_have_info (nodes T) (infos T) → length w ≤ fuel →
  getFront_body fuel T a S keys
  = Some (T, pushed (nodes T) w ++ S, keys ++ indicatorKeys (nodes T) w)
  ∧ ∃ T', front_body fuel T a S keys
          = Some (T', pushed (nodes T) w ++ S,
                  keys ++ indicatorKeys (nodes T) w).
Proof.
  intros Ha Hty Hw Hv Hlen. split.
  - by apply (getFront_body_sons fuel T a c w).
  - destruct (front_body_sons fuel T (nodes T) [] a c w S keys)
      as (T' & HT' & _); try done.
    + apply not_elem_of_nil.
    + intros x _. apply not_elem_of_nil.
    + by exists T'.
Qed.

(** C8, as the code has it.  The order in which [front] and [getFront] take
    the sons of an interior node.  Below a Q-node whose children are the
    sibling chain [l] from the left endmost to the right endmost child, one
    round of the outer loop starts at the right endmost child and leaves the
    children that are no indicators on the stack in the order of [l], the left
    end on top, so that it is visited first; the keys of the children that are
    indicators are emitted in this round already, in the order of the walk,
    which is [l] from right to left; when all children are leaves, the scan
    emits their keys in the order of [l].  Below a P-node whose children are
    the ring [c1 :: rest] with the reference child [c1], the sons are taken in
    one fixed order that starts at [c1] and goes round the ring in the
    direction of the left pointer of [c1]. *)
Theorem sons_scanned_in_order (fuel : nat) (T : EmbedPQTree) (a : addr)
    (c : PQNode) (S : list addr) (keys : keys_t) :
  nodes T !! a = Some c →
  indicators_have_info (nodes T) (infos T) →
  (∀ l,
     m_type c = PQNodeType.QNode →
     chain (nodes T) None l None → NoDup l → l ≠ [] →
     m_leftEndmost c = head l → m_rightEndmost c = last l →
     length l < fuel →
     let onStack := filter (λ x, is_indicator (nodes T) x = false) l in
     let emitted := keys ++ indicatorKeys (nodes T) (reverse l) in
     getFront_body fuel T a S keys = Some (T, onStack ++ S, emitted)
     ∧ (∃ T', front_body fuel T a S keys = Some (T', onStack ++ S, emitted))
     ∧ ((∀ x, x ∈ l → is_leaf (nodes T) x ∧ is_indicator (nodes T) x = false)
        → getFront fuel T a keys
          = Some (T, keys ++ (leafKeyOf (nodes T) <$> l))
          ∧ ∃ T', front fuel T a keys
                  = Some (T', keys ++ (leafKeyOf (nodes T) <$> l))))
  ∧ (∀ c1 n1 rest,
       m_type c = PQNodeType.PNode →
       m_referenceChild c = Some c1 →
       ring (nodes T) (c1 :: rest) → NoDup (c1 :: rest) →
       nodes T !! c1 = Some n1 →
       length rest < fuel →
       let w :=
         c1 :: (if decide (m_sibLeft n1 = head rest) then rest
                else reverse rest) in
       getFront_body fuel T a S keys
       = Some (T, pushed (nodes T) w ++ S,
               keys ++ indicatorKeys (nodes T) w)
       ∧ ∃ T', front_body fuel T a S keys
               = Some (T', pushed (nodes T) w ++ S,
                       keys ++ indicatorKeys (nodes T) w)).
Proof.
  intros Ha Hv. split.
  - intros l Hty Hc Hnd Hne _ HR Hlen onStack emitted.
    pose proof (sons_QNode (nodes T) c l Hty Hc Hnd Hne HR) as Hw.
    assert (m_type c ≠ PQNodeType.Leaf) as Hty' by (by rewrite Hty).
    destruct (body_sons fuel T a c (reverse l) S keys) as [HG HF];
      [done..|rewrite length_reverse; lia|].
    rewrite pushed_reverse in HG, HF. split; [done|]. split; [done|].
    intros Hl.
    assert (indicatorsOf (nodes T) (reverse l) = []) as Hinds.
    { apply filter_none. intros x Hx. rewrite elem_of_reverse in Hx.
      destruct (Hl x Hx) as [_ ->]. done. }
    assert (scan (nodes T) [a] (a :: l) [] (leafKeyOf (nodes T) <$> l)).
    { pose proof (scan_node (nodes T) a c (reverse l) [] l []
                    (leafKeyOf (nodes T) <$> l) Ha Hty' Hw) as Hs.
      unfold indicatorKeys in Hs. rewrite Hinds in Hs. simpl in Hs.
      apply Hs. rewrite pushed_reverse.
      rewrite filter_all by (intros x Hx; by destruct (Hl x Hx)).
      rewrite app_nil_r.
      pose proof (scan_leaves (nodes T) l [] [] [] [] ) as Hsl.
      rewrite !app_nil_r in Hsl. apply Hsl; [|constructor].
      intros x Hx. by destruct (Hl x Hx). }
    split.
    + eapply getFront_scan; [done|]. simpl. lia.
    + destruct (front_scan fuel T a (a :: l) [] (leafKeyOf (nodes T) <$> l)
                  keys) as (T' & HT' & _); try done.
      * constructor.
      * simpl. lia.
      * by exists T'.
  - intros c1 n1 rest Hty Href Hr Hnd Hn1 Hlen w.
    pose proof (sons_PNode (nodes T) c c1 n1 rest Hty Href Hr Hnd Hn1) as Hw.
    apply (body_sons fuel T a c w S keys); try done.
    + by rewrite Hty.
    + subst w. simpl. case_decide; [|rewrite length_reverse]; lia.
Qed.

Lemma exampleTree_chain : chain (nodes exampleTree) None [1; 2; 3; 4] None.
Proof.
  simpl. repeat (eexists; split; [by vm_compute|]; split;
                 [by (left + right; vm_compute)|]). done.
Qed.

Lemma exampleTree_ring : ring (nodes exampleTree) [5; 6].
Proof.
  unfold ring. simpl. repeat (eexists; split; [by vm_compute|]; split;
                 [by (left + right; vm_compute)|]). done.
Qed.

Lemma sons_scanned_in_order_witness :
  getFront_body 7 exampleTree 0 [] []
  = Some (exampleTree, [1; 3],
          [Some (NodeKey (mkNodeKey (Some 1)));
           Some (NodeKey (mkNodeKey (Some 0)))])
  ∧ getFront_body 7 exampleTree 3 [] [] = Some (exampleTree, [6; 5], []).
Proof.
  split.
  - destruct (sons_scanned_in_order 7 exampleTree 0
      (mkNode PQNodeType.QNode PQNodeStatus.Full None None None
         (Some 1) (Some 4) None None 4%Z None None [1; 3] 0) [] [])
      as [H _]; [by vm_compute|apply exampleTree_info|].
    destruct (H [1; 2; 3; 4]) as [H1 _]; try done.
    + apply exampleTree_chain.
    + apply NoDup_ListNoDup. repeat constructor; simpl; intuition lia.
    + simpl. lia.
  - destruct (sons_scanned_in_order 7 exampleTree 3
      (mkNode PQNodeType.PNode PQNodeStatus.Full None (Some 2) (Some 4)
         None None (Some 5) None 2%Z None None [5; 6] 3) [] [])
      as [_ H]; [by vm_compute|apply exampleTree_info|].
    destruct (H 5
      (mkNode PQNodeType.Leaf PQNodeStatus.Full (Some 3) (Some 6) (Some 6)
         None None None (Some 3) 0%Z (Some (mkLeafKey 5 (Some 105))) None []
         5) [6]) as [H1 _]; try done.
    + apply exampleTree_ring.
    + apply NoDup_ListNoDup. repeat constructor; simpl; intuition lia.
    + simpl. lia.
Defined.

(** Against C8 as the spec has it: the children of the Q-node 0 of
    [exampleTree] are 1, 2, 3, 4 from left to right, of which 2 and 4 are
    indicators; [getFront] and [front] emit the key of the right endmost
    child 4 first and the key of the indicator 2 second, and only then the
    key of the left endmost child 1. *)
Lemma qnode_keys_not_left_to_right :
  m_type <$> nodes exampleTree !! 0 = Some PQNodeType.QNode
  ∧ chain (nodes exampleTree) None [1; 2; 3; 4] None
  ∧ m_leftEndmost <$> nodes exampleTree !! 0 = Some (Some 1)
  ∧ m_rightEndmost <$> nodes exampleTree !! 0 = Some (Some 4)
  ∧ leafKeyOf (nodes exampleTree) 1
    = Some (LeafKey (mkLeafKey 1 (Some 101)))
  ∧ infoKey (nodes exampleTree) 4 = Some (NodeKey (mkNodeKey (Some 1)))
  ∧ getFront 7 exampleTree 0 []
    = Some (exampleTree,
            [Some (NodeKey (mkNodeKey (Some 1)));
             Some (NodeKey (mkNodeKey (Some 0)));
             Some (LeafKey (mkLeafKey 1 (Some 101)));
             Some (LeafKey (mkLeafKey 6 (Some 106)));
             Some (LeafKey (mkLeafKey 5 (Some 105)))])
  ∧ (∃ T', front 7 exampleTree 0 []
           = Some (T', [Some (NodeKey (mkNodeKey (Some 1)));
                        Some (NodeKey (mkNodeKey (Some 0)));
                        Some (LeafKey (mkLeafKey 1 (Some 101)));
                        Some (LeafKey (mkLeafKey 6 (Some 106)));
                        Some (LeafKey (mkLeafKey 5 (Some 105)))]))
  ∧ ¬ (∃ T' rest, getFront 7 exampleTree 0 []
                  = Some (T', leafKeyOf (nodes exampleTree) 1 :: rest)).
Proof.
  assert (getFront 7 exampleTree 0 []
          = Some (exampleTree,
                  [Some (NodeKey (mkNodeKey (Some 1)));
                   Some (NodeKey (mkNodeKey (Some 0)));
                   Some (LeafKey (mkLeafKey 1 (Some 101)));
                   Some (LeafKey (mkLeafKey 6 (Some 106)));
                   Some (LeafKey (mkLeafKey 5 (Some 105)))])) as HG
    by (vm_compute; reflexivity).
  split; [by vm_compute|]. split; [apply exampleTree_chain|].
  split; [by vm_compute|]. split; [by vm_compute|].
  split; [by vm_compute|]. split; [by vm_compute|]. split; [exact HG|].
  split.
  - destruct (front 7 exampleTree 0 []) as [[T' keys]|] eqn:HF;
      [|by vm_compute in HF].
    exists T'. vm_compute in HF. by injection HF as _ <-.
  - intros (T' & rest & H). rewrite HG in H. vm_compute in H. done.
Qed.

(** * What [front] changes *)

Lemma front_effect_refl T : front_effect T T.
Proof.
  repeat split; auto. exists []. rewrite app_nil_r. split; [done|].
  by intros a ?%elem_of_nil.
Qed.

Lemma front_effect_trans T1 T2 T3 :
  front_effect T1 T2 → front_effect T2 T3 → front_effect T1 T3.
Proof.
  intros (Hr1 & Hp1 & Hi1 & Hk1 & Hn1 & Hf1 & l1 & Hl1 & Hin1)
         (Hr2 & Hp2 & Hi2 & Hk2 & Hn2 & Hf2 & l2 & Hl2 & Hin2).
  repeat split; try congruence.
  - intros a. destruct (Hn2 a) as [H2|(n2 & H2 & Hs2 & H2')].
    + rewrite H2. apply Hn1.
    + destruct (Hn1 a) as [H1|(n1 & H1 & Hs1 & H1')].
      * right. exists n2. by rewrite <- H1.
      * rewrite H1' in H2. injection H2 as <-. done.
  - intros i. destruct (Hf2 i) as [H2|(inf2 & H2 & H2')].
    + rewrite H2. apply Hf1.
    + destruct (Hf1 i) as [H1|(inf1 & H1 & H1')].
      * right. exists inf2. by rewrite <- H1.
      * right. exists inf1. split; [done|]. rewrite H2'.
        rewrite H1' in H2. by injection H2 as <-.
  - exists (l1 ++ l2). split; [by rewrite Hl2, Hl1, app_assoc|].
    intros a [Ha|Ha]%elem_of_app; [by apply Hin1|].
    destruct (Hin2 a Ha) as (n & Hn & Hs).
    destruct (Hn1 a) as [H1|(n1 & H1 & Hs1 & H1')].
    + exists n. by rewrite <- H1.
    + rewrite H1' in Hn. injection Hn as <-. done.
Qed.

Lemma isIndicator_status n :
  isIndicator n = true → m_status n = PQNodeStatus.Indicator.
Proof. unfold isIndicator. by intros ?%bool_decide_eq_true. Qed.

Lemma front_effect_setChangeDir i T T' :
  setChangeDir i T = Some T' → front_effect T T'.
Proof.
  unfold setChangeDir. destruct (infos T !! i) as [inf|] eqn:Hi; [|done].
  intros [= <-]. repeat split; auto.
  - intros j. simpl. destruct (decide (i = j)) as [<-|Hne].
    + right. exists inf. by rewrite lookup_insert_eq.
    + left. by rewrite lookup_insert_ne.
  - exists []. simpl. rewrite app_nil_r. split; [done|].
    by intros a ?%elem_of_nil.
Qed.

Lemma front_effect_pushPertinent a n T :
  nodes T !! a = Some n → isIndicator n = true →
  front_effect T (pushPertinent a T).
Proof.
  intros Ha Hi. repeat split; auto. exists [a]. split; [done|].
  intros b ->%list_elem_of_singleton. exists n.
  split; [done|by apply isIndicator_status].
Qed.

Lemma front_effect_destroyNode a n T :
  nodes T !! a = Some n → isIndicator n = true →
  front_effect T (destroyNode a T).
Proof.
  intros Ha Hi. repeat split; auto.
  - intros b. simpl. destruct (decide (a = b)) as [<-|Hne].
    + right. exists n. rewrite lookup_alter_eq, Ha.
      split; [done|]. split; [by apply isIndicator_status|done].
    + left. by rewrite lookup_alter_ne.
  - exists []. simpl. rewrite app_nil_r. split; [done|].
    by intros b ?%elem_of_nil.
Qed.

Lemma front_siblings_effect fuel T firstSon nextSon oldSib S keys T' S' keys' :
  front_siblings fuel T firstSon nextSon oldSib S keys = Some (T', S', keys') →
  front_effect T T'.
Proof.
  revert T nextSon oldSib S keys.
  induction fuel as [|fuel IH]; intros T [a|] oldSib S keys; simpl;
    try (intros [= <- <- <-]; apply front_effect_refl).
  - case_decide; [|done]. intros [= <- <- <-]; apply front_effect_refl.
  - case_decide; [intros [= <- <- <-]; apply front_effect_refl|].
    destruct (nodes T !! a) as [n|] eqn:Ha; [|done].
    destruct (isIndicator n) eqn:Hi; [|apply IH].
    match goal with
    | |- match ?x with _ => _ end = _ → _ => destruct x as [T1|] eqn:HT1
    end; [|done].
    intros Hrec. apply IH in Hrec.
    assert (front_effect T T1 ∧ nodes T1 = nodes T) as [H1 Hn1].
    { case_decide.
      - destruct (m_pointerToInfo n) as [k|]; [|done].
        destruct (m_userStructInfo k) as [i|]; [|done].
        split; [by eapply front_effect_setChangeDir|].
        unfold setChangeDir in HT1. destruct (infos T !! i); [|done].
        by injection HT1 as <-.
      - injection HT1 as <-. split; [apply front_effect_refl|done]. }
    eapply front_effect_trans; [exact H1|].
    eapply front_effect_trans; [|exact Hrec].
    eapply front_effect_pushPertinent; [by rewrite Hn1|done].
Qed.

Lemma front_body_effect fuel T a S keys T' S' keys' :
  front_body fuel T a S keys = Some (T', S', keys') → front_effect T T'.
Proof.
  unfold front_body. destruct (nodes T !! a) as [c|]; [|done].
  case_decide; [intros [= <- <- <-]; apply front_effect_refl|].
  destruct (firstSonOf c) as [f|]; [|done].
  destruct (nodes T !! f) as [fn|] eqn:Hf; [|done].
  destruct (isIndicator fn) eqn:Hi.
  - destruct (nodes (destroyNode f (pushPertinent f T)) !! f); [|done].
    intros Hrec%front_siblings_effect.
    eapply front_effect_trans; [|exact Hrec].
    eapply front_effect_trans.
    + by eapply front_effect_pushPertinent.
    + by eapply front_effect_destroyNode.
  - rewrite Hf. apply front_siblings_effect.
Qed.

Lemma front_loop_effect n fuel T S keys T' keys' :
  front_loop n fuel T S keys = Some (T', keys') → front_effect T T'.
Proof.
  revert T S keys. induction n as [|n IH]; intros T [|a S] keys; simpl;
    try done; try (intros [= <- <-]; apply front_effect_refl).
  destruct (front_body fuel T a S keys) as [[[T1 S1] keys1]|] eqn:Hb; [|done].
  intros Hrec%IH. eapply front_effect_trans; [|exact Hrec].
  by eapply front_body_effect.
Qed.

Lemma front_not_scheduled fuel T a keys T' keys' :
  front fuel T a keys = Some (T', keys') →
  ∀ b n, nodes T !! b = Some n →
    m_status n ≠ PQNodeStatus.Indicator →
    nodes T' !! b = Some n ∧ ¬ scheduled T T' b.
Proof.
  intros H%front_loop_effect b n Hb Hs.
  destruct H as (_ & _ & _ & _ & Hn & _ & l & Hl & Hin).
  assert (nodes T' !! b = Some n) as Hb'.
  { destruct (Hn b) as [->|(n' & Hn' & Hs' & _)]; [done|]. congruence. }
  split; [done|]. intros [[Hm Hm']|Hm].
  - rewrite Hb' in Hm. rewrite Hb in Hm'. done.
  - rewrite Hl, drop_app_length in Hm.
    destruct (Hin b Hm) as (n' & Hn' & Hs'). congruence.
Qed.

(** X11. The frame of [front].  Whenever [front] returns, the tree differs
    from the one it was called on in nothing but this: nodes whose status
    was Indicator have been appended to the pertinent nodes, nodes whose
    status was Indicator may have the status ToBeDeleted, and [changeDir]
    flags may have been set, none cleared.  No parent, sibling, endmost or
    reference pointer, no type and no key is written; a node that is no
    indicator, a Full node among them, is left exactly as it is and is not
    scheduled.  On a subtree that the scan walks through without meeting an
    indicator twice, [front] returns and the nodes it appends are exactly
    the indicators it has met, in the order of the scan. *)
Theorem front_marks_indicators_only (T : EmbedPQTree) :
  (∀ fuel a keys T' keys',
     front fuel T a keys = Some (T', keys') →
     front_effect T T'
     ∧ ∀ b n, nodes T !! b = Some n →
         m_status n ≠ PQNodeStatus.Indicator →
         nodes T' !! b = Some n ∧ ¬ scheduled T T' b)
  ∧ (∀ fuel a popped inds keys keys0,
       scan (nodes T) [a] popped inds keys → NoDup inds →
       indicators_have_info (nodes T) (infos T) →
       length popped + length inds ≤ fuel →
       ∃ T', front fuel T a keys0 = Some (T', keys0 ++ keys)
             ∧ m_pertinentNodes T' = m_pertinentNodes T ++ inds).
Proof.
  split.
  - intros fuel a keys T' keys' H. split.
    + by eapply front_loop_effect.
    + by eapply front_not_scheduled.
  - intros fuel a popped inds keys keys0. apply front_scan.
Qed.

Lemma front_marks_indicators_only_witness :
  ∃ T', front 7 exampleTree 0 []
        = Some (T', [Some (NodeKey (mkNodeKey (Some 1)));
                     Some (NodeKey (mkNodeKey (Some 0)));
                     Some (LeafKey (mkLeafKey 1 (Some 101)));
                     Some (LeafKey (mkLeafKey 6 (Some 106)));
                     Some (LeafKey (mkLeafKey 5 (Some 105)))])
        ∧ m_pertinentNodes T' = [1; 5; 6; 3; 0; 4; 2].
Proof.
  destruct (front_marks_indicators_only exampleTree) as [_ H].
  apply (H 7 0 [0; 1; 3; 6; 5] [4; 2] _ [] exampleTree_scan).
  - apply NoDup_ListNoDup. repeat constructor; simpl; intuition lia.
  - apply exampleTree_info.
  - simpl. lia.
Defined.

(** C4, at the failing input.  [front] on the Q-node 0 of [exampleTree], a
    tree as a reduction of all its leaves leaves it (every node but the two
    indicators is Full and is among the pertinent nodes): the call visits the
    Full nodes 0, 1, 3, 5 and 6, emits the keys of the leaves, and returns
    with every one of these nodes as it was, its status Full; it appends the
    two indicators 4 and 2 to the pertinent nodes and nothing else.  No Full
    node is marked or entered by [front]. *)
Theorem front_leaves_full_nodes :
  ∃ T',
    front 7 exampleTree 0 []
    = Some (T', [Some (NodeKey (mkNodeKey (Some 1)));
                 Some (NodeKey (mkNodeKey (Some 0)));
                 Some (LeafKey (mkLeafKey 1 (Some 101)));
                 Some (LeafKey (mkLeafKey 6 (Some 106)));
                 Some (LeafKey (mkLeafKey 5 (Some 105)))])
    ∧ scan (nodes exampleTree) [0] [0; 1; 3; 6; 5] [4; 2]
        [Some (NodeKey (mkNodeKey (Some 1)));
         Some (NodeKey (mkNodeKey (Some 0)));
         Some (LeafKey (mkLeafKey 1 (Some 101)));
         Some (LeafKey (mkLeafKey 6 (Some 106)));
         Some (LeafKey (mkLeafKey 5 (Some 105)))]
    ∧ m_pertinentNodes exampleTree = [1; 5; 6; 3; 0]
    ∧ m_pertinentNodes T' = [1; 5; 6; 3; 0; 4; 2]
    ∧ ∀ b, b ∈ [0; 1; 3; 6; 5] →
        m_status <$> nodes exampleTree !! b = Some PQNodeStatus.Full
        ∧ nodes T' !! b = nodes exampleTree !! b
        ∧ ¬ scheduled exampleTree T' b.
Proof.
  destruct (front_scan 7 exampleTree 0 [0; 1; 3; 6; 5] [4; 2] _ []
              exampleTree_scan) as (T' & HF & HP).
  - apply NoDup_ListNoDup. repeat constructor; simpl; intuition lia.
  - apply exampleTree_info.
  - simpl. lia.
  - exists T'. split; [exact HF|]. split; [apply exampleTree_scan|].
    split; [done|]. split; [exact HP|].
    intros b Hb.
    assert (∃ n, nodes exampleTree !! b = Some n
                 ∧ m_status n = PQNodeStatus.Full) as (n & Hn & Hs).
    { repeat (apply elem_of_cons in Hb as [->|Hb]);
        [eexists; split; [by vm_compute|done]..|].
      by apply elem_of_nil in Hb. }
    destruct (front_not_scheduled _ _ _ _ _ _ HF b n Hn) as [Hb' Hns].
    { by rewrite Hs. }
    split; [by rewrite Hn; simpl; rewrite Hs|]. split; [congruence|done].
Qed.

(** * Direction indicators *)

(** ** The buckets of [ReplaceRoot] *)

Lemma bucket_cons I b e nf :
  bucket I b (e :: nf)
  = match bucketEntry I b e with
    | Some y => y :: bucket I b nf
    | None => bucket I b nf
    end.
Proof. done. Qed.

Lemma edges_cons e (nf : keys_t) :
  omap entryEdge (e :: nf)
  = match entryEdge e with
    | Some y => y :: omap entryEdge nf
    | None => omap entryEdge nf
    end.
Proof. done. Qed.

Lemma checkFrontier_buckets I nodeFrontier frontier opposed nonOpposed :
  (∀ e, e ∈ nodeFrontier → e ≠ None) →
  (∀ e i, e ∈ nodeFrontier → entryInfo e = Some i → is_Some (I !! i)) →
  checkFrontier I nodeFrontier frontier opposed nonOpposed
  = Some (frontier ++ omap entryEdge nodeFrontier,
          opposed ++ bucket I true nodeFrontier,
          nonOpposed ++ bucket I false nodeFrontier).
Proof.
  revert frontier opposed nonOpposed.
  induction nodeFrontier as [|e nf IH]; intros f o n Hnn Hinfo.
  - simpl. by rewrite !app_nil_r.
  - assert (∀ e, e ∈ nf → e ≠ None) as Hnn'
      by (intros e' He'; apply Hnn; by right).
    assert (∀ e' i, e' ∈ nf → entryInfo e' = Some i → is_Some (I !! i))
      as Hinfo' by (intros e' i He'; apply Hinfo; by right).
    destruct e as [k|]; [|by destruct (Hnn None); [left|]].
    pose proof (Hinfo (Some k)) as Hk.
    rewrite edges_cons, !bucket_cons. unfold bucketEntry, entryEdge.
    cbn [checkFrontier entryInfo mbind option_bind] in *.
    destruct (userStructKey k) as [ed|] eqn:Hed.
    + rewrite IH by done. simpl. by rewrite <- app_assoc.
    + destruct (userStructInfo k) as [i|] eqn:Hi; simpl.
      * destruct (Hk i) as [info Hinf]; [by left|done|].
        rewrite Hinf. simpl.
        destruct (changeDir info) eqn:Hcd; simpl; rewrite IH by done;
          by rewrite <- ?app_assoc.
      * by rewrite IH.
Qed.

(** ** The flags set by [front] *)

Lemma flag1_lookup I i j :
  flag1 I i !! j
  = if decide (i = j)
    then (λ info, mkIndInfo (getAssociatedNode info) true) <$> I !! j
    else I !! j.
Proof.
  unfold flag1. case_decide as Hd.
  - subst j. destruct (I !! i) eqn:Hi; [by rewrite lookup_insert_eq|].
    by rewrite Hi.
  - destruct (I !! i); [by rewrite lookup_insert_ne|done].
Qed.

Lemma flagAll_lookup ids I j :
  flagAll ids I !! j
  = if decide (j ∈ ids)
    then (λ info, mkIndInfo (getAssociatedNode info) true) <$> I !! j
    else I !! j.
Proof.
  revert I. induction ids as [|i ids IH]; intros I.
  - rewrite decide_False; [done|apply not_elem_of_nil].
  - unfold flagAll in *. cbn [foldl]. rewrite IH. rewrite !flag1_lookup.
    destruct (decide (i = j)) as [->|Hne].
    + rewrite (decide_True (P := j ∈ j :: ids)) by (by left).
      case_decide; [|done]. by destruct (I !! j).
    + case_decide as Hin.
      * rewrite decide_True; [done|by right].
      * rewrite decide_False; [done|].
        intros [?|?]%elem_of_cons; congruence.
Qed.

Lemma front_siblings_infos fuel T h firstSon nextSon oldSib w S keys
    T' S' keys' :
  walk h firstSon nextSon oldSib w →
  (∀ a, a ∈ w → nodes T !! a = h !! a) →
  front_siblings fuel T firstSon nextSon oldSib S keys = Some (T', S', keys') →
  infos T'
  = flagAll (omap (infoOf h) (enteredFromLeft h oldSib w)) (infos T).
Proof.
  intros Hw. revert fuel T S keys.
  induction Hw as [old|old|a old n w Hne Ha Hw IH]; intros fuel T S keys Hag.
  - destruct fuel; simpl; by intros [= <- _ _].
  - destruct fuel; simpl; rewrite decide_True by done; by intros [= <- _ _].
  - destruct fuel as [|fuel]; simpl; rewrite decide_False by done; [done|].
    rewrite (Hag a) by (by left). rewrite Ha.
    pose proof (is_indicator_lookup _ _ _ Ha) as Hia. rewrite Hia. simpl.
    destruct (isIndicator n) eqn:Hi; simpl.
    + case_decide as Hd.
      * rewrite bool_decide_eq_true_2 by done. simpl.
        unfold infoOf at 1. rewrite Ha. simpl.
        destruct (m_pointerToInfo n) as [k|]; [|done]. simpl.
        destruct (m_userStructInfo k) as [i|]; [|done]. simpl.
        unfold setChangeDir. unfold flagAll. simpl. unfold flag1 at 2.
        destruct (infos T !! i) as [info|] eqn:Hinfo; [|done].
        intros Hrec. eapply IH in Hrec; [by rewrite Hrec|].
        intros b Hb. simpl. apply Hag. by right.
      * rewrite bool_decide_eq_false_2 by done. simpl.
        intros Hrec. eapply IH in Hrec; [by rewrite Hrec|].
        intros b Hb. simpl. apply Hag. by right.
    + intros Hrec. eapply IH in Hrec; [by rewrite Hrec|].
      intros b Hb. apply Hag. by right.
Qed.

Lemma enteredFromLeft_subset h old w x :
  x ∈ enteredFromLeft h old w → x ∈ w.
Proof.
  revert old. induction w as [|a w IH]; intros old; simpl.
  - by intros ?%elem_of_nil.
  - intros [Hx|Hx]%elem_of_app.
    + destruct (_ && _); [|by apply elem_of_nil in Hx].
      apply list_elem_of_singleton in Hx. subst. by left.
    + right. by eapply IH.
Qed.

Lemma enteredFromLeft_split h old w1 a w2 :
  enteredFromLeft h old (w1 ++ a :: w2)
  = enteredFromLeft h old w1
    ++ (if is_indicator h a
           && bool_decide ((h !! a ≫= m_sibLeft)
                           = Some (default old (last w1)))
        then [a] else [])
    ++ enteredFromLeft h a w2.
Proof.
  revert old. induction w1 as [|b w1 IH]; intros old; [done|].
  simpl. rewrite IH. rewrite <- app_assoc.
  assert (default b (last w1) = default old (last (b :: w1))) as ->; [|done].
  destruct w1 as [|b' w1]; [done|].
  change (last (b :: b' :: w1)) with (last (b' :: w1)).
  destruct (last (b' :: w1)) eqn:E; [done|by apply last_None in E].
Qed.

(** The flags after one round of the outer loop of [front] on a Q-node
    whose children are [l0 ++ [f]]. *)
Lemma front_body_QNode_infos fuel T p c l0 f S keys T' S' keys' :
  nodes T !! p = Some c → m_type c = PQNodeType.QNode →
  chain (nodes T) None (l0 ++ [f]) None → NoDup (l0 ++ [f]) →
  m_rightEndmost c = Some f →
  front_body fuel T p S keys = Some (T', S', keys') →
  infos T'
  = flagAll (omap (infoOf (nodes T)) (enteredFromLeft (nodes T) f (reverse l0)))
      (infos T).
Proof.
  intros Hp Hty Hc Hnd HR.
  destruct (sons_QNode (nodes T) c (l0 ++ [f]) Hty Hc Hnd)
    as (f' & fn & w' & Hf' & Hfn & Hw & Heq).
  { by destruct l0. }
  { by rewrite last_snoc. }
  rewrite reverse_snoc in Heq. injection Heq as <- <-.
  unfold front_body. rewrite Hp. rewrite decide_False by (by rewrite Hty).
  rewrite Hf', Hfn.
  destruct (isIndicator fn) eqn:Hi.
  - unfold destroyNode, update. simpl. rewrite lookup_alter_eq, Hfn. simpl.
    change (getNextSib (set_status PQNodeStatus.ToBeDeleted fn) None)
      with (getNextSib fn None).
    intros H. eapply (front_siblings_infos _ _ (nodes T)) in H; [done|done|].
    intros b Hb. simpl. rewrite lookup_alter_ne; [done|].
    intros ->. by eapply walk_elem_ne.
  - rewrite Hfn. intros H.
    by eapply (front_siblings_infos _ _ (nodes T)) in H.
Qed.

Lemma enteredFromLeft_indicator h old w x :
  x ∈ enteredFromLeft h old w → is_indicator h x = true.
Proof.
  revert old. induction w as [|a w IH]; intros old; simpl.
  - by intros ?%elem_of_nil.
  - intros [Hx|Hx]%elem_of_app; [|by eapply IH].
    destruct (is_indicator h a) eqn:Hi; simpl in Hx.
    + destruct (bool_decide _); [|by apply elem_of_nil in Hx].
      apply list_elem_of_singleton in Hx. by subst.
    + by apply elem_of_nil in Hx.
Qed.

Lemma elem_of_omap_infoOf h (l : list addr) i :
  i ∈ omap (infoOf h) l ↔ ∃ b, b ∈ l ∧ infoOf h b = Some i.
Proof. apply list_elem_of_omap. Qed.

Lemma head_snoc_default (l : list nat) (f : nat) :
  head (l ++ [f]) = Some (default f (head l)).
Proof. by destruct l. Qed.

(** One indicator child of a Q-node through one round of [front]. *)
Lemma front_body_changeDir fuel T p c l S keys T' S' keys'
    l1 a l2 n i inf :
  nodes T !! p = Some c → m_type c = PQNodeType.QNode →
  chain (nodes T) None l None → NoDup l →
  m_rightEndmost c = last l →
  front_body fuel T p S keys = Some (T', S', keys') →
  l = l1 ++ a :: l2 →
  nodes T !! a = Some n → isIndicator n = true → m_sibLeft n ≠ None →
  infoOf (nodes T) a = Some i → infos T !! i = Some inf →
  changeDir inf = false →
  (∀ b, b ∈ l → b ≠ a → is_indicator (nodes T) b = true →
        infoOf (nodes T) b ≠ Some i) →
  ∃ inf', infos T' !! i = Some inf'
          ∧ getAssociatedNode inf' = getAssociatedNode inf
          ∧ (changeDir inf' = true ↔ m_sibLeft n ≠ last l1).
Proof.
  intros Hp Hty Hc Hnd HR Hbody -> Ha Hi HL Hinfo Hinf Hcd Huniq.
  destruct (chain_lookup _ _ _ _ _ _ Hc) as (n' & Ha' & Hs).
  rewrite Ha in Ha'. injection Ha' as <-. rewrite !or_else_None in Hs.
  pose proof (is_indicator_lookup _ _ _ Ha) as Hia. rewrite Hi in Hia.
  assert (∀ ids : list nat, (i ∈ ids ↔ False) →
            flagAll ids (infos T) !! i = Some inf) as Hno.
  { intros ids Hids. rewrite flagAll_lookup, decide_False; [done|].
    intros Hin. by apply Hids. }
  assert (∀ E : list nat, (∀ b, b ∈ E → b ∈ l1 ++ a :: l2 ∧
                              is_indicator (nodes T) b = true) →
            (i ∈ omap (infoOf (nodes T)) E ↔ a ∈ E)) as Hmem.
  { intros E HE. rewrite elem_of_omap_infoOf. split.
    - intros (b & Hb & Hbi). destruct (decide (b = a)) as [->|Hne]; [done|].
      destruct (HE b Hb) as [Hbl Hbind]. by destruct (Huniq b Hbl Hne Hbind).
    - intros HaE. by exists a. }
  destruct l2 as [|f l2 _] using rev_ind.
  - (* the indicator is the right endmost child: the first son *)
    rewrite last_snoc in HR.
    pose proof (front_body_QNode_infos _ _ _ _ _ _ _ _ _ _ _
                  Hp Hty Hc Hnd HR Hbody) as ->.
    exists inf. split; [|split; [done|]].
    + apply Hno. rewrite Hmem.
      * split; [|done]. intros Hin%enteredFromLeft_subset.
        rewrite elem_of_reverse in Hin.
        apply NoDup_app in Hnd as (_ & Hd & _). apply (Hd a Hin). by left.
      * intros b Hb. split; [|by eapply enteredFromLeft_indicator].
        apply enteredFromLeft_subset in Hb. rewrite elem_of_reverse in Hb.
        apply elem_of_app. by left.
    + rewrite Hcd. split; [done|]. intros Hne. simpl in Hs.
      destruct Hs as [[? ?]|[? ?]]; congruence.
  - (* the indicator has a right neighbour *)
    assert (l1 ++ a :: l2 ++ [f] = (l1 ++ a :: l2) ++ [f]) as Heq
      by (by rewrite <- app_assoc).
    rewrite Heq in Hc, Hnd, HR. rewrite last_snoc in HR.
    pose proof (front_body_QNode_infos _ _ _ _ _ _ _ _ _ _ _
                  Hp Hty Hc Hnd HR Hbody) as ->.
    rewrite head_snoc_default in Hs. set (hd := default f (head l2)) in *.
    assert (last l1 ≠ Some hd) as Hne.
    { intros Hl. rewrite <- Heq in Hnd.
      apply NoDup_app in Hnd as (_ & Hd & _).
      apply (Hd hd).
      - destruct l1 as [|x l1 _] using rev_ind; [done|].
        rewrite last_snoc in Hl. injection Hl as ->.
        apply elem_of_app. right. by left.
      - right. subst hd. destruct l2 as [|y l2]; simpl; by left. }
    assert (a ∈ enteredFromLeft (nodes T) f (reverse (l1 ++ a :: l2))
            ↔ m_sibLeft n = Some hd) as Hent.
    { rewrite reverse_app, reverse_cons, <- app_assoc. simpl.
      rewrite enteredFromLeft_split, last_reverse, Hia, Ha. simpl.
      fold hd. rewrite !elem_of_app. split.
      - intros [Hin|[Hin|Hin]].
        + apply enteredFromLeft_subset in Hin. rewrite elem_of_reverse in Hin.
          rewrite <- Heq in Hnd. apply NoDup_app in Hnd as (_ & _ & Hnd).
          apply NoDup_cons in Hnd as [Hnd _]. destruct Hnd.
          apply elem_of_app. by left.
        + case_bool_decide; [done|by apply elem_of_nil in Hin].
        + apply enteredFromLeft_subset in Hin. rewrite elem_of_reverse in Hin.
          rewrite <- Heq in Hnd. apply NoDup_app in Hnd as (_ & Hd & _).
          destruct (Hd a Hin). by left.
      - intros Hl. right. left. rewrite bool_decide_eq_true_2 by done.
        by left. }
    assert (i ∈ omap (infoOf (nodes T))
                  (enteredFromLeft (nodes T) f (reverse (l1 ++ a :: l2)))
            ↔ m_sibLeft n = Some hd) as Hi'.
    { rewrite Hmem; [done|]. intros b Hb.
      split; [|by eapply enteredFromLeft_indicator].
      apply enteredFromLeft_subset in Hb. rewrite elem_of_reverse in Hb.
      rewrite Heq. apply elem_of_app. by left. }
    rewrite flagAll_lookup. case_decide as Hd.
    + rewrite Hinf. simpl. eexists. split; [done|]. split; [done|]. simpl.
      split; [|done]. intros _. apply Hi' in Hd. congruence.
    + rewrite Hinf. exists inf. split; [done|]. split; [done|].
      rewrite Hcd. split; [done|]. intros Hl. destruct Hd. apply Hi'.
      destruct Hs as [[? ?]|[? ?]]; congruence.
Qed.

(** ** The flags set by [ReplacePartialRoot] *)

Lemma removeChildFromSiblings_infos a T :
  infos (removeChildFromSiblings a T) = infos T.
Proof.
  unfold removeChildFromSiblings. destruct (nodes T !! a) as [n|]; [|done].
  destruct (m_referenceParent n), (m_sibLeft n), (m_sibRight n);
    repeat case_decide; try done; destruct (endmostChild n); try done;
    by destruct (getNextSib n None), (m_parent n).
Qed.

Lemma scanIndicators_body_changeDir T currentNode a n i inf :
  nodes T !! a = Some n → infoOf (nodes T) a = Some i →
  infos T !! i = Some inf → changeDir inf = false →
  ∃ T' nextInd,
    scanIndicators_body T currentNode a
    = Some (T', nextInd, infoKey (nodes T) a)
    ∧ ∃ inf', infos T' !! i = Some inf'
              ∧ getAssociatedNode inf' = getAssociatedNode inf
              ∧ (changeDir inf' = true ↔ m_sibRight n = Some currentNode).
Proof.
  intros Ha Hi Hinf Hcd. unfold scanIndicators_body, PQTree_clientNextSib.
  unfold infoOf in Hi. unfold infoKey. rewrite Ha in *. simpl in *.
  destruct (m_pointerToInfo n) as [k|]; [|done]. simpl in *. rewrite Hi.
  simpl. unfold setChangeDir. rewrite Hinf.
  destruct (decide (Some currentNode = m_sibRight n)) as [Heq|Hne]; simpl.
  - eexists _, _. split; [done|].
    cbn [infos pushPertinent set_pertinentNodes].
    rewrite removeChildFromSiblings_infos.
    simpl. rewrite lookup_insert_eq. eexists. split; [done|].
    split; [done|]. done.
  - eexists _, _. split; [done|].
    cbn [infos pushPertinent set_pertinentNodes].
    rewrite removeChildFromSiblings_infos.
    exists inf. split; [done|]. split; [done|]. rewrite Hcd.
    split; [done|]. congruence.
Qed.

(** C3. Part one, the loop that closes [ReplaceRoot]: when no entry of the
    scanned frontier is null and every [IndInfo] exists, the loop returns;
    the edges of the leaf entries are appended to [frontier], and the vertex
    of every indicator entry is appended to [opposed] if its [changeDir] flag
    is set and to [nonOpposed] otherwise.  Part two, the flag: one round of
    [front] on a Q-node whose children are the chain [l] from left to right
    returns, and for a child [a] that is an indicator with a left pointer,
    an [IndInfo] of its own and the flag still unset as at creation, the
    flag is set afterwards exactly when the left pointer of [a] does not show
    the sibling before it in [l], the one from which the frontier enters
    it.  Part three, the indicators between two full children of a partial
    root: one round of the loop of [ReplacePartialRoot] over them returns,
    and the flag of the indicator, unset before, is set afterwards exactly
    when its right pointer shows the full child [currentNode] that the scan
    comes from. *)
Theorem indicators_opposed_iff_changeDir :
  (∀ I nodeFrontier frontier opposed nonOpposed,
     (∀ e, e ∈ nodeFrontier → e ≠ None) →
     (∀ e i, e ∈ nodeFrontier → entryInfo e = Some i → is_Some (I !! i)) →
     checkFrontier I nodeFrontier frontier opposed nonOpposed
     = Some (frontier ++ omap entryEdge nodeFrontier,
             opposed ++ bucket I true nodeFrontier,
             nonOpposed ++ bucket I false nodeFrontier))
  ∧ (∀ fuel T p c l S keys,
       nodes T !! p = Some c → m_type c = PQNodeType.QNode →
       chain (nodes T) None l None → NoDup l → l ≠ [] →
       m_leftEndmost c = head l → m_rightEndmost c = last l →
       indicators_have_info (nodes T) (infos T) →
       length l < fuel →
       ∃ T' S' keys',
         front_body fuel T p S keys = Some (T', S', keys')
         ∧ ∀ l1 a l2 n i inf,
             l = l1 ++ a :: l2 →
             nodes T !! a = Some n → isIndicator n = true →
             m_sibLeft n ≠ None →
             infoOf (nodes T) a = Some i → infos T !! i = Some inf →
             changeDir inf = false →
             (∀ b, b ∈ l → b ≠ a → is_indicator (nodes T) b = true →
                   infoOf (nodes T) b ≠ Some i) →
             ∃ inf', infos T' !! i = Some inf'
                     ∧ getAssociatedNode inf' = getAssociatedNode inf
                     ∧ (changeDir inf' = true ↔ m_sibLeft n ≠ last l1))
  ∧ (∀ T currentNode a n i inf,
       nodes T !! a = Some n → infoOf (nodes T) a = Some i →
       infos T !! i = Some inf → changeDir inf = false →
       ∃ T' nextInd,
         scanIndicators_body T currentNode a
         = Some (T', nextInd, infoKey (nodes T) a)
         ∧ ∃ inf', infos T' !! i = Some inf'
                   ∧ getAssociatedNode inf' = getAssociatedNode inf
                   ∧ (changeDir inf' = true
                      ↔ m_sibRight n = Some currentNode)).
Proof.
  split; [apply checkFrontier_buckets|].
  split; [|apply scanIndicators_body_changeDir].
  intros fuel T p c l S keys Hp Hty Hc Hnd Hne _ HR Hv Hlen.
  pose proof (sons_QNode (nodes T) c l Hty Hc Hnd Hne HR) as Hw.
  destruct (body_sons fuel T p c (reverse l) S keys) as [_ (T' & HT')];
    [done|by rewrite Hty|done|done|rewrite length_reverse; lia|].
  eexists T', _, _. split; [exact HT'|].
  intros l1 a l2 n i inf. by eapply front_body_changeDir.
Qed.

Lemma exampleIndicators_info :
  indicators_have_info (nodes exampleIndicators) (infos exampleIndicators).
Proof.
  intros a n Ha Hi. unfold exampleIndicators in Ha. cbn [nodes] in Ha.
  heap_cases Ha; try discriminate Hi.
  - exists (mkNodeKey (Some 0)), 0. split; [done|]. split; [done|].
    eexists. by vm_compute.
  - exists (mkNodeKey (Some 1)), 1. split; [done|]. split; [done|].
    eexists. by vm_compute.
Qed.

Lemma indicators_opposed_iff_changeDir_witness :
  checkFrontier (infos exampleIndicators)
    [Some (LeafKey (mkLeafKey 1 (Some 101)));
     Some (NodeKey (mkNodeKey (Some 0)))] [] [] []
  = Some ([101], [], [7])
  ∧ (∃ T' S' keys',
      front_body 5 exampleIndicators 0 [] [] = Some (T', S', keys')
      ∧ ∃ inf', infos T' !! 0 = Some inf' ∧ changeDir inf' = true)
  ∧ ∃ T' nextInd,
      scanIndicators_body exampleIndicators 1 2
      = Some (T', nextInd, Some (NodeKey (mkNodeKey (Some 0))))
      ∧ ∃ inf', infos T' !! 0 = Some inf' ∧ changeDir inf' = true.
Proof.
  destruct indicators_opposed_iff_changeDir as (H1 & H2 & H3).
  split; [|split].
  - rewrite H1; [done| |].
    + intros e He. repeat (apply elem_of_cons in He as [->|He]; [done|]).
      by apply elem_of_nil in He.
    + intros e i He.
      repeat (apply elem_of_cons in He as [->|He];
              [intros [= <-]; eexists; by vm_compute|]).
      by apply elem_of_nil in He.
  - destruct (H2 5 exampleIndicators 0
      (mkNode PQNodeType.QNode PQNodeStatus.Empty None None None
         (Some 1) (Some 4) None None 4%Z None None [] 0)
      [1; 2; 3; 4] [] []) as (T' & S' & keys' & Hb & Hflag); try done.
    + apply exampleIndicators_chain.
    + apply NoDup_ListNoDup. repeat constructor; simpl; intuition lia.
    + apply exampleIndicators_info.
    + simpl. lia.
    + exists T', S', keys'. split; [done|].
      destruct (Hflag [1] 2 [3; 4]
        (mkNode PQNodeType.Leaf PQNodeStatus.Indicator (Some 0) (Some 3)
           (Some 1) None None None None 0%Z None
           (Some (mkNodeKey (Some 0))) [] 0)
        0 (newIndInfo 7)) as (inf' & Hi' & _ & Hcd); try done.
      * intros b Hb' Hne Hind.
        repeat (apply elem_of_cons in Hb' as [->|Hb']; [done|]).
        by apply elem_of_nil in Hb'.
      * exists inf'. split; [done|]. by apply Hcd.
  - destruct (H3 exampleIndicators 1 2
      (mkNode PQNodeType.Leaf PQNodeStatus.Indicator (Some 0) (Some 3)
         (Some 1) None None None None 0%Z None
         (Some (mkNodeKey (Some 0))) [] 0)
      0 (newIndInfo 7)) as (T' & nextInd & Hb & inf' & Hi' & _ & Hcd);
      try done.
    exists T', nextInd. split; [done|].
    exists inf'. split; [done|]. by apply Hcd.
Defined.

(** * Building the tree *)

Lemma lchain_chain h p l q : lchain h p l q → chain h p l q.
Proof.
  revert p. induction l as [|a l IH]; intros p; simpl; [done|].
  intros (n & Ha & HL & HR & Hc). exists n. split; [done|].
  split; [by left|by apply IH].
Qed.

Lemma lchain_ext h h' p l q :
  (∀ a, a ∈ l → h' !! a = h !! a) → lchain h p l q → lchain h' p l q.
Proof.
  revert p. induction l as [|a l IH]; intros p Hext; simpl; [done|].
  intros (n & Ha & HL & HR & Hc). exists n.
  rewrite Hext by (by left). repeat split; try done.
  apply IH; [|done]. intros b Hb. apply Hext. by right.
Qed.

Lemma lchain_alter h f a p l q :
  (∀ n, m_sibLeft (f n) = m_sibLeft n ∧ m_sibRight (f n) = m_sibRight n) →
  lchain h p l q → lchain (alter f a h) p l q.
Proof.
  intros Hf. revert p. induction l as [|b l IH]; intros p; simpl; [done|].
  intros (n & Hb & HL & HR & Hc).
  destruct (decide (a = b)) as [->|Hne].
  - exists (f n). rewrite lookup_alter_eq, Hb. destruct (Hf n) as [-> ->].
    repeat split; try done. by apply IH.
  - exists n. rewrite lookup_alter_ne by done. repeat split; try done.
    by apply IH.
Qed.

Lemma lchain_set_last h p l lst q :
  lchain h p l None → NoDup l → last l = Some lst →
  lchain (alter (set_sibRight q) lst h) p l q.
Proof.
  revert p. induction l as [|a l IH]; intros p; simpl; [done|].
  intros (n & Ha & HL & HR & Hc) Hnd Hlast.
  apply NoDup_cons in Hnd as [Hal Hnd].
  destruct l as [|b l].
  - simpl in Hlast. injection Hlast as ->.
    exists (set_sibRight q n). rewrite lookup_alter_eq, Ha.
    repeat split; done.
  - change (last (a :: b :: l)) with (last (b :: l)) in Hlast.
    assert (a ≠ lst) as Hne.
    { intros ->. apply Hal. by eapply last_Some_elem_of. }
    exists n. rewrite lookup_alter_ne by done. repeat split; try done.
    by apply IH.
Qed.

Lemma lchain_set_head h p a l q :
  lchain h None (a :: l) q → a ∉ l →
  lchain (alter (set_sibLeft p) a h) p (a :: l) q.
Proof.
  simpl. intros (n & Ha & HL & HR & Hc) Hal.
  exists (set_sibLeft p n). rewrite lookup_alter_eq, Ha.
  repeat split; try done.
  eapply lchain_ext; [|done]. intros b Hb. rewrite lookup_alter_ne; [done|].
  intros ->. done.
Qed.

Lemma leaf_of_ext h h' father a k :
  h' !! a = h !! a → leaf_of h father a k → leaf_of h' father a k.
Proof. intros Heq (n & Ha & ?). exists n. by rewrite Heq. Qed.

Lemma leaf_of_alter h f b father a k :
  (∀ n, m_type (f n) = m_type n ∧ m_status (f n) = m_status n
        ∧ m_pointerToKey (f n) = m_pointerToKey n
        ∧ m_parent (f n) = m_parent n) →
  leaf_of h father a k → leaf_of (alter f b h) father a k.
Proof.
  intros Hf (n & Ha & H1 & H2 & H3 & H4).
  destruct (decide (b = a)) as [->|Hne].
  - exists (f n). rewrite lookup_alter_eq, Ha.
    destruct (Hf n) as (-> & -> & -> & ->). done.
  - exists n. by rewrite lookup_alter_ne.
Qed.

Lemma Forall2_leaf_of_alter h f b father ls keys :
  (∀ n, m_type (f n) = m_type n ∧ m_status (f n) = m_status n
        ∧ m_pointerToKey (f n) = m_pointerToKey n
        ∧ m_parent (f n) = m_parent n) →
  Forall2 (leaf_of h father) ls keys →
  Forall2 (leaf_of (alter f b h) father) ls keys.
Proof.
  intros Hf H. eapply Forall2_impl; [done|].
  intros a k. by apply leaf_of_alter.
Qed.

(** ** The loop of [addNewLeavesToTree] *)

Lemma newLeaf_spec st key T :
  newLeaf st key T
  = (mkTree (<[fresh (dom (nodes T)) :=
                 blankNode PQNodeType.Leaf st (Some key) None
                   (m_identNumber T)]> (nodes T))
       (infos T) (<[lk_addr key := fresh (dom (nodes T))]> (nodePointer T))
       (m_root T) (m_pertinentRoot T) (m_pertinentNodes T)
       (S (m_identNumber T)), fresh (dom (nodes T)))
  ∧ nodes T !! fresh (dom (nodes T)) = None.
Proof.
  split; [done|]. apply not_elem_of_dom. apply is_fresh.
Qed.

Lemma set_childCount_id c n : c = m_childCount n → set_childCount c n = n.
Proof. destruct n. simpl. by intros ->. Qed.

Lemma set_childCount_twice c c' n :
  set_childCount c (set_childCount c' n) = set_childCount c n.
Proof. done. Qed.

Lemma addNewLeaves_loop_spec father keys oldSon T T' lastSon :
  addNewLeaves_loop father keys oldSon T = (T', lastSon) →
  father ≠ oldSon →
  is_Some (nodes T !! father) → is_Some (nodes T !! oldSon) →
  ∃ ls,
    length ls = length keys ∧ NoDup ls
    ∧ (∀ a, a ∈ ls → nodes T !! a = None)
    ∧ lastSon = default oldSon (last ls)
    ∧ lchain (nodes T') (Some oldSon) ls None
    ∧ Forall2 (leaf_of (nodes T') father) ls keys
    ∧ nodes T' !! oldSon
      = (λ n, match head ls with
              | Some b => set_sibRight (Some b) n
              | None => n
              end) <$> nodes T !! oldSon
    ∧ nodes T' !! father
      = (λ f, set_childCount (m_childCount f + Z.of_nat (length keys))%Z f)
        <$> nodes T !! father
    ∧ (∀ b, b ∉ ls → b ≠ oldSon → b ≠ father →
            nodes T' !! b = nodes T !! b)
    ∧ same_but_nodes T T'.
Proof.
  revert oldSon T. induction keys as [|key rest IH];
    intros oldSon T Hloop Hne [fn Hf] [on Ho].
  - injection Hloop as <- <-. exists []. simpl.
    rewrite Hf, Ho. simpl. split; [done|]. split; [constructor|].
    split; [by intros a ?%elem_of_nil|]. split; [done|]. split; [done|].
    split; [constructor|]. split; [done|]. split; [|done].
    f_equal. symmetry. apply set_childCount_id. lia.
  - cbn [addNewLeaves_loop] in Hloop.
    destruct (newLeaf_spec PQNodeStatus.Empty key T) as [HnL Hfresh].
    rewrite HnL in Hloop. set (a := fresh (dom (nodes T))) in *.
    assert (a ≠ father) as Haf by (intros ->; congruence).
    assert (a ≠ oldSon) as Hao by (intros ->; congruence).
    apply IH in Hloop as (ls & Hlen & Hnd & Hfr & Hlast & Hch & Hlv & Hold
                           & Hfa & Hframe & Hsame); clear IH.
    2: done.
    2: { simpl. rewrite lookup_alter_ne, lookup_alter_eq by done.
         rewrite lookup_alter_ne, lookup_insert_ne by done. rewrite Hf.
         by eexists. }
    2: { simpl. rewrite lookup_alter_ne, lookup_alter_ne by done.
         rewrite lookup_alter_eq, lookup_insert_eq. by eexists. }
    simpl in Hold, Hfa, Hframe, Hfr.
    rewrite lookup_alter_ne, lookup_alter_ne in Hold by done.
    rewrite lookup_alter_eq, lookup_insert_eq in Hold. simpl in Hold.
    rewrite lookup_alter_ne, lookup_alter_eq in Hfa by done.
    rewrite lookup_alter_ne, lookup_insert_ne in Hfa by done.
    rewrite Hf in Hfa. simpl in Hfa.
    assert (a ∉ ls) as Hals.
    { intros Hin. specialize (Hfr a Hin).
      rewrite lookup_alter_ne, lookup_alter_ne in Hfr by done.
      by rewrite lookup_alter_eq, lookup_insert_eq in Hfr. }
    assert (oldSon ∉ ls) as Hols.
    { intros Hin. specialize (Hfr oldSon Hin).
      rewrite lookup_alter_eq in Hfr.
      rewrite lookup_alter_ne, lookup_alter_ne in Hfr by done.
      rewrite lookup_insert_ne in Hfr by done. by rewrite Ho in Hfr. }
    assert (father ∉ ls) as Hfls.
    { intros Hin. specialize (Hfr father Hin).
      rewrite lookup_alter_ne, lookup_alter_eq in Hfr by done.
      rewrite lookup_alter_ne, lookup_insert_ne in Hfr by done.
      by rewrite Hf in Hfr. }
    exists (a :: ls). simpl. repeat split.
    + by rewrite Hlen.
    + by apply NoDup_cons.
    + intros b [->|Hb]%elem_of_cons; [done|].
      specialize (Hfr b Hb).
      destruct (decide (b = oldSon)) as [->|?]; [done|].
      destruct (decide (b = father)) as [->|?]; [done|].
      destruct (decide (b = a)) as [->|?]; [done|].
      rewrite !lookup_alter_ne in Hfr by done.
      by rewrite lookup_insert_ne in Hfr.
    + rewrite Hlast. destruct ls as [|b ls]; [done|].
      change (last (a :: b :: ls)) with (last (b :: ls)).
      destruct (last (b :: ls)) eqn:E; [done|by apply last_None in E].
    + eexists. split; [exact Hold|]. split; [by destruct (head ls)|].
      split; [by destruct (head ls)|done].
    + constructor; [|done]. eexists. split; [exact Hold|].
      by destruct (head ls).
    + rewrite Hframe by done. rewrite lookup_alter_eq.
      rewrite lookup_alter_ne, lookup_alter_ne by done.
      rewrite lookup_insert_ne by done. by rewrite Ho.
    + rewrite Hfa, Hf. simpl. f_equal. rewrite set_childCount_twice.
      f_equal. simpl. lia.
    + intros b Hb Hbo Hbf.
      apply not_elem_of_cons in Hb as [Hba Hb].
      rewrite Hframe by done. rewrite !lookup_alter_ne by done.
      by rewrite lookup_insert_ne.
    + by destruct Hsame as (-> & _).
    + by destruct Hsame as (_ & -> & _).
    + by destruct Hsame as (_ & _ & -> & _).
    + by destruct Hsame as (_ & _ & _ & ->).
Qed.

(** ** [addNewLeavesToTree] below a P-node *)

Lemma addNewLeavesToTree_PNode father keys T fn :
  nodes T !! father = Some fn → m_type fn = PQNodeType.PNode → keys ≠ [] →
  ∃ T' ls,
    addNewLeavesToTree father keys T = Some (T', true)
    ∧ length ls = length keys ∧ NoDup ls
    ∧ (∀ a, a ∈ ls → nodes T !! a = None)
    ∧ lchain (nodes T') (last ls) ls (head ls)
    ∧ Forall2 (leaf_of (nodes T') father) ls keys
    ∧ nodes T' !! father
      = Some (set_referenceChild (head ls)
                (set_childCount
                   (m_childCount fn + Z.of_nat (length keys))%Z fn))
    ∧ (∀ b, b ∉ ls → b ≠ father → nodes T' !! b = nodes T !! b)
    ∧ same_but_nodes T T'.
Proof.
  intros Hf Hty Hkeys. destruct keys as [|key rest]; [done|]. clear Hkeys.
  unfold addNewLeavesToTree.
  destruct (newLeaf_spec PQNodeStatus.Empty key T) as [HnL Hfresh].
  rewrite HnL. set (first := fresh (dom (nodes T))) in *.
  assert (first ≠ father) as Hff by (intros ->; congruence).
  match goal with
  | |- context [addNewLeaves_loop father rest first ?X] => set (T2 := X)
  end.
  destruct (addNewLeaves_loop father rest first T2) as [T3 oldSon] eqn:Hloop.
  assert (nodes T2 !! father
          = Some (set_childCount (m_childCount fn + 1)%Z fn)) as Hf2.
  { subst T2. simpl. rewrite lookup_alter_eq, lookup_alter_ne by done.
    rewrite lookup_insert_ne by done. by rewrite Hf. }
  assert (nodes T2 !! first
          = Some (set_parent (Some father)
                    (blankNode PQNodeType.Leaf PQNodeStatus.Empty (Some key)
                       None (m_identNumber T)))) as Hfirst2.
  { subst T2. simpl. rewrite lookup_alter_ne, lookup_alter_eq by done.
    by rewrite lookup_insert_eq. }
  apply addNewLeaves_loop_spec in Hloop
    as (ls & Hlen & Hnd & Hfr & Hlast & Hch & Hlv & Hold & Hfa & Hframe
        & Hsame); [|done|by rewrite Hf2|by rewrite Hfirst2].
  rewrite Hf2 in Hfa. rewrite Hfirst2 in Hold. simpl in Hfa, Hold.
  rewrite Hfa. simpl. rewrite Hty.
  assert (first ∉ ls) as Hfls.
  { intros Hin. apply Hfr in Hin. by rewrite Hfirst2 in Hin. }
  assert (father ∉ ls) as Hfals.
  { intros Hin. apply Hfr in Hin. by rewrite Hf2 in Hin. }
  assert (last (first :: ls) = Some oldSon) as Hlast'.
  { rewrite Hlast. destruct ls as [|b ls]; [done|].
    change (last (first :: b :: ls)) with (last (b :: ls)).
    destruct (last (b :: ls)) eqn:E; [done|by apply last_None in E]. }
  assert (oldSon ≠ father) as Hof.
  { intros ->. apply last_Some_elem_of in Hlast'.
    apply elem_of_cons in Hlast' as [?|?]; done. }
  eexists _, (first :: ls). split; [done|].
  split; [simpl; by rewrite Hlen|]. split; [by apply NoDup_cons|].
  cbn [nodes head].
  split; [|split; [|split; [|split; [|split]]]].
  - intros b [->|Hb]%elem_of_cons; [done|]. specialize (Hfr b Hb).
    subst T2. simpl in Hfr.
    destruct (decide (b = father)) as [->|?]; [done|].
    destruct (decide (b = first)) as [->|?]; [done|].
    rewrite !lookup_alter_ne in Hfr by done.
    by rewrite lookup_insert_ne in Hfr.
  - rewrite Hlast'.
    apply lchain_alter; [done|]. apply lchain_alter; [done|].
    apply (lchain_set_last _ _ (first :: ls));
      [|by apply NoDup_cons|done].
    apply lchain_set_head; [|done]. simpl.
    eexists. split; [exact Hold|]. split; [by destruct (head ls)|].
    split; [by destruct (head ls)|done].
  - do 4 (apply Forall2_leaf_of_alter; [done|]).
    constructor; [|done]. eexists. split; [exact Hold|].
    by destruct (head ls).
  - simpl. rewrite lookup_alter_eq, !lookup_alter_ne by done. rewrite Hfa.
    simpl. rewrite set_childCount_twice. do 3 f_equal. lia.
  - intros b Hb Hbf. apply not_elem_of_cons in Hb as [Hb1 Hb].
    assert (b ≠ oldSon) as Hbo.
    { intros ->. apply last_Some_elem_of in Hlast'.
      apply elem_of_cons in Hlast' as [?|?]; done. }
    simpl. rewrite !lookup_alter_ne by done. rewrite Hframe by done.
    subst T2. simpl. rewrite !lookup_alter_ne by done.
    by rewrite lookup_insert_ne.
  - destruct Hsame as (H1 & H2 & H3 & H4). subst T2. simpl in *.
    by repeat split.
Qed.

(** ** [Initialize] *)

Lemma lchain_ring h ls : lchain h (last ls) ls (head ls) → ring h ls.
Proof. apply lchain_chain. Qed.

Lemma Initialize_one T key :
  ∃ T' a,
    Initialize T [key] = Some (T', 1%Z)
    ∧ nodes T !! a = None ∧ m_root T' = Some a
    ∧ nodes T' !! a
      = Some (blankNode PQNodeType.Leaf PQNodeStatus.Empty (Some key) None
                (m_identNumber T))
    ∧ (∀ b, b ≠ a → nodes T' !! b = nodes T !! b)
    ∧ infos T' = infos T ∧ m_pertinentRoot T' = m_pertinentRoot T
    ∧ m_pertinentNodes T' = m_pertinentNodes T.
Proof.
  unfold Initialize.
  destruct (newLeaf_spec PQNodeStatus.Empty key T) as [-> Hfresh].
  eexists _, _. split; [done|]. split; [done|]. split; [done|]. simpl.
  split; [by rewrite lookup_insert_eq|].
  split; [|done]. intros b Hb. by rewrite lookup_insert_ne.
Qed.

Lemma Initialize_many T keys :
  2 ≤ length keys → ∃ T' r rn ls,
    Initialize T keys = Some (T', 1%Z)
    ∧ nodes T !! r = None ∧ m_root T' = Some r
    ∧ nodes T' !! r = Some rn
    ∧ m_type rn = PQNodeType.PNode ∧ m_parent rn = None
    ∧ m_status rn = PQNodeStatus.Empty
    ∧ m_childCount rn = Z.of_nat (length keys)
    ∧ m_referenceChild rn = head ls
    ∧ length ls = length keys ∧ NoDup (r :: ls)
    ∧ (∀ a, a ∈ ls → nodes T !! a = None)
    ∧ ring (nodes T') ls
    ∧ Forall2 (leaf_of (nodes T') r) ls keys
    ∧ (∀ b, b ∉ r :: ls → nodes T' !! b = nodes T !! b)
    ∧ infos T' = infos T ∧ m_pertinentRoot T' = m_pertinentRoot T
    ∧ m_pertinentNodes T' = m_pertinentNodes T.
Proof.
  intros Hlen.
  destruct keys as [|k1 [|k2 keys]]; [simpl in Hlen; lia..|].
  unfold Initialize, newInternalNode, allocNode.
  set (r := fresh (dom (nodes T))).
  assert (nodes T !! r = None) as Hfresh
    by (apply not_elem_of_dom, is_fresh).
  match goal with
  | |- context [addNewLeavesToTree r ?ks ?X] =>
      set (T1 := X); set (ks' := ks);
      destruct (addNewLeavesToTree_PNode r ks' T1
                  (blankNode PQNodeType.PNode PQNodeStatus.Empty None None
                     (m_identNumber T)))
        as (T' & ls & -> & Hl & Hnd & Hfr & Hch & Hlv & Hr & Hframe
            & Hsame)
  end.
  { subst T1. simpl. by rewrite lookup_insert_eq. }
  { done. }
  { done. }
  assert (r ∉ ls) as Hrls.
  { intros Hin. apply Hfr in Hin. subst T1. simpl in Hin.
    by rewrite lookup_insert_eq in Hin. }
  destruct Hsame as (H1 & H2 & H3 & H4).
  eexists T', r, _, ls. split; [done|]. split; [done|].
  split; [by rewrite H2|]. split; [exact Hr|].
  split; [done|]. split; [done|]. split; [done|]. split; [simpl; lia|].
  split; [done|]. split; [done|]. split; [by apply NoDup_cons|].
  split; [|split; [by apply lchain_ring|split; [done|split]]].
  - intros a Ha. specialize (Hfr a Ha). subst T1. simpl in Hfr.
    rewrite lookup_insert_ne in Hfr; [done|]. by intros ->.
  - intros b Hb. apply not_elem_of_cons in Hb as [Hbr Hb].
    rewrite Hframe by done. subst T1. simpl. by rewrite lookup_insert_ne.
  - by rewrite H1, H3, H4.
Qed.

(** C7. [Initialize] on an empty list of keys fails (result 0) and leaves
    the tree object as it is.  On one key it makes one new node, a leaf with
    this key, and makes it the root.  On two or more keys it makes a new
    P-node, the root, and one new leaf per key; the leaves are the children
    of the P-node: they carry the keys in the order of the list, have the
    P-node as their parent and form its ring, entered at the first leaf, and
    the child count of the P-node is the number of keys.  In all cases the
    nodes that were there, the indicator information, the pertinent root and
    the pertinent nodes are as before. *)
Theorem Initialize_builds_tree (T : EmbedPQTree) :
  Initialize T [] = Some (T, 0%Z)
  ∧ (∀ key, ∃ T' a,
       Initialize T [key] = Some (T', 1%Z)
       ∧ nodes T !! a = None ∧ m_root T' = Some a
       ∧ nodes T' !! a
         = Some (blankNode PQNodeType.Leaf PQNodeStatus.Empty (Some key) None
                   (m_identNumber T))
       ∧ (∀ b, b ≠ a → nodes T' !! b = nodes T !! b)
       ∧ infos T' = infos T ∧ m_pertinentRoot T' = m_pertinentRoot T
       ∧ m_pertinentNodes T' = m_pertinentNodes T)
  ∧ (∀ keys, 2 ≤ length keys → ∃ T' r rn ls,
       Initialize T keys = Some (T', 1%Z)
       ∧ nodes T !! r = None ∧ m_root T' = Some r
       ∧ nodes T' !! r = Some rn
       ∧ m_type rn = PQNodeType.PNode ∧ m_parent rn = None
       ∧ m_status rn = PQNodeStatus.Empty
       ∧ m_childCount rn = Z.of_nat (length keys)
       ∧ m_referenceChild rn = head ls
       ∧ length ls = length keys ∧ NoDup (r :: ls)
       ∧ (∀ a, a ∈ ls → nodes T !! a = None)
       ∧ ring (nodes T') ls
       ∧ Forall2 (leaf_of (nodes T') r) ls keys
       ∧ (∀ b, b ∉ r :: ls → nodes T' !! b = nodes T !! b)
       ∧ infos T' = infos T ∧ m_pertinentRoot T' = m_pertinentRoot T
       ∧ m_pertinentNodes T' = m_pertinentNodes T).
Proof.
  split; [done|]. split; [apply Initialize_one|apply Initialize_many].
Qed.

Lemma Initialize_builds_tree_witness :
  ∃ T' r rn ls,
    Initialize emptyTree key123 = Some (T', 1%Z)
    ∧ m_root T' = Some r ∧ nodes T' !! r = Some rn
    ∧ m_type rn = PQNodeType.PNode ∧ m_childCount rn = 3%Z
    ∧ length ls = 3 ∧ ring (nodes T') ls
    ∧ Forall2 (leaf_of (nodes T') r) ls key123.
Proof.
  destruct (Initialize_builds_tree emptyTree) as (_ & _ & H).
  destruct (H key123) as (T' & r & rn & ls & H1 & _ & H3 & H4 & H5 & _ & _
                          & H7 & _ & H9 & _ & _ & H12 & H13 & _).
  - simpl. lia.
  - exists T', r, rn, ls.
    exact (conj H1 (conj H3 (conj H4 (conj H5 (conj H7 (conj H9
             (conj H12 H13))))))).
Defined.

Lemma Forall2_leaf_of_keys h r ls (keys : list PQLeafKey) :
  Forall2 (leaf_of h r) ls keys →
  leafKeyOf h <$> ls = (λ k, Some (LeafKey k)) <$> keys.
Proof.
  induction 1 as [|a k ls keys (n & Ha & _ & _ & Hk & _) _ IH]; [done|].
  simpl. unfold leafKeyOf at 1. rewrite Ha. simpl. rewrite Hk. simpl.
  by f_equal.
Qed.

Lemma Forall2_leaf_of_elem h r ls (keys : list PQLeafKey) a :
  Forall2 (leaf_of h r) ls keys → a ∈ ls →
  is_leaf h a ∧ is_indicator h a = false.
Proof.
  induction 1 as [|b k ls keys (n & Hb & Hty & Hst & _) _ IH].
  - by intros ?%elem_of_nil.
  - intros [->|Ha]%elem_of_cons; [|by apply IH].
    split; [by exists n|]. rewrite (is_indicator_lookup _ _ _ Hb).
    unfold isIndicator. by rewrite Hst.
Qed.

(** * The frontier of a fresh tree *)

Lemma no_indicators_have_info h I :
  (∀ a n, h !! a = Some n → m_status n = PQNodeStatus.Empty) →
  indicators_have_info h I.
Proof.
  intros Hh a n Ha Hi. apply Hh in Ha. unfold isIndicator in Hi.
  rewrite Ha in Hi. done.
Qed.

Lemma NoDup_leaf_keys (keys : list PQLeafKey) :
  NoDup keys → NoDup ((λ k, Some (LeafKey k)) <$> keys).
Proof.
  intros H. apply NoDup_fmap_2; [|done]. intros k k' [=]. done.
Qed.

(** The scan of a P-node whose children are a ring of leaves emits the key
    of every leaf once. *)
Lemma scan_PNode_leaves h r rn ls keys :
  h !! r = Some rn → m_type rn = PQNodeType.PNode →
  m_referenceChild rn = head ls → ls ≠ [] →
  ring h ls → NoDup ls → Forall2 (leaf_of h r) ls keys →
  ∃ popped out,
    scan h [r] popped [] out ∧ length popped = S (length ls)
    ∧ out ≡ₚ (λ k, Some (LeafKey k)) <$> keys.
Proof.
  intros Hr Hty Href Hne Hring Hnd Hlv.
  destruct ls as [|c1 rest]; [done|]. clear Hne.
  destruct (Forall2_leaf_of_elem h r _ keys c1 Hlv) as [(n1 & Hn1 & _) _];
    [by left|].
  pose proof (sons_PNode h rn c1 n1 rest Hty Href Hring Hnd Hn1) as Hw.
  set (w := c1 :: (if decide (m_sibLeft n1 = head rest) then rest
                   else reverse rest)) in *.
  assert (w ≡ₚ c1 :: rest) as Hperm.
  { subst w. case_decide; [done|]. by rewrite reverse_Permutation. }
  assert (∀ a, a ∈ w → is_leaf h a ∧ is_indicator h a = false) as Hall.
  { intros a Ha. rewrite Hperm in Ha. by eapply Forall2_leaf_of_elem. }
  assert (indicatorsOf h w = []) as Hinds.
  { apply filter_none. intros a Ha. destruct (Hall a Ha) as [_ ->]. done. }
  assert (pushed h w = reverse w) as Hpushed.
  { unfold pushed. f_equal. apply filter_all. intros a Ha.
    by destruct (Hall a Ha). }
  exists (r :: reverse w), (leafKeyOf h <$> reverse w). split; [|split].
  - pose proof (scan_node h r rn w [] (reverse w) []
                  (leafKeyOf h <$> reverse w) Hr) as Hs.
    unfold indicatorKeys in Hs. rewrite Hinds in Hs. simpl in Hs.
    apply Hs; [by rewrite Hty|done|]. rewrite Hpushed, app_nil_r.
    pose proof (scan_leaves h (reverse w) [] [] [] []) as Hsl.
    rewrite !app_nil_r in Hsl. apply Hsl; [|constructor].
    intros a Ha. rewrite elem_of_reverse in Ha. by destruct (Hall a Ha).
  - simpl. rewrite length_reverse. by rewrite Hperm.
  - rewrite <- (Forall2_leaf_of_keys h r (c1 :: rest) keys Hlv).
    apply fmap_Permutation. by rewrite reverse_Permutation.
Qed.

(** C6. After [Initialize] on a list of N distinct keys, N at least one, the
    tree has exactly N leaves, and a scan of the whole tree by [getFront] or
    by [front] returns and emits the keys of the list, each of them once and
    nothing else. *)
Theorem Initialize_front_each_key_once (keys : list PQLeafKey) :
  keys ≠ [] → NoDup keys →
  ∃ T' r ls,
    Initialize emptyTree keys = Some (T', 1%Z)
    ∧ m_root T' = Some r
    ∧ NoDup ls ∧ length ls = length keys
    ∧ (∀ a, is_leaf (nodes T') a ↔ a ∈ ls)
    ∧ ∀ fuel, length keys < fuel →
        ∃ out T'',
          getFront fuel T' r [] = Some (T', out)
          ∧ front fuel T' r [] = Some (T'', out)
          ∧ out ≡ₚ (λ k, Some (LeafKey k)) <$> keys
          ∧ NoDup out.
Proof.
  intros Hne Hnd. destruct keys as [|k1 [|k2 keys]]; [done| |].
  - destruct (Initialize_one emptyTree k1)
      as (T' & a & HI & _ & Hroot & Ha & Hframe & Hinf & _).
    exists T', a, [a]. split; [done|]. split; [done|].
    split; [apply NoDup_singleton|]. split; [done|]. split.
    + intros b. rewrite list_elem_of_singleton. split.
      * intros (n & Hb & _). destruct (decide (b = a)) as [->|Hba]; [done|].
        rewrite Hframe in Hb by done. done.
      * intros ->. by eexists.
    + intros fuel Hfuel.
      assert (scan (nodes T') [a] [a] [] [Some (LeafKey k1)]) as Hs.
      { pose proof (scan_leaf (nodes T') a _ [] [] [] [] Ha) as Hs.
        apply Hs; [done|constructor]. }
      destruct (front_scan fuel T' a [a] [] _ [] Hs) as (T'' & HF & _).
      * constructor.
      * apply no_indicators_have_info. intros b n Hb.
        destruct (decide (b = a)) as [->|Hba].
        -- rewrite Ha in Hb. by injection Hb as <-.
        -- rewrite Hframe in Hb by done. done.
      * simpl in *. lia.
      * exists [Some (LeafKey k1)], T''. split; [|split; [done|split]].
        -- apply (getFront_scan fuel T' a [a] [] _ [] Hs). simpl in *. lia.
        -- done.
        -- apply NoDup_singleton.
  - destruct (Initialize_many emptyTree (k1 :: k2 :: keys))
      as (T' & r & rn & ls & HI & _ & Hroot & Hr & Hty & _ & Hst & _ & Href
          & Hlen & Hndl & _ & Hring & Hlv & Hframe & _); [simpl; lia|].
    apply NoDup_cons in Hndl as [Hrls Hndl].
    exists T', r, ls. split; [done|]. split; [done|]. split; [done|].
    split; [done|]. split.
    + intros b. split.
      * intros (n & Hb & Hbty).
        destruct (decide (b ∈ r :: ls)) as [Hin|Hnin].
        -- apply elem_of_cons in Hin as [->|Hin]; [|done].
           rewrite Hr in Hb. injection Hb as <-. congruence.
        -- rewrite Hframe in Hb by done. done.
      * intros Hb. by destruct (Forall2_leaf_of_elem _ _ _ _ b Hlv Hb).
    + intros fuel Hfuel.
      destruct (scan_PNode_leaves (nodes T') r rn ls (k1 :: k2 :: keys))
        as (popped & out & Hs & Hpop & Hperm); try done.
      { intros ->. done. }
      destruct (front_scan fuel T' r popped [] out [] Hs) as (T'' & HF & _).
      * constructor.
      * apply no_indicators_have_info. intros b n Hb.
        destruct (decide (b ∈ r :: ls)) as [Hin|Hnin].
        -- apply elem_of_cons in Hin as [->|Hin].
           ++ rewrite Hr in Hb. by injection Hb as <-.
           ++ destruct (list_elem_of_lookup_1 _ _ Hin) as [i Hi].
              destruct (Forall2_lookup_l _ _ _ _ _ Hlv Hi)
                as (k & _ & n' & Hb' & _ & Hst' & _).
              rewrite Hb in Hb'. by injection Hb' as <-.
        -- rewrite Hframe in Hb by done. done.
      * rewrite Hpop, Hlen. simpl in *. lia.
      * exists out, T''. split; [|split; [done|split; [done|]]].
        -- apply (getFront_scan fuel T' r popped [] out [] Hs).
           rewrite Hpop, Hlen. simpl in *. lia.
        -- rewrite Hperm. by apply NoDup_leaf_keys.
Qed.

Lemma Initialize_front_each_key_once_witness :
  ∃ T' r out,
    Initialize emptyTree key123 = Some (T', 1%Z)
    ∧ m_root T' = Some r
    ∧ getFront 4 T' r [] = Some (T', out)
    ∧ out ≡ₚ (λ k, Some (LeafKey k)) <$> key123.
Proof.
  destruct (Initialize_front_each_key_once key123)
    as (T' & r & ls & HI & Hr & _ & _ & _ & H).
  - done.
  - apply NoDup_ListNoDup. repeat constructor; simpl; intuition congruence.
  - destruct (H 4) as (out & T'' & HG & _ & Hp & _); [simpl; lia|].
    exists T', r, out. done.
Defined.

(** * [ReplaceRoot] without keys *)

Lemma scan_keys_info h I S popped inds keys :
  scan h S popped inds keys → indicators_have_info h I →
  ∀ e i, e ∈ keys → entryInfo e = Some i → is_Some (I !! i).
Proof.
  intros Hs Hv.
  induction Hs as [|a c S tr inds keys Ha Hty Hs IH
                   |a c w S tr inds keys Ha Hty Hw Hs IH]; intros e i He Hi.
  - by apply elem_of_nil in He.
  - apply elem_of_cons in He as [->|He]; [|by eapply IH].
    destruct (m_pointerToKey c) as [k|]; simpl in Hi; [|done].
    by destruct (m_userStructKey k).
  - apply elem_of_app in He as [He|He]; [|by eapply IH].
    unfold indicatorKeys in He. apply list_elem_of_fmap in He as (b & -> & Hb).
    apply elem_of_indicatorsOf in Hb as [_ Hb]. unfold is_indicator in Hb.
    unfold infoKey in Hi. destruct (h !! b) as [n|] eqn:Hn; [|done].
    destruct (Hv b n Hn Hb) as (k & j & Hk & Hj & Hsome).
    simpl in Hi. rewrite Hk in Hi. simpl in Hi. congruence.
Qed.

Lemma front_effect_infos T T' i :
  front_effect T T' → is_Some (infos T !! i) → is_Some (infos T' !! i).
Proof.
  intros (_ & _ & _ & _ & _ & Hf & _) Hi.
  destruct (Hf i) as [->|(inf & _ & ->)]; [done|by eexists].
Qed.

(** C10. [ReplaceRoot] with no keys while the pertinent root is the root of
    the tree: on a tree that the scan walks through (no indicator met twice,
    no leaf without a key) the call returns; it has done what [front] on the
    root does and nothing else to the nodes, so no node is replaced, removed
    or made; the edge of every leaf key is appended to [frontier], the vertex
    of every indicator to [opposed] or [nonOpposed] by its [changeDir] flag;
    and the pertinent root is null afterwards. *)
Theorem ReplaceRoot_without_keys (fuel : nat) (T : EmbedPQTree) (r : addr)
    (popped inds : list addr) (keys : keys_t) (frontier : list edge)
    (opposed nonOpposed : list node) (w : node) :
  m_pertinentRoot T = Some r → m_root T = Some r →
  scan (nodes T) [r] popped inds keys → NoDup inds →
  indicators_have_info (nodes T) (infos T) →
  (∀ e, e ∈ keys → e ≠ None) →
  length popped + length inds ≤ fuel →
  ∃ T1,
    front fuel T r [] = Some (T1, keys)
    ∧ front_effect T T1
    ∧ ReplaceRoot fuel T [] frontier opposed nonOpposed w
      = Some (set_pertinentRoot None T1,
              frontier ++ omap entryEdge keys,
              opposed ++ bucket (infos T1) true keys,
              nonOpposed ++ bucket (infos T1) false keys).
Proof.
  intros Hpr Hroot Hs Hnd Hv Hnn Hfuel.
  destruct (front_scan fuel T r popped inds keys [] Hs Hnd Hv Hfuel)
    as (T1 & HF & _).
  simpl in HF. exists T1. split; [done|].
  pose proof (front_loop_effect _ _ _ _ _ _ _ HF) as He. split; [done|].
  unfold ReplaceRoot. rewrite decide_True by (by rewrite Hpr, Hroot).
  rewrite Hpr. simpl. rewrite HF. simpl.
  rewrite checkFrontier_buckets; [done|done|].
  intros e i Hin Hi. eapply front_effect_infos; [done|].
  by eapply scan_keys_info.
Qed.

Lemma ReplaceRoot_without_keys_witness :
  ∃ T',
    ReplaceRoot 7 exampleTree [] [] [] [] 9
    = Some (T', [101; 106; 105], [], [8; 7])
    ∧ m_pertinentRoot T' = None.
Proof.
  destruct (ReplaceRoot_without_keys 7 exampleTree 0 [0; 1; 3; 6; 5] [4; 2]
              _ [] [] [] 9 eq_refl eq_refl exampleTree_scan)
    as (T1 & HF & _ & HR).
  - apply NoDup_ListNoDup. repeat constructor; simpl; intuition lia.
  - apply exampleTree_info.
  - intros e He. repeat (apply elem_of_cons in He as [->|He]; [done|]).
    by apply elem_of_nil in He.
  - simpl. lia.
  - exists (set_pertinentRoot None T1). split; [|done]. rewrite HR.
    vm_compute in HF. injection HF as <-. by vm_compute.
Defined.

(** * Replacing a full pertinent root *)

Lemma same_kind_refl n : same_kind n n.
Proof. done. Qed.

Lemma same_kind_trans n1 n2 n3 :
  same_kind n1 n2 → same_kind n2 n3 → same_kind n1 n3.
Proof.
  intros (?&?&?&?&?) (?&?&?&?&?). repeat split; congruence.
Qed.

Lemma relinked_refl T : relinked T T.
Proof.
  split; [|done]. intros a. destruct (nodes T !! a); by constructor.
Qed.

Lemma relinked_trans T1 T2 T3 :
  relinked T1 T2 → relinked T2 T3 → relinked T1 T3.
Proof.
  intros (Ha&?&?&?&?&?&?) (Hb&?&?&?&?&?&?).
  split; [|repeat split; congruence].
  intros a. specialize (Ha a). specialize (Hb a).
  destruct Ha as [n1 n2 H12|]; inversion Hb; subst; constructor.
  by eapply same_kind_trans.
Qed.

Lemma relinked_update a f T :
  (∀ n, same_kind n (f n)) → relinked T (update a f T).
Proof.
  intros Hf. split; [|done]. intros b. unfold update. simpl.
  destruct (decide (a = b)) as [->|Hne].
  - rewrite lookup_alter_eq. destruct (nodes T !! b); by constructor.
  - rewrite lookup_alter_ne by done. destruct (nodes T !! b); by constructor.
Qed.

Lemma relinked_update_ptr p f T :
  (∀ n, same_kind n (f n)) → relinked T (update_ptr p f T).
Proof.
  intros Hf. destruct p; [by apply relinked_update|apply relinked_refl].
Qed.

Lemma relinked_lookup T T' a n :
  relinked T T' → nodes T !! a = Some n →
  ∃ n', nodes T' !! a = Some n' ∧ same_kind n n'.
Proof.
  intros [H _] Ha. specialize (H a). rewrite Ha in H.
  inversion H; subst. by eexists.
Qed.


Ltac kind_tac :=
  let n := fresh "n" in
  intros n; unfold changeSiblings, changeEndmost, putSibling;
  repeat case_decide; done.

Ltac relinked_tac :=
  repeat first
    [ apply relinked_refl
    | apply relinked_update; kind_tac
    | apply relinked_update_ptr; kind_tac
    | eapply relinked_trans;
      [|first [apply relinked_update; kind_tac
              |apply relinked_update_ptr; kind_tac]] ].

Lemma relinked_removeChildFromSiblings a T :
  relinked T (removeChildFromSiblings a T).
Proof.
  unfold removeChildFromSiblings.
  destruct (nodes T !! a) as [n|]; [|apply relinked_refl].
  destruct (m_referenceParent n); [|destruct (endmostChild n)];
    repeat case_decide; relinked_tac.
Qed.

Lemma relinked_exchangeNodes old new T :
  relinked T (exchangeNodes old new T).
Proof.
  unfold exchangeNodes.
  destruct (nodes T !! old) as [n|]; [|apply relinked_refl].
  destruct (m_referenceParent n); repeat case_decide; relinked_tac.
Qed.

Lemma relinked_removeFullChildren l r T :
  relinked T (removeFullChildren l r T).
Proof.
  revert T. induction l as [|c l IH]; intros T; simpl; [apply relinked_refl|].
  eapply relinked_trans; [|apply IH].
  eapply relinked_trans; [|apply relinked_removeChildFromSiblings].
  by apply relinked_update.
Qed.

Lemma front_effect_lookup T T' a n :
  front_effect T T' → nodes T !! a = Some n →
  ∃ n', nodes T' !! a = Some n'
        ∧ (n' = n ∨ n' = set_status PQNodeStatus.ToBeDeleted n).
Proof.
  intros (_ & _ & _ & _ & Hn & _) Ha.
  destruct (Hn a) as [Heq|(m & Hm & _ & Heq)].
  - exists n. split; [congruence|by left].
  - exists (set_status PQNodeStatus.ToBeDeleted n).
    split; [congruence|by right].
Qed.

Lemma front_effect_lookup_None T T' a :
  front_effect T T' → nodes T' !! a = None → nodes T !! a = None.
Proof.
  intros (_ & _ & _ & _ & Hn & _) Ha.
  destruct (Hn a) as [Heq|(m & Hm & _ & Heq)]; congruence.
Qed.

Lemma front_effect_lookup_Some T T' a :
  front_effect T T' → is_Some (nodes T !! a) → is_Some (nodes T' !! a).
Proof.
  intros He [n Hn]. destruct (front_effect_lookup _ _ _ _ He Hn) as (?&?&_).
  by eexists.
Qed.

(** ** [exchangeNodes] *)

Lemma exchangeNodes_old old new T n :
  nodes T !! old = Some n →
  ∃ n', nodes (exchangeNodes old new T) !! old = Some n' ∧ unlinked n'.
Proof.
  intros Hn. unfold exchangeNodes. rewrite Hn.
  match goal with
  | |- context [update old ?f ?X] =>
      assert (relinked T X) as HR
  end.
  { destruct (m_referenceParent n); repeat case_decide; relinked_tac. }
  destruct (relinked_lookup _ _ _ _ HR Hn) as (n' & Hn' & _).
  eexists. unfold update at 1. simpl. rewrite lookup_alter_eq, Hn'. simpl.
  split; done.
Qed.

Lemma lookup_update_ne a b f T :
  a ≠ b → nodes (update a f T) !! b = nodes T !! b.
Proof. intros Hne. unfold update. simpl. by rewrite lookup_alter_ne. Qed.

Lemma lookup_update_ptr_ne p b f T :
  p ≠ Some b → nodes (update_ptr p f T) !! b = nodes T !! b.
Proof.
  intros Hne. destruct p as [a|]; [|done]. apply lookup_update_ne. congruence.
Qed.

Lemma exchangeNodes_new old new T n m :
  nodes T !! old = Some n → nodes T !! new = Some m → new ≠ old →
  m_parent n ≠ Some new → m_referenceParent n ≠ Some new →
  m_sibLeft n ≠ Some new → m_sibRight n ≠ Some new →
  ∃ m', nodes (exchangeNodes old new T) !! new = Some m'
        ∧ takes_place_of n old new m' ∧ same_kind m m'.
Proof.
  intros Hn Hm Hne Hp Hrp Hl Hr. unfold exchangeNodes. rewrite Hn.
  rewrite lookup_update_ne by done.
  assert (∀ X f, nodes
            (if decide (m_sibRight n = Some old) then X
             else update_ptr (m_sibRight n) f X) !! new = nodes X !! new)
    as Hstep4.
  { intros X f. destruct (decide (m_sibRight n = Some old)); [done|].
    by apply lookup_update_ptr_ne. }
  assert (∀ X f, nodes
            (if decide (m_sibLeft n = Some old) then X
             else update_ptr (m_sibLeft n) f X) !! new = nodes X !! new)
    as Hstep3.
  { intros X f. destruct (decide (m_sibLeft n = Some old)); [done|].
    by apply lookup_update_ptr_ne. }
  rewrite Hstep4, Hstep3.
  assert (∀ X, nodes
            match m_referenceParent n with
            | Some p => update p (set_referenceChild (Some new)) X
            | None =>
                update_ptr (m_parent n) (changeEndmost (Some old) (Some new)) X
            end !! new = nodes X !! new) as Hstep2.
  { intros X. destruct (m_referenceParent n) as [p|].
    - apply lookup_update_ne. congruence.
    - by apply lookup_update_ptr_ne. }
  rewrite Hstep2. unfold update. simpl. rewrite lookup_alter_eq, Hm. simpl.
  eexists. split; [done|]. split; [|by repeat split].
  unfold takes_place_of, redirect. simpl. done.
Qed.

Lemma head_last_singleton (key : PQLeafKey) : head [key] = last [key].
Proof. done. Qed.


(** ** The other nodes of [exchangeNodes] *)

Lemma lookup_update b f T x :
  nodes (update b f T) !! x
  = if decide (b = x) then f <$> nodes T !! x else nodes T !! x.
Proof.
  unfold update. simpl. case_decide as Hd.
  - subst. by rewrite lookup_alter_eq.
  - by rewrite lookup_alter_ne.
Qed.

Lemma lookup_update_ptr p f T x :
  nodes (update_ptr p f T) !! x
  = if decide (p = Some x) then f <$> nodes T !! x else nodes T !! x.
Proof.
  destruct p as [b|]; cbn [update_ptr].
  - rewrite lookup_update. destruct (decide (b = x)) as [->|Hne].
    + by rewrite decide_True.
    + rewrite decide_False; [done|]. congruence.
  - by rewrite decide_False.
Qed.

(** Every node but the two that change places is as [exchanged] says. *)
Lemma exchangeNodes_others old new T n x :
  nodes T !! old = Some n → x ≠ old → x ≠ new →
  nodes (exchangeNodes old new T) !! x
  = exchanged n old new x <$> nodes T !! x.
Proof.
  intros Hold Hxo Hxn. unfold exchangeNodes. rewrite Hold.
  rewrite lookup_update, decide_False by done.
  assert (∀ X, nodes
            (if decide (m_sibRight n = Some old) then X
             else update_ptr (m_sibRight n)
                    (changeSiblings (Some old) (Some new)) X) !! x
          = (λ m, if decide (m_sibRight n = Some x)
                  then changeSiblings (Some old) (Some new) m else m)
            <$> nodes X !! x) as H4.
  { intros X. destruct (decide (m_sibRight n = Some old)) as [E|E].
    - rewrite E. destruct (nodes X !! x); simpl; [|done].
      by rewrite decide_False by congruence.
    - rewrite lookup_update_ptr.
      destruct (nodes X !! x); simpl; repeat case_decide; done. }
  assert (∀ X, nodes
            (if decide (m_sibLeft n = Some old) then X
             else update_ptr (m_sibLeft n)
                    (changeSiblings (Some old) (Some new)) X) !! x
          = (λ m, if decide (m_sibLeft n = Some x)
                  then changeSiblings (Some old) (Some new) m else m)
            <$> nodes X !! x) as H3.
  { intros X. destruct (decide (m_sibLeft n = Some old)) as [E|E].
    - rewrite E. destruct (nodes X !! x); simpl; [|done].
      by rewrite decide_False by congruence.
    - rewrite lookup_update_ptr.
      destruct (nodes X !! x); simpl; repeat case_decide; done. }
  rewrite H4, H3.
  assert (∀ X, nodes
            match m_referenceParent n with
            | Some p => update p (set_referenceChild (Some new)) X
            | None =>
                update_ptr (m_parent n) (changeEndmost (Some old) (Some new)) X
            end !! x
          = (λ m, match m_referenceParent n with
                  | Some p =>
                      if decide (p = x)
                      then set_referenceChild (Some new) m else m
                  | None =>
                      if decide (m_parent n = Some x)
                      then changeEndmost (Some old) (Some new) m else m
                  end) <$> nodes X !! x) as H2.
  { intros X. destruct (m_referenceParent n) as [p|].
    - rewrite lookup_update.
      destruct (nodes X !! x); simpl; repeat case_decide; done.
    - rewrite lookup_update_ptr.
      destruct (nodes X !! x); simpl; repeat case_decide; done. }
  rewrite H2. rewrite lookup_update, decide_False by done.
  unfold exchanged. by destruct (nodes T !! x).
Qed.

(** ** What is left of the old children *)














(** ** The place of the pertinent root *)












(** ** A set of one key *)

Lemma ReplaceFullRoot_one_key fuel T r rn popped inds keys key frontier w :
  m_pertinentRoot T = Some r → nodes T !! r = Some rn →
  scan (nodes T) [r] popped inds keys → NoDup inds →
  indicators_have_info (nodes T) (infos T) →
  length popped + length inds ≤ fuel →
  ∃ T' a n rn' T1,
    ReplaceFullRoot fuel T [key] frontier w false None
    = Some (T', frontier ++ keys)
    ∧ nodes T !! a = None ∧ nodes T' !! a = Some n
    ∧ m_type n = PQNodeType.Leaf ∧ m_status n = PQNodeStatus.Empty
    ∧ m_pointerToKey n = Some key
    ∧ (links_valid (nodes T) rn → takes_place_of rn r a n)
    ∧ nodes T' !! r = Some rn' ∧ unlinked rn'
    ∧ m_pertinentRoot T' = None
    ∧ m_root T' = (if decide (m_root T = Some r) then Some a else m_root T)
    ∧ front fuel T r frontier = Some (T1, frontier ++ keys)
    ∧ front_effect T T1
    ∧ ∀ x, x ≠ r → x ≠ a →
        nodes T' !! x = exchanged rn r a x <$> nodes T1 !! x.
Proof.
  intros Hpr Hrn Hs Hnd Hv Hfuel.
  destruct (front_scan fuel T r popped inds keys frontier Hs Hnd Hv Hfuel)
    as (T1 & HF & _).
  pose proof (front_loop_effect _ _ _ _ _ _ _ HF) as He.
  destruct (front_effect_lookup _ _ _ _ He Hrn) as (rn1 & Hrn1 & Hrn1eq).
  unfold ReplaceFullRoot. rewrite Hpr. cbn [mbind option_bind].
  rewrite HF. cbn [mbind option_bind]. rewrite decide_True by done.
  destruct (newLeaf_spec PQNodeStatus.Empty key T1) as [HnL Hfresh].
  rewrite HnL. set (a := fresh (dom (nodes T1))) in *.
  match goal with
  | |- context [exchangeNodes r a ?X] => set (T4 := X)
  end.
  assert (a ≠ r) as Har by (intros ->; congruence).
  assert (nodes T4 !! r = Some rn1) as Hr4.
  { unfold T4. simpl. by rewrite lookup_insert_ne. }
  assert (nodes T4 !! a
          = Some (blankNode PQNodeType.Leaf PQNodeStatus.Empty (Some key) None
                    (m_identNumber T1))) as Ha4.
  { unfold T4. simpl. by rewrite lookup_insert_eq. }
  pose proof (relinked_exchangeNodes r a T4) as HR.
  destruct (relinked_lookup _ _ _ _ HR Ha4)
    as (n & Hn & Hk1 & Hk2 & _ & Hk4 & _).
  destruct (exchangeNodes_old r a T4 rn1 Hr4) as (rn' & Hrn' & Hunl).
  destruct HR as (_ & _ & _ & Hroot5 & Hpr5 & _).
  pose proof He as (Hroot1 & Hpr1 & _).
  assert (m_root T4 = m_root T) as Hroot4 by done.
  assert (m_pertinentRoot T4 = Some r) as Hpr4.
  { unfold T4. simpl. congruence. }
  exists (set_pertinentRoot None
            (if decide (m_pertinentRoot (exchangeNodes r a T4)
                        = m_root (exchangeNodes r a T4))
             then set_root (Some a) (exchangeNodes r a T4)
             else exchangeNodes r a T4)), a, n, rn', T1.
  split; [done|].
  split; [by eapply front_effect_lookup_None|].
  assert (∀ b, nodes (set_pertinentRoot None
            (if decide (m_pertinentRoot (exchangeNodes r a T4)
                        = m_root (exchangeNodes r a T4))
             then set_root (Some a) (exchangeNodes r a T4)
             else exchangeNodes r a T4)) !! b
               = nodes (exchangeNodes r a T4) !! b) as Hnodes.
  { intros b. by case_decide. }
  rewrite !Hnodes.
  split; [done|]. split; [done|]. split; [done|]. split; [done|].
  split.
  { intros Hval.
    assert (∀ p, p ∈ [m_parent rn1; m_referenceParent rn1; m_sibLeft rn1;
                      m_sibRight rn1] → p ≠ Some a) as Hnew.
    { intros p Hp ->.
      assert (Some a ∈ [m_parent rn; m_referenceParent rn; m_sibLeft rn;
                        m_sibRight rn]) as Hin.
      { by destruct Hrn1eq as [->| ->]. }
      apply Hval in Hin. apply (front_effect_lookup_Some T T1 a He) in Hin.
      rewrite Hfresh in Hin. by destruct Hin. }
    destruct (exchangeNodes_new r a T4 rn1 _ Hr4 Ha4 Har)
      as (m' & Hm' & Htp & _).
    - apply Hnew. rewrite !elem_of_cons. auto 6.
    - apply Hnew. rewrite !elem_of_cons. auto 6.
    - apply Hnew. rewrite !elem_of_cons. auto 6.
    - apply Hnew. rewrite !elem_of_cons. auto 6.
    - rewrite Hn in Hm'. injection Hm' as <-.
      by destruct Hrn1eq as [->| ->]. }
  split; [done|]. split; [done|]. split; [done|].
  split.
  { rewrite Hpr5, Hroot5, Hpr4, Hroot4.
    destruct (decide (m_root T = Some r)) as [Heq|Hneq].
    - rewrite decide_True by done. done.
    - rewrite decide_False by congruence. simpl. congruence. }
  split; [done|]. split; [done|].
  intros x Hxr Hxa. rewrite Hnodes.
  rewrite (exchangeNodes_others r a T4 rn1 x Hr4 Hxr Hxa).
  assert (nodes T4 !! x = nodes T1 !! x) as ->.
  { unfold T4. simpl. by rewrite lookup_insert_ne. }
  by destruct Hrn1eq as [->| ->].
Qed.

(** ** A set of two or more keys *)


(** ** A tree of one leaf *)




(** * Reducing the children of a Q-node *)

(** With no new keys and the Q-node being the root, [ReplaceRoot] scans the
    whole tree, not only the full children. *)
Lemma ReplaceRoot_at_root_without_keys (a b c d : edge) (w : node) :
  (T ← buildQ (keys_abcd a b c d);
   '(T1, ok) ← Reduction 10 T [mkLeafKey 1 (Some a); mkLeafKey 2 (Some b)];
   '(_, frontier, _, _) ← ReplaceRoot 10 T1 [] [] [] [] w;
   Some (ok, frontier))
  = Some (true, [a; b; c; d]).
Proof. vm_compute. reflexivity. Qed.

(** C1. On the Q-node with the leaves of [a], [b], [c], [d] as its children
    in this order, [Reduction] on the keys of [a] and [c] returns [false];
    [Reduction] on the keys of [a] and [b] returns [true], and [ReplaceRoot]
    with the keys of new leaves (one key, or two) then gives the frontier
    [a; b] and no direction indicator. *)
Theorem Reduction_QNode_contiguous (a b c d : edge) (w : node) :
  (T ← buildQ (keys_abcd a b c d); leafEdges 10 T) = Some [a; b; c; d]
  ∧ (T ← buildQ (keys_abcd a b c d);
     '(_, ok) ← Reduction 10 T [mkLeafKey 1 (Some a); mkLeafKey 3 (Some c)];
     Some ok)
    = Some false
  ∧ (T ← buildQ (keys_abcd a b c d);
     '(T1, ok) ← Reduction 10 T [mkLeafKey 1 (Some a); mkLeafKey 2 (Some b)];
     '(_, frontier, opposed, nonOpposed) ←
       ReplaceRoot 10 T1 [key_e] [] [] [] w;
     Some (ok, frontier, opposed, nonOpposed))
    = Some (true, [a; b], [], [])
  ∧ (T ← buildQ (keys_abcd a b c d);
     '(T1, ok) ← Reduction 10 T [mkLeafKey 1 (Some a); mkLeafKey 2 (Some b)];
     '(_, frontier, opposed, nonOpposed) ←
       ReplaceRoot 10 T1 [key_e; key_f] [] [] [] w;
     Some (ok, frontier, opposed, nonOpposed))
    = Some (true, [a; b], [], []).
Proof.
  split; [vm_compute; reflexivity|]. split; [vm_compute; reflexivity|].
  split; vm_compute; reflexivity.
Qed.

(** * [ReplaceRoot] on a full pertinent root *)

(** ** What the ring functions keep *)

Lemma is_Some_update a b f T :
  is_Some (nodes (update b f T) !! a) ↔ is_Some (nodes T !! a).
Proof.
  unfold update. simpl. destruct (decide (b = a)) as [->|Hne].
  - rewrite lookup_alter_eq. by rewrite fmap_is_Some.
  - by rewrite lookup_alter_ne.
Qed.

Lemma is_Some_newLeaf st key T a :
  is_Some (nodes T !! a) → is_Some (nodes (newLeaf st key T).1 !! a).
Proof.
  intros Ha. destruct (newLeaf_spec st key T) as [-> Hfresh]. simpl.
  rewrite lookup_insert_ne; [done|]. intros <-. rewrite Hfresh in Ha.
  by destruct Ha.
Qed.

Lemma addNewLeaves_loop_keeps father keys oldSon T a :
  is_Some (nodes T !! a) →
  is_Some (nodes (addNewLeaves_loop father keys oldSon T).1 !! a).
Proof.
  revert oldSon T. induction keys as [|key rest IH]; intros oldSon T Ha;
    [done|].
  cbn [addNewLeaves_loop].
  pose proof (is_Some_newLeaf PQNodeStatus.Empty key T a Ha) as Ha1.
  destruct (newLeaf PQNodeStatus.Empty key T) as [T1 aktualSon].
  apply IH. by rewrite !is_Some_update.
Qed.

Lemma addNewLeaves_loop_infos father keys oldSon T :
  infos (addNewLeaves_loop father keys oldSon T).1 = infos T.
Proof.
  revert oldSon T. induction keys as [|key rest IH]; intros oldSon T;
    [done|].
  cbn [addNewLeaves_loop].
  destruct (newLeaf_spec PQNodeStatus.Empty key T) as [-> _].
  by rewrite IH.
Qed.

Lemma addNewLeavesToTree_is_Some father keys T :
  is_Some (nodes T !! father) → is_Some (addNewLeavesToTree father keys T).
Proof.
  intros Hf. unfold addNewLeavesToTree. destruct keys as [|key rest]; [done|].
  pose proof (is_Some_newLeaf PQNodeStatus.Empty key T father Hf) as Hf1.
  destruct (newLeaf PQNodeStatus.Empty key T) as [T1 firstSon].
  match goal with
  | |- context [addNewLeaves_loop father rest firstSon ?X] =>
      assert (is_Some (nodes (addNewLeaves_loop father rest firstSon X).1
                         !! father)) as Hk
        by (apply addNewLeaves_loop_keeps; by rewrite !is_Some_update)
  end.
  destruct (addNewLeaves_loop _ _ _ _) as [T3 oldSon]. simpl in Hk.
  destruct Hk as [f Hf3]. rewrite Hf3. by destruct (m_type f).
Qed.

Lemma addNewLeavesToTree_infos father keys T T' b :
  addNewLeavesToTree father keys T = Some (T', b) → infos T' = infos T.
Proof.
  unfold addNewLeavesToTree. destruct keys as [|key rest]; [by intros [= <-]|].
  destruct (newLeaf_spec PQNodeStatus.Empty key T) as [-> _].
  match goal with
  | |- context [addNewLeaves_loop father rest ?s ?X] =>
      pose proof (addNewLeaves_loop_infos father rest s X) as Hk
  end.
  destruct (addNewLeaves_loop _ _ _ _) as [T3 oldSon]. simpl in Hk.
  destruct (nodes T3 !! father) as [f|]; [|done].
  destruct (m_type f); intros [= <- _]; done.
Qed.

Lemma front_is_Some_lookup fuel T a keys r :
  front fuel T a keys = Some r → is_Some (nodes T !! a).
Proof.
  unfold front. destruct fuel as [|n]; [done|]. simpl. unfold front_body.
  destruct (nodes T !! a); [by eexists|done].
Qed.

(** ** [ReplaceFullRoot] without an indicator *)

Lemma ReplaceFullRoot_plain fuel T r leafKeys frontier w T1 frontier1 :
  m_pertinentRoot T = Some r →
  front fuel T r frontier = Some (T1, frontier1) →
  ∃ T', ReplaceFullRoot fuel T leafKeys frontier w false None
        = Some (T', frontier1)
        ∧ infos T' = infos T1 ∧ (leafKeys = [] → T' = T1).
Proof.
  intros Hpr HF.
  pose proof (front_loop_effect _ _ _ _ _ _ _ HF) as He.
  destruct (front_is_Some_lookup _ _ _ _ _ HF) as [rn Hrn].
  destruct (front_effect_lookup _ _ _ _ He Hrn) as (rn1 & Hrn1 & _).
  unfold ReplaceFullRoot. rewrite Hpr. cbn [mbind option_bind].
  rewrite HF. cbn [mbind option_bind].
  destruct leafKeys as [|key rest]; [by eexists|].
  destruct (decide (head (key :: rest) = last (key :: rest))) as [Heq|Hne].
  - destruct (newLeaf_spec PQNodeStatus.Empty key T1) as [-> _].
    eexists. split; [done|]. split; [|done].
    match goal with
    | |- context [exchangeNodes r ?a ?X] =>
        destruct (relinked_exchangeNodes r a X) as (_ & HI & _)
    end.
    case_decide; simpl; by rewrite HI.
  - rewrite Hrn1. cbn [mbind option_bind].
    destruct (decide (m_type rn1 = PQNodeType.Leaf)) as [Hleaf|Hnleaf].
    + rewrite Hleaf. unfold newInternalNode, allocNode.
      set (p := fresh (dom (nodes T1))).
      match goal with
      | |- context [exchangeNodes r p ?X] => set (T4 := X)
      end.
      pose proof (relinked_exchangeNodes r p T4) as HR.
      assert (is_Some (nodes (set_pertinentRoot None (exchangeNodes r p T4))
                         !! p)) as Hp.
      { destruct (relinked_lookup T4 _ p
                    (blankNode PQNodeType.PNode PQNodeStatus.Empty None None
                       (m_identNumber T1)) HR) as (n' & Hn' & _).
        - unfold T4. simpl. by rewrite lookup_insert_eq.
        - by eexists. }
      destruct (addNewLeavesToTree_is_Some p (key :: rest) _ Hp)
        as [[T6 b] HA].
      rewrite HA. cbn [mbind option_bind]. eexists. split; [done|].
      split; [|done]. rewrite (addNewLeavesToTree_infos _ _ _ _ _ HA).
      simpl. by destruct HR as (_ & -> & _).
    + match goal with
      | |- context [removeFullChildren ?l r ?X] =>
          pose proof (relinked_removeFullChildren l r X) as HR;
          set (T5 := removeFullChildren l r X) in *
      end.
      assert (is_Some (nodes T5 !! r)) as Hr5.
      { destruct (relinked_lookup _ _ r
                    (set_childCount 0%Z (set_type PQNodeType.PNode rn1)) HR)
          as (n' & Hn' & _).
        - unfold update. simpl. by rewrite lookup_alter_eq, Hrn1.
        - by eexists. }
      destruct (addNewLeavesToTree_is_Some r (key :: rest) _ Hr5)
        as [[T6 b] HA].
      assert ((T6' ← addNewLeavesToTree r (key :: rest) T5;
               let '(T6, _) := T6' in Some (T6, frontier1))
              = Some (T6, frontier1)) as Htail by (by rewrite HA).
      exists T6. split.
      { rewrite <- Htail. destruct (m_type rn1); [done|done|done]. }
      split; [|done]. rewrite (addNewLeavesToTree_infos _ _ _ _ _ HA).
      by destruct HR as (_ & -> & _).
Qed.

(** X1. [ReplaceRoot] on a pertinent root that is Full, called with keys or
    with a pertinent root below the root of the tree, on a subtree that the
    scan walks through: the call returns with the tree that [ReplaceFullRoot]
    builds; the edges of the scanned leaves are appended to [frontier] in
    the order of the scan, the vertex of every scanned indicator is appended
    to [opposed] or to [nonOpposed] by the flag that [front] has left; and
    with no keys nothing is replaced: the tree is the one [front] leaves,
    the pertinent root still set. *)
Theorem ReplaceRoot_full_root (fuel : nat) (T : EmbedPQTree) (r : addr)
    (rn : PQNode) (popped inds : list addr) (keys : keys_t)
    (leafKeys : list PQLeafKey) (frontier : list edge)
    (opposed nonOpposed : list node) (w : node) :
  m_pertinentRoot T = Some r → nodes T !! r = Some rn →
  m_status rn = PQNodeStatus.Full →
  leafKeys ≠ [] ∨ m_root T ≠ Some r →
  scan (nodes T) [r] popped inds keys → NoDup inds →
  indicators_have_info (nodes T) (infos T) →
  (∀ e, e ∈ keys → e ≠ None) →
  length popped + length inds ≤ fuel →
  ∃ T1 T',
    front fuel T r [] = Some (T1, keys)
    ∧ ReplaceFullRoot fuel T leafKeys [] w false None = Some (T', keys)
    ∧ (leafKeys = [] → T' = T1 ∧ m_pertinentRoot T' = Some r)
    ∧ ReplaceRoot fuel T leafKeys frontier opposed nonOpposed w
      = Some (T', frontier ++ omap entryEdge keys,
              opposed ++ bucket (infos T1) true keys,
              nonOpposed ++ bucket (infos T1) false keys).
Proof.
  intros Hpr Hrn Hst Hcase Hs Hnd Hv Hnn Hfuel.
  destruct (front_scan fuel T r popped inds keys [] Hs Hnd Hv Hfuel)
    as (T1 & HF & _).
  simpl in HF.
  pose proof (front_loop_effect _ _ _ _ _ _ _ HF) as He.
  destruct (ReplaceFullRoot_plain fuel T r leafKeys [] w T1 keys Hpr HF)
    as (T' & HR & HI & Hnil).
  exists T1, T'. split; [done|]. split; [done|]. split.
  { intros Hk. split; [by apply Hnil|]. rewrite (Hnil Hk).
    destruct He as (_ & -> & _). done. }
  unfold ReplaceRoot. rewrite decide_False.
  2: { intros [Hk Hroot]. destruct Hcase as [Hc|Hc]; [done|].
       apply Hc. congruence. }
  rewrite Hpr. cbn [mbind option_bind]. rewrite Hrn. cbn [mbind option_bind].
  rewrite decide_True by done. rewrite HR. cbn [mbind option_bind].
  rewrite HI. rewrite checkFrontier_buckets; [done|done|].
  intros e i Hin Hi. eapply front_effect_infos; [done|].
  by eapply scan_keys_info.
Qed.

Lemma ReplaceRoot_full_root_witness :
  ∃ T',
    ReplaceRoot 7 exampleTree key78 [] [] [] 9
    = Some (T', [101; 106; 105], [], [8; 7]).
Proof.
  assert (key78 ≠ [] ∨ m_root exampleTree ≠ Some 0) as Hc by (by left).
  destruct (ReplaceRoot_full_root 7 exampleTree 0 _ _ _ _ key78 [] [] [] 9
              eq_refl eq_refl eq_refl Hc exampleTree_scan)
    as (T1 & T' & HF & _ & _ & HR).
  - apply NoDup_ListNoDup. repeat constructor; simpl; intuition lia.
  - apply exampleTree_info.
  - intros e He. repeat (apply elem_of_cons in He as [->|He]; [done|]).
    by apply elem_of_nil in He.
  - simpl. lia.
  - exists T'. rewrite HR. vm_compute in HF. injection HF as <-.
    by vm_compute.
Defined.

(** ** A key list whose first and last key are the same *)

Lemma front_effect_lookup_Some_inv T T' a :
  front_effect T T' → is_Some (nodes T' !! a) → is_Some (nodes T !! a).
Proof.
  intros (_ & _ & _ & _ & Hn & _) [n Ha].
  destruct (Hn a) as [Heq|(m & Hm & _)]; [|by eexists].
  rewrite <- Heq, Ha. by eexists.
Qed.

Lemma last_cons_snoc (key : PQLeafKey) mid :
  last (key :: mid ++ [key]) = Some key.
Proof. by rewrite app_comm_cons, last_snoc. Qed.

Lemma ReplaceFullRoot_first_last fuel T key mid frontier w addIndicator
    opposite :
  ReplaceFullRoot fuel T (key :: mid ++ [key]) frontier w addIndicator opposite
  = ReplaceFullRoot fuel T [key] frontier w addIndicator opposite.
Proof.
  unfold ReplaceFullRoot.
  destruct (m_pertinentRoot T) as [r|]; [|done]. cbn [mbind option_bind].
  destruct (front fuel T r frontier) as [[T1 frontier1]|]; [|done].
  cbn [mbind option_bind].
  destruct (if addIndicator
            then let '(T2, a) := newIndicator w T1 in (T2, Some a)
            else (T1, None)) as [T2 newInd].
  rewrite (decide_True (P := head (key :: mid ++ [key])
                             = last (key :: mid ++ [key])))
    by (by rewrite last_cons_snoc).
  by rewrite (decide_True (P := head [key] = last [key])).
Qed.

Lemma ReplaceFullRoot_one_key_nodes fuel T key frontier w T' frontier' :
  ReplaceFullRoot fuel T [key] frontier w false None = Some (T', frontier') →
  ∃ a, nodes T !! a = None
       ∧ ∀ b, is_Some (nodes T' !! b) ↔ b = a ∨ is_Some (nodes T !! b).
Proof.
  unfold ReplaceFullRoot.
  destruct (m_pertinentRoot T) as [r|]; [|done]. cbn [mbind option_bind].
  destruct (front fuel T r frontier) as [[T1 frontier1]|] eqn:HF; [|done].
  pose proof (front_loop_effect _ _ _ _ _ _ _ HF) as He.
  cbn [mbind option_bind]. rewrite decide_True by done.
  destruct (newLeaf_spec PQNodeStatus.Empty key T1) as [-> Hfresh].
  set (a := fresh (dom (nodes T1))) in *.
  match goal with
  | |- context [exchangeNodes r a ?X] =>
      pose proof (relinked_exchangeNodes r a X) as [HR _];
      set (T5 := exchangeNodes r a X) in *
  end.
  intros [= <- _]. exists a.
  split; [by eapply front_effect_lookup_None|].
  intros b.
  assert (nodes (set_pertinentRoot None
                   (if decide (m_pertinentRoot T5 = m_root T5)
                    then set_root (Some a) T5 else T5)) !! b
          = nodes T5 !! b) as -> by (by case_decide).
  specialize (HR b). simpl in HR.
  destruct (decide (b = a)) as [->|Hne].
  - rewrite lookup_insert_eq in HR. inversion HR. split; [by left|by eexists].
  - rewrite lookup_insert_ne in HR by done.
    split.
    + intros [n Hn]. right. rewrite Hn in HR. inversion HR as [x y Hk Hx|].
      eapply (front_effect_lookup_Some_inv T T1); [done|by eexists].
    + intros [?|Hb]; [done|].
      apply (front_effect_lookup_Some T T1 b He) in Hb as [n Hn].
      rewrite Hn in HR. inversion HR. by eexists.
Qed.

(** X2. [ReplaceFullRoot] takes a key list for a single key when its first
    and its last key are the same key object
    ([leafKeys.front() == leafKeys.back()]), whatever lies between them: on
    such a list it makes exactly one new node, a leaf with that key, gives no
    leaf to the keys between, and nulls the pertinent root. *)
Theorem ReplaceFullRoot_first_is_last (fuel : nat) (T : EmbedPQTree)
    (r : addr) (rn : PQNode) (popped inds : list addr)
    (keys frontier : keys_t) (key : PQLeafKey) (mid : list PQLeafKey)
    (w : node) :
  m_pertinentRoot T = Some r → nodes T !! r = Some rn →
  scan (nodes T) [r] popped inds keys → NoDup inds →
  indicators_have_info (nodes T) (infos T) →
  length popped + length inds ≤ fuel →
  ∃ T' a n,
    ReplaceFullRoot fuel T (key :: mid ++ [key]) frontier w false None
    = Some (T', frontier ++ keys)
    ∧ nodes T !! a = None ∧ nodes T' !! a = Some n
    ∧ m_type n = PQNodeType.Leaf ∧ m_pointerToKey n = Some key
    ∧ (∀ b, is_Some (nodes T' !! b) ↔ b = a ∨ is_Some (nodes T !! b))
    ∧ m_pertinentRoot T' = None.
Proof.
  intros Hpr Hrn Hs Hnd Hv Hfuel.
  destruct (ReplaceFullRoot_one_key fuel T r rn popped inds keys key frontier
              w Hpr Hrn Hs Hnd Hv Hfuel)
    as (T' & a & n & rn' & T1 & HR & Ha & Hn & Hty & _ & Hk & _ & _ & _ & Hp
        & _).
  destruct (ReplaceFullRoot_one_key_nodes _ _ _ _ _ _ _ HR)
    as (a' & _ & Hdom).
  assert (a = a') as <-.
  { destruct (proj1 (Hdom a)) as [?|[x Hx]]; [by eexists|done|congruence]. }
  exists T', a, n. rewrite ReplaceFullRoot_first_last.
  split; [done|]. split; [done|]. split; [done|]. split; [done|].
  split; [done|]. split; done.
Qed.

Lemma ReplaceFullRoot_first_is_last_witness :
  ∃ T' a n,
    ReplaceFullRoot 7 exampleTree
      (mkLeafKey 7 (Some 107) :: [mkLeafKey 8 (Some 108)]
       ++ [mkLeafKey 7 (Some 107)]) [] 9 false None
    = Some (T', [Some (NodeKey (mkNodeKey (Some 1)));
                 Some (NodeKey (mkNodeKey (Some 0)));
                 Some (LeafKey (mkLeafKey 1 (Some 101)));
                 Some (LeafKey (mkLeafKey 6 (Some 106)));
                 Some (LeafKey (mkLeafKey 5 (Some 105)))])
    ∧ nodes T' !! a = Some n
    ∧ m_pointerToKey n = Some (mkLeafKey 7 (Some 107))
    ∧ ∀ b, is_Some (nodes T' !! b)
           ↔ b = a ∨ is_Some (nodes exampleTree !! b).
Proof.
  destruct (ReplaceFullRoot_first_is_last 7 exampleTree 0 _ _ _ _ []
              (mkLeafKey 7 (Some 107)) [mkLeafKey 8 (Some 108)] 9
              eq_refl eq_refl exampleTree_scan)
    as (T' & a & n & HR & _ & Hn & _ & Hk & Hdom & _).
  - apply NoDup_ListNoDup. repeat constructor; simpl; intuition lia.
  - apply exampleTree_info.
  - simpl. lia.
  - exists T', a, n. exact (conj HR (conj Hn (conj Hk Hdom))).
Defined.

(** * Stepping through the children with [clientNextSib] *)

Lemma head_filter_reverse (P : addr → Prop) `{∀ x, Decision (P x)} l :
  head (filter P (reverse l)) = last (filter P l).
Proof.
  induction l as [|a l IH]; [done|].
  rewrite reverse_cons, filter_app, filter_cons. simpl.
  rewrite filter_cons, filter_nil.
  destruct (decide (P a)) as [Ha|Ha].
  - destruct (filter P (reverse l)) as [|b k] eqn:E.
    + simpl in IH. simpl. symmetry in IH. apply last_None in IH.
      by rewrite IH.
    + simpl in *. rewrite IH.
      destruct (filter P l) as [|c m]; [done|]. done.
  - rewrite app_nil_r. done.
Qed.

Lemma NoDup_split_unique (l1 l1' : list addr) x l2 l2' :
  NoDup (l1 ++ x :: l2) → l1 ++ x :: l2 = l1' ++ x :: l2' →
  l1 = l1' ∧ l2 = l2'.
Proof.
  revert l1'. induction l1 as [|a l1 IH]; intros l1' Hnd Heq.
  - destruct l1' as [|b l1']; [by injection Heq as ->|].
    simpl in *. injection Heq as <- ->.
    apply NoDup_cons in Hnd as [Hx _]. destruct Hx.
    apply elem_of_app. right. by left.
  - destruct l1' as [|b l1'].
    + simpl in *. injection Heq as -> <-.
      apply NoDup_cons in Hnd as [Hx _]. destruct Hx.
      apply elem_of_app. right. by left.
    + simpl in *. injection Heq as <- Heq.
      apply NoDup_cons in Hnd as [_ Hnd].
      by destruct (IH l1' Hnd Heq) as [-> ->].
Qed.

(** X3. On the children of a Q-node the client functions behave as the
    plain traversal of the children with the indicators taken out: with [F]
    the children that are no indicators, from left to right,
    [clientLeftEndmost] is the first and [clientRightEndmost] the last node
    of [F], and [clientNextSib] of a node of [F], told its neighbour in [F] on
    one side, returns its neighbour in [F] on the other side, null at either
    end. *)
Theorem client_functions_walk_without_indicators (fuel : nat)
    (T : EmbedPQTree) (p : addr) (pn : PQNode) (l : list addr) :
  chain (nodes T) None l None → NoDup l → length l ≤ fuel →
  nodes T !! p = Some pn →
  m_leftEndmost pn = head l → m_rightEndmost pn = last l →
  let F := filter (λ a, is_indicator (nodes T) a = false) l in
  clientLeftEndmost fuel T p = Some (head F)
  ∧ clientRightEndmost fuel T p = Some (last F)
  ∧ ∀ F1 x F2, F = F1 ++ x :: F2 →
      clientNextSib fuel T x (last F1) = Some (head F2)
      ∧ clientNextSib fuel T x (head F2) = Some (last F1).
Proof.
  intros Hc Hnd Hlen Hp HL HR F.
  split; [by eapply clientLeftEndmost_chain|].
  split.
  { rewrite (clientRightEndmost_chain fuel T l p pn) by done.
    unfold firstNonIndicator. by rewrite head_filter_reverse. }
  intros F1 x F2 HF.
  assert (x ∈ F) as Hx by (rewrite HF, elem_of_app; right; by left).
  apply list_elem_of_filter in Hx as [Hxi Hx].
  apply list_elem_of_split in Hx as (l1 & l2 & ->).
  assert (F = filter (λ a, is_indicator (nodes T) a = false) l1
              ++ x :: filter (λ a, is_indicator (nodes T) a = false) l2)
    as HF'.
  { unfold F. rewrite filter_app, filter_cons. by rewrite decide_True. }
  assert (NoDup F) as HndF by (by apply NoDup_filter).
  rewrite HF in HF'. rewrite HF in HndF.
  destruct (NoDup_split_unique _ _ _ _ _ HndF HF') as [-> ->].
  destruct (chain_lookup _ _ _ _ _ _ Hc) as (n & Hn & _).
  destruct (clientNextSib_steps fuel T l1 x l2 n Hc Hnd Hlen Hn) as [H1 H2].
  unfold firstNonIndicator in H1, H2. rewrite head_filter_reverse in H1, H2.
  done.
Qed.

Lemma client_functions_walk_without_indicators_witness :
  clientLeftEndmost 4 exampleIndicators 0 = Some (Some 1)
  ∧ clientNextSib 4 exampleIndicators 1 None = Some (Some 4)
  ∧ clientNextSib 4 exampleIndicators 4 (Some 1) = Some None.
Proof.
  destruct (client_functions_walk_without_indicators 4 exampleIndicators 0
              (mkNode PQNodeType.QNode PQNodeStatus.Empty None None None
                 (Some 1) (Some 4) None None 4%Z None None [] 0)
              [1; 2; 3; 4] exampleIndicators_chain) as (H1 & _ & H3);
    [|simpl; lia|done|done|done|].
  - apply NoDup_ListNoDup. repeat constructor; simpl; intuition lia.
  - split; [exact H1|]. split.
    + apply (H3 [] 1 [4]). by vm_compute.
    + apply (H3 [1] 4 []). by vm_compute.
Defined.

(** * Emptying the pertinent nodes *)

Lemma markFull_in l a n :
  a ∈ l → m_status n = PQNodeStatus.Full →
  markFull l a n = set_status PQNodeStatus.ToBeDeleted n.
Proof. intros Ha Hs. unfold markFull. by rewrite decide_True. Qed.

Lemma markFull_out l a n :
  ¬ (a ∈ l ∧ m_status n = PQNodeStatus.Full) → markFull l a n = n.
Proof. intros H. unfold markFull. by rewrite decide_False. Qed.

Lemma destroyFullNodes_spec l T :
  (∀ a, a ∈ l → is_Some (nodes T !! a)) →
  ∃ T', destroyFullNodes l T = Some T'
        ∧ T' = set_nodes (nodes T') T
        ∧ ∀ a, nodes T' !! a = markFull l a <$> nodes T !! a.
Proof.
  revert T. induction l as [|x rest IH]; intros T Hin.
  - exists T. split; [done|]. split; [by destruct T|]. intros a.
    destruct (nodes T !! a) as [n|]; [|done]. simpl.
    rewrite markFull_out; [done|]. intros [?%elem_of_nil _]. done.
  - cbn [destroyFullNodes]. destruct (Hin x) as [nx Hx]; [by left|].
    rewrite Hx. cbn [mbind option_bind].
    set (T1 := if decide (m_status nx = PQNodeStatus.Full)
               then destroyNode x T else T).
    assert (T1 = set_nodes (nodes T1) T) as HT1.
    { unfold T1. case_decide; by destruct T. }
    assert (∀ a, nodes T1 !! a = markFull [x] a <$> nodes T !! a) as Hn1.
    { intros a. unfold T1, destroyNode, update.
      destruct (decide (a = x)) as [->|Hne].
      - rewrite Hx. cbn [fmap option_fmap option_map]. case_decide as Hs.
        + cbn [nodes set_nodes]. rewrite lookup_alter_eq, Hx.
          cbn [fmap option_fmap option_map].
          rewrite markFull_in; [done|by left|done].
        + rewrite Hx. rewrite markFull_out; [done|]. by intros [_ ?].
      - assert (nodes (if decide (m_status nx = PQNodeStatus.Full)
                       then set_nodes
                              (alter (set_status PQNodeStatus.ToBeDeleted) x
                                 (nodes T)) T
                       else T) !! a = nodes T !! a) as ->.
        { case_decide; [|done]. cbn [nodes set_nodes].
          by rewrite lookup_alter_ne. }
        destruct (nodes T !! a) as [n|]; [|done].
        cbn [fmap option_fmap option_map].
        rewrite markFull_out; [done|].
        intros [Hin' _]. apply list_elem_of_singleton in Hin'. done. }
    destruct (IH T1) as (T' & HD & HT' & Hn').
    { intros a Ha. rewrite Hn1. rewrite fmap_is_Some. apply Hin. by right. }
    exists T'. split; [done|]. split.
    { rewrite HT'. rewrite HT1. done. }
    intros a. rewrite Hn', Hn1. destruct (nodes T !! a) as [n|]; [|done].
    cbn [fmap option_fmap option_map]. f_equal.
    destruct (decide (a ∈ [x] ∧ m_status n = PQNodeStatus.Full))
      as [[Hax Hs]|Hno].
    + apply list_elem_of_singleton in Hax as ->.
      rewrite (markFull_in [x]); [|by left|done].
      rewrite markFull_out by (by intros [_ ?]).
      rewrite markFull_in; [done|by left|done].
    + rewrite (markFull_out [x]) by done.
      destruct (decide (m_status n = PQNodeStatus.Full)) as [Hs|Hs].
      * assert (a ≠ x) as Hne.
        { intros ->. apply Hno. split; [by left|done]. }
        destruct (decide (a ∈ rest)) as [Hr|Hr].
        -- rewrite !markFull_in; [done|by right|done|done|done].
        -- rewrite !markFull_out; [done| |by intros [? _]].
           intros [[?|?]%elem_of_cons _]; done.
      * rewrite !markFull_out; [done|by intros [_ ?]|by intros [_ ?]].
Qed.

(** X4. [emptyAllPertinentNodes] hands to the function of the base class the
    tree in which every pertinent node that was Full is marked ToBeDeleted,
    but for the pertinent root: if there is a pertinent root its status is
    Full, whether it was among the pertinent nodes or not ("Node was kept in
    the tree. Do not free it.").  No other node and nothing else of the tree
    is changed. *)
Theorem emptyAllPertinentNodes_keeps_root
    (base : EmbedPQTree → option EmbedPQTree) (T : EmbedPQTree) :
  (∀ a, a ∈ m_pertinentNodes T → is_Some (nodes T !! a)) →
  (∀ r, m_pertinentRoot T = Some r → is_Some (nodes T !! r)) →
  ∃ T2,
    emptyAllPertinentNodes base T = base T2
    ∧ T2 = set_nodes (nodes T2) T
    ∧ ∀ a, nodes T2 !! a
           = (λ n, if decide (m_pertinentRoot T = Some a)
                   then set_status PQNodeStatus.Full n
                   else markFull (m_pertinentNodes T) a n)
             <$> nodes T !! a.
Proof.
  intros Hin Hroot.
  destruct (destroyFullNodes_spec (m_pertinentNodes T) T Hin)
    as (T1 & HD & HT1 & Hn1).
  unfold emptyAllPertinentNodes. rewrite HD. cbn [mbind option_bind].
  assert (m_pertinentRoot T1 = m_pertinentRoot T) as Hpr by (by rewrite HT1).
  rewrite Hpr. destruct (m_pertinentRoot T) as [r|] eqn:Hr.
  - destruct (Hroot r eq_refl) as [rn Hrn].
    rewrite Hn1, Hrn. cbn [mbind option_bind fmap option_fmap option_map].
    exists (update r (set_status PQNodeStatus.Full) T1).
    split; [done|]. split.
    { unfold update. rewrite HT1. done. }
    intros a. unfold update. cbn [nodes set_nodes].
    destruct (decide (r = a)) as [->|Hne].
    + rewrite lookup_alter_eq, Hn1.
      destruct (nodes T !! a) as [n|]; [|done].
      cbn [fmap option_fmap option_map]. rewrite decide_True by done.
      f_equal. unfold markFull. by case_decide.
    + rewrite lookup_alter_ne, Hn1 by done.
      destruct (nodes T !! a) as [n|]; [|done].
      cbn [fmap option_fmap option_map].
      by rewrite decide_False by congruence.
  - cbn [mbind option_bind]. exists T1. split; [done|]. split; [done|].
    intros a. rewrite Hn1. by destruct (nodes T !! a).
Qed.

Lemma emptyAllPertinentNodes_keeps_root_witness :
  ∃ T2,
    emptyAllPertinentNodes Some exampleTree = Some T2
    ∧ m_status <$> nodes T2 !! 0 = Some PQNodeStatus.Full
    ∧ m_status <$> nodes T2 !! 3 = Some PQNodeStatus.ToBeDeleted
    ∧ m_status <$> nodes T2 !! 2 = Some PQNodeStatus.Indicator.
Proof.
  destruct (emptyAllPertinentNodes_keeps_root Some exampleTree)
    as (T2 & HE & _ & Hn).
  - intros a Ha. simpl in Ha.
    repeat (apply elem_of_cons in Ha as [->|Ha]; [by eexists|]).
    by apply elem_of_nil in Ha.
  - intros r [= <-]. by eexists.
  - exists T2. split; [done|]. rewrite !Hn. by vm_compute.
Defined.

(** * [ReplacePartialRoot]: the ends of the run of full children *)

(** ** Fewer than two full children *)

Lemma findSequence_nil fuel r T s : findSequence fuel [] r T s = Some (T, s).
Proof. done. Qed.

Lemma findSequence_one fuel c r T T' s :
  findSequence fuel [c] r T (mkSeq None None None None) = Some (T', s) →
  endSequence s = None.
Proof.
  cbn [findSequence].
  destruct (clientSibLeft fuel _ c) as [lft|]; [|done].
  cbn [mbind option_bind].
  destruct (isEmptyOrNull _ lft) as [[|]|]; [| |done]; cbn [mbind option_bind].
  - cbn [beginSequence].
    destruct (PQTree_clientSibLeft _ c) as [ind|]; [|done].
    cbn [mbind option_bind]. by intros [= _ <-].
  - destruct (clientSibRight fuel _ c) as [rgt|]; [|done].
    cbn [mbind option_bind].
    destruct (isEmptyOrNull _ rgt) as [[|]|]; [| |done];
      cbn [mbind option_bind].
    + cbn [beginSequence].
      destruct (PQTree_clientSibRight _ c) as [ind|]; [|done].
      cbn [mbind option_bind]. by intros [= _ <-].
    + by intros [= _ <-].
Qed.

(** X5. [ReplacePartialRoot] needs two full children below the pertinent
    root: with one or none it fails, at [OGDF_ASSERT(beginSequence !=
    nullptr)] or [OGDF_ASSERT(endSequence != nullptr)], whatever the tree and
    the keys. *)
Theorem ReplacePartialRoot_needs_two_full_children (fuel : nat)
    (T : EmbedPQTree) (r : addr) (rn : PQNode) (leafKeys : list PQLeafKey)
    (frontier : keys_t) (w : node) :
  m_pertinentRoot T = Some r → nodes T !! r = Some rn →
  length (fullChildren rn) ≤ 1 →
  ReplacePartialRoot fuel T leafKeys frontier w = None.
Proof.
  intros Hpr Hrn Hlen. unfold ReplacePartialRoot. rewrite Hpr.
  cbn [mbind option_bind]. rewrite Hrn. cbn [mbind option_bind].
  destruct (fullChildren rn) as [|c [|c' F]]; [| |simpl in Hlen; lia].
  - by rewrite findSequence_nil.
  - destruct (findSequence fuel [c] r _ _) as [[T2 s]|] eqn:HF; [|done].
    apply findSequence_one in HF. cbn [mbind option_bind].
    destruct (beginSequence s); [|done]. cbn [mbind option_bind].
    by rewrite HF.
Qed.

(** ** The first loop on the children of a Q-node *)

Lemma chain_ext h h' p l q :
  (∀ a, a ∈ l → h' !! a = h !! a) → chain h p l q → chain h' p l q.
Proof.
  revert p. induction l as [|a l IH]; intros p Hext; simpl; [done|].
  intros (n & Ha & Hs & Hc). exists n.
  rewrite Hext by (by left). split; [done|]. split; [done|].
  apply IH; [|done]. intros b Hb. apply Hext. by right.
Qed.

Lemma is_indicator_ext h h' a :
  h' !! a = h !! a → is_indicator h' a = is_indicator h a.
Proof. unfold is_indicator. by intros ->. Qed.

Lemma firstNonIndicator_ext h h' l :
  (∀ a, a ∈ l → h' !! a = h !! a) →
  firstNonIndicator h' l = firstNonIndicator h l.
Proof.
  intros Hext. unfold firstNonIndicator. f_equal.
  induction l as [|a l IH]; [done|].
  rewrite !filter_cons. rewrite (is_indicator_ext h h' a) by (apply Hext; by left).
  rewrite IH; [done|]. intros b Hb. apply Hext. by right.
Qed.

Lemma has_status_not_indicator h st a :
  has_status h st a → st ≠ PQNodeStatus.Indicator → is_indicator h a = false.
Proof.
  intros (n & Ha & Hs) Hne. unfold is_indicator, isIndicator. rewrite Ha.
  apply bool_decide_eq_false. congruence.
Qed.

(** The first node that is no indicator lies in the front part of a list
    when there is one in it. *)
Lemma firstNonIndicator_app_l h l m x :
  x ∈ l → is_indicator h x = false →
  ∃ y, firstNonIndicator h (l ++ m) = Some y ∧ y ∈ l
       ∧ is_indicator h y = false.
Proof.
  intros Hx Hi. unfold firstNonIndicator. rewrite filter_app.
  destruct (filter (λ a, is_indicator h a = false) l) as [|y k] eqn:E.
  - assert (x ∈ filter (λ a, is_indicator h a = false) l) as Hin
      by (by apply list_elem_of_filter).
    rewrite E in Hin. by apply elem_of_nil in Hin.
  - exists y. split; [done|].
    assert (y ∈ filter (λ a, is_indicator h a = false) l) as Hin
      by (rewrite E; by left).
    apply list_elem_of_filter in Hin as [? ?]. done.
Qed.

Lemma firstNonIndicator_app_r h l m :
  (∀ x, x ∈ l → is_indicator h x = true) →
  firstNonIndicator h (l ++ m) = firstNonIndicator h m.
Proof.
  intros Hl. unfold firstNonIndicator. rewrite filter_app.
  rewrite (filter_none _ l); [done|].
  intros a Ha. rewrite (Hl a Ha). done.
Qed.

Lemma isEmptyOrNull_empty T p :
  emptyOrNull (nodes T) p → isEmptyOrNull T p = Some true.
Proof.
  destruct p as [a|]; [|done]. intros (n & Ha & Hs). simpl. rewrite Ha.
  simpl. by rewrite bool_decide_eq_true_2.
Qed.

Lemma isEmptyOrNull_full T a :
  has_status (nodes T) PQNodeStatus.Full a →
  isEmptyOrNull T (Some a) = Some false.
Proof.
  intros (n & Ha & Hs). simpl. rewrite Ha. simpl.
  rewrite bool_decide_eq_false_2; [done|]. by rewrite Hs.
Qed.

Lemma update_fullChildren_twice r l l' T :
  update r (set_fullChildren l) (update r (set_fullChildren l') T)
  = update r (set_fullChildren l) T.
Proof.
  unfold update. simpl. rewrite alter_alter_eq.
  rewrite (alter_ext (set_fullChildren l ∘ set_fullChildren l')
             (set_fullChildren l)); [done|].
  by intros [] _.
Qed.

(** A round of the loop for a full child between two full children. *)
Lemma findSequence_step_interior fuel c rest r T s y1 y2 :
  let T1 := update r (set_fullChildren rest) T in
  clientSibLeft fuel T1 c = Some (Some y1) →
  clientSibRight fuel T1 c = Some (Some y2) →
  has_status (nodes T1) PQNodeStatus.Full y1 →
  has_status (nodes T1) PQNodeStatus.Full y2 →
  findSequence fuel (c :: rest) r T s = findSequence fuel rest r T1 s.
Proof.
  intros T1 HL HR H1 H2. cbn [findSequence]. fold T1.
  rewrite HL. cbn [mbind option_bind].
  rewrite (isEmptyOrNull_full _ _ H1). cbn [mbind option_bind].
  rewrite HR. cbn [mbind option_bind].
  rewrite (isEmptyOrNull_full _ _ H2). done.
Qed.

(** A round of the loop for a full child at an end of the run: [out] is its
    neighbour outside the run, [raw] the sibling pointer towards it. *)
Lemma findSequence_step_end fuel c rest r T s n out raw y :
  let T1 := update r (set_fullChildren rest) T in
  nodes T1 !! c = Some n →
  emptyOrNull (nodes T1) out →
  has_status (nodes T1) PQNodeStatus.Full y →
  (clientSibLeft fuel T1 c = Some out ∧ m_sibLeft n = raw)
  ∨ (clientSibLeft fuel T1 c = Some (Some y)
     ∧ clientSibRight fuel T1 c = Some out ∧ m_sibRight n = raw) →
  findSequence fuel (c :: rest) r T s
  = findSequence fuel rest r T1
      match beginSequence s with
      | None => mkSeq out (Some c) (endSequence s) raw
      | Some _ => mkSeq (predNode s) (beginSequence s) (Some c) (beginInd s)
      end.
Proof.
  intros T1 Hc He Hy Hcase. cbn [findSequence]. fold T1.
  destruct Hcase as [[HL Hraw]|(HL & HR & Hraw)].
  - rewrite HL. cbn [mbind option_bind].
    rewrite (isEmptyOrNull_empty _ _ He). cbn [mbind option_bind].
    unfold PQTree_clientSibLeft. rewrite Hc. simpl. rewrite Hraw.
    by destruct (beginSequence s).
  - rewrite HL. cbn [mbind option_bind].
    rewrite (isEmptyOrNull_full _ _ Hy). cbn [mbind option_bind].
    rewrite HR. cbn [mbind option_bind].
    rewrite (isEmptyOrNull_empty _ _ He). cbn [mbind option_bind].
    unfold PQTree_clientSibRight. rewrite Hc. simpl. rewrite Hraw.
    by destruct (beginSequence s).
Qed.

Lemma has_status_ext h h' st a :
  h' !! a = h !! a → has_status h st a → has_status h' st a.
Proof. intros Heq (n & Ha & Hs). exists n. by rewrite Heq. Qed.

Lemma emptyOrNull_ext h h' p :
  (∀ a, p = Some a → h' !! a = h !! a) → emptyOrNull h p → emptyOrNull h' p.
Proof.
  destruct p as [a|]; [|done]. intros Heq. apply has_status_ext. by apply Heq.
Qed.

Lemma run_layout_ext h h' pre x1 mid xk post :
  (∀ a, a ∈ pre ++ x1 :: mid ++ xk :: post → h' !! a = h !! a) →
  run_layout h pre x1 mid xk post → run_layout h' pre x1 mid xk post.
Proof.
  intros Hext (Hc & Hnd & H1 & Hk & Hmid & Hpre & Hpost).
  assert (∀ a, a ∈ mid → h' !! a = h !! a) as Hm.
  { intros a Ha. apply Hext. rewrite elem_of_app, elem_of_cons, elem_of_app.
    auto. }
  split; [by eapply chain_ext|]. split; [done|].
  split.
  { eapply has_status_ext; [|done]. apply Hext.
    rewrite elem_of_app, elem_of_cons. auto. }
  split.
  { eapply has_status_ext; [|done]. apply Hext.
    rewrite elem_of_app, elem_of_cons, elem_of_app, elem_of_cons. auto 6. }
  split.
  { intros a Ha. destruct (Hmid a Ha) as [Hf|Hi].
    - left. eapply has_status_ext; [|done]. by apply Hm.
    - right. rewrite (is_indicator_ext h h'); [done|]. by apply Hm. }
  split.
  - rewrite (firstNonIndicator_ext h h').
    + eapply emptyOrNull_ext; [|done]. intros a Ha. apply Hext.
      apply firstNonIndicator_elem in Ha. rewrite elem_of_reverse in Ha.
      rewrite elem_of_app. auto.
    + intros a Ha. rewrite elem_of_reverse in Ha. apply Hext.
      rewrite elem_of_app. auto.
  - rewrite (firstNonIndicator_ext h h').
    + eapply emptyOrNull_ext; [|done]. intros a Ha. apply Hext.
      apply firstNonIndicator_elem in Ha.
      rewrite elem_of_app, elem_of_cons, elem_of_app, elem_of_cons. auto 6.
    + intros a Ha. apply Hext.
      rewrite elem_of_app, elem_of_cons, elem_of_app, elem_of_cons. auto 6.
Qed.

(** Inside the run the nearest child that is no indicator is full. *)
Lemma run_nearest_full h l (x : addr) m :
  has_status h PQNodeStatus.Full x →
  (∀ a, a ∈ l → has_status h PQNodeStatus.Full a ∨ is_indicator h a = true) →
  ∃ y, firstNonIndicator h (l ++ x :: m) = Some y
       ∧ has_status h PQNodeStatus.Full y.
Proof.
  intros Hx Hl.
  destruct (firstNonIndicator_app_l h (l ++ [x]) m x) as (y & Hy & Hin & Hi).
  - apply elem_of_app. right. by left.
  - by eapply has_status_not_indicator.
  - exists y. rewrite <- app_assoc in Hy. split; [done|].
    apply elem_of_app in Hin as [Hin|Hin].
    + destruct (Hl y Hin) as [?|Hi']; [done|congruence].
    + apply list_elem_of_singleton in Hin. by subst.
Qed.

Lemma run_interior fuel T pre x1 m1 c m2 xk post :
  run_layout (nodes T) pre x1 (m1 ++ c :: m2) xk post →
  length (pre ++ x1 :: (m1 ++ c :: m2) ++ xk :: post) ≤ fuel →
  ∃ y1 y2,
    clientSibLeft fuel T c = Some (Some y1)
    ∧ clientSibRight fuel T c = Some (Some y2)
    ∧ has_status (nodes T) PQNodeStatus.Full y1
    ∧ has_status (nodes T) PQNodeStatus.Full y2.
Proof.
  intros (Hc & Hnd & H1 & Hk & Hmid & _) Hlen.
  assert (pre ++ x1 :: (m1 ++ c :: m2) ++ xk :: post
          = (pre ++ x1 :: m1) ++ c :: (m2 ++ xk :: post)) as Heq.
  { by rewrite <- !app_assoc. }
  rewrite Heq in Hc, Hnd, Hlen.
  destruct (chain_lookup _ _ _ _ _ _ Hc) as (n & Hn & _).
  destruct (clientSib_chain fuel T _ c _ n Hc Hnd Hlen Hn) as [HL HR].
  destruct (run_nearest_full (nodes T) (reverse m1) x1 (reverse pre))
    as (ya & Hya & Hfa); [done| |].
  { intros a Ha. rewrite elem_of_reverse in Ha. apply Hmid.
    rewrite elem_of_app. auto. }
  destruct (run_nearest_full (nodes T) m2 xk post) as (yb & Hyb & Hfb);
    [done| |].
  { intros a Ha. apply Hmid. rewrite elem_of_app, elem_of_cons. auto. }
  assert (reverse (pre ++ x1 :: m1) = reverse m1 ++ x1 :: reverse pre) as Hrev.
  { by rewrite reverse_app, reverse_cons, <- app_assoc. }
  rewrite Hrev in HL, HR.
  exists (if decide (m_sibLeft n = last (pre ++ x1 :: m1)) then ya else yb),
    (if decide (m_sibRight n = last (pre ++ x1 :: m1)) then ya else yb).
  rewrite HL, HR. repeat case_decide; rewrite ?Hya, ?Hyb; done.
Qed.

Lemma run_begin fuel T pre x1 mid xk post :
  run_layout (nodes T) pre x1 mid xk post →
  length (pre ++ x1 :: mid ++ xk :: post) ≤ fuel →
  ∃ n y,
    nodes T !! x1 = Some n
    ∧ has_status (nodes T) PQNodeStatus.Full y
    ∧ ((clientSibLeft fuel T x1
        = Some (firstNonIndicator (nodes T) (reverse pre))
        ∧ m_sibLeft n = last pre)
       ∨ (clientSibLeft fuel T x1 = Some (Some y)
          ∧ clientSibRight fuel T x1
            = Some (firstNonIndicator (nodes T) (reverse pre))
          ∧ m_sibRight n = last pre)).
Proof.
  intros (Hc & Hnd & H1 & Hk & Hmid & _) Hlen.
  destruct (chain_lookup _ _ _ _ _ _ Hc) as (n & Hn & Hs).
  rewrite !or_else_None in Hs.
  destruct (clientSib_chain fuel T _ x1 _ n Hc Hnd Hlen Hn) as [HL HR].
  destruct (run_nearest_full (nodes T) mid xk post) as (y & Hy & Hf);
    [done|done|].
  exists n, y. split; [done|]. split; [done|].
  destruct (decide (m_sibLeft n = last pre)) as [El|El].
  - left. done.
  - right. rewrite Hy in HL. split; [done|].
    assert (m_sibRight n = last pre) as Er
      by (destruct Hs as [[? ?]|[? ?]]; congruence).
    rewrite decide_True in HR by done. done.
Qed.

Lemma run_end fuel T pre x1 mid xk post :
  run_layout (nodes T) pre x1 mid xk post →
  length (pre ++ x1 :: mid ++ xk :: post) ≤ fuel →
  ∃ n y,
    nodes T !! xk = Some n
    ∧ has_status (nodes T) PQNodeStatus.Full y
    ∧ ((clientSibLeft fuel T xk = Some (firstNonIndicator (nodes T) post)
        ∧ m_sibLeft n = head post)
       ∨ (clientSibLeft fuel T xk = Some (Some y)
          ∧ clientSibRight fuel T xk
            = Some (firstNonIndicator (nodes T) post)
          ∧ m_sibRight n = head post)).
Proof.
  intros (Hc & Hnd & H1 & Hk & Hmid & _) Hlen.
  assert (pre ++ x1 :: mid ++ xk :: post
          = (pre ++ x1 :: mid) ++ xk :: post) as Heq.
  { by rewrite <- !app_assoc. }
  rewrite Heq in Hc, Hnd, Hlen.
  destruct (chain_lookup _ _ _ _ _ _ Hc) as (n & Hn & Hs).
  rewrite !or_else_None in Hs.
  destruct (clientSib_chain fuel T _ xk _ n Hc Hnd Hlen Hn) as [HL HR].
  destruct (run_nearest_full (nodes T) (reverse mid) x1 (reverse pre))
    as (y & Hy & Hf); [done| |].
  { intros a Ha. rewrite elem_of_reverse in Ha. by apply Hmid. }
  assert (reverse (pre ++ x1 :: mid) = reverse mid ++ x1 :: reverse pre)
    as Hrev.
  { by rewrite reverse_app, reverse_cons, <- app_assoc. }
  rewrite Hrev in HL, HR.
  assert (head post ≠ last (pre ++ x1 :: mid)) as Hne.
  { intros Heq'. symmetry in Heq'.
    destruct (last_head_ends _ _ _ Hnd Heq') as [Habs _].
    by destruct pre. }
  exists n, y. split; [done|]. split; [done|].
  destruct (decide (m_sibLeft n = last (pre ++ x1 :: mid))) as [El|El].
  - right. rewrite Hy in HL. split; [done|].
    assert (m_sibRight n = head post) as Er
      by (destruct Hs as [[? ?]|[? ?]]; congruence).
    rewrite decide_False in HR by congruence. done.
  - left. split; [done|]. destruct Hs as [[? ?]|[? ?]]; congruence.
Qed.

Lemma update_fullChildren_id r rn T :
  nodes T !! r = Some rn → update r (set_fullChildren (fullChildren rn)) T = T.
Proof.
  intros Hr. unfold update.
  assert (alter (set_fullChildren (fullChildren rn)) r (nodes T) = nodes T)
    as ->; [|by destruct T].
  apply map_eq. intros a. destruct (decide (r = a)) as [->|Hne].
  - rewrite lookup_alter_eq, Hr. simpl. by destruct rn.
  - by rewrite lookup_alter_ne.
Qed.

Lemma lookup_update_fullChildren r x T a :
  a ≠ r → nodes (update r (set_fullChildren x) T) !! a = nodes T !! a.
Proof. intros Hne. apply lookup_update_ne. done. Qed.

Lemma run_layout_update r x T pre x1 mid xk post :
  r ∉ pre ++ x1 :: mid ++ xk :: post →
  run_layout (nodes T) pre x1 mid xk post →
  run_layout (nodes (update r (set_fullChildren x) T)) pre x1 mid xk post.
Proof.
  intros Hr. apply run_layout_ext. intros a Ha.
  apply lookup_update_fullChildren. by intros ->.
Qed.

(** The loop passes over full children inside the run. *)
Lemma findSequence_interiors fuel T r pre x1 mid xk post G rest s :
  r ∉ pre ++ x1 :: mid ++ xk :: post →
  run_layout (nodes T) pre x1 mid xk post →
  length (pre ++ x1 :: mid ++ xk :: post) ≤ fuel →
  (∀ c, c ∈ G → c ∈ mid) →
  findSequence fuel (G ++ rest) r
    (update r (set_fullChildren (G ++ rest)) T) s
  = findSequence fuel rest r (update r (set_fullChildren rest) T) s.
Proof.
  intros Hr Hrun Hlen. induction G as [|c G IH]; intros HG; [done|].
  destruct (list_elem_of_split mid c) as (m1 & m2 & ->); [apply HG; by left|].
  pose proof (run_layout_update r (G ++ rest) T _ _ _ _ _ Hr Hrun) as Hrun'.
  destruct (run_interior fuel _ pre x1 m1 c m2 xk post Hrun' Hlen)
    as (y1 & y2 & HL & HR & H1 & H2).
  rewrite <- app_comm_cons.
  rewrite (findSequence_step_interior fuel c (G ++ rest) r _ s y1 y2);
    rewrite update_fullChildren_twice; try done.
  apply IH. intros c' Hc'. apply HG. by right.
Qed.

(** The first loop of [ReplacePartialRoot] on the run of full children. *)
Lemma findSequence_run (fuel : nat) (T : EmbedPQTree) (r : addr)
    (rn : PQNode) (pre : list addr) (x1 : addr) (mid : list addr)
    (xk : addr) (post F1 F2 F3 : list addr) :
  nodes T !! r = Some rn →
  r ∉ pre ++ x1 :: mid ++ xk :: post →
  run_layout (nodes T) pre x1 mid xk post →
  length (pre ++ x1 :: mid ++ xk :: post) ≤ fuel →
  fullChildren rn = F1 ++ x1 :: F2 ++ xk :: F3 →
  (∀ c, c ∈ F1 ++ F2 ++ F3 → c ∈ mid) →
  findSequence fuel (fullChildren rn) r T (mkSeq None None None None)
  = Some (update r (set_fullChildren []) T,
          mkSeq (firstNonIndicator (nodes T) (reverse pre)) (Some x1)
            (Some xk) (last pre)).
Proof.
  intros Hrn Hr Hrun Hlen HF Hint.
  rewrite <- (update_fullChildren_id r rn T Hrn) at 1. rewrite HF.
  rewrite (findSequence_interiors fuel T r pre x1 mid xk post F1 _ _ Hr Hrun
             Hlen).
  2: { intros c Hc. apply Hint. rewrite elem_of_app. auto. }
  pose proof (run_layout_update r (F2 ++ xk :: F3) T _ _ _ _ _ Hr Hrun)
    as Hrun1.
  destruct (run_begin fuel _ pre x1 mid xk post Hrun1 Hlen)
    as (n & y & Hn & Hy & Hcase).
  rewrite (findSequence_step_end fuel x1 _ r _ _ n
             (firstNonIndicator (nodes T) (reverse pre)) (last pre) y).
  2: by rewrite update_fullChildren_twice.
  2: { rewrite update_fullChildren_twice.
       destruct Hrun1 as (_ & _ & _ & _ & _ & He & _).
       rewrite (firstNonIndicator_ext (nodes T)) in He; [done|].
       intros a Ha. apply lookup_update_fullChildren.
       intros ->. apply Hr. rewrite elem_of_reverse in Ha.
       rewrite elem_of_app. auto. }
  2: by rewrite update_fullChildren_twice.
  2: { rewrite update_fullChildren_twice.
       rewrite (firstNonIndicator_ext (nodes T)) in Hcase; [done|].
       intros a Ha. apply lookup_update_fullChildren.
       intros ->. apply Hr. rewrite elem_of_reverse in Ha.
       rewrite elem_of_app. auto. }
  rewrite update_fullChildren_twice. cbn [beginSequence endSequence].
  rewrite (findSequence_interiors fuel T r pre x1 mid xk post F2 _ _ Hr Hrun
             Hlen).
  2: { intros c Hc. apply Hint. rewrite !elem_of_app. auto. }
  pose proof (run_layout_update r F3 T _ _ _ _ _ Hr Hrun) as Hrun2.
  destruct (run_end fuel _ pre x1 mid xk post Hrun2 Hlen)
    as (n' & y' & Hn' & Hy' & Hcase').
  rewrite (findSequence_step_end fuel xk _ r _ _ n'
             (firstNonIndicator (nodes (update r (set_fullChildren F3) T))
                post) (head post) y').
  2: by rewrite update_fullChildren_twice.
  2: { rewrite update_fullChildren_twice.
       by destruct Hrun2 as (_ & _ & _ & _ & _ & _ & He). }
  2: by rewrite update_fullChildren_twice.
  2: by rewrite update_fullChildren_twice.
  rewrite update_fullChildren_twice.
  cbn [beginSequence endSequence predNode beginInd].
  rewrite <- (app_nil_r F3) at 1 2.
  rewrite (findSequence_interiors fuel T r pre x1 mid xk post F3 [] _ Hr Hrun
             Hlen).
  2: { intros c Hc. apply Hint. rewrite !elem_of_app. auto. }
  done.
Qed.

(** X6. The first loop of [ReplacePartialRoot] finds the two ends of the run
    of full children, whatever the place of the ends in the list of full
    children: when the children of the pertinent root are [pre], the run
    from [x1] to [xk] and [post], and the list of full children holds [x1]
    before [xk] and beside them only full children from inside the run,
    the loop ends with [beginSequence = x1] and [endSequence = xk];
    [predNode] is the nearest child before [x1] that is no indicator,
    [beginInd] the sibling of [x1] on that side, be it an indicator; and the
    list of full children is empty afterwards. *)
Theorem findSequence_finds_ends (fuel : nat) (T : EmbedPQTree) (r : addr)
    (rn : PQNode) (pre : list addr) (x1 : addr) (mid : list addr)
    (xk : addr) (post F1 F2 F3 : list addr) :
  nodes T !! r = Some rn →
  r ∉ pre ++ x1 :: mid ++ xk :: post →
  run_layout (nodes T) pre x1 mid xk post →
  length (pre ++ x1 :: mid ++ xk :: post) ≤ fuel →
  fullChildren rn = F1 ++ x1 :: F2 ++ xk :: F3 →
  (∀ c, c ∈ F1 ++ F2 ++ F3 → c ∈ mid) →
  findSequence fuel (fullChildren rn) r T (mkSeq None None None None)
  = Some (update r (set_fullChildren []) T,
          mkSeq (firstNonIndicator (nodes T) (reverse pre)) (Some x1)
            (Some xk) (last pre)).
Proof. apply findSequence_run. Qed.

Lemma examplePartial_layout :
  run_layout (nodes examplePartial) [1] 2 [3; 4] 5 [6].
Proof.
  split.
  { simpl. repeat (eexists; split; [by vm_compute|]; split;
                     [by (left + right; vm_compute)|]). done. }
  split.
  { apply NoDup_ListNoDup. repeat constructor; simpl; intuition lia. }
  split; [eexists; by vm_compute|]. split; [eexists; by vm_compute|].
  split.
  { intros a Ha. repeat (apply elem_of_cons in Ha as [->|Ha]).
    - by right.
    - left. eexists. by vm_compute.
    - by apply elem_of_nil in Ha. }
  split; eexists; by vm_compute.
Qed.

Lemma findSequence_finds_ends_witness :
  ∃ T',
    findSequence 6 [4; 2; 5] 0 examplePartial (mkSeq None None None None)
    = Some (T', mkSeq (Some 1) (Some 2) (Some 5) (Some 1)).
Proof.
  eexists.
  apply (findSequence_finds_ends 6 examplePartial 0
           (mkNode PQNodeType.QNode PQNodeStatus.Partial None None None
              (Some 1) (Some 6) None None 5%Z None None [4; 2; 5] 0)
           [1] 2 [3; 4] 5 [6] [4] [] []).
  - done.
  - intros Hin. repeat (apply elem_of_cons in Hin as [Hin|Hin]; [done|]).
    by apply elem_of_nil in Hin.
  - apply examplePartial_layout.
  - simpl. lia.
  - done.
  - intros c Hc. simpl in Hc. apply list_elem_of_singleton in Hc as ->.
    right. by left.
Defined.

Lemma ReplacePartialRoot_needs_two_full_children_witness :
  ReplacePartialRoot 6 (update 0 (set_fullChildren [2]) examplePartial)
    key78 [] 9
  = None.
Proof.
  eapply (ReplacePartialRoot_needs_two_full_children 6
            (update 0 (set_fullChildren [2]) examplePartial) 0);
    [done|vm_compute; reflexivity|simpl; lia].
Defined.

(** * Taking a child out of the ring *)

Lemma osibs_sibs_are n fwd p q : osibs n fwd p q → sibs_are n p q.
Proof. unfold osibs, sibs_are. destruct fwd; tauto. Qed.

Lemma ochain_chain h o p l q : ochain h o p l q → chain h p l q.
Proof.
  revert p. induction l as [|a l IH]; intros p; simpl; [done|].
  intros (n & Ha & Hs & Hc). exists n. split; [done|].
  split; [by eapply osibs_sibs_are|by apply IH].
Qed.

Lemma ochain_app h o p l1 l2 q :
  ochain h o p (l1 ++ l2) q ↔
  ochain h o p l1 (or_else (head l2) q)
  ∧ ochain h o (or_else (last l1) p) l2 q.
Proof.
  revert p. induction l1 as [|a l1 IH]; intros p; simpl.
  - tauto.
  - setoid_rewrite IH. destruct l1 as [|b l1]; simpl.
    + split.
      * intros (n & ? & ? & _ & ?). eauto 10.
      * intros ((n & ? & ? & _) & ?). eauto 10.
    + assert (or_else (last (b :: l1)) (Some a)
              = or_else (last (a :: b :: l1)) p) as ->.
      { change (last (a :: b :: l1)) with (last (b :: l1)).
        destruct (last (b :: l1)) eqn:E; [done|].
        by apply last_None in E. }
      split.
      * intros (n & ? & ? & ? & ?). eauto 10.
      * intros ((n & ? & ? & ?) & ?). eauto 10.
Qed.

Lemma ochain_lookup h o p l1 a l2 q :
  ochain h o p (l1 ++ a :: l2) q →
  ∃ n, h !! a = Some n
       ∧ osibs n (o a) (or_else (last l1) p) (or_else (head l2) q).
Proof.
  intros [_ (n & ? & ? & _)]%ochain_app. eauto.
Qed.

Lemma sibsOf_osibs h h' a n fwd p q :
  h !! a = Some n → sibsOf h' a = sibsOf h a → osibs n fwd p q →
  ∃ n', h' !! a = Some n' ∧ osibs n' fwd p q.
Proof.
  unfold sibsOf. intros Ha Heq Hs. rewrite Ha in Heq.
  destruct (h' !! a) as [n'|]; [|done]. simpl in Heq.
  injection Heq as HL HR. exists n'. split; [done|].
  unfold osibs in *. rewrite HL, HR. done.
Qed.

Lemma ochain_ext h h' o p l q :
  (∀ a, a ∈ l → sibsOf h' a = sibsOf h a) →
  ochain h o p l q → ochain h' o p l q.
Proof.
  revert p. induction l as [|a l IH]; intros p Hext; simpl; [done|].
  intros (n & Ha & Hs & Hc).
  destruct (sibsOf_osibs h h' a n _ _ _ Ha (Hext a ltac:(by left)) Hs)
    as (n' & Hn' & Hs').
  exists n'. split; [done|]. split; [done|].
  apply IH; [|done]. intros b Hb. apply Hext. by right.
Qed.

(** The pointer of the last node towards the end of the list is set. *)
Lemma ochain_set_last h h' o p l lst q q' :
  ochain h o p l q → NoDup l → last l = Some lst →
  (∀ a, a ∈ l → a ≠ lst → sibsOf h' a = sibsOf h a) →
  (∀ n pr, h !! lst = Some n → osibs n (o lst) pr q →
           pr = p ∨ (∃ c, pr = Some c ∧ c ∈ l) →
           ∃ n', h' !! lst = Some n' ∧ osibs n' (o lst) pr q') →
  ochain h' o p l q'.
Proof.
  revert p. induction l as [|a l IH]; intros p; simpl; [done|].
  intros (n & Ha & Hs & Hc) Hnd Hlast Hext Hlst.
  apply NoDup_cons in Hnd as [Hal Hnd].
  destruct l as [|b l].
  - simpl in Hlast. injection Hlast as ->. simpl in Hs.
    destruct (Hlst n p Ha Hs) as (n' & Hn' & Hs'); [by left|].
    exists n'. split; [done|]. split; done.
  - change (last (a :: b :: l)) with (last (b :: l)) in Hlast.
    assert (a ≠ lst) as Hne.
    { intros ->. apply Hal. by eapply last_Some_elem_of. }
    destruct (sibsOf_osibs h h' a n _ _ _ Ha
                (Hext a ltac:(by left) Hne) Hs) as (n' & Hn' & Hs').
    exists n'. split; [done|]. split; [done|].
    apply IH; try done.
    + intros c Hc' Hcl. apply Hext; [by right|done].
    + intros m pr Hm Hpr Hcase. apply (Hlst m pr Hm Hpr).
      right. destruct Hcase as [->|(c & -> & Hc')].
      * exists a. split; [done|by left].
      * exists c. split; [done|by right].
Qed.

(** The pointer of the first node towards the head of the list is set. *)
Lemma ochain_set_head h h' o p p' a l q :
  ochain h o p (a :: l) q → a ∉ l →
  (∀ b, b ∈ l → sibsOf h' b = sibsOf h b) →
  (∀ n sc, h !! a = Some n → osibs n (o a) p sc →
           sc = q ∨ (∃ c, sc = Some c ∧ c ∈ l) →
           ∃ n', h' !! a = Some n' ∧ osibs n' (o a) p' sc) →
  ochain h' o p' (a :: l) q.
Proof.
  simpl. intros (n & Ha & Hs & Hc) Hal Hext Hhd.
  destruct (Hhd n _ Ha Hs) as (n' & Hn' & Hs').
  { destruct l as [|c l]; [by left|]. right. exists c. split; [done|by left]. }
  exists n'. split; [done|]. split; [done|].
  by eapply ochain_ext.
Qed.

(** ** [removeChildFromSiblings] on the sibling pointers *)

Lemma sibsOf_update x b f g T :
  (∀ m, (m_sibLeft (f m), m_sibRight (f m))
        = g (m_sibLeft m, m_sibRight m)) →
  sibsOf (nodes (update b f T)) x
  = if decide (x = b) then g <$> sibsOf (nodes T) x else sibsOf (nodes T) x.
Proof.
  intros Hf. unfold sibsOf, update. simpl. case_decide as Hx.
  - subst. rewrite lookup_alter_eq. destruct (nodes T !! b) as [m|]; [|done].
    simpl. by rewrite Hf.
  - by rewrite lookup_alter_ne.
Qed.

Lemma sibsOf_update_keep x b f T :
  (∀ m, m_sibLeft (f m) = m_sibLeft m ∧ m_sibRight (f m) = m_sibRight m) →
  sibsOf (nodes (update b f T)) x = sibsOf (nodes T) x.
Proof.
  intros Hf. rewrite (sibsOf_update x b f id).
  - case_decide; [|done]. by destruct (sibsOf (nodes T) x).
  - intros m. by destruct (Hf m) as [-> ->].
Qed.

Lemma sibsOf_update_ptr_keep x p f T :
  (∀ m, m_sibLeft (f m) = m_sibLeft m ∧ m_sibRight (f m) = m_sibRight m) →
  sibsOf (nodes (update_ptr p f T)) x = sibsOf (nodes T) x.
Proof.
  intros Hf. destruct p as [b|]; [|done]. by apply sibsOf_update_keep.
Qed.

Lemma changeSiblings_csibs old new m :
  (m_sibLeft (changeSiblings old new m), m_sibRight (changeSiblings old new m))
  = csibs old new (m_sibLeft m, m_sibRight m).
Proof.
  unfold changeSiblings, csibs. simpl. by repeat case_decide.
Qed.

Lemma changeEndmost_sibs old new m :
  m_sibLeft (changeEndmost old new m) = m_sibLeft m
  ∧ m_sibRight (changeEndmost old new m) = m_sibRight m.
Proof. unfold changeEndmost. by repeat case_decide. Qed.

Lemma removeChildFromSiblings_sibsOf a T n x :
  nodes T !! a = Some n →
  m_sibLeft n ≠ Some a → m_sibRight n ≠ Some a →
  sibsOf (nodes (removeChildFromSiblings a T)) x
  = if decide (x = a) then Some (None, None)
    else if decide (Some x = m_sibLeft n)
    then csibs (Some a) (m_sibRight n)
           <$> (if decide (Some x = m_sibRight n)
                then csibs (Some a) (m_sibLeft n) <$> sibsOf (nodes T) x
                else sibsOf (nodes T) x)
    else if decide (Some x = m_sibRight n)
    then csibs (Some a) (m_sibLeft n) <$> sibsOf (nodes T) x
    else sibsOf (nodes T) x.
Proof.
  intros Ha HL HR. unfold removeChildFromSiblings. rewrite Ha.
  rewrite (decide_False (P := m_sibRight n = Some a)) by done.
  rewrite (decide_False (P := m_sibLeft n = Some a)) by done.
  match goal with
  | |- context [update_ptr (m_sibRight n) _ ?X] => set (T1 := X)
  end.
  assert (∀ y, sibsOf (nodes T1) y = sibsOf (nodes T) y) as H1.
  { intros y. unfold T1. destruct (m_referenceParent n) as [p|].
    - rewrite sibsOf_update_keep by done.
      rewrite sibsOf_update_ptr_keep by done.
      by rewrite sibsOf_update_keep.
    - destruct (endmostChild n); [|done].
      rewrite sibsOf_update_ptr_keep by done.
      rewrite sibsOf_update_ptr_keep; [done|].
      intros m. apply changeEndmost_sibs. }
  rewrite (sibsOf_update x a _ (λ _, (None, None))) by done.
  destruct (decide (x = a)) as [->|Hxa].
  { destruct (m_sibLeft n) as [b|], (m_sibRight n) as [c|]; simpl;
      unfold sibsOf, update; simpl.
    - assert (b ≠ a) by congruence. assert (c ≠ a) by congruence.
      rewrite !lookup_alter_ne by done.
      change (nodes T1 !! a) with (nodes T1 !! a).
      specialize (H1 a). unfold sibsOf in H1. rewrite Ha in H1.
      by destruct (nodes T1 !! a).
    - assert (b ≠ a) by congruence. rewrite !lookup_alter_ne by done.
      specialize (H1 a). unfold sibsOf in H1. rewrite Ha in H1.
      by destruct (nodes T1 !! a).
    - assert (c ≠ a) by congruence. rewrite !lookup_alter_ne by done.
      specialize (H1 a). unfold sibsOf in H1. rewrite Ha in H1.
      by destruct (nodes T1 !! a).
    - specialize (H1 a). unfold sibsOf in H1. rewrite Ha in H1.
      by destruct (nodes T1 !! a). }
  assert (∀ p f g T0,
            (∀ m, (m_sibLeft (f m), m_sibRight (f m))
                  = g (m_sibLeft m, m_sibRight m)) →
            sibsOf (nodes (update_ptr p f T0)) x
            = if decide (Some x = p) then g <$> sibsOf (nodes T0) x
              else sibsOf (nodes T0) x) as Hup.
  { intros p f g T0 Hf. destruct p as [b|]; cbn [update_ptr].
    - rewrite (sibsOf_update x b f g) by done.
      destruct (decide (x = b)) as [->|Hne].
      + by rewrite decide_True.
      + rewrite decide_False; [done|]. congruence.
    - by rewrite decide_False. }
  rewrite (Hup (m_sibLeft n) _ (csibs (Some a) (m_sibRight n)))
    by (intros m; apply changeSiblings_csibs).
  rewrite (Hup (m_sibRight n) _ (csibs (Some a) (m_sibLeft n)))
    by (intros m; apply changeSiblings_csibs).
  rewrite H1. done.
Qed.

Lemma csibs_osibs_fwd n fwd (a : addr) pr new m :
  osibs n fwd pr (Some a) → pr ≠ Some a →
  (m_sibLeft m, m_sibRight m)
  = csibs (Some a) new (m_sibLeft n, m_sibRight n) →
  osibs m fwd pr new.
Proof.
  unfold osibs, csibs. simpl. intros Hs Hpr Hm.
  destruct fwd; destruct Hs as [HL HR]; rewrite HL, HR in Hm.
  - rewrite decide_False in Hm by done. rewrite decide_True in Hm by done.
    by injection Hm as -> ->.
  - rewrite decide_True in Hm by done. by injection Hm as -> ->.
Qed.

Lemma csibs_osibs_bwd n fwd (a : addr) sc new m :
  osibs n fwd (Some a) sc → sc ≠ Some a →
  (m_sibLeft m, m_sibRight m)
  = csibs (Some a) new (m_sibLeft n, m_sibRight n) →
  osibs m fwd new sc.
Proof.
  unfold osibs, csibs. simpl. intros Hs Hsc Hm.
  destruct fwd; destruct Hs as [HL HR]; rewrite HL, HR in Hm.
  - rewrite decide_True in Hm by done. by injection Hm as -> ->.
  - rewrite decide_False in Hm by done. rewrite decide_True in Hm by done.
    by injection Hm as -> ->.
Qed.

Lemma sibsOf_lookup h a n :
  h !! a = Some n → sibsOf h a = Some (m_sibLeft n, m_sibRight n).
Proof. unfold sibsOf. by intros ->. Qed.

Lemma sibsOf_Some h a s :
  sibsOf h a = Some s →
  ∃ m, h !! a = Some m ∧ (m_sibLeft m, m_sibRight m) = s.
Proof.
  unfold sibsOf. destruct (h !! a) as [m|]; [|done]. intros [= <-].
  by exists m.
Qed.

(** When the child [a] is taken out, the children before it and after it
    are linked to each other, every pointer in its slot. *)
Lemma removeChildFromSiblings_ochain T o l1 a l2 :
  ochain (nodes T) o None (l1 ++ a :: l2) None →
  NoDup (l1 ++ a :: l2) →
  ochain (nodes (removeChildFromSiblings a T)) o None (l1 ++ l2) None.
Proof.
  intros Hc Hnd.
  destruct (ochain_lookup _ _ _ _ _ _ _ Hc) as (n & Ha & Hs).
  rewrite !or_else_None in Hs.
  assert ((a ∉ l1) ∧ (a ∉ l2) ∧ (∀ x, x ∈ l1 → x ∉ l2))
    as (Hal1 & Hal2 & Hdis).
  { apply NoDup_app in Hnd as (_ & Hd & Hnd2).
    apply NoDup_cons in Hnd2 as [? _]. split; [|split; [done|]].
    - intros Hin. apply (Hd a Hin). by left.
    - intros x Hx Hx2. apply (Hd x Hx). by right. }
  assert (last l1 ≠ Some a) as HP.
  { intros Hl. apply Hal1. by eapply last_Some_elem_of. }
  assert (head l2 ≠ Some a) as HS.
  { intros Hl. apply Hal2. by eapply head_Some_elem_of. }
  assert (m_sibLeft n ≠ Some a ∧ m_sibRight n ≠ Some a) as [HLa HRa].
  { unfold osibs in Hs. destruct (o a); destruct Hs as [-> ->]; done. }
  pose proof (removeChildFromSiblings_sibsOf a T n) as Hsib.
  set (T' := removeChildFromSiblings a T) in *.
  assert (∀ x, x ≠ a → Some x ≠ last l1 → Some x ≠ head l2 →
               sibsOf (nodes T') x = sibsOf (nodes T) x) as Hfar.
  { intros x Hxa Hx1 Hx2. rewrite Hsib by done.
    rewrite decide_False by done.
    unfold osibs in Hs.
    destruct (o a); destruct Hs as [-> ->]; by rewrite !decide_False. }
  apply ochain_app in Hc as [Hc1 Hc2]. simpl in Hc1.
  destruct Hc2 as (_ & _ & _ & Hc2).
  apply ochain_app. split.
  - destruct (last l1) as [b|] eqn:Hlast.
    2: { apply last_None in Hlast. by subst. }
    assert (b ∈ l1) as Hb by (by eapply last_Some_elem_of).
    eapply (ochain_set_last _ _ _ _ _ b (Some a)); [exact Hc1| |done| |].
    + by apply NoDup_app in Hnd as [? _].
    + intros x Hx Hxb. apply Hfar.
      * by intros ->.
      * congruence.
      * intros Hh. symmetry in Hh. apply head_Some_elem_of in Hh.
        by apply (Hdis x).
    + intros nb pr Hnb Hsb Hpr.
      assert (pr ≠ Some a) as Hpra.
      { destruct Hpr as [->|(c & -> & Hc')]; [done|]. congruence. }
      assert (Some b ≠ head l2) as Hbh.
      { intros Hh. symmetry in Hh. apply head_Some_elem_of in Hh.
        by apply (Hdis b). }
      assert (sibsOf (nodes T') b
              = Some (csibs (Some a) (head l2)
                        (m_sibLeft nb, m_sibRight nb))) as Hb'.
      { rewrite Hsib by done. rewrite decide_False by congruence.
        rewrite (sibsOf_lookup _ _ _ Hnb). unfold osibs in Hs.
        destruct (o a); destruct Hs as [-> ->].
        - rewrite decide_True by done. by rewrite decide_False.
        - rewrite decide_False by done. by rewrite decide_True. }
      apply sibsOf_Some in Hb' as (m & Hm & Hms).
      exists m. split; [done|]. rewrite or_else_None.
      by eapply csibs_osibs_fwd.
  - destruct l2 as [|c l2]; [done|].
    assert (c ≠ a) as Hca by (intros ->; apply Hal2; by left).
    assert (c ∉ l2) as Hcl2.
    { apply NoDup_app in Hnd as (_ & _ & Hnd2).
      apply NoDup_cons in Hnd2 as [_ Hnd2].
      by apply NoDup_cons in Hnd2 as [? _]. }
    eapply (ochain_set_head _ _ _ (Some a)); [exact Hc2|done| |].
    + intros x Hx. apply Hfar.
      * intros ->. apply Hal2. by right.
      * intros Hh. symmetry in Hh. apply last_Some_elem_of in Hh.
        apply (Hdis x Hh). by right.
      * simpl. intros [= ->]. done.
    + intros nc sc Hnc Hsc Hcase.
      assert (sc ≠ Some a) as Hsca.
      { destruct Hcase as [->|(d & -> & Hd)]; [done|].
        intros [= ->]. apply Hal2. by right. }
      assert (Some c ≠ last l1) as Hcl.
      { intros Hh. symmetry in Hh. apply last_Some_elem_of in Hh.
        apply (Hdis c Hh). by left. }
      assert (sibsOf (nodes T') c
              = Some (csibs (Some a) (last l1)
                        (m_sibLeft nc, m_sibRight nc))) as Hc'.
      { rewrite Hsib by done. rewrite decide_False by done.
        rewrite (sibsOf_lookup _ _ _ Hnc). unfold osibs in Hs. simpl in Hs.
        destruct (o a); destruct Hs as [-> ->].
        - rewrite decide_False by done. by rewrite decide_True.
        - rewrite decide_True by done. by rewrite decide_False. }
      apply sibsOf_Some in Hc' as (m & Hm & Hms).
      exists m. split; [done|]. rewrite or_else_None.
      by eapply csibs_osibs_bwd.
Qed.

(** * [ReplacePartialRoot]: the scan of the run *)

Lemma kinds_refl T : kinds T T.
Proof. intros a. destruct (nodes T !! a); by constructor. Qed.

Lemma kinds_trans T1 T2 T3 : kinds T1 T2 → kinds T2 T3 → kinds T1 T3.
Proof.
  intros Ha Hb a. specialize (Ha a). specialize (Hb a).
  destruct Ha as [n1 n2 H12|]; inversion Hb; subst; constructor.
  by eapply same_kind_trans.
Qed.

Lemma kinds_nodes T T' : nodes T' = nodes T → kinds T T'.
Proof. intros Heq a. rewrite Heq. destruct (nodes T !! a); by constructor. Qed.

Lemma relinked_kinds T T' : relinked T T' → kinds T T'.
Proof. by intros [? _]. Qed.

Lemma kinds_is_indicator T T' a :
  kinds T T' → is_indicator (nodes T') a = is_indicator (nodes T) a.
Proof.
  intros Hk. specialize (Hk a). unfold is_indicator, isIndicator.
  destruct Hk as [n n' (_ & Hs & _)|]; [|done]. by rewrite Hs.
Qed.

Lemma kinds_infoOf T T' a :
  kinds T T' → infoOf (nodes T') a = infoOf (nodes T) a.
Proof.
  intros Hk. specialize (Hk a). unfold infoOf.
  destruct Hk as [n n' (_ & _ & _ & _ & Hi)|]; [|done]. simpl.
  by rewrite Hi.
Qed.

Lemma kinds_infoKey T T' a :
  kinds T T' → infoKey (nodes T') a = infoKey (nodes T) a.
Proof.
  intros Hk. specialize (Hk a). unfold infoKey.
  destruct Hk as [n n' (_ & _ & _ & _ & Hi)|]; [|done]. simpl.
  by rewrite Hi.
Qed.

Lemma kinds_leafKeyOf T T' a :
  kinds T T' → leafKeyOf (nodes T') a = leafKeyOf (nodes T) a.
Proof.
  intros Hk. specialize (Hk a). unfold leafKeyOf.
  destruct Hk as [n n' (_ & _ & _ & Hi & _)|]; [|done]. simpl.
  by rewrite Hi.
Qed.

Lemma kinds_lookup T T' a n :
  kinds T T' → nodes T !! a = Some n →
  ∃ n', nodes T' !! a = Some n' ∧ same_kind n n'.
Proof.
  intros Hk Ha. specialize (Hk a). rewrite Ha in Hk.
  inversion Hk; subst. by eexists.
Qed.

Lemma kinds_has_status T T' st a :
  kinds T T' → has_status (nodes T) st a → has_status (nodes T') st a.
Proof.
  intros Hk (n & Ha & Hs).
  destruct (kinds_lookup _ _ _ _ Hk Ha) as (n' & Hn' & _ & Hs' & _).
  exists n'. split; [done|congruence].
Qed.

Lemma flag1_is_Some I i j : is_Some (flag1 I i !! j) ↔ is_Some (I !! j).
Proof.
  rewrite flag1_lookup. case_decide; [|done]. by rewrite fmap_is_Some.
Qed.

Lemma flagAll_is_Some ids I j : is_Some (flagAll ids I !! j) ↔ is_Some (I !! j).
Proof.
  rewrite flagAll_lookup. case_decide; [|done]. by rewrite fmap_is_Some.
Qed.

Lemma setChangeDir_flag1 i T :
  is_Some (infos T !! i) →
  setChangeDir i T = Some (set_infos (flag1 (infos T) i) T).
Proof.
  intros [inf Hi]. unfold setChangeDir, flag1. by rewrite Hi.
Qed.

Lemma infoOf_infoKey h j i :
  infoOf h j = Some i →
  ∃ n k, h !! j = Some n ∧ m_pointerToInfo n = Some k
         ∧ m_userStructInfo k = Some i.
Proof.
  unfold infoOf. destruct (h !! j) as [n|]; [|done]. simpl.
  destruct (m_pointerToInfo n) as [k|] eqn:Hp; [|done]. simpl. intros Hk.
  by exists n, k.
Qed.

(** One round of the loop over the indicators between two full children. *)
Lemma scanIndicators_body_spec T o l1 x j l2 :
  ochain (nodes T) o None (l1 ++ x :: j :: l2) None →
  NoDup (l1 ++ x :: j :: l2) →
  has_info (nodes T) (infos T) j →
  ∃ T',
    scanIndicators_body T x j
    = Some (T', or_else (head l2) None, infoKey (nodes T) j)
    ∧ ochain (nodes T') o None (l1 ++ x :: l2) None
    ∧ kinds T T' ∧ same_members T T'
    ∧ infos T'
      = flagAll (omap (infoOf (nodes T)) (filter (λ a, o a = false) [j]))
          (infos T)
    ∧ m_pertinentNodes T' = m_pertinentNodes T ++ [j].
Proof.
  intros Hc Hnd (i & Hi & Hsome).
  assert (l1 ++ x :: j :: l2 = (l1 ++ [x]) ++ j :: l2) as Heq
    by (by rewrite <- app_assoc).
  rewrite Heq in Hc, Hnd.
  destruct (ochain_lookup _ _ _ _ _ _ _ Hc) as (n & Hj & Hs).
  rewrite last_snoc in Hs. simpl in Hs.
  destruct (infoOf_infoKey _ _ _ Hi) as (n' & k & Hn' & Hk & Hki).
  rewrite Hj in Hn'. injection Hn' as <-.
  assert (or_else (head l2) None ≠ Some x) as Hsx.
  { rewrite or_else_None. intros Hh. apply head_Some_elem_of in Hh.
    apply NoDup_app in Hnd as (_ & Hd & _). apply (Hd x).
    - apply elem_of_app. right. by left.
    - by right. }
  unfold scanIndicators_body, PQTree_clientNextSib. rewrite Hj.
  cbn [fmap option_fmap option_map mbind option_bind].
  rewrite (getNextSib_other n (Some x) (or_else (head l2) None));
    [|by eapply osibs_sibs_are|done].
  cbn [getSib]. unfold infoKey. rewrite Hj. cbn [mbind option_bind].
  rewrite filter_cons, filter_nil.
  destruct (o j) eqn:Hoj.
  - destruct Hs as [HL HR]. rewrite decide_False by (rewrite HR; congruence).
    cbn [mbind option_bind]. rewrite decide_False by done.
    eexists. split; [done|]. split.
    { cbn [nodes pushPertinent set_pertinentNodes].
      replace (l1 ++ x :: l2) with ((l1 ++ [x]) ++ l2)
        by (by rewrite <- app_assoc).
      by apply removeChildFromSiblings_ochain. }
    split.
    { intros a. cbn [nodes pushPertinent set_pertinentNodes].
      apply (relinked_removeChildFromSiblings j T). }
    destruct (relinked_removeChildFromSiblings j T)
      as (_ & HI & HP & HR' & HPR & HPN & HID).
    split; [done|]. split; [done|].
    cbn [m_pertinentNodes pushPertinent set_pertinentNodes]. by rewrite HPN.
  - destruct Hs as [HL HR]. rewrite decide_True by done.
    rewrite Hk. cbn [mbind option_bind]. rewrite Hki.
    cbn [mbind option_bind]. rewrite (setChangeDir_flag1 i T Hsome).
    cbn [mbind option_bind]. rewrite decide_True by done.
    eexists. split; [done|]. split.
    { cbn [nodes pushPertinent set_pertinentNodes].
      replace (l1 ++ x :: l2) with ((l1 ++ [x]) ++ l2)
        by (by rewrite <- app_assoc).
      by apply (removeChildFromSiblings_ochain
                  (set_infos (flag1 (infos T) i) T)). }
    split.
    { intros a. cbn [nodes pushPertinent set_pertinentNodes].
      apply (relinked_removeChildFromSiblings j
               (set_infos (flag1 (infos T) i) T)). }
    destruct (relinked_removeChildFromSiblings j
                (set_infos (flag1 (infos T) i) T))
      as (_ & HI & HP & HR' & HPR & HPN & HID).
    split; [done|]. split.
    { cbn [infos pushPertinent set_pertinentNodes]. rewrite HI.
      cbn [omap list_omap]. rewrite Hi. done. }
    cbn [m_pertinentNodes pushPertinent set_pertinentNodes]. by rewrite HPN.
Qed.

Lemma flagAll_app ids1 ids2 I :
  flagAll (ids1 ++ ids2) I = flagAll ids2 (flagAll ids1 I).
Proof. unfold flagAll. by rewrite foldl_app. Qed.

Lemma has_info_kinds T T' j :
  kinds T T' → (∀ i, is_Some (infos T' !! i) ↔ is_Some (infos T !! i)) →
  has_info (nodes T) (infos T) j → has_info (nodes T') (infos T') j.
Proof.
  intros Hk HI (i & Hi & Hs). exists i.
  rewrite (kinds_infoOf _ _ _ Hk). split; [done|]. by apply HI.
Qed.

Lemma same_members_trans T1 T2 T3 :
  same_members T1 T2 → same_members T2 T3 → same_members T1 T3.
Proof.
  intros (?&?&?&?) (?&?&?&?). repeat split; congruence.
Qed.

(** The loop over the indicators [J] between the full child [x] and the
    next child that is no indicator. *)
Lemma scanIndicators_run o l1 x l2 J :
  ∀ fuel T frontier,
  ochain (nodes T) o None (l1 ++ x :: J ++ l2) None →
  NoDup (l1 ++ x :: J ++ l2) →
  (∀ j, j ∈ J → has_info (nodes T) (infos T) j) →
  length J ≤ fuel →
  ∃ T',
    scanIndicators fuel T x (head (J ++ l2)) (head l2) frontier
    = Some (T', frontier ++ (infoKey (nodes T) <$> J))
    ∧ ochain (nodes T') o None (l1 ++ x :: l2) None
    ∧ kinds T T' ∧ same_members T T'
    ∧ infos T'
      = flagAll (omap (infoOf (nodes T)) (filter (λ a, o a = false) J))
          (infos T)
    ∧ m_pertinentNodes T' = m_pertinentNodes T ++ J.
Proof.
  induction J as [|j J IH]; intros fuel T frontier Hc Hnd Hinfo Hfuel.
  - exists T. simpl.
    assert (scanIndicators fuel T x (head l2) (head l2) frontier
            = Some (T, frontier)) as ->
      by (destruct fuel; simpl; by rewrite decide_True).
    rewrite !app_nil_r. repeat split; try done. apply kinds_refl.
  - destruct fuel as [|fuel]; [simpl in Hfuel; lia|].
    assert (head ((j :: J) ++ l2) ≠ head l2) as Hne.
    { simpl. intros Hh. symmetry in Hh. apply head_Some_elem_of in Hh.
      apply NoDup_app in Hnd as (_ & _ & Hnd).
      apply NoDup_cons in Hnd as [_ Hnd]. simpl in Hnd.
      apply NoDup_cons in Hnd as [Hj _]. apply Hj.
      rewrite elem_of_app. auto. }
    cbn [scanIndicators]. rewrite decide_False by done.
    cbn [app head mbind option_bind].
    destruct (scanIndicators_body_spec T o l1 x j (J ++ l2))
      as (T1 & HB & Hc1 & Hk1 & Hm1 & HI1 & HP1); [done|done| |].
    { apply Hinfo. by left. }
    rewrite HB. cbn [mbind option_bind]. rewrite or_else_None.
    destruct (IH fuel T1 (frontier ++ [infoKey (nodes T) j]))
      as (T' & HS & Hc' & Hk' & Hm' & HI' & HP'); [done| | |simpl in Hfuel; lia|].
    { apply NoDup_app in Hnd as (Hn1 & Hd & Hnd).
      apply NoDup_cons in Hnd as [Hx Hnd]. simpl in Hnd, Hx.
      apply NoDup_cons in Hnd as [Hj Hnd].
      apply NoDup_app. split; [done|]. split.
      - intros a Ha [->|Hin]%elem_of_cons; apply (Hd _ Ha).
        + by left.
        + right. by right.
      - apply NoDup_cons. split; [|done]. intros Hin. apply Hx. by right. }
    { intros j' Hj'. apply (has_info_kinds T T1); [done| |].
      - intros i. rewrite HI1. apply flagAll_is_Some.
      - apply Hinfo. by right. }
    rewrite HS. exists T'. split.
    { f_equal. f_equal. rewrite fmap_cons. rewrite <- app_assoc. simpl.
      f_equal. f_equal. apply list_fmap_ext. intros _ a _.
      by apply kinds_infoKey. }
    split; [done|]. split; [by eapply kinds_trans|].
    split; [by eapply same_members_trans|]. split.
    { rewrite HI', HI1, <- flagAll_app. f_equal.
      rewrite (filter_app _ [j] J), omap_app. f_equal.
      apply list_omap_ext, Forall2_same_length_lookup_2; [done|].
      intros i a b Ha Hb. rewrite Ha in Hb. injection Hb as <-.
      by apply kinds_infoOf. }
    rewrite HP', HP1, <- app_assoc. done.
Qed.

(** * [ReplacePartialRoot]: the loop over the run of full children *)

Lemma full_leaf_not_indicator h a : full_leaf h a → is_indicator h a = false.
Proof.
  intros (n & Ha & Hs & _). apply (has_status_not_indicator h PQNodeStatus.Full).
  - by exists n.
  - done.
Qed.

Lemma kinds_full_leaf T T' a :
  kinds T T' → full_leaf (nodes T) a → full_leaf (nodes T') a.
Proof.
  intros Hk (n & Ha & Hs & Hty).
  destruct (kinds_lookup _ _ _ _ Hk Ha) as (n' & Hn' & Hty' & Hs' & _).
  exists n'. repeat split; congruence.
Qed.

Lemma firstNonIndicator_kinds T T' l :
  kinds T T' →
  firstNonIndicator (nodes T') l = firstNonIndicator (nodes T) l.
Proof.
  intros Hk. unfold firstNonIndicator. f_equal.
  induction l as [|a l IH]; [done|].
  rewrite !filter_cons, IH. by rewrite (kinds_is_indicator T T' a Hk).
Qed.

Lemma kinds_indicatorsOf T T' l :
  kinds T T' → indicatorsOf (nodes T') l = indicatorsOf (nodes T) l.
Proof.
  intros Hk. unfold indicatorsOf.
  induction l as [|a l IH]; [done|].
  rewrite !filter_cons, IH. by rewrite (kinds_is_indicator T T' a Hk).
Qed.

Lemma kinds_entryOf T T' a :
  kinds T T' → entryOf (nodes T') a = entryOf (nodes T) a.
Proof.
  intros Hk. unfold entryOf.
  by rewrite (kinds_is_indicator T T' a Hk), (kinds_infoKey T T' a Hk),
    (kinds_leafKeyOf T T' a Hk).
Qed.

Lemma kinds_reversedInfos T T' o l :
  kinds T T' → reversedInfos (nodes T') o l = reversedInfos (nodes T) o l.
Proof.
  intros Hk. unfold reversedInfos.
  induction l as [|a l IH]; [done|].
  rewrite !filter_cons. rewrite (kinds_is_indicator T T' a Hk).
  case_decide; [|done]. cbn [omap list_omap].
  rewrite (kinds_infoOf T T' a Hk). by rewrite IH.
Qed.

(** A list that ends with a node that is no indicator starts with
    indicators up to the first such node. *)
Lemma span_indicators h (R : list addr) xk :
  last R = Some xk → is_indicator h xk = false →
  ∃ J y R', R = J ++ y :: R' ∧ (∀ j, j ∈ J → is_indicator h j = true)
            ∧ is_indicator h y = false.
Proof.
  induction R as [|a R IH]; [done|]. intros Hl Hx.
  destruct (is_indicator h a) eqn:Ha.
  - destruct R as [|b R]; [simpl in Hl; congruence|].
    destruct (IH Hl Hx) as (J & y & R' & -> & HJ & Hy).
    exists (a :: J), y, R'. split; [done|]. split; [|done].
    intros j [->|Hj]%elem_of_cons; auto.
  - exists [], a, R. split; [done|]. split; [|done].
    by intros j ?%elem_of_nil.
Qed.

Lemma front_leaf fuel T a c keys :
  nodes T !! a = Some c → m_type c = PQNodeType.Leaf → 1 ≤ fuel →
  front fuel T a keys = Some (T, keys ++ [LeafKey <$> m_pointerToKey c]).
Proof.
  intros Ha Hty Hfuel. unfold front. destruct fuel as [|f]; [lia|].
  cbn [front_loop]. rewrite (front_body_leaf _ _ _ c) by done.
  by destruct f.
Qed.

Lemma filter_indicators_all h (o : addr → bool) J :
  (∀ j, j ∈ J → is_indicator h j = true) →
  filter (λ a, o a = false ∧ is_indicator h a = true) J
  = filter (λ a, o a = false) J
  ∧ indicatorsOf h J = J ∧ entryOf h <$> J = infoKey h <$> J.
Proof.
  unfold indicatorsOf. induction J as [|j J IH]; intros HJ; [done|].
  assert (is_indicator h j = true) as Hj by (apply HJ; by left).
  destruct IH as (I1 & I2 & I3); [intros ??; apply HJ; by right|].
  rewrite !filter_cons, I1, I2, !fmap_cons, I3. unfold entryOf at 1.
  rewrite Hj. rewrite (decide_True (P := true = true)) by done.
  split; [|done].
  destruct (decide (o j = false)).
  - by rewrite decide_True.
  - rewrite decide_False; [done|]. tauto.
Qed.

(** The loop over the run: every full leaf but the last and every indicator
    between them gives its frontier entry and is taken out of the ring. *)
Lemma scanSequence_run o pre post s xk fuel :
  ∀ m R x T frontier n,
  length R ≤ m →
  ochain (nodes T) o None (pre ++ x :: R ++ post) None →
  NoDup (pre ++ x :: R ++ post) →
  full_leaf (nodes T) x → full_leaf (nodes T) xk →
  (∀ a, a ∈ R →
     full_leaf (nodes T) a
     ∨ (is_indicator (nodes T) a = true
        ∧ has_info (nodes T) (infos T) a)) →
  last (x :: R) = Some xk →
  endSequence s = Some xk →
  predNode s = firstNonIndicator (nodes T) (reverse pre) →
  beginInd s = last pre →
  length R ≤ n → length (pre ++ x :: R ++ post) ≤ fuel →
  ∃ T',
    scanSequence n fuel T s x frontier
    = Some (T', frontier ++ (entryOf (nodes T) <$> removelast (x :: R)), xk)
    ∧ ochain (nodes T') o None (pre ++ xk :: post) None
    ∧ kinds T T' ∧ same_members T T'
    ∧ infos T' = flagAll (reversedInfos (nodes T) o R) (infos T)
    ∧ m_pertinentNodes T'
      = m_pertinentNodes T ++ indicatorsOf (nodes T) R.
Proof.
  induction m as [|m IH];
    intros R x T frontier n Hm Hc Hnd Hx Hxk HR Hlast Hend Hpred Hbeg Hn Hfuel.
  - destruct R; [|simpl in Hm; lia]. simpl in Hlast. injection Hlast as ->.
    exists T. split.
    { destruct n; simpl; rewrite decide_True by done;
        by rewrite app_nil_r. }
    split; [done|]. split; [apply kinds_refl|]. split; [done|].
    split; [done|]. unfold indicatorsOf. simpl. by rewrite app_nil_r.
  - destruct R as [|r0 R0].
    { simpl in Hlast. injection Hlast as ->.
      exists T. split.
      { destruct n; simpl; rewrite decide_True by done;
          by rewrite app_nil_r. }
      split; [done|]. split; [apply kinds_refl|]. split; [done|].
      split; [done|]. unfold indicatorsOf. simpl. by rewrite app_nil_r. }
    set (R := r0 :: R0) in *.
    assert (last R = Some xk) as HlastR by done.
    assert (x ∉ R) as HxR.
    { apply NoDup_app in Hnd as (_ & _ & Hnd).
      apply NoDup_cons in Hnd as [Hnx _]. intros Hin. apply Hnx.
      rewrite elem_of_app. auto. }
    assert (x ≠ xk) as Hne.
    { intros ->. apply HxR. by apply last_Some_elem_of. }
    destruct (span_indicators (nodes T) R xk HlastR
                (full_leaf_not_indicator _ _ Hxk))
      as (J & y & R' & HReq & HJ & Hy).
    clearbody R. subst R.
    destruct n as [|n]; [rewrite length_app in Hn; simpl in Hn; lia|].
    cbn [scanSequence]. rewrite decide_False by congruence.
    destruct Hx as (nx & Hnx & Hsx & Htx).
    (* the next full child *)
    rewrite Hpred.
    destruct (clientNextSib_steps fuel T pre x ((J ++ y :: R') ++ post) nx)
      as [HN _]; [by eapply ochain_chain|done|done|done|].
    rewrite HN. cbn [mbind option_bind].
    assert (firstNonIndicator (nodes T) ((J ++ y :: R') ++ post) = Some y)
      as Hnext.
    { rewrite <- app_assoc. rewrite firstNonIndicator_app_r by done.
      unfold firstNonIndicator. simpl. rewrite filter_cons.
      by rewrite decide_True. }
    rewrite Hnext.
    (* the frontier of the full child *)
    rewrite (front_leaf fuel T x nx []) by (try done;
      rewrite length_app in Hfuel; simpl in Hfuel; lia).
    cbn [mbind option_bind app].
    (* the first indicator *)
    destruct (ochain_lookup _ _ _ _ _ _ _ Hc) as (nx' & Hnx' & Hsibs).
    rewrite Hnx in Hnx'. injection Hnx' as <-.
    rewrite !or_else_None in Hsibs.
    unfold PQTree_clientNextSib. rewrite Hnx.
    cbn [fmap option_fmap option_map mbind option_bind]. rewrite Hbeg.
    rewrite (getNextSib_other nx (last pre)
               (head ((J ++ y :: R') ++ post))).
    2: by eapply osibs_sibs_are.
    2: { intros Heq.
         apply (last_head_ends pre x ((J ++ y :: R') ++ post)) in Heq
           as [_ Heq]; [|done].
         by destruct J. }
    (* the indicators *)
    rewrite <- !app_assoc in *. cbn [app] in *.
    destruct (scanIndicators_run o pre x (y :: R' ++ post) J fuel T
                (frontier ++ [LeafKey <$> m_pointerToKey nx]))
      as (T2 & HS & Hc2 & Hk2 & Hm2 & HI2 & HP2); [done|done| | |].
    { intros j Hj. destruct (HR j) as [Hf|[_ Hi]]; [| |done].
      - rewrite elem_of_app. auto.
      - apply full_leaf_not_indicator in Hf. rewrite (HJ j Hj) in Hf.
        done. }
    { rewrite !length_app in Hfuel. simpl in Hfuel.
      rewrite !length_app in Hfuel. lia. }
    cbn [head] in HS. rewrite HS. cbn [mbind option_bind].
    (* the full child leaves the ring *)
    assert (NoDup (pre ++ x :: y :: R' ++ post)) as Hnd2.
    { apply NoDup_app in Hnd as (Hn1 & Hd & Hnd).
      apply NoDup_cons in Hnd as [Hx' Hnd].
      apply NoDup_app in Hnd as (_ & _ & Hnd).
      apply NoDup_app. split; [done|]. split.
      - intros a Ha [->|Hin]%elem_of_cons; apply (Hd _ Ha); [by left|].
        right. rewrite elem_of_app. auto.
      - apply NoDup_cons. split; [|done]. intros Hin. apply Hx'.
        rewrite elem_of_app. auto. }
    pose proof (removeChildFromSiblings_ochain T2 o pre x (y :: R' ++ post)
                  Hc2 Hnd2) as Hc3.
    pose proof (relinked_removeChildFromSiblings x T2) as Hrel.
    set (T3 := removeChildFromSiblings x T2) in *.
    assert (kinds T T3) as Hk3
      by (eapply kinds_trans; [done|by apply relinked_kinds]).
    assert (infos T3 = infos T2) as HI3 by (by destruct Hrel as (_ & ? & _)).
    assert (∀ i, is_Some (infos T3 !! i) ↔ is_Some (infos T !! i)) as HIs.
    { intros i. rewrite HI3, HI2. apply flagAll_is_Some. }
    destruct (IH R' y T3
                ((frontier ++ [LeafKey <$> m_pointerToKey nx])
                   ++ (infoKey (nodes T) <$> J)) n)
      as (T' & HQ & Hc' & Hk' & Hm' & HI' & HP').
    { rewrite length_app in Hm. simpl in Hm. lia. }
    { done. }
    { apply NoDup_app in Hnd2 as (Hn1 & Hd & Hnd2).
      apply NoDup_cons in Hnd2 as [_ Hnd2].
      apply NoDup_app. split; [done|]. split; [|done].
      intros a Ha Hin. apply (Hd _ Ha). by right. }
    { apply (kinds_full_leaf T T3); [done|].
      destruct (HR y) as [Hf|[Hf _]]; [|done|].
      - rewrite elem_of_app. right. by left.
      - rewrite Hy in Hf. done. }
    { by apply (kinds_full_leaf T T3). }
    { intros a Ha. destruct (HR a) as [Hf|[Hf Hi]].
      - rewrite elem_of_app. right. by right.
      - left. by apply (kinds_full_leaf T T3).
      - right. rewrite (kinds_is_indicator T T3 a Hk3). split; [done|].
        by apply (has_info_kinds T T3). }
    { rewrite last_cons in Hlast. rewrite last_app in Hlast.
      simpl in Hlast. rewrite last_cons.
      destruct (last R') eqn:E.
      - rewrite last_cons, E in Hlast. done.
      - rewrite last_cons, E in Hlast. done. }
    { done. }
    { by rewrite (firstNonIndicator_kinds T T3). }
    { done. }
    { rewrite length_app in Hn. simpl in Hn. lia. }
    { rewrite ?length_app in Hfuel. simpl in Hfuel.
      rewrite ?length_app in Hfuel. simpl in Hfuel.
      rewrite ?length_app in Hfuel. rewrite ?length_app. simpl.
      rewrite ?length_app. lia. }
    rewrite HQ. exists T'. split.
    { f_equal. f_equal. f_equal.
      change (x :: J ++ y :: R') with ((x :: J) ++ y :: R').
      rewrite removelast_app by done. rewrite fmap_app, fmap_cons.
      destruct (filter_indicators_all (nodes T) o J HJ) as (_ & _ & ->).
      assert (entryOf (nodes T) x = LeafKey <$> m_pointerToKey nx) as ->.
      { unfold entryOf. rewrite (full_leaf_not_indicator (nodes T) x).
        2: by exists nx.
        unfold leafKeyOf. by rewrite Hnx. }
      rewrite <- !app_assoc. simpl. f_equal. f_equal. f_equal.
      apply list_fmap_ext. intros _ a _. by apply kinds_entryOf. }
    split; [done|]. split; [by eapply kinds_trans|].
    split.
    { eapply same_members_trans; [|done].
      eapply same_members_trans; [done|].
      destruct Hrel as (_ & _ & ? & ? & ? & _ & ?). done. }
    split.
    { rewrite HI', HI3, HI2, <- flagAll_app. f_equal.
      unfold reversedInfos at 2. rewrite filter_app, omap_app.
      destruct (filter_indicators_all (nodes T) o J HJ) as (-> & _ & _).
      f_equal. rewrite filter_cons. rewrite decide_False.
      2: { rewrite Hy. intros [_ ?]. done. }
      by apply kinds_reversedInfos. }
    rewrite HP'. destruct Hrel as (_ & _ & _ & _ & _ & -> & _).
    rewrite HP2, <- app_assoc. f_equal.
    unfold indicatorsOf at 2. rewrite filter_app.
    destruct (filter_indicators_all (nodes T) o J HJ) as (_ & HJJ & _).
    unfold indicatorsOf in HJJ. rewrite HJJ. f_equal.
    rewrite filter_cons, decide_False by (rewrite Hy; done).
    by apply kinds_indicatorsOf.
Qed.

(** * [ReplaceFullRoot] with a new indicator *)

Lemma keeps_refl T : keeps T T.
Proof. split; [|done]. intros a n Ha. by exists n. Qed.

Lemma keeps_trans T1 T2 T3 : keeps T1 T2 → keeps T2 T3 → keeps T1 T3.
Proof.
  intros (Ha & ? & ?) (Hb & ? & ?). split; [|split; congruence].
  intros a n Hn. destruct (Ha a n Hn) as (n2 & Hn2 & ? & ? & ? & ?).
  destruct (Hb a n2 Hn2) as (n3 & Hn3 & ? & ? & ? & ?). exists n3.
  split; [done|]. repeat split; congruence.
Qed.

Lemma keeps_update a f T :
  (∀ n, same_tag n (f n)) → keeps T (update a f T).
Proof.
  intros Hf. split; [|done]. intros b n Hb. unfold update. simpl.
  destruct (decide (a = b)) as [->|Hne].
  - rewrite lookup_alter_eq, Hb. simpl. by eexists.
  - rewrite lookup_alter_ne by done. by exists n.
Qed.

Lemma keeps_update_ptr p f T :
  (∀ n, same_tag n (f n)) → keeps T (update_ptr p f T).
Proof.
  intros Hf. destruct p; [by apply keeps_update|apply keeps_refl].
Qed.

Lemma relinked_keeps T T' : relinked T T' → keeps T T'.
Proof.
  intros HR. split; [|by destruct HR as (_ & ? & _ & _ & _ & ? & _)].
  intros a n Ha.
  destruct (relinked_lookup _ _ _ _ HR Ha) as (n' & ? & ? & ? & _ & ? & ?).
  by exists n'.
Qed.

Lemma keeps_allocNode n T : keeps T (allocNode n T).1.
Proof.
  split; [|done]. intros a m Ha. unfold allocNode. simpl. exists m.
  split; [|done]. rewrite lookup_insert_ne; [done|]. intros <-.
  pose proof (is_fresh (dom (nodes T))) as Hf.
  apply not_elem_of_dom in Hf. congruence.
Qed.

Lemma keeps_newLeaf st key T : keeps T (newLeaf st key T).1.
Proof.
  destruct (newLeaf_spec st key T) as [-> Hf]. split; [|done].
  intros a m Ha. simpl. exists m. split; [|done].
  rewrite lookup_insert_ne; [done|]. intros <-. congruence.
Qed.

Ltac type_tac :=
  let n := fresh "n" in
  intros n; unfold changeSiblings, changeEndmost, putSibling;
  repeat case_decide; done.

Ltac keeps_tac :=
  repeat first
    [ apply keeps_refl
    | apply keeps_update; type_tac
    | apply keeps_update_ptr; type_tac
    | eapply keeps_trans;
      [|first [apply keeps_update; type_tac
              |apply keeps_update_ptr; type_tac]] ].

Lemma keeps_addNewLeaves_loop father keys oldSon T :
  keeps T (addNewLeaves_loop father keys oldSon T).1.
Proof.
  revert oldSon T. induction keys as [|key rest IH]; intros oldSon T;
    [apply keeps_refl|].
  cbn [addNewLeaves_loop].
  pose proof (keeps_newLeaf PQNodeStatus.Empty key T) as Hk.
  destruct (newLeaf PQNodeStatus.Empty key T) as [T1 aktualSon].
  simpl in Hk. eapply keeps_trans; [|apply IH].
  eapply keeps_trans; [exact Hk|]. keeps_tac.
Qed.

Lemma keeps_addNewLeavesToTree father keys T T' b :
  addNewLeavesToTree father keys T = Some (T', b) → keeps T T'.
Proof.
  unfold addNewLeavesToTree. destruct keys as [|key rest].
  { intros [= <- _]. apply keeps_refl. }
  pose proof (keeps_newLeaf PQNodeStatus.Empty key T) as Hk.
  destruct (newLeaf PQNodeStatus.Empty key T) as [T1 firstSon].
  simpl in Hk.
  match goal with
  | |- context [addNewLeaves_loop father rest firstSon ?X] =>
      pose proof (keeps_addNewLeaves_loop father rest firstSon X) as Hl;
      assert (keeps T X) as HX
        by (eapply keeps_trans; [exact Hk|]; keeps_tac)
  end.
  destruct (addNewLeaves_loop _ _ _ _) as [T3 oldSon]. simpl in Hl.
  assert (keeps T T3) as H3 by (by eapply keeps_trans).
  destruct (nodes T3 !! father) as [f|]; [|done].
  destruct (m_type f); intros [= <- _].
  - eapply keeps_trans; [exact H3|]. keeps_tac.
  - eapply keeps_trans; [exact H3|]. keeps_tac.
  - done.
Qed.

Lemma keeps_insertIndicator r newInd opposite T T' :
  insertIndicator r newInd opposite T = Some T' → keeps T T'.
Proof.
  unfold insertIndicator. destruct (nodes T !! r) as [rn|]; [|done].
  cbn [mbind option_bind]. intros [= <-].
  destruct (getNextSib rn opposite) as [c|]; unfold addNodeToNewParent;
    keeps_tac.
Qed.

(** [ReplaceFullRoot], called by [ReplacePartialRoot] on a leaf: it returns
    for every list of keys; the frontier is the key of the leaf; the
    [IndInfo]s that were there and the pertinent nodes stay as they are. *)
Lemma ReplaceFullRoot_indicator_leaf fuel T r rn leafKeys frontier w opposite :
  m_pertinentRoot T = Some r → nodes T !! r = Some rn →
  m_type rn = PQNodeType.Leaf → 1 ≤ fuel →
  ∃ T', ReplaceFullRoot fuel T leafKeys frontier w true opposite
        = Some (T', frontier ++ [LeafKey <$> m_pointerToKey rn])
        ∧ (∀ i, is_Some (infos T !! i) → infos T' !! i = infos T !! i)
        ∧ m_pertinentNodes T' = m_pertinentNodes T.
Proof.
  intros Hpr Hrn Hty Hfuel. unfold ReplaceFullRoot. rewrite Hpr.
  cbn [mbind option_bind]. rewrite (front_leaf fuel T r rn) by done.
  cbn [mbind option_bind].
  assert (keeps (set_infos (<[fresh (dom (infos T)) := newIndInfo w]>
                              (infos T)) T) (newIndicator w T).1) as Hk0
    by apply keeps_allocNode.
  assert (∀ i, is_Some (infos T !! i) →
               infos (newIndicator w T).1 !! i = infos T !! i) as HI0.
  { intros i Hi. destruct Hk0 as (_ & -> & _). simpl.
    rewrite lookup_insert_ne; [done|]. intros <-.
    pose proof (is_fresh (dom (infos T))) as Hf.
    apply not_elem_of_dom in Hf. rewrite Hf in Hi. by destruct Hi. }
  assert (m_pertinentNodes (newIndicator w T).1 = m_pertinentNodes T) as HP0
    by (by destruct Hk0 as (_ & _ & ->)).
  assert (∃ rn2, nodes (newIndicator w T).1 !! r = Some rn2
                 ∧ m_type rn2 = PQNodeType.Leaf) as (rn2 & Hrn2 & Hty2).
  { destruct Hk0 as (Hn & _). destruct (Hn r rn) as (n' & ? & ? & _); [done|].
    exists n'. split; congruence. }
  destruct (newIndicator w T) as [T2 newInd]. simpl in HI0, HP0, Hrn2.
  clear Hk0.
  assert (∃ T3, insertIndicator r newInd opposite T2 = Some T3)
    as (T3 & HT3).
  { unfold insertIndicator. rewrite Hrn2. by eexists. }
  pose proof (keeps_insertIndicator _ _ _ _ _ HT3) as (Hn3 & HI3 & HP3).
  destruct leafKeys as [|key rest].
  { exists T2. done. }
  destruct (decide (head (key :: rest) = last (key :: rest))) as [Heq|Hne].
  - rewrite HT3. cbn [mbind option_bind].
    destruct (newLeaf_spec PQNodeStatus.Empty key T3) as [-> _].
    eexists. split; [done|].
    match goal with
    | |- context [exchangeNodes r ?a ?X] =>
        destruct (relinked_exchangeNodes r a X) as (_ & HI & _ & _ & _ & HP & _)
    end.
    split.
    + intros i Hi. rewrite <- (HI0 i Hi), <- HI3.
      case_decide; simpl; by rewrite HI.
    + rewrite <- HP0, <- HP3. case_decide; simpl; by rewrite HP.
  - rewrite HT3. cbn [mbind option_bind].
    destruct (Hn3 r rn2 Hrn2) as (rn3 & Hrn3 & Hty3 & _).
    rewrite Hrn3. cbn [mbind option_bind]. rewrite Hty3, Hty2.
    unfold newInternalNode.
    pose proof (keeps_allocNode
                  (blankNode PQNodeType.PNode PQNodeStatus.Empty None None)
                  T3) as Hk4.
    assert (is_Some (nodes (allocNode
              (blankNode PQNodeType.PNode PQNodeStatus.Empty None None)
              T3).1 !! (allocNode
              (blankNode PQNodeType.PNode PQNodeStatus.Empty None None)
              T3).2)) as Hp4.
    { unfold allocNode. simpl. by rewrite lookup_insert_eq. }
    destruct (allocNode _ T3) as [T4 nodePtr]. simpl in Hk4, Hp4.
    pose proof (relinked_exchangeNodes r nodePtr T4) as HR.
    assert (is_Some (nodes (set_pertinentRoot None
                              (exchangeNodes r nodePtr T4)) !! nodePtr))
      as Hp5.
    { destruct Hp4 as [n4 Hn4].
      destruct (relinked_lookup T4 _ nodePtr n4 HR Hn4) as (n' & Hn' & _).
      by eexists. }
    destruct (addNewLeavesToTree_is_Some nodePtr (key :: rest) _ Hp5)
      as [[T6 b] HA].
    rewrite HA. cbn [mbind option_bind]. eexists. split; [done|].
    pose proof (keeps_addNewLeavesToTree _ _ _ _ _ HA) as (_ & HI6 & HP6).
    destruct HR as (_ & HI5 & _ & _ & _ & HP5 & _).
    destruct Hk4 as (_ & HI4 & HP4).
    split.
    + intros i Hi. rewrite <- (HI0 i Hi), <- HI3, HI6. simpl.
      by rewrite HI5, HI4.
    + rewrite <- HP0, <- HP3, HP6. simpl. by rewrite HP5, HP4.
Qed.

(** * [ReplacePartialRoot] on a run of full leaves *)

Lemma full_leaf_ext h h' a :
  h' !! a = h !! a → full_leaf h a → full_leaf h' a.
Proof. intros Heq (n & Ha & Hs). exists n. by rewrite Heq. Qed.

Lemma infoOf_ext h h' a : h' !! a = h !! a → infoOf h' a = infoOf h a.
Proof. unfold infoOf. by intros ->. Qed.

Lemma entryOf_ext h h' a : h' !! a = h !! a → entryOf h' a = entryOf h a.
Proof.
  intros Heq. unfold entryOf, infoKey, leafKeyOf.
  by rewrite (is_indicator_ext h h' a Heq), Heq.
Qed.

Lemma entryOf_fmap_ext h h' (l : list addr) :
  (∀ a, a ∈ l → h' !! a = h !! a) → entryOf h' <$> l = entryOf h <$> l.
Proof.
  intros Hext. induction l as [|a l IH]; [done|].
  rewrite !fmap_cons, IH; [|intros b Hb; apply Hext; by right].
  by rewrite (entryOf_ext h h' a) by (apply Hext; by left).
Qed.

Lemma reversedInfos_ext h h' o (l : list addr) :
  (∀ a, a ∈ l → h' !! a = h !! a) →
  reversedInfos h' o l = reversedInfos h o l.
Proof.
  intros Hext. unfold reversedInfos. induction l as [|a l IH]; [done|].
  assert (h' !! a = h !! a) as Ha by (apply Hext; by left).
  rewrite !filter_cons, (is_indicator_ext h h' a Ha).
  case_decide.
  - cbn [omap list_omap]. rewrite (infoOf_ext h h' a Ha).
    rewrite IH; [done|]. intros b Hb. apply Hext. by right.
  - apply IH. intros b Hb. apply Hext. by right.
Qed.

Lemma indicatorsOf_ext h h' (l : list addr) :
  (∀ a, a ∈ l → h' !! a = h !! a) → indicatorsOf h' l = indicatorsOf h l.
Proof.
  intros Hext. unfold indicatorsOf. induction l as [|a l IH]; [done|].
  assert (h' !! a = h !! a) as Ha by (apply Hext; by left).
  rewrite !filter_cons, (is_indicator_ext h h' a Ha).
  rewrite IH; [done|]. intros b Hb. apply Hext. by right.
Qed.

Lemma has_info_ext h h' I a :
  h' !! a = h !! a → has_info h I a → has_info h' I a.
Proof.
  intros Heq (i & Hi & Hs). exists i. by rewrite (infoOf_ext h h' a Heq).
Qed.

Lemma reversedInfos_snoc_leaf h o l x :
  is_indicator h x = false →
  reversedInfos h o (l ++ [x]) = reversedInfos h o l.
Proof.
  intros Hx. unfold reversedInfos. rewrite filter_app, filter_cons.
  rewrite decide_False by (rewrite Hx; intros [_ ?]; done).
  by rewrite filter_nil, app_nil_r.
Qed.

Lemma indicatorsOf_snoc_leaf h l x :
  is_indicator h x = false → indicatorsOf h (l ++ [x]) = indicatorsOf h l.
Proof.
  intros Hx. unfold indicatorsOf. rewrite filter_app, filter_cons.
  rewrite decide_False by (by rewrite Hx).
  by rewrite filter_nil, app_nil_r.
Qed.

(** [ReplacePartialRoot] up to its call of [ReplaceFullRoot]: the run but
    its last leaf is scanned and taken out of the ring; [ReplaceFullRoot] is
    called on the tree [T4], in which the last leaf of the run is the
    pertinent root. *)
Lemma ReplacePartialRoot_reduces (fuel : nat) (T : EmbedPQTree)
    (r : addr) (rn : PQNode) (o : addr → bool) (pre : list addr) (x1 : addr)
    (mid : list addr) (xk : addr) (post F1 F2 F3 : list addr)
    (leafKeys : list PQLeafKey) (frontier : keys_t) (w : node) :
  m_pertinentRoot T = Some r →
  nodes T !! r = Some rn →
  r ∉ pre ++ x1 :: mid ++ xk :: post →
  ochain (nodes T) o None (pre ++ x1 :: mid ++ xk :: post) None →
  NoDup (pre ++ x1 :: mid ++ xk :: post) →
  full_leaf (nodes T) x1 → full_leaf (nodes T) xk →
  (∀ a, a ∈ mid →
     full_leaf (nodes T) a
     ∨ (is_indicator (nodes T) a = true
        ∧ has_info (nodes T) (infos T) a)) →
  emptyOrNull (nodes T) (firstNonIndicator (nodes T) (reverse pre)) →
  emptyOrNull (nodes T) (firstNonIndicator (nodes T) post) →
  fullChildren rn = F1 ++ x1 :: F2 ++ xk :: F3 →
  (∀ c, c ∈ F1 ++ F2 ++ F3 → c ∈ mid) →
  length (pre ++ x1 :: mid ++ xk :: post) ≤ fuel →
  ∃ T4 n4,
    ReplacePartialRoot fuel T leafKeys frontier w
    = match ReplaceFullRoot fuel T4 leafKeys [] w true (last pre) with
      | Some (T5, partialFrontier) =>
          Some (T5, (frontier ++ (entryOf (nodes T) <$> x1 :: mid))
                      ++ partialFrontier)
      | None => None
      end
    ∧ m_pertinentRoot T4 = Some xk
    ∧ nodes T4 !! xk = Some n4 ∧ m_type n4 = PQNodeType.Leaf
    ∧ LeafKey <$> m_pointerToKey n4 = entryOf (nodes T) xk
    ∧ ochain (nodes T4) o None (pre ++ xk :: post) None
    ∧ infos T4 = flagAll (reversedInfos (nodes T) o mid) (infos T)
    ∧ m_pertinentNodes T4
      = m_pertinentNodes T ++ indicatorsOf (nodes T) mid
    ∧ (∀ x, is_Some (nodes T4 !! x) ↔ is_Some (nodes T !! x)).
Proof.
  intros Hpr Hrn Hr Hc Hnd Hx1 Hxk Hmid Hpre Hpost HF Hint Hfuel.
  set (l := pre ++ x1 :: mid ++ xk :: post) in *.
  unfold ReplacePartialRoot. rewrite Hpr. cbn [mbind option_bind].
  rewrite Hrn. cbn [mbind option_bind].
  set (T1 := update r _ T).
  assert (∀ a, a ∈ l → nodes T1 !! a = nodes T !! a) as Hext1.
  { intros a Ha. apply lookup_update_ne. by intros ->. }
  assert (run_layout (nodes T1) pre x1 mid xk post) as Hrun.
  { apply (run_layout_ext (nodes T)); [done|].
    split; [by eapply ochain_chain|]. split; [done|].
    split. { destruct Hx1 as (n & ? & ? & _). by exists n. }
    split. { destruct Hxk as (n & ? & ? & _). by exists n. }
    split; [|done].
    intros a Ha. destruct (Hmid a Ha) as [(n & ? & ? & _)|[? _]]; [left|by right].
    by exists n. }
  assert (∃ rn1, nodes T1 !! r = Some rn1
                 ∧ fullChildren rn1 = fullChildren rn) as (rn1 & Hrn1 & HF1).
  { eexists. split.
    - unfold T1, update. simpl. rewrite lookup_alter_eq, Hrn. done.
    - done. }
  rewrite <- HF1.
  rewrite (findSequence_run fuel T1 r rn1 pre x1 mid xk post F1 F2 F3);
    [|done|done|done|done|by rewrite HF1|done].
  cbn [mbind option_bind beginSequence endSequence].
  set (T2 := update r (set_fullChildren []) T1).
  set (s := mkSeq _ _ _ _).
  assert (∀ a, a ∈ l → nodes T2 !! a = nodes T !! a) as Hext2.
  { intros a Ha. unfold T2. rewrite lookup_update_ne by (by intros ->).
    by apply Hext1. }
  assert (∀ a, a ∈ x1 :: mid ++ [xk] → a ∈ l) as Hsub.
  { intros a Ha. unfold l. rewrite elem_of_app, elem_of_cons, elem_of_app,
      elem_of_cons. rewrite elem_of_cons, elem_of_app in Ha.
    rewrite list_elem_of_singleton in Ha. tauto. }
  assert (l = pre ++ x1 :: (mid ++ [xk]) ++ post) as Hl
    by (unfold l; by rewrite <- app_assoc).
  destruct (scanSequence_run o pre post s xk fuel (length (mid ++ [xk]))
              (mid ++ [xk]) x1 T2 frontier fuel)
    as (T3 & HS & Hc3 & Hk3 & Hm3 & HI3 & HP3).
  { done. }
  { rewrite <- Hl. apply (ochain_ext (nodes T)); [|done].
    intros a Ha. unfold sibsOf. by rewrite Hext2. }
  { by rewrite <- Hl. }
  { apply (full_leaf_ext (nodes T)); [|done]. apply Hext2, Hsub.
    by left. }
  { apply (full_leaf_ext (nodes T)); [|done]. apply Hext2, Hsub.
    right. rewrite elem_of_app, list_elem_of_singleton. auto. }
  { intros a Ha.
    assert (nodes T2 !! a = nodes T !! a) as Heq
      by (apply Hext2, Hsub; by right).
    apply elem_of_app in Ha as [Ha|Ha%list_elem_of_singleton].
    - destruct (Hmid a Ha) as [Hf|[Hi Hin]].
      + left. by apply (full_leaf_ext (nodes T)).
      + right. rewrite (is_indicator_ext (nodes T)) by done.
        split; [done|]. by apply (has_info_ext (nodes T)).
    - subst a. left. by apply (full_leaf_ext (nodes T)). }
  { rewrite last_cons, last_snoc. done. }
  { done. }
  { unfold s. cbn [predNode]. apply firstNonIndicator_ext.
    intros a Ha. unfold T2. symmetry. apply lookup_update_ne. intros ->.
    apply Hr. rewrite elem_of_reverse in Ha. unfold l.
    rewrite elem_of_app. auto. }
  { done. }
  { rewrite Hl, !length_app in Hfuel. simpl in Hfuel.
    rewrite !length_app in Hfuel. rewrite length_app. lia. }
  { by rewrite <- Hl. }
  rewrite HS. cbn [mbind option_bind].
  destruct (ochain_lookup _ _ _ _ _ _ _ Hc3) as (n3 & Hn3 & _).
  rewrite Hn3. cbn [mbind option_bind].
  assert (full_leaf (nodes T2) xk) as Hxk2.
  { apply (full_leaf_ext (nodes T)); [|done]. apply Hext2, Hsub.
    right. rewrite elem_of_app, list_elem_of_singleton. auto. }
  pose proof (kinds_full_leaf T2 T3 xk Hk3 Hxk2) as (n3' & Hn3' & _ & Hty3).
  rewrite Hn3 in Hn3'. injection Hn3' as <-.
  assert (is_indicator (nodes T) xk = false) as Hxki
    by (by apply full_leaf_not_indicator).
  assert (is_indicator (nodes T2) xk = false) as Hxki2
    by (by apply full_leaf_not_indicator).
  eexists _, (set_parent (m_pertinentRoot T3) n3). split.
  { cbn [beginInd s].
    match goal with
    | |- context [ReplaceFullRoot fuel ?X leafKeys [] w true ?op] =>
        destruct (ReplaceFullRoot fuel X leafKeys [] w true op)
          as [[T5 pf]|]; [|done]
    end.
    cbn [mbind option_bind]. f_equal. f_equal. f_equal. f_equal.
    change (x1 :: mid ++ [xk]) with ((x1 :: mid) ++ [xk]).
    rewrite removelast_last.
    apply entryOf_fmap_ext. intros a Ha. apply Hext2, Hsub.
    rewrite elem_of_cons in Ha. rewrite elem_of_cons, elem_of_app. tauto. }
  split; [done|].
  split. { unfold update. simpl. by rewrite lookup_alter_eq, Hn3. }
  split; [done|].
  split.
  { unfold entryOf. rewrite Hxki. unfold leafKeyOf.
    rewrite <- (Hext2 xk).
    2: { apply Hsub. right. rewrite elem_of_app, list_elem_of_singleton.
         auto. }
    pose proof (kinds_leafKeyOf T2 T3 xk Hk3) as Hlk.
    unfold leafKeyOf in Hlk. rewrite Hn3 in Hlk. rewrite <- Hlk. done. }
  split.
  { apply (ochain_ext (nodes T3)); [|done]. intros x Hx. simpl.
    by apply sibsOf_update_keep. }
  split.
  { simpl. rewrite HI3. rewrite reversedInfos_snoc_leaf by done.
    rewrite (reversedInfos_ext (nodes T) (nodes T2)); [done|].
    intros a Ha. apply Hext2, Hsub. right. rewrite elem_of_app. auto. }
  split.
  { simpl. rewrite HP3. rewrite indicatorsOf_snoc_leaf by done.
    rewrite (indicatorsOf_ext (nodes T) (nodes T2)); [done|].
    intros a Ha. apply Hext2, Hsub. right. rewrite elem_of_app. auto. }
  intros x. cbn [nodes set_pertinentRoot]. rewrite is_Some_update.
  transitivity (is_Some (nodes T2 !! x)).
  - specialize (Hk3 x). split; intros [m Hm]; rewrite Hm in Hk3;
      inversion Hk3; by eexists.
  - unfold T2, T1. by rewrite !is_Some_update.
Qed.

(** [ReplacePartialRoot] on a run of full leaves with indicators between
    them. *)
Lemma ReplacePartialRoot_run (fuel : nat) (T : EmbedPQTree)
    (r : addr) (rn : PQNode) (o : addr → bool) (pre : list addr) (x1 : addr)
    (mid : list addr) (xk : addr) (post F1 F2 F3 : list addr)
    (leafKeys : list PQLeafKey) (frontier : keys_t) (w : node) :
  m_pertinentRoot T = Some r →
  nodes T !! r = Some rn →
  r ∉ pre ++ x1 :: mid ++ xk :: post →
  ochain (nodes T) o None (pre ++ x1 :: mid ++ xk :: post) None →
  NoDup (pre ++ x1 :: mid ++ xk :: post) →
  full_leaf (nodes T) x1 → full_leaf (nodes T) xk →
  (∀ a, a ∈ mid →
     full_leaf (nodes T) a
     ∨ (is_indicator (nodes T) a = true
        ∧ has_info (nodes T) (infos T) a)) →
  emptyOrNull (nodes T) (firstNonIndicator (nodes T) (reverse pre)) →
  emptyOrNull (nodes T) (firstNonIndicator (nodes T) post) →
  fullChildren rn = F1 ++ x1 :: F2 ++ xk :: F3 →
  (∀ c, c ∈ F1 ++ F2 ++ F3 → c ∈ mid) →
  length (pre ++ x1 :: mid ++ xk :: post) ≤ fuel →
  ∃ T',
    ReplacePartialRoot fuel T leafKeys frontier w
    = Some (T', frontier ++ (entryOf (nodes T) <$> x1 :: mid ++ [xk]))
    ∧ (∀ i, is_Some (infos T !! i) →
         infos T' !! i
         = flagAll (reversedInfos (nodes T) o mid) (infos T) !! i)
    ∧ m_pertinentNodes T'
      = m_pertinentNodes T ++ indicatorsOf (nodes T) mid.
Proof.
  intros Hpr Hrn Hr Hc Hnd Hx1 Hxk Hmid Hpre Hpost HF Hint Hfuel.
  destruct (ReplacePartialRoot_reduces fuel T r rn o pre x1 mid xk post
              F1 F2 F3 leafKeys frontier w)
    as (T4 & n4 & HR & Hpr4 & Hn4 & Hty4 & Hkey4 & _ & HI4 & HP4 & _);
    try done.
  destruct (ReplaceFullRoot_indicator_leaf fuel T4 xk n4 leafKeys [] w
              (last pre))
    as (T5 & HR5 & HI5 & HP5); [done|done|done| |].
  { rewrite length_app in Hfuel. simpl in Hfuel. lia. }
  rewrite HR5 in HR. exists T5. split.
  { rewrite HR. f_equal. f_equal. rewrite <- app_assoc. f_equal.
    change (x1 :: mid ++ [xk]) with ((x1 :: mid) ++ [xk]).
    rewrite fmap_app. f_equal. simpl. by rewrite Hkey4. }
  split.
  { intros i Hi. rewrite HI5; [by rewrite HI4|].
    rewrite HI4. by apply flagAll_is_Some. }
  by rewrite HP5.
Qed.

(** X7. [ReplacePartialRoot] on a Q-node whose full children are leaves: when
    the children of the pertinent root are [pre], the run from [x1] to [xk]
    (full leaves, with indicators between them that have an [IndInfo]) and
    [post], the nearest child outside the run that is no indicator being
    Empty or missing on either side, the call returns for every list of
    new keys.  The frontier gets the entries of the whole run in the order
    from [x1] to [xk], the key of a leaf and the node information of an
    indicator; the [changeDir] flag is set on exactly those indicators of
    the run whose right pointer shows the side of [x1], and no other
    [IndInfo] that was there is changed; the indicators of the run are
    appended to the pertinent nodes. *)
Theorem ReplacePartialRoot_scans_run (fuel : nat) (T : EmbedPQTree)
    (r : addr) (rn : PQNode) (o : addr → bool) (pre : list addr) (x1 : addr)
    (mid : list addr) (xk : addr) (post F1 F2 F3 : list addr)
    (leafKeys : list PQLeafKey) (frontier : keys_t) (w : node) :
  m_pertinentRoot T = Some r →
  nodes T !! r = Some rn →
  r ∉ pre ++ x1 :: mid ++ xk :: post →
  ochain (nodes T) o None (pre ++ x1 :: mid ++ xk :: post) None →
  NoDup (pre ++ x1 :: mid ++ xk :: post) →
  full_leaf (nodes T) x1 → full_leaf (nodes T) xk →
  (∀ a, a ∈ mid →
     full_leaf (nodes T) a
     ∨ (is_indicator (nodes T) a = true
        ∧ has_info (nodes T) (infos T) a)) →
  emptyOrNull (nodes T) (firstNonIndicator (nodes T) (reverse pre)) →
  emptyOrNull (nodes T) (firstNonIndicator (nodes T) post) →
  fullChildren rn = F1 ++ x1 :: F2 ++ xk :: F3 →
  (∀ c, c ∈ F1 ++ F2 ++ F3 → c ∈ mid) →
  length (pre ++ x1 :: mid ++ xk :: post) ≤ fuel →
  ∃ T',
    ReplacePartialRoot fuel T leafKeys frontier w
    = Some (T', frontier ++ (entryOf (nodes T) <$> x1 :: mid ++ [xk]))
    ∧ (∀ i, is_Some (infos T !! i) →
         infos T' !! i
         = flagAll (reversedInfos (nodes T) o mid) (infos T) !! i)
    ∧ m_pertinentNodes T'
      = m_pertinentNodes T ++ indicatorsOf (nodes T) mid.
Proof. apply ReplacePartialRoot_run. Qed.

Lemma examplePartial_ochain :
  ochain (nodes examplePartial) (λ a, negb (a =? 3)) None [1; 2; 3; 4; 5; 6]
    None.
Proof.
  simpl. repeat (eexists; split; [by vm_compute|]; split; [by vm_compute|]).
  done.
Qed.

Lemma ReplacePartialRoot_scans_run_witness :
  ∃ T',
    ReplacePartialRoot 6 examplePartial key78 [] 9
    = Some (T', [Some (LeafKey (mkLeafKey 2 (Some 102)));
                 Some (NodeKey (mkNodeKey (Some 0)));
                 Some (LeafKey (mkLeafKey 4 (Some 104)));
                 Some (LeafKey (mkLeafKey 5 (Some 105)))])
    ∧ infos T' !! 0 = Some (mkIndInfo 7 true)
    ∧ m_pertinentNodes T' = [2; 4; 5; 0; 3].
Proof.
  destruct (ReplacePartialRoot_scans_run 6 examplePartial 0
              (mkNode PQNodeType.QNode PQNodeStatus.Partial None None None
                 (Some 1) (Some 6) None None 5%Z None None [4; 2; 5] 0)
              (λ a, negb (a =? 3)) [1] 2 [3; 4] 5 [6] [4] [] [] key78 [] 9)
    as (T' & HR & HI & HP).
  - done.
  - done.
  - intros Hin. repeat (apply elem_of_cons in Hin as [Hin|Hin]; [done|]).
    by apply elem_of_nil in Hin.
  - apply examplePartial_ochain.
  - apply NoDup_ListNoDup. repeat constructor; simpl; intuition lia.
  - eexists. by vm_compute.
  - eexists. by vm_compute.
  - intros a Ha. repeat (apply elem_of_cons in Ha as [->|Ha]).
    + right. split; [done|]. exists 0. split; [done|]. by eexists.
    + left. eexists. by vm_compute.
    + by apply elem_of_nil in Ha.
  - eexists. by vm_compute.
  - eexists. by vm_compute.
  - done.
  - intros c Hc. simpl in Hc. apply list_elem_of_singleton in Hc as ->.
    right. by left.
  - simpl. lia.
  - exists T'. split; [rewrite HR; vm_compute; reflexivity|].
    split.
    + rewrite HI by (by eexists). vm_compute. reflexivity.
    + rewrite HP. vm_compute. reflexivity.
Defined.

(** ** [ReplaceRoot] on a partial root *)

Lemma entryOf_entryInfo h a i :
  entryInfo (entryOf h a) = Some i →
  is_indicator h a = true ∧ infoOf h a = Some i.
Proof.
  unfold entryOf, infoOf, infoKey, leafKeyOf.
  destruct (is_indicator h a); destruct (h !! a) as [n|]; simpl; try done.
  - destruct (m_pointerToInfo n) as [k|]; simpl; [|done]. by intros ->.
  - destruct (m_pointerToKey n) as [k|]; simpl; [|done].
    by destruct (m_userStructKey k).
Qed.

Lemma bucket_ext I I' b (keys : keys_t) :
  (∀ e i, e ∈ keys → entryInfo e = Some i → I' !! i = I !! i) →
  bucket I' b keys = bucket I b keys.
Proof.
  intros Hext. induction keys as [|e keys IH]; [done|].
  rewrite !bucket_cons, IH by (intros e' i He'; apply Hext; by right).
  unfold bucketEntry. destruct (entryInfo e) as [i|] eqn:Hi; [|done].
  cbn [mbind option_bind]. rewrite (Hext e i); [done|by left|done].
Qed.

(** X8. [ReplaceRoot] on a pertinent root that is a partial Q-node whose full
    children are leaves, called with keys or with a pertinent root below the
    root of the tree: with the children laid out as for
    [ReplacePartialRoot], every entry of the run being there, the call
    returns; the edges of the full leaves are appended to [frontier] in the
    order of the run from [x1] to [xk]; the vertex of an indicator of the
    run is appended to [opposed] if its flag was set or its right pointer
    shows the side of [x1], else to [nonOpposed]. *)
Theorem ReplaceRoot_partial_root (fuel : nat) (T : EmbedPQTree)
    (r : addr) (rn : PQNode) (o : addr → bool) (pre : list addr) (x1 : addr)
    (mid : list addr) (xk : addr) (post F1 F2 F3 : list addr)
    (leafKeys : list PQLeafKey) (frontier : list edge)
    (opposed nonOpposed : list node) (w : node) :
  m_pertinentRoot T = Some r →
  nodes T !! r = Some rn →
  m_status rn ≠ PQNodeStatus.Full →
  leafKeys ≠ [] ∨ m_root T ≠ Some r →
  r ∉ pre ++ x1 :: mid ++ xk :: post →
  ochain (nodes T) o None (pre ++ x1 :: mid ++ xk :: post) None →
  NoDup (pre ++ x1 :: mid ++ xk :: post) →
  full_leaf (nodes T) x1 → full_leaf (nodes T) xk →
  (∀ a, a ∈ mid →
     full_leaf (nodes T) a
     ∨ (is_indicator (nodes T) a = true
        ∧ has_info (nodes T) (infos T) a)) →
  (∀ a, a ∈ x1 :: mid ++ [xk] → entryOf (nodes T) a ≠ None) →
  emptyOrNull (nodes T) (firstNonIndicator (nodes T) (reverse pre)) →
  emptyOrNull (nodes T) (firstNonIndicator (nodes T) post) →
  fullChildren rn = F1 ++ x1 :: F2 ++ xk :: F3 →
  (∀ c, c ∈ F1 ++ F2 ++ F3 → c ∈ mid) →
  length (pre ++ x1 :: mid ++ xk :: post) ≤ fuel →
  let keys := entryOf (nodes T) <$> x1 :: mid ++ [xk] in
  let I := flagAll (reversedInfos (nodes T) o mid) (infos T) in
  ∃ T',
    ReplaceRoot fuel T leafKeys frontier opposed nonOpposed w
    = Some (T', frontier ++ omap entryEdge keys,
            opposed ++ bucket I true keys,
            nonOpposed ++ bucket I false keys).
Proof.
  intros Hpr Hrn Hst Hcase Hr Hc Hnd Hx1 Hxk Hmid Hsome Hpre Hpost HF Hint
    Hfuel keys I.
  destruct (ReplacePartialRoot_run fuel T r rn o pre x1 mid xk post F1 F2 F3
              leafKeys [] w)
    as (T' & HR & HI & _); try done.
  exists T'. unfold ReplaceRoot. rewrite decide_False.
  2: { intros [Hk Hroot]. destruct Hcase as [Hc'|Hc']; [done|].
       apply Hc'. congruence. }
  rewrite Hpr. cbn [mbind option_bind]. rewrite Hrn. cbn [mbind option_bind].
  rewrite decide_False by done. rewrite HR. cbn [mbind option_bind app].
  fold keys.
  assert (∀ e i, e ∈ keys → entryInfo e = Some i → is_Some (infos T !! i))
    as Hinfo.
  { intros e i He Hi. unfold keys in He.
    apply list_elem_of_fmap in He as (a & -> & Ha).
    apply entryOf_entryInfo in Hi as [Hind Hi].
    apply elem_of_cons in Ha as [->|Ha].
    { apply full_leaf_not_indicator in Hx1. congruence. }
    apply elem_of_app in Ha as [Ha|Ha%list_elem_of_singleton].
    2: { subst a. apply full_leaf_not_indicator in Hxk. congruence. }
    destruct (Hmid a Ha) as [Hf|[_ (i' & Hi' & Hs)]].
    - apply full_leaf_not_indicator in Hf. congruence.
    - congruence. }
  rewrite checkFrontier_buckets.
  - rewrite !(bucket_ext I (infos T')); [done|..];
      intros e i He Hi; apply HI; by eapply Hinfo.
  - intros e He. unfold keys in He.
    apply list_elem_of_fmap in He as (a & -> & Ha). by apply Hsome.
  - intros e i He Hi. rewrite HI by (by eapply Hinfo).
    apply flagAll_is_Some. by eapply Hinfo.
Qed.

Lemma ReplaceRoot_partial_root_witness :
  ∃ T',
    ReplaceRoot 6 examplePartial key78 [] [] [] 9
    = Some (T', [102; 104; 105], [7], []).
Proof.
  assert (key78 ≠ [] ∨ m_root examplePartial ≠ Some 0) as Hcase by (by left).
  destruct (ReplaceRoot_partial_root 6 examplePartial 0
              (mkNode PQNodeType.QNode PQNodeStatus.Partial None None None
                 (Some 1) (Some 6) None None 5%Z None None [4; 2; 5] 0)
              (λ a, negb (a =? 3)) [1] 2 [3; 4] 5 [6] [4] [] [] key78 [] []
              [] 9 eq_refl eq_refl)
    as (T' & HR).
  - done.
  - exact Hcase.
  - intros Hin. repeat (apply elem_of_cons in Hin as [Hin|Hin]; [done|]).
    by apply elem_of_nil in Hin.
  - apply examplePartial_ochain.
  - apply NoDup_ListNoDup. repeat constructor; simpl; intuition lia.
  - eexists. by vm_compute.
  - eexists. by vm_compute.
  - intros a Ha. repeat (apply elem_of_cons in Ha as [->|Ha]).
    + right. split; [done|]. exists 0. split; [done|]. by eexists.
    + left. eexists. by vm_compute.
    + by apply elem_of_nil in Ha.
  - intros a Ha. repeat (apply elem_of_cons in Ha as [->|Ha]); try done.
    by apply elem_of_nil in Ha.
  - eexists. by vm_compute.
  - eexists. by vm_compute.
  - done.
  - intros c Hc. simpl in Hc. apply list_elem_of_singleton in Hc as ->.
    right. by left.
  - simpl. lia.
  - exists T'. rewrite HR. vm_compute. reflexivity.
Defined.

(** * A new child in the ring *)

Lemma ochain_o_ext h o o' p (l : list addr) q :
  (∀ x, x ∈ l → o' x = o x) → ochain h o p l q → ochain h o' p l q.
Proof.
  revert p. induction l as [|a l IH]; intros p Hext; simpl; [done|].
  intros (n & Ha & Hs & Hc). exists n. split; [done|].
  rewrite Hext by (by left). split; [done|].
  apply IH; [|done]. intros x Hx. apply Hext. by right.
Qed.

Lemma csibs_osibs_tail n fwd pr old new m :
  osibs n fwd pr old → pr ≠ old →
  (m_sibLeft m, m_sibRight m) = csibs old new (m_sibLeft n, m_sibRight n) →
  osibs m fwd pr new.
Proof.
  unfold osibs, csibs. simpl. intros Hs Hpr Hm.
  destruct fwd; destruct Hs as [HL HR]; rewrite HL, HR in Hm.
  - rewrite decide_False in Hm by done. rewrite decide_True in Hm by done.
    by injection Hm as -> ->.
  - rewrite decide_True in Hm by done. by injection Hm as -> ->.
Qed.

Lemma csibs_osibs_front n fwd sc old new m :
  osibs n fwd old sc → sc ≠ old →
  (m_sibLeft m, m_sibRight m) = csibs old new (m_sibLeft n, m_sibRight n) →
  osibs m fwd new sc.
Proof.
  unfold osibs, csibs. simpl. intros Hs Hsc Hm.
  destruct fwd; destruct Hs as [HL HR]; rewrite HL, HR in Hm.
  - rewrite decide_True in Hm by done. by injection Hm as -> ->.
  - rewrite decide_False in Hm by done. rewrite decide_True in Hm by done.
    by injection Hm as -> ->.
Qed.

Lemma sibsOf_csibs h h' x n old new :
  h !! x = Some n → sibsOf h' x = csibs old new <$> sibsOf h x →
  ∃ m, h' !! x = Some m
       ∧ (m_sibLeft m, m_sibRight m)
         = csibs old new (m_sibLeft n, m_sibRight n).
Proof.
  intros Hx Hs. rewrite (sibsOf_lookup _ _ _ Hx) in Hs. simpl in Hs.
  by apply sibsOf_Some in Hs.
Qed.

Lemma NoDup_mid_parts (l1 : list addr) r l2 :
  NoDup (l1 ++ r :: l2) →
  NoDup l1 ∧ NoDup l2 ∧ (r ∉ l1) ∧ (r ∉ l2) ∧ (∀ x, x ∈ l1 → x ∉ l2)
  ∧ last l1 ≠ Some r ∧ head l2 ≠ Some r.
Proof.
  intros Hnd. apply NoDup_app in Hnd as (Hn1 & Hd & Hnd2).
  apply NoDup_cons in Hnd2 as [Hr2 Hn2].
  assert (r ∉ l1) as Hr1 by (intros Hin; apply (Hd r Hin); by left).
  repeat split; try done.
  - intros x Hx Hx2. apply (Hd x Hx). by right.
  - intros Hl. apply Hr1. by eapply last_Some_elem_of.
  - intros Hh. apply Hr2. by eapply head_Some_elem_of.
Qed.

(** The tail of a chain after its first node got a new neighbour before
    it. *)
Lemma ochain_new_pred h h' o (old new : addr) l q :
  ochain h o (Some old) l q → NoDup l → old ∉ l → q ≠ Some old →
  (∀ x, x ∈ l → Some x ≠ head l → sibsOf h' x = sibsOf h x) →
  (∀ p, head l = Some p →
        sibsOf h' p = csibs (Some old) (Some new) <$> sibsOf h p) →
  ochain h' o (Some new) l q.
Proof.
  intros Hc Hnd Hold Hq Hfar Hhd. destruct l as [|b l]; [done|].
  apply NoDup_cons in Hnd as [Hb Hnd].
  eapply (ochain_set_head _ _ _ (Some old)); [exact Hc|done| |].
  - intros x Hx. apply Hfar; [by right|]. simpl. intros [= ->]. done.
  - intros n sc Hn Hs Hsc.
    destruct (sibsOf_csibs h h' b n (Some old) (Some new) Hn (Hhd b eq_refl))
      as (m & Hm & Hms).
    exists m. split; [done|]. eapply csibs_osibs_front; [exact Hs| |done].
    destruct Hsc as [->|(c & -> & Hc')]; [done|].
    intros [= ->]. apply Hold. by right.
Qed.

(** The front of a chain after its last node got a new neighbour after
    it. *)
Lemma ochain_new_succ h h' o (old new : addr) p l :
  ochain h o p l (Some old) → NoDup l → old ∉ l → p ≠ Some old →
  (∀ x, x ∈ l → Some x ≠ last l → sibsOf h' x = sibsOf h x) →
  (∀ b, last l = Some b →
        sibsOf h' b = csibs (Some old) (Some new) <$> sibsOf h b) →
  ochain h' o p l (Some new).
Proof.
  intros Hc Hnd Hold Hp Hfar Hlst.
  destruct (last l) as [b|] eqn:Hlast.
  2: { apply last_None in Hlast. by subst. }
  eapply (ochain_set_last _ _ _ _ _ b (Some old)); [exact Hc|done|done| |].
  - intros x Hx Hxb. apply Hfar; [done|]. congruence.
  - intros n pr Hn Hs Hpr.
    destruct (sibsOf_csibs h h' b n (Some old) (Some new) Hn (Hlst b eq_refl))
      as (m & Hm & Hms).
    exists m. split; [done|]. eapply csibs_osibs_tail; [exact Hs| |done].
    destruct Hpr as [->|(c & -> & Hc')]; [done|].
    intros [= ->]. done.
Qed.

(** The node [c] takes the place of [r] between its siblings. *)
Lemma ochain_exchange h h' o l1 (r c : addr) l2 :
  ochain h o None (l1 ++ r :: l2) None → NoDup (l1 ++ r :: l2) →
  o c = o r →
  (∀ x, x ∈ l1 ++ l2 → Some x ≠ last l1 → Some x ≠ head l2 →
        sibsOf h' x = sibsOf h x) →
  (∀ q, last l1 = Some q →
        sibsOf h' q = csibs (Some r) (Some c) <$> sibsOf h q) →
  (∀ p, head l2 = Some p →
        sibsOf h' p = csibs (Some r) (Some c) <$> sibsOf h p) →
  sibsOf h' c = sibsOf h r →
  ochain h' o None (l1 ++ c :: l2) None.
Proof.
  intros Hc Hnd Ho Hfar Hq Hp Hcr.
  destruct (NoDup_mid_parts _ _ _ Hnd)
    as (Hn1 & Hn2 & Hr1 & Hr2 & Hdis & Hlr & Hhr).
  apply ochain_app in Hc as [Hc1 Hc2]. simpl in Hc1, Hc2.
  destruct Hc2 as (n & Hr & Hs & Hc2).
  apply ochain_app. split.
  - simpl. eapply (ochain_new_succ h h' o r c); try done.
    intros x Hx Hxl. apply Hfar; [rewrite elem_of_app; auto|done|].
    intros Hh. symmetry in Hh. apply head_Some_elem_of in Hh.
    by apply (Hdis x).
  - simpl. rewrite (sibsOf_lookup _ _ _ Hr) in Hcr.
    apply sibsOf_Some in Hcr as (m & Hm & Hms). exists m. split; [done|].
    split.
    { rewrite Ho. unfold osibs in *. injection Hms as -> ->. exact Hs. }
    eapply (ochain_new_pred h h' o r c); try done.
    intros x Hx Hxh. apply Hfar; [rewrite elem_of_app; auto| |done].
    intros Hl. symmetry in Hl. apply last_Some_elem_of in Hl.
    by apply (Hdis x).
Qed.

(** The new node [a] enters the ring after [r]. *)
Lemma ochain_insert_after h h' o l1 (r a : addr) l2 :
  ochain h o None (l1 ++ r :: l2) None → NoDup (l1 ++ r :: l2) →
  o a = true → last l1 ≠ head l2 →
  (∀ x, x ∈ l1 ++ l2 → Some x ≠ head l2 → sibsOf h' x = sibsOf h x) →
  sibsOf h' r = csibs (head l2) (Some a) <$> sibsOf h r →
  (∀ p, head l2 = Some p →
        sibsOf h' p = csibs (Some r) (Some a) <$> sibsOf h p) →
  sibsOf h' a = Some (Some r, head l2) →
  ochain h' o None (l1 ++ r :: a :: l2) None.
Proof.
  intros Hc Hnd Ho Hne Hfar Hr' Hp Ha.
  destruct (NoDup_mid_parts _ _ _ Hnd)
    as (Hn1 & Hn2 & Hr1 & Hr2 & Hdis & Hlr & Hhr).
  apply ochain_app in Hc as [Hc1 Hc2]. simpl in Hc1, Hc2.
  destruct Hc2 as (n & Hr & Hs & Hc2). rewrite !or_else_None in Hs.
  apply ochain_app. split.
  - simpl. apply (ochain_ext h); [|done].
    intros x Hx. apply Hfar; [rewrite elem_of_app; auto|].
    intros Hh. symmetry in Hh. apply head_Some_elem_of in Hh.
    by apply (Hdis x).
  - simpl. rewrite or_else_None.
    destruct (sibsOf_csibs h h' r n (head l2) (Some a) Hr Hr')
      as (m & Hm & Hms).
    exists m. split; [done|]. split.
    { eapply csibs_osibs_tail; [exact Hs|done|done]. }
    apply sibsOf_Some in Ha as (na & Hna & Hnas). exists na.
    split; [done|]. split.
    { rewrite Ho, or_else_None. unfold osibs. by injection Hnas as -> ->. }
    eapply (ochain_new_pred h h' o r a); try done.
    intros x Hx Hxh. apply Hfar; [rewrite elem_of_app; auto|done].
Qed.

(** * The new indicator of [ReplaceFullRoot] *)

Lemma putSibling_psibs new pref m :
  (m_sibLeft (putSibling new pref m), m_sibRight (putSibling new pref m))
  = psibs new pref (m_sibLeft m, m_sibRight m).
Proof.
  unfold putSibling, psibs. simpl. destruct pref; by repeat case_decide.
Qed.

Lemma sibsOf_update_ptr x p f g T :
  (∀ m, (m_sibLeft (f m), m_sibRight (f m))
        = g (m_sibLeft m, m_sibRight m)) →
  sibsOf (nodes (update_ptr p f T)) x
  = if decide (Some x = p) then g <$> sibsOf (nodes T) x
    else sibsOf (nodes T) x.
Proof.
  intros Hf. destruct p as [b|]; cbn [update_ptr].
  - rewrite (sibsOf_update x b f g) by done.
    destruct (decide (x = b)) as [->|Hne].
    + by rewrite decide_True.
    + rewrite decide_False; [done|]. congruence.
  - by rewrite decide_False.
Qed.

(** The sibling pointers after [exchangeNodes]. *)
Lemma exchangeNodes_sibsOf old new T n x :
  nodes T !! old = Some n → new ≠ old → is_Some (nodes T !! new) →
  m_sibLeft n ≠ Some old → m_sibRight n ≠ Some old →
  m_sibLeft n ≠ Some new → m_sibRight n ≠ Some new →
  sibsOf (nodes (exchangeNodes old new T)) x
  = if decide (x = old) then Some (None, None)
    else if decide (x = new) then Some (m_sibLeft n, m_sibRight n)
    else if decide (Some x = m_sibRight n)
    then csibs (Some old) (Some new)
           <$> (if decide (Some x = m_sibLeft n)
                then csibs (Some old) (Some new) <$> sibsOf (nodes T) x
                else sibsOf (nodes T) x)
    else if decide (Some x = m_sibLeft n)
    then csibs (Some old) (Some new) <$> sibsOf (nodes T) x
    else sibsOf (nodes T) x.
Proof.
  intros Hold Hne [nn Hnew] HLo HRo HLn HRn. unfold exchangeNodes.
  rewrite Hold.
  rewrite (decide_False (P := m_sibLeft n = Some old)) by done.
  rewrite (decide_False (P := m_sibRight n = Some old)) by done.
  match goal with
  | |- context [update_ptr (m_sibLeft n) _ ?X] => set (T2 := X)
  end.
  assert (∀ y, sibsOf (nodes T2) y
               = if decide (y = new)
                 then Some (m_sibLeft n, m_sibRight n)
                 else sibsOf (nodes T) y) as H2.
  { intros y.
    assert (sibsOf (nodes (update new
              (λ m, set_parent (m_parent n)
                 (set_referenceParent (m_referenceParent n)
                    (set_sibLeft
                       (if decide (m_sibLeft n = Some old)
                        then Some new else m_sibLeft n)
                       (set_sibRight
                          (if decide (m_sibRight n = Some old)
                           then Some new else m_sibRight n) m)))) T)) y
            = if decide (y = new)
              then Some (m_sibLeft n, m_sibRight n)
              else sibsOf (nodes T) y) as H1.
    { rewrite (sibsOf_update y new _
                 (λ _, (m_sibLeft n, m_sibRight n))).
      - case_decide; [|done]. subst y.
        by rewrite (sibsOf_lookup _ _ _ Hnew).
      - intros m. simpl. by rewrite !decide_False. }
    unfold T2. destruct (m_referenceParent n) as [p|].
    - by rewrite sibsOf_update_keep.
    - rewrite sibsOf_update_ptr_keep; [done|].
      intros m. apply changeEndmost_sibs. }
  rewrite (sibsOf_update x old _ (λ _, (None, None))) by done.
  rewrite !(sibsOf_update_ptr _ _ _ (csibs (Some old) (Some new)))
    by (intros m; apply changeSiblings_csibs).
  rewrite !H2.
  destruct (decide (x = old)) as [->|Hxo].
  { rewrite (decide_False (P := Some old = m_sibRight n)) by done.
    rewrite (decide_False (P := Some old = m_sibLeft n)) by done.
    rewrite (decide_False (P := old = new)) by done.
    by rewrite (sibsOf_lookup _ _ _ Hold). }
  destruct (decide (x = new)) as [->|Hxn]; [|done].
  rewrite (decide_False (P := Some new = m_sibRight n)) by done.
  by rewrite (decide_False (P := Some new = m_sibLeft n)).
Qed.

(** The sibling pointers after [addNodeToNewParent]. *)
Lemma addNodeToNewParent_sibsOf parent a r rb T x :
  a ≠ r → is_Some (nodes T !! a) → rb ≠ Some a → rb ≠ Some r →
  sibsOf (nodes (addNodeToNewParent parent a r rb T)) x
  = if decide (x = a) then Some (Some r, rb)
    else if decide (x = r)
    then csibs rb (Some a) <$> sibsOf (nodes T) x
    else if decide (Some x = rb)
    then csibs (Some r) (Some a) <$> sibsOf (nodes T) x
    else sibsOf (nodes T) x.
Proof.
  intros Har [na Ha] Hrba Hrbr. unfold addNodeToNewParent.
  match goal with
  | |- context [update_ptr rb ?f ?X] => set (T3 := update_ptr rb f X)
  end.
  assert (sibsOf (nodes T3) x
          = if decide (x = a) then Some (Some r, rb)
            else if decide (x = r)
            then csibs rb (Some a) <$> sibsOf (nodes T) x
            else if decide (Some x = rb)
            then csibs (Some r) (Some a) <$> sibsOf (nodes T) x
            else sibsOf (nodes T) x) as H3.
  { unfold T3.
    rewrite (sibsOf_update_ptr _ _ _ (csibs (Some r) (Some a)))
      by (intros m; apply changeSiblings_csibs).
    rewrite (sibsOf_update _ _ _ (csibs rb (Some a)))
      by (intros m; apply changeSiblings_csibs).
    rewrite (sibsOf_update _ _ _ (λ _, (Some r, rb))) by done.
    destruct (decide (x = a)) as [->|Hxa].
    { rewrite (decide_False (P := Some a = rb)) by done.
      rewrite (decide_False (P := a = r)) by done.
      by rewrite (sibsOf_lookup _ _ _ Ha). }
    destruct (decide (x = r)) as [->|Hxr]; [|done].
    by rewrite (decide_False (P := Some r = rb)). }
  destruct rb as [b|]; [done|].
  rewrite sibsOf_update_ptr_keep; [done|].
  intros m. simpl. apply changeEndmost_sibs.
Qed.

(** The sibling pointers after the new indicator [a] is put beside [r], on
    the side away from [opposite]. *)
Lemma insertIndicator_sibsOf r a opposite T rn :
  nodes T !! r = Some rn → a ≠ r → is_Some (nodes T !! a) →
  getNextSib rn opposite ≠ Some a → getNextSib rn opposite ≠ Some r →
  ∃ T',
    insertIndicator r a opposite T = Some T'
    ∧ ∀ x,
        sibsOf (nodes T') x
        = if decide (x = a) then Some (Some r, getNextSib rn opposite)
          else if decide (x = r)
          then csibs (getNextSib rn opposite) (Some a)
                 <$> sibsOf (nodes T) x
          else if decide (Some x = getNextSib rn opposite)
          then csibs (Some r) (Some a) <$> sibsOf (nodes T) x
          else sibsOf (nodes T) x.
Proof.
  intros Hr Har Ha Hoa Hor. unfold insertIndicator. rewrite Hr.
  cbn [mbind option_bind]. eexists. split; [done|]. intros x.
  set (rb := getNextSib rn opposite) in *.
  rewrite (sibsOf_update x a _
             (λ s, psibs rb SibDirection.Right
                     (psibs (Some r) SibDirection.Left
                        (csibs rb None (csibs (Some r) None s))))).
  2: { intros m. by rewrite !putSibling_psibs, !changeSiblings_csibs. }
  assert (∀ parent,
            sibsOf (nodes (addNodeToNewParent parent a r rb T)) x
            = if decide (x = a) then Some (Some r, rb)
              else if decide (x = r)
              then csibs rb (Some a) <$> sibsOf (nodes T) x
              else if decide (Some x = rb)
              then csibs (Some r) (Some a) <$> sibsOf (nodes T) x
              else sibsOf (nodes T) x) as HA
    by (intros parent; by apply addNodeToNewParent_sibsOf).
  assert (sibsOf (nodes match rb with
                        | Some _ => addNodeToNewParent None a r rb T
                        | None => addNodeToNewParent (m_parent rn) a r None T
                        end) x
          = if decide (x = a) then Some (Some r, rb)
            else if decide (x = r)
            then csibs rb (Some a) <$> sibsOf (nodes T) x
            else if decide (Some x = rb)
            then csibs (Some r) (Some a) <$> sibsOf (nodes T) x
            else sibsOf (nodes T) x) as ->.
  { destruct rb as [b|] eqn:E; apply HA. }
  destruct (decide (x = a)) as [->|Hxa]; [|done].
  simpl. f_equal. unfold psibs, csibs. simpl.
  destruct rb as [b|]; repeat (case_decide; simpl in * ); congruence.
Qed.

(** * Where [ReplaceFullRoot] puts the new indicator *)

Lemma ochain_elem_lookup h o p (l : list addr) q x :
  ochain h o p l q → x ∈ l → is_Some (h !! x).
Proof.
  revert p. induction l as [|b l IH]; intros p; simpl.
  - by intros _ ?%elem_of_nil.
  - intros (n & Hb & _ & Hc) [->|Hx]%elem_of_cons; [by eexists|].
    by eapply IH.
Qed.

Lemma sibsOf_insert_ne h (a x : addr) n :
  x ≠ a → sibsOf (<[a := n]> h) x = sibsOf h x.
Proof. intros Hne. unfold sibsOf. by rewrite lookup_insert_ne. Qed.

Lemma ochain_insert_fresh h o p (l : list addr) q a n :
  h !! a = None → ochain h o p l q → ochain (<[a := n]> h) o p l q.
Proof.
  intros Ha Hc. apply (ochain_ext h); [|done]. intros x Hx.
  apply sibsOf_insert_ne. intros ->.
  destruct (ochain_elem_lookup _ _ _ _ _ _ Hc Hx) as [m Hm]. congruence.
Qed.

Lemma keeps_lookup T T' a n :
  keeps T T' → nodes T !! a = Some n →
  ∃ n', nodes T' !! a = Some n' ∧ same_tag n n'.
Proof. intros (H & _) Ha. by apply H. Qed.

(** Only the pointers of the two neighbours change when the node [r] of a
    chain is replaced. *)
Lemma exchangeNodes_ochain T o l1 r c l2 :
  ochain (nodes T) o None (l1 ++ r :: l2) None → NoDup (l1 ++ r :: l2) →
  is_Some (nodes T !! c) → c ∉ l1 ++ r :: l2 → o c = o r →
  ochain (nodes (exchangeNodes r c T)) o None (l1 ++ c :: l2) None.
Proof.
  intros Hc Hnd Hcx Hcl Ho.
  destruct (NoDup_mid_parts _ _ _ Hnd)
    as (Hn1 & Hn2 & Hr1 & Hr2 & Hdis & Hlr & Hhr).
  destruct (ochain_lookup _ _ _ _ _ _ _ Hc) as (n & Hr & Hs).
  rewrite !or_else_None in Hs.
  assert (c ≠ r) as Hcr.
  { intros ->. apply Hcl. rewrite elem_of_app, elem_of_cons. auto. }
  assert (last l1 ≠ Some c) as Hlc.
  { intros Hl. apply last_Some_elem_of in Hl. apply Hcl.
    rewrite elem_of_app. auto. }
  assert (head l2 ≠ Some c) as Hhc.
  { intros Hl. apply head_Some_elem_of in Hl. apply Hcl.
    rewrite elem_of_app, elem_of_cons. auto. }
  assert (m_sibLeft n ≠ Some r ∧ m_sibRight n ≠ Some r
          ∧ m_sibLeft n ≠ Some c ∧ m_sibRight n ≠ Some c)
    as (HLr & HRr & HLc & HRc).
  { unfold osibs in Hs. destruct (o r); destruct Hs as [-> ->]; done. }
  pose proof (λ x, exchangeNodes_sibsOf r c T n x Hr Hcr Hcx HLr HRr HLc HRc)
    as Hsib.
  apply (ochain_exchange (nodes T) _ o l1 r c l2); try done.
  - intros x Hx Hxl Hxh. rewrite Hsib.
    rewrite decide_False.
    2: { intros ->. apply elem_of_app in Hx as [?|?]; done. }
    rewrite decide_False.
    2: { intros ->. apply Hcl. apply elem_of_app in Hx as [?|?];
           rewrite elem_of_app, elem_of_cons; auto. }
    unfold osibs in Hs. destruct (o r); destruct Hs as [-> ->];
      by rewrite !decide_False.
  - intros q Hq. rewrite Hsib.
    assert (q ∈ l1) as Hql by (by apply last_Some_elem_of).
    rewrite decide_False by (by intros ->).
    rewrite decide_False.
    2: { intros ->. apply Hcl. rewrite elem_of_app. auto. }
    assert (Some q ≠ head l2) as Hqh.
    { intros Hh. symmetry in Hh. apply head_Some_elem_of in Hh.
      by apply (Hdis q). }
    unfold osibs in Hs. destruct (o r); destruct Hs as [-> ->].
    + rewrite decide_False by done. by rewrite decide_True.
    + rewrite decide_True by done. by rewrite decide_False.
  - intros p Hp. rewrite Hsib.
    assert (p ∈ l2) as Hpl by (by apply head_Some_elem_of).
    rewrite decide_False by (by intros ->).
    rewrite decide_False.
    2: { intros ->. apply Hcl. rewrite elem_of_app, elem_of_cons. auto. }
    assert (Some p ≠ last l1) as Hpl1.
    { intros Hh. symmetry in Hh. apply last_Some_elem_of in Hh.
      by apply (Hdis p). }
    unfold osibs in Hs. destruct (o r); destruct Hs as [-> ->].
    + rewrite decide_True by done. by rewrite decide_False.
    + rewrite decide_False by done. by rewrite decide_True.
  - rewrite Hsib. rewrite decide_False by done. rewrite decide_True by done.
    by rewrite (sibsOf_lookup _ _ _ Hr).
Qed.

(** The new indicator enters the chain after [r], away from the side the
    scan came from. *)
Lemma insertIndicator_ochain T o l1 r a l2 :
  ochain (nodes T) o None (l1 ++ r :: l2) None → NoDup (l1 ++ r :: l2) →
  is_Some (nodes T !! a) → a ∉ l1 ++ r :: l2 → o a = true →
  l1 ≠ [] ∨ l2 ≠ [] →
  ∃ T', insertIndicator r a (last l1) T = Some T'
        ∧ ochain (nodes T') o None (l1 ++ r :: a :: l2) None.
Proof.
  intros Hc Hnd Hax Hal Ho Hne.
  destruct (NoDup_mid_parts _ _ _ Hnd)
    as (Hn1 & Hn2 & Hr1 & Hr2 & Hdis & Hlr & Hhr).
  destruct (ochain_lookup _ _ _ _ _ _ _ Hc) as (n & Hr & Hs).
  rewrite !or_else_None in Hs.
  assert (last l1 ≠ head l2) as Hlh.
  { intros Heq. apply (last_head_ends l1 r l2) in Heq as [-> ->]; [|done].
    by destruct Hne. }
  assert (getNextSib n (last l1) = head l2) as Hopp.
  { apply getNextSib_other; [by eapply osibs_sibs_are|done]. }
  assert (a ≠ r) as Har.
  { intros ->. apply Hal. rewrite elem_of_app, elem_of_cons. auto. }
  assert (head l2 ≠ Some a) as Hha.
  { intros Hl. apply head_Some_elem_of in Hl. apply Hal.
    rewrite elem_of_app, elem_of_cons. auto. }
  destruct (insertIndicator_sibsOf r a (last l1) T n Hr Har Hax)
    as (T' & HT' & Hsib); [by rewrite Hopp|by rewrite Hopp|].
  rewrite Hopp in Hsib. exists T'. split; [done|].
  apply (ochain_insert_after (nodes T) _ o l1 r a l2); try done.
  - intros x Hx Hxh. rewrite Hsib.
    rewrite decide_False.
    2: { intros ->. apply Hal. apply elem_of_app in Hx as [?|?];
           rewrite elem_of_app, elem_of_cons; auto. }
    rewrite decide_False.
    2: { intros ->. apply elem_of_app in Hx as [?|?]; done. }
    by rewrite decide_False.
  - rewrite Hsib. rewrite decide_False by done. by rewrite decide_True.
  - intros p Hp. rewrite Hsib.
    assert (p ∈ l2) as Hpl by (by apply head_Some_elem_of).
    rewrite decide_False.
    2: { intros ->. apply Hal. rewrite elem_of_app, elem_of_cons. auto. }
    rewrite decide_False by (by intros ->).
    by rewrite decide_True.
  - rewrite Hsib. by rewrite decide_True.
Qed.

Lemma insertIndicator_members r a opposite T T' :
  insertIndicator r a opposite T = Some T' →
  m_root T' = m_root T ∧ m_pertinentRoot T' = m_pertinentRoot T.
Proof.
  unfold insertIndicator. destruct (nodes T !! r) as [rn|]; [|done].
  cbn [mbind option_bind]. intros [= <-]. unfold addNodeToNewParent.
  destruct (getNextSib rn opposite) as [b|]; [|destruct (m_parent rn)];
    done.
Qed.

(** The tree after [newIndicator]. *)
Lemma newIndicator_spec w T :
  let a := fresh (dom (nodes T)) in
  let i := fresh (dom (infos T)) in
  newIndicator w T
  = (mkTree (<[a := blankNode PQNodeType.Leaf PQNodeStatus.Indicator None
                      (Some (mkNodeKey (Some i))) (m_identNumber T)]>
               (nodes T))
       (<[i := newIndInfo w]> (infos T)) (nodePointer T) (m_root T)
       (m_pertinentRoot T) (m_pertinentNodes T) (S (m_identNumber T)), a)
  ∧ nodes T !! a = None ∧ infos T !! i = None.
Proof.
  split; [done|]. split; apply not_elem_of_dom, is_fresh.
Qed.

(** The chain after the indicator is made and put beside [r]. *)
Lemma ReplaceFullRoot_indicator_chain T o l1 r l2 w :
  ochain (nodes T) o None (l1 ++ r :: l2) None → NoDup (l1 ++ r :: l2) →
  l1 ≠ [] ∨ l2 ≠ [] →
  ∃ T3 a na i,
    insertIndicator r a (last l1) (newIndicator w T).1 = Some T3
    ∧ (newIndicator w T).2 = a
    ∧ nodes T !! a = None
    ∧ ochain (nodes T3) (λ x, if decide (x = a) then true else o x) None
        (l1 ++ r :: a :: l2) None
    ∧ nodes T3 !! a = Some na
    ∧ m_status na = PQNodeStatus.Indicator
    ∧ m_pointerToInfo na = Some (mkNodeKey (Some i))
    ∧ infos T !! i = None
    ∧ infos T3 = <[i := newIndInfo w]> (infos T)
    ∧ keeps (set_infos (<[i := newIndInfo w]> (infos T)) T) T3
    ∧ m_root T3 = m_root T ∧ m_pertinentRoot T3 = m_pertinentRoot T.
Proof.
  intros Hc Hnd Hne.
  destruct (newIndicator_spec w T) as (HN & Ha & Hi).
  set (a := fresh (dom (nodes T))) in *.
  set (i := fresh (dom (infos T))) in *.
  rewrite HN. cbn [fst snd].
  set (T2 := mkTree _ _ _ _ _ _ _).
  set (o1 := λ x, if decide (x = a) then true else o x).
  assert (∀ x, x ∈ l1 ++ r :: l2 → x ≠ a) as Hxa.
  { intros x Hx ->.
    destruct (ochain_elem_lookup _ _ _ _ _ _ Hc Hx) as [m Hm]. congruence. }
  assert (ochain (nodes T2) o1 None (l1 ++ r :: l2) None) as Hc2.
  { unfold T2. simpl. apply ochain_insert_fresh; [done|].
    apply (ochain_o_ext _ o); [|done]. intros x Hx. unfold o1.
    rewrite decide_False; [done|]. by apply Hxa. }
  destruct (insertIndicator_ochain T2 o1 l1 r a l2 Hc2 Hnd)
    as (T3 & HT3 & Hc3).
  { unfold T2. simpl. rewrite lookup_insert_eq. by eexists. }
  { intros Hin. by apply (Hxa a). }
  { unfold o1. by rewrite decide_True. }
  { done. }
  pose proof (keeps_insertIndicator _ _ _ _ _ HT3) as Hk.
  destruct (keeps_lookup T2 T3 a _ Hk ltac:(unfold T2; simpl;
              by rewrite lookup_insert_eq)) as (na & Hna & _ & Hst & _ & Hin).
  exists T3, a, na, i. split; [done|]. split; [done|]. split; [done|].
  split; [done|]. split; [done|]. split; [done|]. split; [done|].
  split; [done|]. split; [by destruct Hk as (_ & -> & _)|].
  split.
  { eapply keeps_trans; [|exact Hk]. unfold T2. split; [|done].
    intros x n Hx. simpl. exists n. split; [|done].
    rewrite lookup_insert_ne; [done|]. intros <-. simpl in Hx. congruence. }
  by apply (insertIndicator_members _ _ _ _ _ HT3).
Qed.

Lemma NoDup_insert_mid (l1 : list addr) r a l2 :
  NoDup (l1 ++ r :: l2) → a ∉ l1 ++ r :: l2 → NoDup (l1 ++ r :: a :: l2).
Proof.
  intros Hnd Ha.
  apply NoDup_app in Hnd as (Hn1 & Hd & Hnd2).
  apply NoDup_cons in Hnd2 as [Hr2 Hn2].
  rewrite elem_of_app, elem_of_cons in Ha.
  apply NoDup_app. split; [done|]. split.
  - intros x Hx [->|[->|Hin]%elem_of_cons]%elem_of_cons.
    + apply (Hd r Hx). by left.
    + tauto.
    + apply (Hd x Hx). by right.
  - apply NoDup_cons. split.
    + intros [->|Hin]%elem_of_cons; tauto.
    + apply NoDup_cons. split; [tauto|done].
Qed.

Lemma newDirections_old o r a c x :
  x ≠ c → newDirections o r a c x = if decide (x = a) then true else o x.
Proof.
  intros Hx. unfold newDirections. case_decide; [done|].
  by rewrite decide_False.
Qed.

(** [ReplaceFullRoot] with an indicator and one key: the new leaf takes the
    place of [r], the indicator follows it. *)
Lemma ReplaceFullRoot_indicator_one_key fuel T r rn o l1 l2 key frontier w :
  m_pertinentRoot T = Some r → nodes T !! r = Some rn →
  m_type rn = PQNodeType.Leaf →
  ochain (nodes T) o None (l1 ++ r :: l2) None → NoDup (l1 ++ r :: l2) →
  l1 ≠ [] ∨ l2 ≠ [] → 1 ≤ fuel →
  ∃ T' a c na nc i,
    ReplaceFullRoot fuel T [key] frontier w true (last l1)
    = Some (T', frontier ++ [LeafKey <$> m_pointerToKey rn])
    ∧ nodes T !! a = None ∧ nodes T !! c = None ∧ a ≠ c
    ∧ ochain (nodes T') (newDirections o r a c) None (l1 ++ c :: a :: l2)
        None
    ∧ nodes T' !! a = Some na
    ∧ m_status na = PQNodeStatus.Indicator
    ∧ m_pointerToInfo na = Some (mkNodeKey (Some i))
    ∧ infos T !! i = None
    ∧ infos T' = <[i := newIndInfo w]> (infos T)
    ∧ nodes T' !! c = Some nc
    ∧ m_status nc = PQNodeStatus.Empty
    ∧ m_type nc = PQNodeType.Leaf
    ∧ m_pointerToKey nc = Some key
    ∧ m_pertinentRoot T' = None.
Proof.
  intros Hpr Hrn Hty Hc Hnd Hne Hfuel.
  destruct (ReplaceFullRoot_indicator_chain T o l1 r l2 w Hc Hnd Hne)
    as (T3 & a & na & i & HT3 & Ha2 & Ha & Hc3 & Hna & Hst & Hinf & Hi & HI3
        & Hk3 & _).
  unfold ReplaceFullRoot. rewrite Hpr. cbn [mbind option_bind].
  rewrite (front_leaf fuel T r rn) by done. cbn [mbind option_bind].
  destruct (newIndicator w T) as [T2 a'] eqn:E. cbn [fst snd] in HT3, Ha2.
  subst a'. rewrite decide_True by done. rewrite HT3.
  cbn [mbind option_bind].
  destruct (newLeaf_spec PQNodeStatus.Empty key T3) as [HnL Hfresh].
  rewrite HnL. set (c := fresh (dom (nodes T3))) in *.
  match goal with
  | |- context [exchangeNodes r c ?X] => set (T4 := X)
  end.
  assert (∀ x, is_Some (nodes T !! x) → is_Some (nodes T3 !! x)) as H03.
  { intros x [n Hx]. destruct Hk3 as (Hk & _).
    destruct (Hk x n Hx) as (n' & ? & _). by eexists. }
  assert (nodes T !! c = None) as Hc0.
  { destruct (nodes T !! c) eqn:E0; [|done].
    destruct (H03 c) as [m Hm]; [by eexists|]. congruence. }
  assert (a ≠ c) as Hac by (intros ->; congruence).
  assert (∀ x, x ∈ l1 ++ r :: a :: l2 → x ≠ c) as Hxc.
  { intros x Hx ->.
    destruct (ochain_elem_lookup _ _ _ _ _ _ Hc3 Hx) as [m Hm]. congruence. }
  assert (a ∉ l1 ++ r :: l2) as Hal.
  { intros Hin.
    destruct (ochain_elem_lookup _ _ _ _ _ _ Hc Hin) as [m Hm]. congruence. }
  assert (ochain (nodes T4) (newDirections o r a c) None
            (l1 ++ r :: a :: l2) None) as Hc4.
  { unfold T4. simpl. apply ochain_insert_fresh; [done|].
    eapply ochain_o_ext; [|exact Hc3]. intros x Hx. simpl.
    apply newDirections_old. by apply Hxc. }
  assert (ochain (nodes (exchangeNodes r c T4)) (newDirections o r a c) None
            (l1 ++ c :: a :: l2) None) as Hc5.
  { apply exchangeNodes_ochain; [done| | | |].
    - by apply NoDup_insert_mid.
    - unfold T4. simpl. rewrite lookup_insert_eq. by eexists.
    - intros Hin. by apply (Hxc c).
    - unfold newDirections. rewrite (decide_False (P := c = a)) by done.
      rewrite (decide_True (P := c = c)) by done.
      assert (r ≠ a) by (intros ->; congruence).
      assert (r ≠ c).
      { apply Hxc. rewrite elem_of_app, elem_of_cons. auto. }
      by rewrite !decide_False. }
  pose proof (relinked_exchangeNodes r c T4) as HR.
  assert (nodes T4 !! a = Some na) as Ha4.
  { unfold T4. simpl. by rewrite lookup_insert_ne. }
  destruct (relinked_lookup _ _ _ _ HR Ha4)
    as (na5 & Hna5 & _ & Hst5 & _ & _ & Hinf5).
  assert (nodes T4 !! c
          = Some (blankNode PQNodeType.Leaf PQNodeStatus.Empty (Some key) None
                    (m_identNumber T3))) as Hc4'.
  { unfold T4. simpl. by rewrite lookup_insert_eq. }
  destruct (relinked_lookup _ _ _ _ HR Hc4')
    as (nc & Hnc & Hty5 & Hstc & _ & Hkey & _).
  destruct HR as (_ & HI5 & _ & _ & _ & _ & _).
  eexists _, a, c, na5, nc, i. split; [done|].
  split; [done|]. split; [done|]. split; [done|].
  split. { by case_decide. }
  split. { by case_decide. }
  split; [congruence|]. split; [congruence|]. split; [done|].
  split. { case_decide; simpl; by rewrite HI5. }
  split. { by case_decide. }
  split; [done|]. split; [done|]. split; [done|]. by case_decide.
Qed.

(** ** Two or more keys *)

Lemma sibsOf_is_Some h x : is_Some (sibsOf h x) ↔ is_Some (h !! x).
Proof. unfold sibsOf. by rewrite fmap_is_Some. Qed.

Lemma sibsOf_update_ne x b f T :
  x ≠ b → sibsOf (nodes (update b f T)) x = sibsOf (nodes T) x.
Proof. intros Hne. unfold sibsOf. by rewrite lookup_update_ne. Qed.

Lemma sibsOf_newLeaf st key T x :
  is_Some (nodes T !! x) →
  sibsOf (nodes (newLeaf st key T).1) x = sibsOf (nodes T) x
  ∧ x ≠ (newLeaf st key T).2.
Proof.
  intros [n Hx]. destruct (newLeaf_spec st key T) as [-> Hf]. simpl.
  assert (x ≠ fresh (dom (nodes T))) by (intros ->; congruence).
  split; [|done]. by apply sibsOf_insert_ne.
Qed.

(** The new leaves are linked to each other only. *)
Lemma addNewLeaves_loop_sibsOf father keys oldSon T x :
  is_Some (nodes T !! x) → x ≠ oldSon →
  sibsOf (nodes (addNewLeaves_loop father keys oldSon T).1) x
  = sibsOf (nodes T) x
  ∧ x ≠ (addNewLeaves_loop father keys oldSon T).2.
Proof.
  revert oldSon T. induction keys as [|key rest IH]; intros oldSon T Hx Hne;
    [done|].
  cbn [addNewLeaves_loop].
  destruct (sibsOf_newLeaf PQNodeStatus.Empty key T x Hx) as [Hs1 Hn1].
  pose proof (is_Some_newLeaf PQNodeStatus.Empty key T x Hx) as Hx1.
  destruct (newLeaf PQNodeStatus.Empty key T) as [T1 aktualSon].
  cbn [fst snd] in *.
  match goal with
  | |- context [addNewLeaves_loop father rest aktualSon ?X] =>
      destruct (IH aktualSon X) as [HI1 HI2];
        [by rewrite !is_Some_update|done|]
  end.
  split; [|done]. rewrite HI1.
  rewrite sibsOf_update_ne by done.
  rewrite sibsOf_update_keep by done.
  by rewrite sibsOf_update_ne.
Qed.

Lemma addNewLeavesToTree_sibsOf father keys T T' b x :
  addNewLeavesToTree father keys T = Some (T', b) →
  is_Some (nodes T !! x) →
  sibsOf (nodes T') x = sibsOf (nodes T) x.
Proof.
  unfold addNewLeavesToTree. destruct keys as [|key rest].
  { by intros [= <- _]. }
  intros HA Hx.
  destruct (sibsOf_newLeaf PQNodeStatus.Empty key T x Hx) as [Hs1 Hn1].
  pose proof (is_Some_newLeaf PQNodeStatus.Empty key T x Hx) as Hx1.
  destruct (newLeaf PQNodeStatus.Empty key T) as [T1 firstSon].
  cbn [fst snd] in *.
  match type of HA with
  | context [addNewLeaves_loop father rest firstSon ?X] =>
      destruct (addNewLeaves_loop_sibsOf father rest firstSon X x)
        as [HL1 HL2]; [by rewrite !is_Some_update|done|];
      assert (sibsOf (nodes X) x = sibsOf (nodes T) x) as HX
  end.
  { rewrite sibsOf_update_keep by done.
    by rewrite sibsOf_update_ne. }
  destruct (addNewLeaves_loop _ _ _ _) as [T3 oldSon].
  cbn [fst snd] in *.
  destruct (nodes T3 !! father) as [f|]; [|done].
  destruct (m_type f); injection HA as <- _.
  - rewrite sibsOf_update_keep by done.
    rewrite sibsOf_update_keep by done.
    rewrite sibsOf_update_ne by done.
    rewrite sibsOf_update_ne by done. congruence.
  - rewrite sibsOf_update_keep by done. congruence.
  - congruence.
Qed.

Lemma addNewLeavesToTree_members father keys T T' b :
  addNewLeavesToTree father keys T = Some (T', b) →
  m_pertinentRoot T' = m_pertinentRoot T.
Proof.
  unfold addNewLeavesToTree. destruct keys as [|key rest].
  { by intros [= <- _]. }
  destruct (newLeaf_spec PQNodeStatus.Empty key T) as [-> _].
  match goal with
  | |- context [addNewLeaves_loop father rest ?s ?X] =>
      assert (∀ ks s0 X0, m_pertinentRoot (addNewLeaves_loop father ks s0 X0).1
                          = m_pertinentRoot X0) as Hloop
  end.
  { induction ks as [|k ks IH]; intros s0 X0; [done|].
    cbn [addNewLeaves_loop].
    destruct (newLeaf_spec PQNodeStatus.Empty k X0) as [-> _].
    by rewrite IH. }
  match goal with
  | |- context [addNewLeaves_loop father rest ?s ?X] =>
      pose proof (Hloop rest s X) as Hk
  end.
  destruct (addNewLeaves_loop _ _ _ _) as [T3 oldSon]. simpl in Hk.
  destruct (nodes T3 !! father) as [f|]; [|done].
  destruct (m_type f); intros [= <- _]; done.
Qed.

(** [ReplaceFullRoot] with an indicator and two keys or more: the new P-node
    takes the place of [r], the indicator follows it. *)
Lemma ReplaceFullRoot_indicator_keys fuel T r rn o l1 l2 leafKeys frontier w :
  m_pertinentRoot T = Some r → nodes T !! r = Some rn →
  m_type rn = PQNodeType.Leaf →
  ochain (nodes T) o None (l1 ++ r :: l2) None → NoDup (l1 ++ r :: l2) →
  l1 ≠ [] ∨ l2 ≠ [] → 1 ≤ fuel →
  leafKeys ≠ [] → head leafKeys ≠ last leafKeys →
  ∃ T' a c na nc i,
    ReplaceFullRoot fuel T leafKeys frontier w true (last l1)
    = Some (T', frontier ++ [LeafKey <$> m_pointerToKey rn])
    ∧ nodes T !! a = None ∧ nodes T !! c = None ∧ a ≠ c
    ∧ ochain (nodes T') (newDirections o r a c) None (l1 ++ c :: a :: l2)
        None
    ∧ nodes T' !! a = Some na
    ∧ m_status na = PQNodeStatus.Indicator
    ∧ m_pointerToInfo na = Some (mkNodeKey (Some i))
    ∧ infos T !! i = None
    ∧ infos T' = <[i := newIndInfo w]> (infos T)
    ∧ nodes T' !! c = Some nc
    ∧ m_status nc = PQNodeStatus.Empty
    ∧ m_type nc = PQNodeType.PNode
    ∧ m_pertinentRoot T' = None.
Proof.
  intros Hpr Hrn Hty Hc Hnd Hne Hfuel Hkeys Hfl.
  destruct (ReplaceFullRoot_indicator_chain T o l1 r l2 w Hc Hnd Hne)
    as (T3 & a & na & i & HT3 & Ha2 & Ha & Hc3 & Hna & Hst & Hinf & Hi & HI3
        & Hk3 & _).
  unfold ReplaceFullRoot. rewrite Hpr. cbn [mbind option_bind].
  rewrite (front_leaf fuel T r rn) by done. cbn [mbind option_bind].
  destruct (newIndicator w T) as [T2 a'] eqn:E. cbn [fst snd] in HT3, Ha2.
  subst a'. destruct leafKeys as [|key rest]; [done|].
  rewrite decide_False by done. rewrite HT3. cbn [mbind option_bind].
  destruct (keeps_lookup _ T3 r rn Hk3 Hrn) as (rn3 & Hrn3 & Hty3 & _).
  rewrite Hrn3. cbn [mbind option_bind]. rewrite Hty3, Hty.
  unfold newInternalNode, allocNode.
  set (c := fresh (dom (nodes T3))) in *.
  assert (nodes T3 !! c = None) as Hfresh
    by apply not_elem_of_dom, is_fresh.
  match goal with
  | |- context [exchangeNodes r c ?X] => set (T4 := X)
  end.
  assert (∀ x, is_Some (nodes T !! x) → is_Some (nodes T3 !! x)) as H03.
  { intros x [n Hx]. destruct Hk3 as (Hk & _).
    destruct (Hk x n Hx) as (n' & ? & _). by eexists. }
  assert (nodes T !! c = None) as Hc0.
  { destruct (nodes T !! c) eqn:E0; [|done].
    destruct (H03 c) as [m Hm]; [by eexists|]. congruence. }
  assert (a ≠ c) as Hac by (intros ->; congruence).
  assert (∀ x, x ∈ l1 ++ r :: a :: l2 → x ≠ c) as Hxc.
  { intros x Hx ->.
    destruct (ochain_elem_lookup _ _ _ _ _ _ Hc3 Hx) as [m Hm]. congruence. }
  assert (a ∉ l1 ++ r :: l2) as Hal.
  { intros Hin.
    destruct (ochain_elem_lookup _ _ _ _ _ _ Hc Hin) as [m Hm]. congruence. }
  assert (ochain (nodes T4) (newDirections o r a c) None
            (l1 ++ r :: a :: l2) None) as Hc4.
  { unfold T4. simpl. apply ochain_insert_fresh; [done|].
    eapply ochain_o_ext; [|exact Hc3]. intros x Hx. simpl.
    apply newDirections_old. by apply Hxc. }
  assert (ochain (nodes (exchangeNodes r c T4)) (newDirections o r a c) None
            (l1 ++ c :: a :: l2) None) as Hc5.
  { apply exchangeNodes_ochain; [done| | | |].
    - by apply NoDup_insert_mid.
    - unfold T4. simpl. rewrite lookup_insert_eq. by eexists.
    - intros Hin. by apply (Hxc c).
    - unfold newDirections. rewrite (decide_False (P := c = a)) by done.
      rewrite (decide_True (P := c = c)) by done.
      assert (r ≠ a) by (intros ->; congruence).
      assert (r ≠ c).
      { apply Hxc. rewrite elem_of_app, elem_of_cons. auto. }
      by rewrite !decide_False. }
  pose proof (relinked_exchangeNodes r c T4) as HR.
  assert (nodes T4 !! a = Some na) as Ha4.
  { unfold T4. simpl. by rewrite lookup_insert_ne. }
  destruct (relinked_lookup _ _ _ _ HR Ha4)
    as (na5 & Hna5 & _ & Hst5 & _ & _ & Hinf5).
  assert (nodes T4 !! c
          = Some (blankNode PQNodeType.PNode PQNodeStatus.Empty None None
                    (m_identNumber T3))) as Hc4'.
  { unfold T4. simpl. by rewrite lookup_insert_eq. }
  destruct (relinked_lookup _ _ _ _ HR Hc4')
    as (nc & Hnc & Hty5 & Hstc & _ & _ & _).
  simpl in Hty5, Hstc.
  destruct HR as (_ & HI5 & _ & _ & _ & _ & _).
  set (T5 := set_pertinentRoot None (exchangeNodes r c T4)) in *.
  destruct (addNewLeavesToTree_is_Some c (key :: rest) T5) as [[T6 b] HA].
  { by eexists. }
  rewrite HA. cbn [mbind option_bind].
  pose proof (keeps_addNewLeavesToTree _ _ _ _ _ HA) as Hk6.
  destruct (keeps_lookup T5 T6 a na5 Hk6 Hna5)
    as (na6 & Hna6 & _ & Hst6 & _ & Hinf6).
  destruct (keeps_lookup T5 T6 c nc Hk6 Hnc)
    as (nc6 & Hnc6 & Hty6 & Hstc6 & _).
  exists T6, a, c, na6, nc6, i. split; [done|].
  split; [done|]. split; [done|]. split; [done|].
  split.
  { apply (ochain_ext (nodes T5)); [|done]. intros x Hx.
    apply (addNewLeavesToTree_sibsOf _ _ _ _ _ _ HA).
    by eapply ochain_elem_lookup. }
  split; [done|]. split; [congruence|]. split; [congruence|].
  split; [done|].
  split. { destruct Hk6 as (_ & -> & _). simpl. by rewrite HI5. }
  split; [done|]. split; [congruence|]. split; [congruence|].
  by rewrite (addNewLeavesToTree_members _ _ _ _ _ HA).
Qed.

(** [ReplaceFullRoot] with an indicator, for every list of keys that is not
    empty. *)
Lemma ReplaceFullRoot_indicator_placed (fuel : nat) (T : EmbedPQTree)
    (r : addr) (rn : PQNode) (o : addr → bool) (l1 l2 : list addr)
    (leafKeys : list PQLeafKey) (frontier : keys_t) (w : node) :
  m_pertinentRoot T = Some r → nodes T !! r = Some rn →
  m_type rn = PQNodeType.Leaf →
  ochain (nodes T) o None (l1 ++ r :: l2) None → NoDup (l1 ++ r :: l2) →
  l1 ≠ [] ∨ l2 ≠ [] → 1 ≤ fuel → leafKeys ≠ [] →
  ∃ T' a c na nc i,
    ReplaceFullRoot fuel T leafKeys frontier w true (last l1)
    = Some (T', frontier ++ [LeafKey <$> m_pointerToKey rn])
    ∧ nodes T !! a = None ∧ nodes T !! c = None ∧ a ≠ c
    ∧ ochain (nodes T') (newDirections o r a c) None (l1 ++ c :: a :: l2)
        None
    ∧ nodes T' !! a = Some na
    ∧ m_status na = PQNodeStatus.Indicator
    ∧ m_sibLeft na = Some c ∧ m_sibRight na = head l2
    ∧ m_pointerToInfo na = Some (mkNodeKey (Some i))
    ∧ infos T !! i = None
    ∧ infos T' = <[i := newIndInfo w]> (infos T)
    ∧ nodes T' !! c = Some nc
    ∧ m_status nc = PQNodeStatus.Empty
    ∧ m_type nc = (if decide (head leafKeys = last leafKeys)
                   then PQNodeType.Leaf else PQNodeType.PNode)
    ∧ m_pertinentRoot T' = None.
Proof.
  intros Hpr Hrn Hty Hc Hnd Hne Hfuel Hkeys.
  assert (∀ T' a c na,
            ochain (nodes T') (newDirections o r a c) None
              (l1 ++ c :: a :: l2) None →
            nodes T' !! a = Some na →
            m_sibLeft na = Some c ∧ m_sibRight na = head l2) as Hsibs.
  { intros T' a c na Hch Hna.
    assert (l1 ++ c :: a :: l2 = (l1 ++ [c]) ++ a :: l2) as Heq
      by (by rewrite <- app_assoc).
    rewrite Heq in Hch.
    destruct (ochain_lookup _ _ _ _ _ _ _ Hch) as (n & Hn & Hs).
    rewrite Hna in Hn. injection Hn as <-.
    rewrite last_snoc in Hs. unfold newDirections in Hs.
    rewrite decide_True in Hs by done.
    rewrite (or_else_None (head l2)) in Hs. exact Hs. }
  destruct (decide (head leafKeys = last leafKeys)) as [Heq|Hneq].
  - destruct leafKeys as [|key rest]; [done|].
    assert (ReplaceFullRoot fuel T (key :: rest) frontier w true (last l1)
            = ReplaceFullRoot fuel T [key] frontier w true (last l1)) as ->.
    { destruct rest as [|k rest _] using rev_ind; [done|].
      simpl in Heq. rewrite last_cons, last_snoc in Heq.
      injection Heq as <-. apply ReplaceFullRoot_first_last. }
    destruct (ReplaceFullRoot_indicator_one_key fuel T r rn o l1 l2 key
                frontier w)
      as (T' & a & c & na & nc & i & HR & Ha & Hc0 & Hac & Hch & Hna & Hst
          & Hinf & Hi & HI & Hnc & Hstc & Htyc & _ & Hpr'); try done.
    destruct (Hsibs T' a c na Hch Hna) as [HL HR'].
    exists T', a, c, na, nc, i. repeat (split; [done|]). done.
  - destruct (ReplaceFullRoot_indicator_keys fuel T r rn o l1 l2 leafKeys
                frontier w)
      as (T' & a & c & na & nc & i & HR & Ha & Hc0 & Hac & Hch & Hna & Hst
          & Hinf & Hi & HI & Hnc & Hstc & Htyc & Hpr'); try done.
    destruct (Hsibs T' a c na Hch Hna) as [HL HR'].
    exists T', a, c, na, nc, i. repeat (split; [done|]). done.
Qed.

(** X9. [ReplaceFullRoot], called with [addIndicator] on a leaf [r] that has
    a sibling, with [opposite] the sibling of [r] on the side the scan came
    from, and with at least one key: the call returns; a new node [c] has
    the place of [r] among its siblings, an Empty leaf if the first key is
    the last one and an Empty P-node otherwise; a new indicator [a] follows
    [c] on the side away from [opposite], with its left pointer on [c] and
    its right pointer on the next sibling (null at the end); its [IndInfo]
    is new, holds [w] and has no [changeDir] flag; no other sibling pointer
    of the ring changes its direction, no other [IndInfo] changes, and the
    pertinent root is null afterwards. *)
Theorem ReplaceFullRoot_places_indicator (fuel : nat) (T : EmbedPQTree)
    (r : addr) (rn : PQNode) (o : addr → bool) (l1 l2 : list addr)
    (leafKeys : list PQLeafKey) (frontier : keys_t) (w : node) :
  m_pertinentRoot T = Some r → nodes T !! r = Some rn →
  m_type rn = PQNodeType.Leaf →
  ochain (nodes T) o None (l1 ++ r :: l2) None → NoDup (l1 ++ r :: l2) →
  l1 ≠ [] ∨ l2 ≠ [] → 1 ≤ fuel → leafKeys ≠ [] →
  ∃ T' a c na nc i,
    ReplaceFullRoot fuel T leafKeys frontier w true (last l1)
    = Some (T', frontier ++ [LeafKey <$> m_pointerToKey rn])
    ∧ nodes T !! a = None ∧ nodes T !! c = None ∧ a ≠ c
    ∧ ochain (nodes T') (newDirections o r a c) None (l1 ++ c :: a :: l2)
        None
    ∧ nodes T' !! a = Some na
    ∧ m_status na = PQNodeStatus.Indicator
    ∧ m_sibLeft na = Some c ∧ m_sibRight na = head l2
    ∧ m_pointerToInfo na = Some (mkNodeKey (Some i))
    ∧ infos T !! i = None
    ∧ infos T' = <[i := newIndInfo w]> (infos T)
    ∧ nodes T' !! c = Some nc
    ∧ m_status nc = PQNodeStatus.Empty
    ∧ m_type nc = (if decide (head leafKeys = last leafKeys)
                   then PQNodeType.Leaf else PQNodeType.PNode)
    ∧ m_pertinentRoot T' = None.
Proof. apply ReplaceFullRoot_indicator_placed. Qed.

Lemma ReplaceFullRoot_places_indicator_witness :
  ∃ T' a c na nc i,
    ReplaceFullRoot 1 (set_pertinentRoot (Some 5) examplePartial) key78 [] 9
      true (Some 4)
    = Some (T', [Some (LeafKey (mkLeafKey 5 (Some 105)))])
    ∧ nodes examplePartial !! a = None ∧ nodes examplePartial !! c = None
    ∧ a ≠ c
    ∧ ochain (nodes T') (newDirections (λ x, negb (x =? 3)) 5 a c) None
        [1; 2; 3; 4; c; a; 6] None
    ∧ nodes T' !! a = Some na
    ∧ m_status na = PQNodeStatus.Indicator
    ∧ m_sibLeft na = Some c ∧ m_sibRight na = Some 6
    ∧ m_pointerToInfo na = Some (mkNodeKey (Some i))
    ∧ infos examplePartial !! i = None
    ∧ infos T' = <[i := newIndInfo 9]> (infos examplePartial)
    ∧ nodes T' !! c = Some nc
    ∧ m_status nc = PQNodeStatus.Empty
    ∧ m_type nc = PQNodeType.PNode
    ∧ m_pertinentRoot T' = None.
Proof.
  apply (ReplaceFullRoot_places_indicator 1
           (set_pertinentRoot (Some 5) examplePartial) 5
           (mkNode PQNodeType.Leaf PQNodeStatus.Full None (Some 4) (Some 6)
              None None None None 0%Z (Some (mkLeafKey 5 (Some 105))) None
              [] 5)
           (λ x, negb (x =? 3)) [1; 2; 3; 4] [6] key78 [] 9).
  - done.
  - done.
  - done.
  - apply examplePartial_ochain.
  - apply NoDup_ListNoDup. repeat constructor; simpl; intuition lia.
  - by left.
  - lia.
  - done.
Defined.

(** * The ring after [ReplacePartialRoot] *)

Lemma NoDup_without_run (pre : list addr) x1 mid xk post :
  NoDup (pre ++ x1 :: mid ++ xk :: post) → NoDup (pre ++ xk :: post).
Proof.
  intros Hnd. apply NoDup_app in Hnd as (Hn1 & Hd & Hnd).
  apply NoDup_cons in Hnd as [_ Hnd].
  apply NoDup_app in Hnd as (_ & _ & Hnd).
  apply NoDup_app. split; [done|]. split; [|done].
  intros x Hx Hin. apply (Hd x Hx). right. rewrite elem_of_app. auto.
Qed.

(** X10. [ReplacePartialRoot] with at least one key, on a partial Q-node
    whose full children are leaves and which has another child: the whole
    run from [x1] to [xk], with the indicators between, leaves the ring of
    children; in its place stand one new node [c], an Empty leaf if the first
    key is the last one and an Empty P-node otherwise, and behind it, on the
    side of [xk], one new indicator [a] with its left pointer on [c]; the
    [IndInfo] of [a] is new, holds [w] and has no [changeDir] flag; the
    children before and after the run stay in the ring in their order, with
    their pointers in the same direction; and the pertinent root is null
    afterwards. *)
Theorem ReplacePartialRoot_replaces_run (fuel : nat) (T : EmbedPQTree)
    (r : addr) (rn : PQNode) (o : addr → bool) (pre : list addr) (x1 : addr)
    (mid : list addr) (xk : addr) (post F1 F2 F3 : list addr)
    (leafKeys : list PQLeafKey) (frontier : keys_t) (w : node) :
  m_pertinentRoot T = Some r →
  nodes T !! r = Some rn →
  r ∉ pre ++ x1 :: mid ++ xk :: post →
  ochain (nodes T) o None (pre ++ x1 :: mid ++ xk :: post) None →
  NoDup (pre ++ x1 :: mid ++ xk :: post) →
  full_leaf (nodes T) x1 → full_leaf (nodes T) xk →
  (∀ a, a ∈ mid →
     full_leaf (nodes T) a
     ∨ (is_indicator (nodes T) a = true
        ∧ has_info (nodes T) (infos T) a)) →
  emptyOrNull (nodes T) (firstNonIndicator (nodes T) (reverse pre)) →
  emptyOrNull (nodes T) (firstNonIndicator (nodes T) post) →
  fullChildren rn = F1 ++ x1 :: F2 ++ xk :: F3 →
  (∀ c, c ∈ F1 ++ F2 ++ F3 → c ∈ mid) →
  length (pre ++ x1 :: mid ++ xk :: post) ≤ fuel →
  pre ≠ [] ∨ post ≠ [] → leafKeys ≠ [] →
  ∃ T' a c na nc i,
    ReplacePartialRoot fuel T leafKeys frontier w
    = Some (T', frontier ++ (entryOf (nodes T) <$> x1 :: mid ++ [xk]))
    ∧ nodes T !! a = None ∧ nodes T !! c = None ∧ a ≠ c
    ∧ ochain (nodes T') (newDirections o xk a c) None
        (pre ++ c :: a :: post) None
    ∧ nodes T' !! a = Some na
    ∧ m_status na = PQNodeStatus.Indicator
    ∧ m_sibLeft na = Some c ∧ m_sibRight na = head post
    ∧ m_pointerToInfo na = Some (mkNodeKey (Some i))
    ∧ infos T !! i = None
    ∧ infos T'
      = <[i := newIndInfo w]>
          (flagAll (reversedInfos (nodes T) o mid) (infos T))
    ∧ nodes T' !! c = Some nc
    ∧ m_status nc = PQNodeStatus.Empty
    ∧ m_type nc = (if decide (head leafKeys = last leafKeys)
                   then PQNodeType.Leaf else PQNodeType.PNode)
    ∧ m_pertinentRoot T' = None.
Proof.
  intros Hpr Hrn Hr Hc Hnd Hx1 Hxk Hmid Hpre Hpost HF Hint Hfuel Hne Hkeys.
  destruct (ReplacePartialRoot_reduces fuel T r rn o pre x1 mid xk post
              F1 F2 F3 leafKeys frontier w)
    as (T4 & n4 & HR & Hpr4 & Hn4 & Hty4 & Hkey4 & Hc4 & HI4 & HP4 & Hdom);
    try done.
  destruct (ReplaceFullRoot_indicator_placed fuel T4 xk n4 o pre post
              leafKeys [] w)
    as (T' & a & c & na & nc & i & HR5 & Ha & Hc0 & Hac & Hch & Hna & Hst
        & HL & HR' & Hinf & Hi & HI & Hnc & Hstc & Htyc & Hpr');
    try done.
  { by eapply NoDup_without_run. }
  { rewrite length_app in Hfuel. simpl in Hfuel. lia. }
  rewrite HR5 in HR.
  assert (∀ x, nodes T4 !! x = None → nodes T !! x = None) as Hnone.
  { intros x Hx. destruct (nodes T !! x) eqn:E; [|done].
    destruct (proj2 (Hdom x)) as [m Hm]; [by eexists|]. congruence. }
  exists T', a, c, na, nc, i. split.
  { rewrite HR. f_equal. f_equal. rewrite <- app_assoc. f_equal.
    change (x1 :: mid ++ [xk]) with ((x1 :: mid) ++ [xk]).
    rewrite fmap_app. f_equal. simpl. by rewrite Hkey4. }
  split; [by apply Hnone|]. split; [by apply Hnone|].
  repeat (split; [done|]).
  split.
  { rewrite HI4 in Hi. destruct (infos T !! i) eqn:E; [|done].
    assert (is_Some (flagAll (reversedInfos (nodes T) o mid) (infos T) !! i))
      as [m Hm] by (apply flagAll_is_Some; by eexists).
    congruence. }
  split; [by rewrite HI, HI4|]. done.
Qed.

Lemma ReplacePartialRoot_replaces_run_witness :
  ∃ T' a c na nc i,
    ReplacePartialRoot 6 examplePartial key78 [] 9
    = Some (T', [Some (LeafKey (mkLeafKey 2 (Some 102)));
                 Some (NodeKey (mkNodeKey (Some 0)));
                 Some (LeafKey (mkLeafKey 4 (Some 104)));
                 Some (LeafKey (mkLeafKey 5 (Some 105)))])
    ∧ nodes examplePartial !! a = None ∧ nodes examplePartial !! c = None
    ∧ a ≠ c
    ∧ ochain (nodes T') (newDirections (λ x, negb (x =? 3)) 5 a c) None
        [1; c; a; 6] None
    ∧ nodes T' !! a = Some na
    ∧ m_status na = PQNodeStatus.Indicator
    ∧ m_sibLeft na = Some c ∧ m_sibRight na = Some 6
    ∧ m_pointerToInfo na = Some (mkNodeKey (Some i))
    ∧ infos examplePartial !! i = None
    ∧ infos T' !! i = Some (newIndInfo 9)
    ∧ infos T' !! 0 = Some (mkIndInfo 7 true)
    ∧ nodes T' !! c = Some nc
    ∧ m_status nc = PQNodeStatus.Empty
    ∧ m_type nc = PQNodeType.PNode
    ∧ m_pertinentRoot T' = None.
Proof.
  destruct (ReplacePartialRoot_replaces_run 6 examplePartial 0
              (mkNode PQNodeType.QNode PQNodeStatus.Partial None None None
                 (Some 1) (Some 6) None None 5%Z None None [4; 2; 5] 0)
              (λ a, negb (a =? 3)) [1] 2 [3; 4] 5 [6] [4] [] [] key78 [] 9)
    as (T' & a & c & na & nc & i & HR & Ha & Hc0 & Hac & Hch & Hna & Hst
        & HL & HR' & Hinf & Hi & HI & Hnc & Hstc & Htyc & Hpr').
  - done.
  - done.
  - intros Hin. repeat (apply elem_of_cons in Hin as [Hin|Hin]; [done|]).
    by apply elem_of_nil in Hin.
  - apply examplePartial_ochain.
  - apply NoDup_ListNoDup. repeat constructor; simpl; intuition lia.
  - eexists. by vm_compute.
  - eexists. by vm_compute.
  - intros x Hx. repeat (apply elem_of_cons in Hx as [->|Hx]).
    + right. split; [done|]. exists 0. split; [done|]. by eexists.
    + left. eexists. by vm_compute.
    + by apply elem_of_nil in Hx.
  - eexists. by vm_compute.
  - eexists. by vm_compute.
  - done.
  - intros x Hx. simpl in Hx. apply list_elem_of_singleton in Hx as ->.
    right. by left.
  - simpl. lia.
  - by left.
  - done.
  - assert (i ≠ 0) as Hi0 by (intros ->; done).
    exists T', a, c, na, nc, i. split; [rewrite HR; vm_compute; reflexivity|].
    split; [done|]. split; [done|]. split; [done|]. split; [exact Hch|].
    split; [done|]. split; [done|]. split; [done|]. split; [exact HR'|].
    split; [done|]. split; [done|].
    split; [by rewrite HI, lookup_insert_eq|].
    split; [by rewrite HI, lookup_insert_ne|].
    split; [done|]. split; [done|]. split; [exact Htyc|]. done.
Defined.
